(** * Backr: settlement agent, credit ledger and vouch bookkeeping

    A shallow embedding of the Backr backend
    ([backend/services.ts], the per-user [BankClient] and the Express
    handlers [/connect], [/borrow], [/repay]) together with the properties
    of its natural-language specification.

    Conventions of the embedding.
    - A JavaScript [number] that holds an amount, a score, a counter or a
      time stamp is an integer here ([Z]): amounts are whole numbers.
      Sums, differences, [Math.min], [Math.max] and comparisons of
      integers below 2^53 are exact in binary64, so they are the
      operations of [Z].  Where the code leaves the integers it is
      evaluated in binary64 with the primitive floats of the kernel:
      [garnishPercent / 100], and the credit check on amounts with a
      fractional part ([insufficient_credit64]).
    - The relational store is a record of tables; a table is the list of its
      rows in creation order.  Queries are filters, [update(...).eq('id', i)]
      a map over the rows.  [order(...)] sorts by the column it names;
      which of two rows with the same value comes first is up to the
      store, and is a field of the store ([vouch_ties], [debt_ties]).
    - A column takes the values of its type: [DECIMAL(18,6)] refuses a
      vouch limit of 10^12 or more, [INTEGER] refuses a repayment period
      that is not a whole number of days.
    - [await] points that can interleave with other events (the 30 s
      timer, the back-off sleep, socket events) are explicit events of a
      step function.  A request or a run of the garnishing callback is
      otherwise taken from its first statement to its last; two runs of
      the callback that overlap are [Server.garnish_overlapping].
    - Wall-clock time is an argument [now] (milliseconds). *)

From Stdlib Require Import ZArith List String Ascii Bool Lia Arith.
From Stdlib Require Import PrimFloat FloatOps SpecFloat Uint63.
From Stdlib Require Import QArith Qround.
From Stdlib Require Import Sorted Permutation.
Import ListNotations.
Open Scope Z_scope.


(* ================================================================== *)
(** * Part I. The program                                               *)
(* ================================================================== *)

(** ** JavaScript primitives used by the code *)

Module JS.

(** [String.prototype.toLowerCase] on ASCII text (wallet addresses are
    hexadecimal). *)
Definition lower_ascii (c : ascii) : ascii :=
  let n := nat_of_ascii c in
  if ((65 <=? n)%nat && (n <=? 90)%nat)%bool then ascii_of_nat (n + 32) else c.

Fixpoint toLowerCase (s : string) : string :=
  match s with
  | EmptyString => EmptyString
  | String c r => String (lower_ascii c) (toLowerCase r)
  end.

(** [Number(x)] of an integer: the nearest binary64 value (ties to even,
    overflow to an infinity). *)
Definition Number (z : Z) : float :=
  SF2Prim (binary_normalize prec emax z 0 false).

(** The value of [Math.floor(x)]. *)
Inductive Floored :=
| Finite (z : Z)
| PosInfinity
| NegInfinity
| NaN.

Definition floor (f : float) : Floored :=
  match Prim2SF f with
  | S754_zero _ => Finite 0
  | S754_finite s m e =>
      let scale := 2 ^ (- e) in
      Finite (if 0 <=? e then (if s then - (Z.pos m * 2 ^ e) else Z.pos m * 2 ^ e)
              else if s then - ((Z.pos m + scale - 1) / scale)
              else Z.pos m / scale)
  | S754_infinity false => PosInfinity
  | S754_infinity true => NegInfinity
  | S754_nan => NaN
  end.

(** [Math.floor(a * (p / 100))] for integers [a] and [p].  The code
    divides first, so the product is taken with the rounded quotient. *)
Definition floor_mul_percent (a p : Z) : Floored :=
  floor (PrimFloat.mul (Number a) (PrimFloat.div (Number p) (Number 100))).

(** [Math.min(x, owed)] for an integer [owed]; [None] when the result is
    [NaN] or [-Infinity], which no comparison [> 0] accepts. *)
Definition min_with (x : Floored) (owed : Z) : option Z :=
  match x with
  | Finite z => Some (Z.min z owed)
  | PosInfinity => Some owed
  | NegInfinity => None
  | NaN => None
  end.

End JS.

(** ** Data model ([backend/types.ts], the SQL schema) *)

Inductive DebtStatus := active | paid | overdue | defaulted.
Inductive PaymentType := garnish | manual | full.

(** The template strings written to [credit_history.reason]. *)
Inductive Reason :=
| PaidOnTime (debt_id : nat)      (* `Paid off debt #${id} on time` *)
| LatePayment (debt_id : nat)     (* `Late payment on debt #${id}` *)
| DefaultedOn (debt_id : nat)     (* `Defaulted on debt #${id}` *)
| OtherReason (text : string).

Record User := mkUser {
  wallet_address : string;
  ens_name : option string;
  credit_score : Z;
  ens_stripped : bool;
  garnish_percentage : option Z;   (* nullable column, read with [?? 50] *)
  auto_repay_enabled : bool
}.

Record Vouch := mkVouch {
  vouch_id_of : nat;
  voucher_address : string;
  borrower_address : string;
  limit_amount : Z;
  current_usage : Z;
  is_active : bool
}.

Record Debt := mkDebt {
  debt_id_of : nat;
  debt_borrower : string;
  lender_address : string;
  vouch_id : option nat;
  original_amount : Z;
  amount_owed : Z;
  due_date : Z;
  repayment_days : Z;
  status : DebtStatus;
  paid_at : option Z
}.

Record Payment := mkPayment {
  payment_debt_id : nat;
  payment_amount : Z;
  payment_type : PaymentType
}.

Record CreditHistory := mkCreditHistory {
  history_wallet : string;
  old_score : Z;
  new_score : Z;
  reason : Reason
}.

(** Calls made to the on-chain status contracts ([ContractService]). *)
Inductive OracleCall :=
| MarkDefaultOnChain (address : string)
| ClearDefaultOnChain (address : string)
| UpdateCreditScoreOnChain (address : string) (score : Z).

Module CREDIT_SCORE.
Definition MIN := 300.
Definition MAX := 900.
Definition DEFAULT := 650.
Definition ENS_STRIP_THRESHOLD := 400.
Definition LATE_PAYMENT_PENALTY := 25.
Definition DEFAULT_PENALTY := 50.
Definition ON_TIME_BONUS := 10.
End CREDIT_SCORE.

(** ** The relational store *)

Record DB := mkDB {
  users : list User;
  vouches : list Vouch;
  debts : list Debt;
  payments : list Payment;
  credit_history : list CreditHistory;
  oracle : list OracleCall;
  vouch_seq : nat;                 (* last value of the SERIAL of [vouches] *)
  debt_seq : nat;                  (* last value of the SERIAL of [debts] *)
  (* [order(column)] names one column.  Rows that agree on it come back in
     an order of the store's choosing: [vouch_ties v w] ([debt_ties d e])
     tells whether the store returns the first row before the second.
     Nothing is assumed of these choices. *)
  vouch_ties : Vouch -> Vouch -> bool;
  debt_ties : Debt -> Debt -> bool
}.

(** The choice of a store that returns rows of equal sort key in the
    order of their creation. *)
Definition creation_order {A} (earlier later : A) : bool := true.

Definition empty_db : DB :=
  mkDB [] [] [] [] [] [] 0 0 creation_order creation_order.

Definition DebtStatus_eqb (a b : DebtStatus) : bool :=
  match a, b with
  | active, active | paid, paid | overdue, overdue | defaulted, defaulted => true
  | _, _ => false
  end.

Definition Reason_eqb (a b : Reason) : bool :=
  match a, b with
  | PaidOnTime i, PaidOnTime j => Nat.eqb i j
  | LatePayment i, LatePayment j => Nat.eqb i j
  | DefaultedOn i, DefaultedOn j => Nat.eqb i j
  | OtherReason s, OtherReason t => String.eqb s t
  | _, _ => false
  end.

Module Store.

(** [.single()]: the row when the query matches exactly one. *)
Definition single {A} (rows : list A) : option A :=
  match rows with
  | [r] => Some r
  | _ => None
  end.

Definition set_users (db : DB) (us : list User) : DB :=
  mkDB us (vouches db) (debts db) (payments db) (credit_history db)
       (oracle db) (vouch_seq db) (debt_seq db) (vouch_ties db) (debt_ties db).

Definition set_vouches (db : DB) (vs : list Vouch) : DB :=
  mkDB (users db) vs (debts db) (payments db) (credit_history db)
       (oracle db) (vouch_seq db) (debt_seq db) (vouch_ties db) (debt_ties db).

Definition set_debts (db : DB) (ds : list Debt) : DB :=
  mkDB (users db) (vouches db) ds (payments db) (credit_history db)
       (oracle db) (vouch_seq db) (debt_seq db) (vouch_ties db) (debt_ties db).

Definition insert_payment (db : DB) (p : Payment) : DB :=
  mkDB (users db) (vouches db) (debts db) (payments db ++ [p])
       (credit_history db) (oracle db) (vouch_seq db) (debt_seq db)
       (vouch_ties db) (debt_ties db).

Definition insert_history (db : DB) (h : CreditHistory) : DB :=
  mkDB (users db) (vouches db) (debts db) (payments db)
       (credit_history db ++ [h]) (oracle db) (vouch_seq db) (debt_seq db)
       (vouch_ties db) (debt_ties db).

Definition call_oracle (db : DB) (c : OracleCall) : DB :=
  mkDB (users db) (vouches db) (debts db) (payments db) (credit_history db)
       (oracle db ++ [c]) (vouch_seq db) (debt_seq db) (vouch_ties db) (debt_ties db).

(** [from('users').update(f).eq('wallet_address', a)] *)
Definition update_user (db : DB) (a : string) (f : User -> User) : DB :=
  set_users db
    (map (fun u => if String.eqb (wallet_address u) a then f u else u) (users db)).

(** [from('vouches').update(f).eq('id', i)] *)
Definition update_vouch (db : DB) (i : nat) (f : Vouch -> Vouch) : DB :=
  set_vouches db
    (map (fun v => if Nat.eqb (vouch_id_of v) i then f v else v) (vouches db)).

(** [from('debts').update(f).eq('id', i)] *)
Definition update_debt (db : DB) (i : nat) (f : Debt -> Debt) : DB :=
  set_debts db
    (map (fun d => if Nat.eqb (debt_id_of d) i then f d else d) (debts db)).

Definition user_by_address (db : DB) (a : string) : option User :=
  single (filter (fun u => String.eqb (wallet_address u) a) (users db)).

Definition vouch_by_id (db : DB) (i : nat) : option Vouch :=
  single (filter (fun v => Nat.eqb (vouch_id_of v) i) (vouches db)).

Definition debt_by_id (db : DB) (i : nat) : option Debt :=
  single (filter (fun d => Nat.eqb (debt_id_of d) i) (debts db)).

(** The value an [INTEGER] column takes from a JSON number: a whole
    number; any other number is refused ("invalid input syntax for type
    integer"). *)
Definition integer_column (q : Q) : option Z :=
  if Qeq_bool q (inject_Z (Qfloor q)) then Some (Qfloor q) else None.

(** Insert into [debts]; the SERIAL gives the id.  [repayment_days] is
    what the [INTEGER] column makes of the value sent; when it refuses
    the value, the insert fails before a row is built. *)
Definition insert_debt (db : DB) (repayment_days : option Z)
    (mk : nat -> Z -> Debt) : DB * option Debt :=
  match repayment_days with
  | Some days =>
      let i := S (debt_seq db) in
      let d := mk i days in
      (mkDB (users db) (vouches db) (debts db ++ [d]) (payments db)
            (credit_history db) (oracle db) (vouch_seq db) i
            (vouch_ties db) (debt_ties db), Some d)
  | None => (db, None)
  end.

(** [DECIMAL(18, 6)]: twelve digits before the point.  A value of 10^12
    or more, in magnitude, is refused ("numeric field overflow"). *)
Definition fits_decimal_18_6 (x : Z) : bool := Z.abs x <? 10 ^ 12.

Definition same_pair (a b : string) (v : Vouch) : bool :=
  (String.eqb (voucher_address v) a && String.eqb (borrower_address v) b)%bool.

(** Insert into [vouches].  [limit_amount] is a [DECIMAL(18, 6)]; the
    table has [CHECK (limit_amount > 0)] and
    [UNIQUE (voucher_address, borrower_address)].  A violating insert is
    rejected with an error; the value of the SERIAL it was given is used
    up. *)
Definition insert_vouch (db : DB) (mk : nat -> Vouch) : DB * option Vouch :=
  let i := S (vouch_seq db) in
  let v := mk i in
  if (fits_decimal_18_6 (limit_amount v)
      && (0 <? limit_amount v)
      && negb (existsb (same_pair (voucher_address v) (borrower_address v))
                 (vouches db)))%bool
  then (mkDB (users db) (vouches db ++ [v]) (debts db) (payments db)
             (credit_history db) (oracle db) i (debt_seq db)
             (vouch_ties db) (debt_ties db), Some v)
  else (mkDB (users db) (vouches db) (debts db) (payments db)
             (credit_history db) (oracle db) i (debt_seq db)
             (vouch_ties db) (debt_ties db), None).

End Store.

(** Deployment configuration read from the environment. *)
Record Config := mkConfig {
  VAULT_ADDRESS : option string;
  contracts_configured : bool        (* [ContractService.isConfigured()] *)
}.

(** ** Core business logic ([backend/services.ts]) *)

Module Services.
Import Store.

Definition set_ens_stripped (b : bool) (u : User) : User :=
  mkUser (wallet_address u) (ens_name u) (credit_score u) b
         (garnish_percentage u) (auto_repay_enabled u).

Definition set_credit_score (s : Z) (u : User) : User :=
  mkUser (wallet_address u) (ens_name u) s (ens_stripped u)
         (garnish_percentage u) (auto_repay_enabled u).

(** [stripENS] *)
Definition stripENS (cfg : Config) (walletAddress : string) (db : DB) : DB :=
  let address := JS.toLowerCase walletAddress in
  match user_by_address db address with
  | Some user =>
      if negb (ens_stripped user) then
        let db1 := update_user db address (set_ens_stripped true) in
        if contracts_configured cfg
        then call_oracle db1 (MarkDefaultOnChain address)
        else db1
      else db
  | None => db
  end.

(** [getOrCreateUser]; the ENS lookup is an external read whose answer
    is the argument [ensName]. *)
Definition getOrCreateUser (walletAddress : string) (ensName : option string)
    (db : DB) : DB * option User :=
  let address := JS.toLowerCase walletAddress in
  match user_by_address db address with
  | Some u => (db, Some u)
  | None =>
      if existsb (fun u => String.eqb (wallet_address u) address) (users db)
      then (db, None)                       (* primary-key violation *)
      else
        let u := mkUser address ensName CREDIT_SCORE.DEFAULT false (Some 50) true in
        (set_users db (users db ++ [u]), Some u)
  end.

(** [updateCreditScore]: returns the new score. *)
Definition updateCreditScore (cfg : Config) (walletAddress : string)
    (change : Z) (why : Reason) (db : DB) : DB * Z :=
  let address := JS.toLowerCase walletAddress in
  match user_by_address db address with
  | None => (db, CREDIT_SCORE.DEFAULT)
  | Some user =>
      let oldScore := credit_score user in
      let newScore :=
        Z.max CREDIT_SCORE.MIN (Z.min CREDIT_SCORE.MAX (oldScore + change)) in
      let db1 := update_user db address (set_credit_score newScore) in
      let db2 := insert_history db1 (mkCreditHistory address oldScore newScore why) in
      let db3 := if contracts_configured cfg
                 then call_oracle db2 (UpdateCreditScoreOnChain address newScore)
                 else db2 in
      let db4 := if newScore <? CREDIT_SCORE.ENS_STRIP_THRESHOLD
                 then stripENS cfg address db3
                 else db3 in
      (db4, newScore)
  end.

(** Result records of the services. *)
Inductive BorrowError :=
| NoVouchesAvailable                              (* "No vouches available" *)
| InsufficientCredit (available requested : Z)    (* "Insufficient credit. ..." *)
| FailedToCreateDebt.                             (* "Failed to create debt" *)

Record BorrowResult := mkBorrowResult {
  borrow_success : bool;
  borrow_debts : list Debt;
  borrow_error : option BorrowError
}.

Inductive RepayError :=
| DebtNotFound                                    (* "Debt not found" *)
| DebtAlreadyPaid.                                (* "Debt already paid" *)

Record RepayResult := mkRepayResult {
  repay_success : bool;
  repay_paid : Z;
  repay_remaining : Z;
  repay_fullyPaid : bool;
  repay_error : option RepayError
}.

Definition set_limit_active (l : Z) (v : Vouch) : Vouch :=
  mkVouch (vouch_id_of v) (voucher_address v) (borrower_address v) l
          (current_usage v) true.

Definition set_current_usage (u : Z) (v : Vouch) : Vouch :=
  mkVouch (vouch_id_of v) (voucher_address v) (borrower_address v)
          (limit_amount v) u (is_active v).

Definition set_is_active (b : bool) (v : Vouch) : Vouch :=
  mkVouch (vouch_id_of v) (voucher_address v) (borrower_address v)
          (limit_amount v) (current_usage v) b.

Definition set_amount_owed (a : Z) (d : Debt) : Debt :=
  mkDebt (debt_id_of d) (debt_borrower d) (lender_address d) (vouch_id d)
         (original_amount d) a (due_date d) (repayment_days d) (status d)
         (paid_at d).

Definition set_status (s : DebtStatus) (d : Debt) : Debt :=
  mkDebt (debt_id_of d) (debt_borrower d) (lender_address d) (vouch_id d)
         (original_amount d) (amount_owed d) (due_date d) (repayment_days d) s
         (paid_at d).

Definition set_paid (a : Z) (now : Z) (d : Debt) : Debt :=
  mkDebt (debt_id_of d) (debt_borrower d) (lender_address d) (vouch_id d)
         (original_amount d) a (due_date d) (repayment_days d) paid (Some now).

(** [createVouch]: a new vouch, or a raise of the existing one. *)
Definition createVouch (voucherAddress borrowerAddress : string)
    (limitAmount : Z) (db : DB) : DB * option Vouch :=
  let voucherAddr := JS.toLowerCase voucherAddress in
  let borrowerAddr := JS.toLowerCase borrowerAddress in
  if String.eqb voucherAddr borrowerAddr then (db, None)
  else
    let db1 := fst (getOrCreateUser voucherAddr None db) in
    let db2 := fst (getOrCreateUser borrowerAddr None db1) in
    match single (filter (same_pair voucherAddr borrowerAddr) (vouches db2)) with
    | Some existing =>
        let newLimit := limit_amount existing + limitAmount in
        (* the update is refused by the type of the column or by
           CHECK (limit_amount > 0) *)
        if (fits_decimal_18_6 newLimit && (0 <? newLimit))%bool
        then
          let db3 := update_vouch db2 (vouch_id_of existing)
                       (set_limit_active newLimit) in
          (db3, vouch_by_id db3 (vouch_id_of existing))
        else (db2, None)
    | None =>
        insert_vouch db2
          (fun i => mkVouch i voucherAddr borrowerAddr limitAmount 0 true)
    end.

(** [getVouchesForBorrower] *)
Definition getVouchesForBorrower (borrowerAddress : string) (activeOnly : bool)
    (db : DB) : list Vouch :=
  let address := JS.toLowerCase borrowerAddress in
  filter (fun v => (String.eqb (borrower_address v) address
                    && (negb activeOnly || is_active v))%bool) (vouches db).

(** The [reduce] that sums the remaining capacity of a list of vouches. *)
Definition sum_available (vs : list Vouch) : Z :=
  fold_left (fun sum v => sum + (limit_amount v - current_usage v)) vs 0.

(** [getAvailableCredit] *)
Definition getAvailableCredit (borrowerAddress : string) (db : DB) : Z :=
  sum_available (getVouchesForBorrower borrowerAddress true db).

Definition outstanding (s : DebtStatus) : bool :=
  match s with
  | active | overdue => true
  | _ => false
  end.

(** [deactivateVouch] *)
Definition deactivateVouch (vouchId : nat) (db : DB) : DB * bool :=
  let activeDebts :=
    filter (fun d => (match vouch_id d with Some i => Nat.eqb i vouchId | None => false end
                      && outstanding (status d))%bool) (debts db) in
  match activeDebts with
  | _ :: _ => (db, false)
  | [] => (update_vouch db vouchId (set_is_active false), true)
  end.

(** [.order('limit_amount', { ascending: false })]: the rows by limit,
    largest first.  The query names no second column: where two rows have
    the same limit, [ties] decides which of them the store returns first. *)
Fixpoint insert_by_limit (ties : Vouch -> Vouch -> bool) (v : Vouch)
    (l : list Vouch) : list Vouch :=
  match l with
  | [] => [v]
  | w :: r => if ((limit_amount v <? limit_amount w)
                  || ((limit_amount v =? limit_amount w) && negb (ties v w)))%bool
              then w :: insert_by_limit ties v r
              else v :: w :: r
  end.

Definition order_by_limit_desc (ties : Vouch -> Vouch -> bool) (l : list Vouch)
    : list Vouch :=
  fold_right (insert_by_limit ties) [] l.

(** The active vouches of a borrower, biggest first: the query of [borrow]. *)
Definition borrowable_vouches (borrowerAddr : string) (db : DB) : list Vouch :=
  order_by_limit_desc (vouch_ties db)
    (filter (fun v => (String.eqb (borrower_address v) borrowerAddr
                       && is_active v)%bool) (vouches db)).

(** [dueDate.setTime(dueDate.getTime() + repaymentDays * 24 * 60 * 60 * 1000)];
    the period may be a fraction of a day. *)
Definition due_after (now : Z) (repaymentDays : Q) : Z :=
  Qfloor (Qplus (inject_Z now) (Qmult repaymentDays (inject_Z 86400000))).

(** [Math.max(1, Math.ceil(repaymentDays))] *)
Definition repaymentDaysInt (repaymentDays : Q) : Z :=
  Z.max 1 (Qceiling repaymentDays).

(** The allocation loop of [borrow] and of [POST /borrow];
    [repayment_days] is what the store makes of the value the caller puts
    into the row.  When the insert fails the loop goes on with the next
    vouch, the amount meant for this one already taken off
    [remainingAmount]. *)
Fixpoint allocate (borrowerAddr : string) (dueDate : Z) (repayment_days : option Z)
    (vs : list Vouch) (remainingAmount : Z) (db : DB) (debtsCreated : list Debt)
    : DB * list Debt :=
  match vs with
  | [] => (db, debtsCreated)
  | vouch :: rest =>
      if remainingAmount <=? 0 then (db, debtsCreated)              (* break *)
      else
        let vouchAvailable := limit_amount vouch - current_usage vouch in
        if vouchAvailable <=? 0
        then allocate borrowerAddr dueDate repayment_days rest remainingAmount db
               debtsCreated                                         (* continue *)
        else
          let borrowFromVouch := Z.min remainingAmount vouchAvailable in
          let remainingAmount' := remainingAmount - borrowFromVouch in
          match insert_debt db repayment_days (fun i days =>
                  mkDebt i borrowerAddr (voucher_address vouch)
                         (Some (vouch_id_of vouch)) borrowFromVouch borrowFromVouch
                         dueDate days active None) with
          | (db1, Some debt) =>
              let db2 := update_vouch db1 (vouch_id_of vouch)
                           (set_current_usage (current_usage vouch + borrowFromVouch)) in
              allocate borrowerAddr dueDate repayment_days rest remainingAmount' db2
                (debtsCreated ++ [debt])
          | (db1, None) =>                             (* if (error) continue *)
              allocate borrowerAddr dueDate repayment_days rest remainingAmount' db1
                debtsCreated
          end
  end.

(** The body shared by [borrow] and by the handler of [POST /borrow]. *)
Definition borrow_with (borrowerAddr : string) (dueDate : Z)
    (repayment_days : option Z) (amount : Z) (db : DB) : DB * BorrowResult :=
  let vs := borrowable_vouches borrowerAddr db in
  match vs with
  | [] => (db, mkBorrowResult false [] (Some NoVouchesAvailable))
  | _ :: _ =>
      let availableCredit := sum_available vs in
      if availableCredit <? amount
      then (db, mkBorrowResult false []
                  (Some (InsufficientCredit availableCredit amount)))
      else
        let (db1, debtsCreated) :=
          allocate borrowerAddr dueDate repayment_days vs amount db [] in
        match debtsCreated with
        | [] => (db1, mkBorrowResult false [] (Some FailedToCreateDebt))
        | _ :: _ => (db1, mkBorrowResult true debtsCreated None)
        end
  end.

(** [borrow]: the row gets [repaymentDaysInt], a whole number. *)
Definition borrow (now : Z) (borrowerAddress : string) (amount : Z)
    (repaymentDays : Q) (db : DB) : DB * BorrowResult :=
  borrow_with (JS.toLowerCase borrowerAddress) (due_after now repaymentDays)
    (Some (repaymentDaysInt repaymentDays)) amount db.

(** [if (debt.vouch_id)]: null and 0 are falsy. *)
Definition truthy_id (i : option nat) : option nat :=
  match i with
  | Some (S n) => Some (S n)
  | _ => None
  end.

(** The release of the vouch behind a debt that has just been paid off. *)
Definition release_vouch (debt : Debt) (db : DB) : DB :=
  match truthy_id (vouch_id debt) with
  | Some vid =>
      match vouch_by_id db vid with
      | Some vouch =>
          update_vouch db vid
            (set_current_usage (Z.max 0 (current_usage vouch - original_amount debt)))
      | None => db
      end
  | None => db
  end.

(** [repayDebt] *)
Definition repayDebt (cfg : Config) (now : Z) (borrowerAddress : string)
    (debtId : nat) (amount : Z) (db : DB) : DB * RepayResult :=
  let borrowerAddr := JS.toLowerCase borrowerAddress in
  match single (filter (fun d => (Nat.eqb (debt_id_of d) debtId
                                  && String.eqb (debt_borrower d) borrowerAddr)%bool)
                  (debts db)) with
  | None => (db, mkRepayResult false 0 0 false (Some DebtNotFound))
  | Some debt =>
      if DebtStatus_eqb (status debt) paid
      then (db, mkRepayResult false 0 0 true (Some DebtAlreadyPaid))
      else
        let paymentAmount := Z.min amount (amount_owed debt) in
        let newAmountOwed := amount_owed debt - paymentAmount in
        let db1 := insert_payment db
                     (mkPayment debtId paymentAmount
                        (if newAmountOwed =? 0 then full else manual)) in
        if newAmountOwed =? 0 then
          let db2 := release_vouch debt db1 in
          let isOnTime := now <=? due_date debt in
          let db3 := if isOnTime
                     then fst (updateCreditScore cfg borrowerAddr
                                 CREDIT_SCORE.ON_TIME_BONUS (PaidOnTime debtId) db2)
                     else db2 in
          let db4 := update_debt db3 debtId (set_paid newAmountOwed now) in
          (db4, mkRepayResult true paymentAmount newAmountOwed true None)
        else
          let db2 := update_debt db1 debtId (set_amount_owed newAmountOwed) in
          (db2, mkRepayResult true paymentAmount newAmountOwed false None)
  end.

(** The loop of [checkOverdueDebts] over the selected rows. *)
Fixpoint sweep (cfg : Config) (overdueDebts : list Debt) (db : DB)
    (overdueCount : Z) : DB * Z :=
  match overdueDebts with
  | [] => (db, overdueCount)
  | debt :: rest =>
      let db1 := update_debt db (debt_id_of debt) (set_status overdue) in
      let db2 := fst (updateCreditScore cfg (debt_borrower debt)
                        (- CREDIT_SCORE.LATE_PAYMENT_PENALTY)
                        (LatePayment (debt_id_of debt)) db1) in
      sweep cfg rest db2 (overdueCount + 1)
  end.

(** [checkOverdueDebts] *)
Definition checkOverdueDebts (cfg : Config) (now : Z) (db : DB) : DB * Z :=
  let overdueDebts :=
    filter (fun d => (DebtStatus_eqb (status d) active && (due_date d <? now))%bool)
      (debts db) in
  sweep cfg overdueDebts db 0.

(** [markDebtDefaulted] *)
Definition markDebtDefaulted (cfg : Config) (debtId : nat) (db : DB) : DB * bool :=
  match debt_by_id db debtId with
  | None => (db, false)
  | Some debt =>
      if (DebtStatus_eqb (status debt) defaulted
          || DebtStatus_eqb (status debt) paid)%bool
      then (db, false)
      else
        let db1 := update_debt db debtId (set_status defaulted) in
        let db2 := fst (updateCreditScore cfg (debt_borrower debt)
                          (- CREDIT_SCORE.DEFAULT_PENALTY) (DefaultedOn debtId) db1) in
        (db2, true)
  end.

End Services.

(** ** The per-user session client ([BankClient]) *)

Module Bank.

Inductive ReadyState := CONNECTING | OPEN | CLOSING | CLOSED.

Inductive Err :=
| ConnectionTimeout          (* new Error('Connection timeout') *)
| SocketFailure              (* the error carried by the 'error' event *)
| WebSocketNotConnected      (* new Error("WebSocket not connected") *)
| ClientNotAuthenticated     (* new Error("Client not authenticated") *)
| NullSocket                 (* TypeError of [this.ws!.send] on null *)
| SocketNotOpen              (* [send] on a socket that is still connecting *)
| SyntaxError                (* JSON.parse *)
| CannotConvertToBigInt.     (* SyntaxError or RangeError of [BigInt(...)] *)

Inductive PromiseState := Pending | Fulfilled | Rejected (e : Err).

(** Envelopes sent to the settlement network. *)
Inductive Outbound :=
| AuthRequest
| AuthVerify (challenge : string)
| LedgerBalancesQuery
| TransferRequest (recipient : string) (amount : Z).

(** The JSON value of [amount] in an allocation, by what
    [BigInt(incomingAlloc?.amount || 0)] makes of it.  A falsy value
    (absent, null, 0, the empty string) is replaced by 0; an integer, or a
    string that spells one, converts to that integer; on any other value (a
    number with decimals, a string such as "40.5") [BigInt] throws. *)
Inductive AllocAmount :=
| AmountAbsent
| AmountInteger (z : Z)
| AmountNotInteger.

(** Envelopes received.  [Res type payload] is [{ res: [id, type, payload, ts] }]. *)
Record Allocation := mkAllocation {
  destination : option string;
  alloc_amount : AllocAmount;
  alloc_asset : option string
}.

Record Payload := mkPayload {
  challenge_message : string;
  allocations : list Allocation;   (* payload.allocations || payload.state?.allocations || [] *)
  channel_id : option string;      (* payload.channel_id || payload.id *)
  payload_sender : option string;  (* payload.sender || payload.source *)
  status_success : bool            (* payload.status === 'success' *)
}.

Inductive Inbound :=
| Unparsable                       (* JSON.parse throws *)
| ErrorEnvelope                    (* { error } *)
| NoRes                            (* no [res] field *)
| Res (type : string) (payload : Payload).

Record TransferData := mkTransferData {
  transfer_id : option string;     (* None: the generated `tx_${Date.now()}` *)
  transfer_amount : Z;
  transfer_asset : string;
  transfer_sender : option string
}.

(** What one call of [init] creates: a WebSocket, the promise it returns
    and the 30 s timer. *)
Record InitCall := mkInitCall {
  started : Z;
  socket : ReadyState;
  promise : PromiseState;
  timeout : option Z;              (* deadline while the timer is armed *)
  awaited : bool                   (* [attemptReconnect] awaits the promise *)
}.

Inductive LogLine :=
| LogMaxReconnect                            (* "Max reconnect attempts reached" *)
| LogReconnecting (delay attempt : Z)        (* "Reconnecting in ..ms (attempt ..)" *)
| LogReconnected                             (* "Reconnected successfully" *)
| LogReconnectFailed (e : Err)
| LogMessageError (e : Err)
| LogRpcError
| LogLedgerBalances
| LogTransferConfirmed.

Record Client := mkClient {
  account_address : string;
  ws : option nat;                 (* [this.ws]: the socket of that init call *)
  isAuthenticated : bool;
  transferCallback : bool;         (* a callback is registered *)
  reconnectAttempts : Z;
  maxReconnectAttempts : Z;
  reconnectDelay : Z;
  (* objects of the run time *)
  calls : list InitCall;
  sleeping : list (option Z);      (* wake-up time of each pending back-off sleep *)
  clock : Z;
  sent : list (nat * Outbound);
  delivered : list TransferData;   (* transfers handed to the callback *)
  console : list LogLine
}.

(** [new BankClient(sessionPrivateKey)] at time [now]. *)
Definition new (address : string) (now : Z) : Client :=
  mkClient address None false false 0 5 3000 [] [] now [] [] [].

Definition with_calls (c : Client) (cs : list InitCall) : Client :=
  mkClient (account_address c) (ws c) (isAuthenticated c) (transferCallback c)
    (reconnectAttempts c) (maxReconnectAttempts c) (reconnectDelay c) cs
    (sleeping c) (clock c) (sent c) (delivered c) (console c).

Definition with_ws (c : Client) (w : option nat) : Client :=
  mkClient (account_address c) w (isAuthenticated c) (transferCallback c)
    (reconnectAttempts c) (maxReconnectAttempts c) (reconnectDelay c) (calls c)
    (sleeping c) (clock c) (sent c) (delivered c) (console c).

Definition with_isAuthenticated (c : Client) (b : bool) : Client :=
  mkClient (account_address c) (ws c) b (transferCallback c)
    (reconnectAttempts c) (maxReconnectAttempts c) (reconnectDelay c) (calls c)
    (sleeping c) (clock c) (sent c) (delivered c) (console c).

Definition with_reconnectAttempts (c : Client) (n : Z) : Client :=
  mkClient (account_address c) (ws c) (isAuthenticated c) (transferCallback c)
    n (maxReconnectAttempts c) (reconnectDelay c) (calls c)
    (sleeping c) (clock c) (sent c) (delivered c) (console c).

Definition with_maxReconnectAttempts (c : Client) (n : Z) : Client :=
  mkClient (account_address c) (ws c) (isAuthenticated c) (transferCallback c)
    (reconnectAttempts c) n (reconnectDelay c) (calls c)
    (sleeping c) (clock c) (sent c) (delivered c) (console c).

Definition with_sleeping (c : Client) (l : list (option Z)) : Client :=
  mkClient (account_address c) (ws c) (isAuthenticated c) (transferCallback c)
    (reconnectAttempts c) (maxReconnectAttempts c) (reconnectDelay c) (calls c)
    l (clock c) (sent c) (delivered c) (console c).

Definition with_clock (c : Client) (t : Z) : Client :=
  mkClient (account_address c) (ws c) (isAuthenticated c) (transferCallback c)
    (reconnectAttempts c) (maxReconnectAttempts c) (reconnectDelay c) (calls c)
    (sleeping c) t (sent c) (delivered c) (console c).

Definition with_sent (c : Client) (l : list (nat * Outbound)) : Client :=
  mkClient (account_address c) (ws c) (isAuthenticated c) (transferCallback c)
    (reconnectAttempts c) (maxReconnectAttempts c) (reconnectDelay c) (calls c)
    (sleeping c) (clock c) l (delivered c) (console c).

Definition with_delivered (c : Client) (l : list TransferData) : Client :=
  mkClient (account_address c) (ws c) (isAuthenticated c) (transferCallback c)
    (reconnectAttempts c) (maxReconnectAttempts c) (reconnectDelay c) (calls c)
    (sleeping c) (clock c) (sent c) l (console c).

Definition with_transferCallback (c : Client) (b : bool) : Client :=
  mkClient (account_address c) (ws c) (isAuthenticated c) b
    (reconnectAttempts c) (maxReconnectAttempts c) (reconnectDelay c) (calls c)
    (sleeping c) (clock c) (sent c) (delivered c) (console c).

Definition log (c : Client) (l : LogLine) : Client :=
  mkClient (account_address c) (ws c) (isAuthenticated c) (transferCallback c)
    (reconnectAttempts c) (maxReconnectAttempts c) (reconnectDelay c) (calls c)
    (sleeping c) (clock c) (sent c) (delivered c) (console c ++ [l]).

(** Update of the [k]-th element of a list; out of range nothing changes. *)
Fixpoint update_nth {A} (k : nat) (f : A -> A) (l : list A) : list A :=
  match l, k with
  | [], _ => []
  | x :: r, O => f x :: r
  | x :: r, S k' => x :: update_nth k' f r
  end.

Definition call (c : Client) (k : nat) : option InitCall := nth_error (calls c) k.

Definition update_call (c : Client) (k : nat) (f : InitCall -> InitCall) : Client :=
  with_calls c (update_nth k f (calls c)).

Definition set_socket (s : ReadyState) (i : InitCall) : InitCall :=
  mkInitCall (started i) s (promise i) (timeout i) (awaited i).

Definition set_promise (p : PromiseState) (i : InitCall) : InitCall :=
  mkInitCall (started i) (socket i) p (timeout i) (awaited i).

Definition set_timeout (t : option Z) (i : InitCall) : InitCall :=
  mkInitCall (started i) (socket i) (promise i) t (awaited i).

Definition set_awaited (b : bool) (i : InitCall) : InitCall :=
  mkInitCall (started i) (socket i) (promise i) (timeout i) b.

Definition readyState (c : Client) (k : nat) : option ReadyState :=
  option_map socket (call c k).

Definition is_open (c : Client) (w : option nat) : bool :=
  match w with
  | Some k => match readyState c k with Some OPEN => true | _ => false end
  | None => false
  end.

(** [isReady] *)
Definition isReady (c : Client) : bool :=
  (isAuthenticated c && is_open c (ws c))%bool.

(** [clearTimeout(timeout)] of init call [k]. *)
Definition clearTimeout (k : nat) (c : Client) : Client :=
  update_call c k (set_timeout None).

(** [resolve()] of the promise of init call [k].  A settled promise stays
    as it is.  When [attemptReconnect] awaits the promise, its continuation
    runs: [this.reconnectAttempts = 0]. *)
Definition resolve (k : nat) (c : Client) : Client :=
  match call c k with
  | Some i =>
      match promise i with
      | Pending =>
          let c1 := update_call c k (set_promise Fulfilled) in
          if awaited i then log (with_reconnectAttempts c1 0) LogReconnected else c1
      | _ => c
      end
  | None => c
  end.

(** [reject(err)] of the promise of init call [k]; the [catch] of an
    awaiting [attemptReconnect] only logs. *)
Definition reject (k : nat) (e : Err) (c : Client) : Client :=
  match call c k with
  | Some i =>
      match promise i with
      | Pending =>
          let c1 := update_call c k (set_promise (Rejected e)) in
          if awaited i then log c1 (LogReconnectFailed e) else c1
      | _ => c
      end
  | None => c
  end.

(** [this.ws.send(msg)] on socket [k]: a connecting socket throws, a
    closing or closed one drops the message. *)
Definition send (k : nat) (m : Outbound) (c : Client) : Client * option Err :=
  match readyState c k with
  | Some OPEN => (with_sent c (sent c ++ [(k, m)]), None)
  | Some CONNECTING => (c, Some SocketNotOpen)
  | _ => (c, None)
  end.

(** [init]: opens a new WebSocket, arms the 30 s timer and returns the
    promise; the result is the index of the call. *)
Definition init (c : Client) : Client * nat :=
  let k := List.length (calls c) in
  let i := mkInitCall (clock c) CONNECTING Pending (Some (clock c + 30000)) false in
  (with_ws (with_calls c (calls c ++ [i])) (Some k), k).

(** [startAuthFlow]: the result is the error thrown, if any. *)
Definition startAuthFlow (c : Client) : Client * option Err :=
  match ws c with
  | Some w => if is_open c (Some w) then send w AuthRequest c
              else (c, Some WebSocketNotConnected)
  | None => (c, Some WebSocketNotConnected)
  end.

(** [allocations.some/find(a => a.destination?.toLowerCase() === address.toLowerCase())] *)
Definition for_us (c : Client) (a : Allocation) : bool :=
  match destination a with
  | Some d => String.eqb (JS.toLowerCase d) (JS.toLowerCase (account_address c))
  | None => false
  end.

Definition is_transfer_type (type : string) : bool :=
  (String.eqb type "transfer"%string || String.eqb type "update_channel"%string
   || String.eqb type "channel_update"%string)%bool.

(** [BigInt(amount || 0)]; [None] when it throws. *)
Definition BigInt_or_0 (a : AllocAmount) : option Z :=
  match a with
  | AmountAbsent => Some 0
  | AmountInteger z => Some z
  | AmountNotInteger => None
  end.

(** Step 4 of the router: an incoming transfer goes to the callback.  The
    result carries the error thrown while [transferData] is built, if any;
    the callback is not called then. *)
Definition route_transfer (payload : Payload) (c : Client) : Client * option Err :=
  match find (for_us c) (allocations payload) with
  | Some incomingAlloc =>
      if transferCallback c then
        match BigInt_or_0 (alloc_amount incomingAlloc) with
        | Some amount =>
            let transferData :=
              mkTransferData (channel_id payload) amount
                (match alloc_asset incomingAlloc with
                 | Some a => a
                 | None => "ytest.usd"%string
                 end)
                (payload_sender payload) in
            (with_delivered c (delivered c ++ [transferData]), None)
        | None => (c, Some CannotConvertToBigInt)
        end
      else (c, None)
  | None => (c, None)
  end.

(** [handleMessage]: the message router.  The result carries the error
    thrown, if any; the state reached before the throw is kept. *)
Definition handleMessage (data : Inbound) (c : Client) : Client * option Err :=
  match data with
  | Unparsable => (c, Some SyntaxError)
  | ErrorEnvelope => (log c LogRpcError, None)
  | NoRes => (c, None)
  | Res type payload =>
      if String.eqb type "auth_challenge"%string then
        match ws c with
        | Some w => send w (AuthVerify (challenge_message payload)) c
        | None => (c, Some NullSocket)
        end
      else if String.eqb type "auth_verify"%string then
        let c1 := with_isAuthenticated c true in
        match ws c1 with
        | Some w => send w LedgerBalancesQuery c1
        | None => (c1, Some NullSocket)
        end
      else if (String.eqb type "get_ledger_balances"%string
               || String.eqb type "ledger_balances"%string)%bool then
        (log c LogLedgerBalances, None)
      else if is_transfer_type type then
        match route_transfer payload c with
        | (c1, None) =>
            if (String.eqb type "transfer"%string && status_success payload)%bool
            then (log c1 LogTransferConfirmed, None)
            else (c1, None)
        | (c1, Some err) => (c1, Some err)
        end
      else (c, None)
  end.

(** [attemptReconnect], up to its back-off sleep. *)
Definition attemptReconnect (c : Client) : Client :=
  if maxReconnectAttempts c <=? reconnectAttempts c
  then log c LogMaxReconnect
  else
    let c1 := with_reconnectAttempts c (reconnectAttempts c + 1) in
    let delay := reconnectDelay c1 * 2 ^ (reconnectAttempts c1 - 1) in
    let c2 := log c1 (LogReconnecting delay (reconnectAttempts c1)) in
    with_sleeping c2 (sleeping c2 ++ [Some (clock c2 + delay)]).

(** [attemptReconnect], after the sleep: [await this.init()]. *)
Definition reconnect_after_sleep (c : Client) : Client :=
  let (c1, k) := init c in
  update_call c1 k (set_awaited true).

(** [ws.close()] *)
Definition close_socket (k : nat) (c : Client) : Client :=
  update_call c k (fun i =>
    match socket i with
    | CLOSED => i
    | _ => set_socket CLOSING i
    end).

(** [disconnect] *)
Definition disconnect (c : Client) : Client :=
  let c1 := with_maxReconnectAttempts c 0 in          (* Prevent reconnection *)
  let c2 := match ws c1 with
            | Some k => with_ws (close_socket k c1) None
            | None => c1
            end in
  with_isAuthenticated c2 false.

(** [onTransfer] *)
Definition onTransfer (c : Client) : Client := with_transferCallback c true.

(** [sendTransfer] *)
Definition sendTransfer (recipient : string) (amount : Z) (c : Client)
    : Client * option Err :=
  if negb (isAuthenticated c) then (c, Some ClientNotAuthenticated)
  else
    match ws c with
    | Some w => if is_open c (Some w)
                then send w (TransferRequest recipient amount) c
                else (c, Some WebSocketNotConnected)
    | None => (c, Some WebSocketNotConnected)
    end.

(** [acceptTransfer]: receiving is the state sync itself. *)
Definition acceptTransfer (t : TransferData) (c : Client) : Client * bool := (c, true).

(** *** The listeners that [init] installs on the socket of call [k] *)

Definition on_open (k : nat) (c : Client) : Client :=
  let c1 := update_call c k (set_socket OPEN) in
  match startAuthFlow c1 with
  | (c2, None) => c2
  | (c2, Some err) => reject k err (clearTimeout k c2)
  end.

Definition on_message (k : nat) (data : Inbound) (c : Client) : Client :=
  let wasAuthenticated := isAuthenticated c in
  match handleMessage data c with
  | (c1, None) =>
      if (negb wasAuthenticated && isAuthenticated c1)%bool
      then resolve k (clearTimeout k c1)
      else c1
  | (c1, Some err) => log c1 (LogMessageError err)
  end.

Definition on_error (k : nat) (c : Client) : Client :=
  reject k SocketFailure (clearTimeout k c).

Definition on_close (k : nat) (c : Client) : Client :=
  let c1 := update_call c k (set_socket CLOSED) in
  attemptReconnect (with_isAuthenticated c1 false).

(** The callback of [setTimeout(..., 30000)]. *)
Definition on_timeout (k : nat) (c : Client) : Client :=
  reject k ConnectionTimeout (update_call c k (set_timeout None)).

(** *** Events of the event loop *)

Inductive Event :=
| SocketOpen (k : nat)
| SocketMessage (k : nat) (data : Inbound)
| SocketError (k : nat)
| SocketClose (k : nat)
| TimeoutFires (k : nat)           (* the 30 s timer of init call [k] *)
| SleepEnds (i : nat)              (* the back-off sleep number [i] *)
| Elapse (dt : Z)                  (* time passes, no timer becoming late *)
| CallInit
| CallDisconnect.

Definition deadlines (c : Client) : list Z :=
  flat_map (fun i => match timeout i with Some t => [t] | None => [] end) (calls c)
  ++ flat_map (fun s => match s with Some t => [t] | None => [] end) (sleeping c).

(** One turn of the event loop; [None] when the event cannot happen in
    this state. *)
Definition step (e : Event) (c : Client) : option Client :=
  match e with
  | SocketOpen k =>
      match readyState c k with
      | Some CONNECTING => Some (on_open k c)
      | _ => None
      end
  | SocketMessage k data =>
      match readyState c k with
      | Some OPEN | Some CLOSING => Some (on_message k data c)
      | _ => None
      end
  | SocketError k =>
      match readyState c k with
      | Some CLOSED | None => None
      | _ => Some (on_error k c)
      end
  | SocketClose k =>
      match readyState c k with
      | Some CLOSED | None => None
      | _ => Some (on_close k c)
      end
  | TimeoutFires k =>
      match option_map timeout (call c k) with
      | Some (Some t) => if t <=? clock c then Some (on_timeout k c) else None
      | _ => None
      end
  | SleepEnds i =>
      match nth_error (sleeping c) i with
      | Some (Some t) =>
          if t <=? clock c
          then Some (reconnect_after_sleep
                       (with_sleeping c (update_nth i (fun _ => None) (sleeping c))))
          else None
      | _ => None
      end
  | Elapse dt =>
      if ((0 <=? dt) && forallb (fun t => clock c + dt <=? t) (deadlines c))%bool
      then Some (with_clock c (clock c + dt))
      else None
  | CallInit => Some (fst (init c))
  | CallDisconnect => Some (disconnect c)
  end.

Fixpoint run (es : list Event) (c : Client) : option Client :=
  match es with
  | [] => Some c
  | e :: r => match step e c with
              | Some c1 => run r c1
              | None => None
              end
  end.

End Bank.

(** ** The HTTP server ([index.ts]) *)

Module Server.
Import Store Services.

Record State := mkState {
  activeAgents : list (string * Bank.Client);   (* Record<string, BankClient> *)
  detached : list Bank.Client;   (* clients deleted from the registry; their
                                    sockets and timers still refer to them *)
  store : DB
}.

Definition agent (s : State) (a : string) : option Bank.Client :=
  option_map snd (find (fun e => String.eqb (fst e) a) (activeAgents s)).

Definition without_agent (a : string) (l : list (string * Bank.Client)) :=
  filter (fun e => negb (String.eqb (fst e) a)) l.

Definition set_agent (s : State) (a : string) (c : Bank.Client) : State :=
  mkState ((a, c) :: without_agent a (activeAgents s)) (detached s) (store s).

Definition with_store (s : State) (db : DB) : State :=
  mkState (activeAgents s) (detached s) db.

(** [.order('due_date', { ascending: true })]: the rows by due date,
    earliest first.  The query names no second column: where two rows are
    due at the same time, [ties] decides which of them the store returns
    first. *)
Fixpoint insert_by_due (ties : Debt -> Debt -> bool) (d : Debt) (l : list Debt)
    : list Debt :=
  match l with
  | [] => [d]
  | e :: r => if ((due_date e <? due_date d)
                  || ((due_date e =? due_date d) && negb (ties d e)))%bool
              then e :: insert_by_due ties d r
              else d :: e :: r
  end.

Definition order_by_due_asc (ties : Debt -> Debt -> bool) (l : list Debt)
    : list Debt :=
  fold_right (insert_by_due ties) [] l.

(** The active and overdue debts of a borrower, oldest first. *)
Definition outstanding_debts (userAddress : string) (db : DB) : list Debt :=
  order_by_due_asc (debt_ties db)
    (filter (fun d => (String.eqb (debt_borrower d) userAddress
                       && outstanding (status d))%bool) (debts db)).

(** What one run of the garnishing callback did. *)
Record Garnishment := mkGarnishment {
  accepted : Z;                    (* amount handed to [acceptTransfer] *)
  garnishAmount : option Z;        (* the computed split, when it is reached *)
  remainder : option Z;
  garnished : Z;                   (* amount sent to the vault and recorded *)
  garnished_debt : option nat;     (* the debt the payment was recorded on *)
  transferError : option Bank.Err  (* the error caught around [sendTransfer] *)
}.

Definition truthy_string (o : option string) : option string :=
  match o with
  | Some (String a r) => Some (String a r)
  | _ => None
  end.

(** The fully-paid branch of the callback. *)
Definition garnish_paid_off (cfg : Config) (now : Z) (userAddress : string)
    (activeDebt : Debt) (db : DB) : DB :=
  let db1 := update_debt db (debt_id_of activeDebt) (set_paid 0 now) in
  let db2 := release_vouch activeDebt db1 in
  let isOnTime := now <=? due_date activeDebt in
  let db3 := if isOnTime
             then fst (updateCreditScore cfg userAddress CREDIT_SCORE.ON_TIME_BONUS
                         (PaidOnTime (debt_id_of activeDebt)) db2)
             else db2 in
  let remainingDebts :=
    filter (fun d => (String.eqb (debt_borrower d) userAddress
                      && outstanding (status d)
                      && negb (Nat.eqb (debt_id_of d) (debt_id_of activeDebt)))%bool)
      (debts db3) in
  match remainingDebts with
  | [] =>
      let db4 := if contracts_configured cfg
                 then call_oracle db3 (ClearDefaultOnChain userAddress)
                 else db3 in
      update_user db4 userAddress (set_ens_stripped false)
  | _ :: _ => db3
  end.

(** The callback that [POST /connect] registers with [bank.onTransfer]. *)
Definition garnish_transfer (cfg : Config) (now : Z) (userAddress : string)
    (transfer : Bank.TransferData) (bank : Bank.Client) (db : DB)
    : DB * Bank.Client * Garnishment :=
  let A := Bank.transfer_amount transfer in
  let accept_only := (db, fst (Bank.acceptTransfer transfer bank),
                      mkGarnishment A None None 0 None None) in
  match user_by_address db userAddress with
  | None => accept_only
  | Some currentUser =>
      if negb (auto_repay_enabled currentUser) then accept_only
      else
        match outstanding_debts userAddress db with
        | [] => accept_only
        | activeDebt :: _ =>
            let garnishPercent :=
              match garnish_percentage currentUser with Some p => p | None => 50 end in
            let garnishAmount :=
              JS.min_with (JS.floor_mul_percent A garnishPercent)
                          (amount_owed activeDebt) in
            let remainder := option_map (fun g => A - g) garnishAmount in
            let bank1 := fst (Bank.acceptTransfer transfer bank) in
            match garnishAmount, truthy_string (VAULT_ADDRESS cfg) with
            | Some g, Some vault =>
                if 0 <? g then
                  match Bank.sendTransfer vault g bank1 with
                  | (bank2, Some transferError) =>
                      (db, bank2,
                       mkGarnishment A garnishAmount remainder 0 None
                                     (Some transferError))
                  | (bank2, None) =>
                      let db1 := insert_payment db
                                   (mkPayment (debt_id_of activeDebt) g garnish) in
                      let newDebtAmount := Z.max 0 (amount_owed activeDebt - g) in
                      let db2 :=
                        if newDebtAmount =? 0
                        then garnish_paid_off cfg now userAddress activeDebt db1
                        else update_debt db1 (debt_id_of activeDebt)
                               (set_amount_owed newDebtAmount) in
                      (db2, bank2,
                       mkGarnishment A garnishAmount remainder g
                                     (Some (debt_id_of activeDebt)) None)
                  end
                else (db, bank1, mkGarnishment A garnishAmount remainder 0 None None)
            | _, _ => (db, bank1, mkGarnishment A garnishAmount remainder 0 None None)
            end
        end
  end.

(** *** Two transfers in quick succession

    The callback first reads (the account, then the debts) and then
    awaits the transfer calls and writes.  A transfer that arrives while
    an earlier run of the callback is still waiting starts a run of its
    own, whose reads see the store as it is at that moment. *)

(** What a run of the callback has read: the debt to pay on and the
    amount to garnish; [None] when the transfer is accepted in full. *)
Definition garnish_plan (userAddress : string) (transfer : Bank.TransferData)
    (db : DB) : option (Debt * option Z) :=
  let A := Bank.transfer_amount transfer in
  match user_by_address db userAddress with
  | None => None
  | Some currentUser =>
      if negb (auto_repay_enabled currentUser) then None
      else
        match outstanding_debts userAddress db with
        | [] => None
        | activeDebt :: _ =>
            let garnishPercent :=
              match garnish_percentage currentUser with Some p => p | None => 50 end in
            Some (activeDebt,
                  JS.min_with (JS.floor_mul_percent A garnishPercent)
                              (amount_owed activeDebt))
        end
  end.

(** The rest of that run, on the store [db] as it is by then: the debt
    row and the amount are the ones read before. *)
Definition garnish_settle (cfg : Config) (now : Z) (userAddress : string)
    (transfer : Bank.TransferData) (plan : option (Debt * option Z))
    (bank : Bank.Client) (db : DB) : DB * Bank.Client * Garnishment :=
  let A := Bank.transfer_amount transfer in
  let bank1 := fst (Bank.acceptTransfer transfer bank) in
  match plan with
  | None => (db, bank1, mkGarnishment A None None 0 None None)
  | Some (activeDebt, garnishAmount) =>
      let remainder := option_map (fun g => A - g) garnishAmount in
      match garnishAmount, truthy_string (VAULT_ADDRESS cfg) with
      | Some g, Some vault =>
          if 0 <? g then
            match Bank.sendTransfer vault g bank1 with
            | (bank2, Some transferError) =>
                (db, bank2,
                 mkGarnishment A garnishAmount remainder 0 None (Some transferError))
            | (bank2, None) =>
                let db1 := insert_payment db
                             (mkPayment (debt_id_of activeDebt) g garnish) in
                let newDebtAmount := Z.max 0 (amount_owed activeDebt - g) in
                let db2 :=
                  if newDebtAmount =? 0
                  then garnish_paid_off cfg now userAddress activeDebt db1
                  else update_debt db1 (debt_id_of activeDebt)
                         (set_amount_owed newDebtAmount) in
                (db2, bank2,
                 mkGarnishment A garnishAmount remainder g
                               (Some (debt_id_of activeDebt)) None)
            end
          else (db, bank1, mkGarnishment A garnishAmount remainder 0 None None)
      | _, _ => (db, bank1, mkGarnishment A garnishAmount remainder 0 None None)
      end
  end.

(** Two transfers, the second arriving before the run for the first has
    written: both runs read the same store, then the first run writes,
    then the second. *)
Definition garnish_overlapping (cfg : Config) (now : Z) (userAddress : string)
    (first second : Bank.TransferData) (bank : Bank.Client) (db : DB)
    : DB * Bank.Client * Garnishment :=
  let plan1 := garnish_plan userAddress first db in
  let plan2 := garnish_plan userAddress second db in
  let '(db1, bank1, _) := garnish_settle cfg now userAddress first plan1 bank db in
  garnish_settle cfg now userAddress second plan2 bank1 db1.

Section Handlers.

(** [privateKeyToAccount(key).address]: the address of a session key. *)
Variable address_of_key : string -> string.

Inductive ConnectBody :=
| MissingSessionPrivateKey              (* 400 *)
| AgentAlreadyRunning (address : string)(* 200, status "Agent already running" *)
| FailedToCreateUser                    (* 500 *)
| AgentStarted (address : string) (score : Z) (garnish_percent : option Z)
| ConnectFailed (e : Bank.Err).         (* 500 *)

(** The handler either answers at once or is suspended at
    [await bank.init()] with the client it has created. *)
Inductive ConnectStep :=
| Responded (code : Z) (body : ConnectBody)
| AwaitingInit (userAddress : string) (user : User) (bank : Bank.Client).

(** [POST /connect], up to [await bank.init()]. *)
Definition connect (now : Z) (sessionPrivateKey : option string)
    (ensName : option string) (s : State) : State * ConnectStep :=
  match truthy_string sessionPrivateKey with
  | None => (s, Responded 400 MissingSessionPrivateKey)
  | Some key =>
      let userAddress := JS.toLowerCase (address_of_key key) in
      if match agent s userAddress with
         | Some a => Bank.isReady a
         | None => false
         end
      then (s, Responded 200 (AgentAlreadyRunning userAddress))
      else
        match getOrCreateUser userAddress ensName (store s) with
        | (db1, None) => (with_store s db1, Responded 500 FailedToCreateUser)
        | (db1, Some user) =>
            let bank := Bank.new (address_of_key key) now in
            (with_store s db1, AwaitingInit userAddress user (fst (Bank.init bank)))
        end
  end.

(** [POST /connect], once the promise of [bank.init()] is settled. *)
Definition connect_resume (userAddress : string) (user : User)
    (bank : Bank.Client) (s : State) : State * ConnectStep :=
  match option_map Bank.promise (Bank.call bank 0) with
  | Some Bank.Fulfilled =>
      (set_agent s userAddress (Bank.onTransfer bank),
       Responded 200 (AgentStarted userAddress (credit_score user)
                        (garnish_percentage user)))
  | Some (Bank.Rejected e) => (s, Responded 500 (ConnectFailed e))
  | _ => (s, AwaitingInit userAddress user bank)
  end.

(** [POST /disconnect]: the answer is the status code. *)
Definition post_disconnect (wallet_address : option string) (s : State) : State * Z :=
  match truthy_string wallet_address with
  | None => (s, 404)
  | Some a =>
      let address := JS.toLowerCase a in
      match agent s address with
      | None => (s, 404)
      | Some bank =>
          (* activeAgents[address].disconnect(); delete activeAgents[address] *)
          (mkState (without_agent address (activeAgents s))
                   (detached s ++ [Bank.disconnect bank]) (store s), 200)
      end
  end.

End Handlers.

(** [POST /borrow]: field validation, then the statements of [borrow];
    [repayment_days] defaults to 14 and goes into the row as it was sent,
    so the [INTEGER] column refuses a period that is not a whole number of
    days. *)
Definition post_borrow (now : Z) (borrower_address : option string)
    (amount : option Z) (repayment_days : option Q) (db : DB)
    : DB * option BorrowResult :=
  match truthy_string borrower_address, amount with
  | Some b, Some a =>
      if a =? 0 then (db, None)                   (* 400 "Missing required fields" *)
      else
        let days := match repayment_days with
                    | Some d => d
                    | None => inject_Z 14
                    end in
        let (db1, r) := borrow_with (JS.toLowerCase b) (due_after now days)
                          (integer_column days) a db in
        (db1, Some r)
  | _, _ => (db, None)
  end.

(** [POST /repay]: field validation, then the statements of [repayDebt]. *)
Definition post_repay (cfg : Config) (now : Z) (borrower_address : option string)
    (debt_id : option nat) (amount : option Z) (db : DB)
    : DB * option RepayResult :=
  match truthy_string borrower_address, truthy_id debt_id, amount with
  | Some b, Some i, Some a =>
      if a =? 0 then (db, None)                   (* 400 "Missing required fields" *)
      else let (db1, r) := repayDebt cfg now b i a db in (db1, Some r)
  | _, _, _ => (db, None)
  end.

End Server.

(** ** Read models and account settings ([services.ts], the GET and
    PATCH routes of [index.ts]) *)

Module Reports.
Import Store Services.

(** [getUser] *)
Definition getUser (walletAddress : string) (db : DB) : option User :=
  user_by_address db (JS.toLowerCase walletAddress).

(** The [settings] of [updateUserSettings] and of
    [PATCH /user/:address/settings]: each field may be absent. *)
Record UserSettings := mkUserSettings {
  new_garnish_percentage : option Z;
  new_auto_repay_enabled : option bool
}.

Definition with_settings (s : UserSettings) (u : User) : User :=
  mkUser (wallet_address u) (ens_name u) (credit_score u) (ens_stripped u)
         (match new_garnish_percentage s with
          | Some p => Some p
          | None => garnish_percentage u
          end)
         (match new_auto_repay_enabled s with
          | Some b => b
          | None => auto_repay_enabled u
          end).

(** [CHECK (garnish_percentage >= 0 AND garnish_percentage <= 100)]; a
    null passes. *)
Definition garnish_check (u : User) : bool :=
  match garnish_percentage u with
  | Some p => ((0 <=? p) && (p <=? 100))%bool
  | None => true
  end.

(** What [update(settings).eq('wallet_address', a).select().single()]
    gives back. *)
Inductive Updated :=
| UpdatedRow (u : User)
| UpdateFailed            (* [error]: no such row, or the CHECK is violated *)
| NothingToUpdate.        (* [update({})] names no column: the rows stay as
                             they are, the answer is the store's own *)

Definition update_settings (address : string) (s : UserSettings) (db : DB)
    : DB * Updated :=
  match new_garnish_percentage s, new_auto_repay_enabled s with
  | None, None => (db, NothingToUpdate)
  | _, _ =>
      match user_by_address db address with
      | None => (db, UpdateFailed)
      | Some u =>
          if garnish_check (with_settings s u)
          then (update_user db address (with_settings s),
                UpdatedRow (with_settings s u))
          else (db, UpdateFailed)
      end
  end.

(** [updateUserSettings]: an [error] is answered by [null]. *)
Definition updateUserSettings (walletAddress : string) (settings : UserSettings)
    (db : DB) : DB * Updated :=
  update_settings (JS.toLowerCase walletAddress) settings db.

(** [PATCH /user/:address/settings]; [None] is the answer 400 "Garnish
    percentage must be 0-100". *)
Definition patch_settings (address : string) (settings : UserSettings) (db : DB)
    : DB * option Updated :=
  if match new_garnish_percentage settings with
     | Some p => ((p <? 0) || (100 <? p))%bool
     | None => false
     end
  then (db, None)
  else
    let (db1, r) := update_settings (JS.toLowerCase address) settings db in
    (db1, Some r).

(** [getCreditHistory]: the newest entries first, at most [limit] of them
    (50 by default).  Entries are written one statement at a time, so the
    order of [created_at] is the order of creation. *)
Definition getCreditHistory (walletAddress : string) (limit : nat) (db : DB)
    : list CreditHistory :=
  let address := JS.toLowerCase walletAddress in
  firstn limit
    (rev (filter (fun h => String.eqb (history_wallet h) address)
            (credit_history db))).

(** [getVouchesGiven] *)
Definition getVouchesGiven (voucherAddress : string) (activeOnly : bool)
    (db : DB) : list Vouch :=
  let address := JS.toLowerCase voucherAddress in
  filter (fun v => (String.eqb (voucher_address v) address
                    && (negb activeOnly || is_active v))%bool) (vouches db).

Definition has_status (statusFilter : option DebtStatus) (d : Debt) : bool :=
  match statusFilter with
  | Some s => DebtStatus_eqb (status d) s
  | None => true
  end.

(** [getDebtsForBorrower] *)
Definition getDebtsForBorrower (borrowerAddress : string)
    (statusFilter : option DebtStatus) (db : DB) : list Debt :=
  let address := JS.toLowerCase borrowerAddress in
  Server.order_by_due_asc (debt_ties db)
    (filter (fun d => (String.eqb (debt_borrower d) address
                       && has_status statusFilter d)%bool) (debts db)).

(** [getDebtsAsLender] *)
Definition getDebtsAsLender (lenderAddress : string)
    (statusFilter : option DebtStatus) (db : DB) : list Debt :=
  let address := JS.toLowerCase lenderAddress in
  Server.order_by_due_asc (debt_ties db)
    (filter (fun d => (String.eqb (lender_address d) address
                       && has_status statusFilter d)%bool) (debts db)).

(** [getTotalDebt] *)
Definition getTotalDebt (borrowerAddress : string) (db : DB) : Z :=
  fold_left (fun sum d => sum + amount_owed d)
    (filter (fun d => (String.eqb (debt_borrower d) (JS.toLowerCase borrowerAddress)
                       && outstanding (status d))%bool) (debts db))
    0.

(** [getPlatformStats] *)
Record PlatformStats := mkPlatformStats {
  total_users : nat;
  total_active_debt : Z;
  total_vouch_capacity : Z;
  total_vouch_used : Z
}.

Definition getPlatformStats (db : DB) : PlatformStats :=
  let activeDebts := filter (fun d => outstanding (status d)) (debts db) in
  let activeVouches := filter is_active (vouches db) in
  mkPlatformStats
    (List.length (users db))
    (fold_left (fun sum d => sum + amount_owed d) activeDebts 0)
    (fold_left (fun sum v => sum + limit_amount v) activeVouches 0)
    (fold_left (fun sum v => sum + current_usage v) activeVouches 0).

(** [getUserStatus] *)
Record UserStatus := mkUserStatus {
  status_user : User;
  total_debt : Z;
  available_credit : Z;
  active_debts_count : nat
}.

Definition getUserStatus (walletAddress : string) (db : DB) : option UserStatus :=
  let address := JS.toLowerCase walletAddress in
  match getUser address db with
  | None => None
  | Some user =>
      Some (mkUserStatus user (getTotalDebt address db)
              (getAvailableCredit address db)
              (List.length (getDebtsForBorrower address (Some active) db)))
  end.

End Reports.

(** ** Vocabulary of the properties *)

Definition clamp_score (s : Z) : Z :=
  Z.max CREDIT_SCORE.MIN (Z.min CREDIT_SCORE.MAX s).

Definition in_range (s : Z) : Prop :=
  CREDIT_SCORE.MIN <= s <= CREDIT_SCORE.MAX.

Definition scores_in_range (db : DB) : Prop :=
  forall u, In u (users db) -> in_range (credit_score u).

(** A sequence of score updates: address, delta, reason. *)
Definition run_updates (cfg : Config) (updates : list (string * Z * Reason))
    (db : DB) : DB :=
  fold_left (fun d '(a, delta, why) =>
               fst (Services.updateCreditScore cfg a delta why d))
            updates db.

(** ** Sample data *)

Definition alice : string := "0xa11ce"%string.
Definition bob : string := "0xb0b"%string.
Definition carol : string := "0xca401"%string.
Definition vault : string := "0x7a017"%string.

Definition no_contracts : Config := mkConfig (Some vault) false.
Definition with_contracts : Config := mkConfig (Some vault) true.

Definition one_user_db : DB :=
  mkDB [mkUser alice None 650 false (Some 50) true] [] [] [] [] [] 0 0
       creation_order creation_order.

(** ** Well-formed tables: the keys and constraints of the schema *)

(** [id SERIAL PRIMARY KEY] of [vouches]: ids are distinct, positive and
    below the sequence. *)
Definition vouch_keys_ok (db : DB) : Prop :=
  NoDup (map vouch_id_of (vouches db))
  /\ forall v, In v (vouches db) -> (1 <= vouch_id_of v <= vouch_seq db)%nat.

(** [UNIQUE (voucher_address, borrower_address)] *)
Definition unique_pairs (db : DB) : Prop :=
  forall a b, (List.length (filter (Store.same_pair a b) (vouches db)) <= 1)%nat.

(** A sequence of [createVouch] calls: voucher, borrower, limit. *)
Definition run_vouches (calls : list (string * string * Z)) (db : DB) : DB :=
  fold_left (fun d '(v, b, l) => fst (Services.createVouch v b l d)) calls db.

(** The row an existing vouch becomes when its limit is raised by [L]. *)
Definition raised (existing : Vouch) (L : Z) : Vouch :=
  mkVouch (vouch_id_of existing) (voucher_address existing)
          (borrower_address existing) (limit_amount existing + L)
          (current_usage existing) true.

(** Bob holds a deactivated vouch of 1000 from Alice, 300 of it in use. *)
Definition old_vouch : Vouch := mkVouch 1 alice bob 1000 300 false.

Definition vouched_db : DB :=
  mkDB [mkUser alice None 650 false (Some 50) true;
        mkUser bob None 650 false (Some 50) true]
       [old_vouch] [] [] [] [] 1 0
       creation_order creation_order.

(** [id SERIAL PRIMARY KEY] of [debts]. *)
Definition debt_keys_ok (db : DB) : Prop :=
  NoDup (map debt_id_of (debts db))
  /\ forall d, In d (debts db) -> (1 <= debt_id_of d <= debt_seq db)%nat.

(** [borrower_address REFERENCES users]: the borrower of every debt has a
    row in [users]. *)
Definition has_user (db : DB) (a : string) : Prop :=
  exists u, Store.user_by_address db (JS.toLowerCase a) = Some u.

Definition borrowers_exist (db : DB) : Prop :=
  forall d, In d (debts db) -> has_user db (debt_borrower d).

(** The late-payment penalties recorded for a debt. *)
Definition is_penalty_for (i : nat) (h : CreditHistory) : bool :=
  Reason_eqb (reason h) (LatePayment i).

Definition penalties (db : DB) (i : nat) : nat :=
  List.length (filter (is_penalty_for i) (credit_history db)).

Definition status_of (db : DB) (i : nat) : option DebtStatus :=
  option_map status (Store.debt_by_id db i).

(** Runs of the hourly job at the given times. *)
Definition run_sweeps (cfg : Config) (times : list Z) (db : DB) : DB :=
  fold_left (fun d now => fst (Services.checkOverdueDebts cfg now d)) times db.

(** What a run of the sweep over the selected debts [L] makes of a row. *)
Definition swept (L : list Debt) (x : Debt) : Debt :=
  if existsb (fun l => Nat.eqb (debt_id_of x) (debt_id_of l)) L
  then Services.set_status overdue x else x.

(** The rows that [checkOverdueDebts] selects at time [now]. *)
Definition is_overdue_at (now : Z) (d : Debt) : bool :=
  (DebtStatus_eqb (status d) active && (due_date d <? now))%bool.

(** [update(...).eq('id', i)] on one row. *)
Definition at_id {A} (id : A -> nat) (i : nat) (f : A -> A) (x : A) : A :=
  if Nat.eqb (id x) i then f x else x.

(** The operations that write to a debt. *)
Inductive Operation :=
| ManualRepayment (borrower : string) (debtId : nat) (amount : Z)
| Garnishment (userAddress : string) (transfer : Bank.TransferData)
              (bank : Bank.Client)
| OverdueSweep
| DefaultMarking (debtId : nat).

Definition perform (cfg : Config) (now : Z) (op : Operation) (db : DB) : DB :=
  match op with
  | ManualRepayment b i a => fst (Services.repayDebt cfg now b i a db)
  | Garnishment u t bank => fst (fst (Server.garnish_transfer cfg now u t bank db))
  | OverdueSweep => fst (Services.checkOverdueDebts cfg now db)
  | DefaultMarking i => fst (Services.markDebtDefaulted cfg i db)
  end.

(** The moves of the status of a debt that an operation can make. *)
Definition may_move (op : Operation) (s s' : DebtStatus) : Prop :=
  s' = s \/
  match op with
  | ManualRepayment _ _ _ => s <> paid /\ s' = paid
  | Garnishment _ _ _ => Services.outstanding s = true /\ s' = paid
  | OverdueSweep => s = active /\ s' = overdue
  | DefaultMarking _ => Services.outstanding s = true /\ s' = defaulted
  end.

(** The claim "defaulted is terminal", as the specification states it. *)
Definition defaulted_is_terminal : Prop :=
  forall cfg now op db i,
    status_of db i = Some defaulted ->
    status_of (perform cfg now op db) i = Some defaulted.

(** Bob's debt of 40 to Alice has been marked as defaulted. *)
Definition defaulted_debt : Debt :=
  mkDebt 1 bob alice (Some 1%nat) 40 40 1000 14 defaulted None.

Definition defaulted_db : DB :=
  mkDB [mkUser alice None 650 false (Some 50) true;
        mkUser bob None 575 false (Some 50) true]
       [mkVouch 1 alice bob 1000 40 true] [defaulted_debt] [] [] [] 1 1
       creation_order creation_order.

(** Bob owes 40 on a debt of 40 drawn on Alice's vouch; he garnishes 50%. *)
Definition bobs_debt : Debt :=
  mkDebt 1 bob alice (Some 1%nat) 40 40 1000 14 active None.

Definition owing_db (percent : Z) : DB :=
  mkDB [mkUser alice None 650 false (Some 50) true;
        mkUser bob None 650 false (Some percent) true]
       [mkVouch 1 alice bob 1000 40 true] [bobs_debt] [] [] [] 1 1
       creation_order creation_order.

Definition empty_payload : Bank.Payload :=
  Bank.mkPayload EmptyString [] None None false.

(** Bob's session after the handshake: connected and authenticated. *)
Definition ready_bank : Bank.Client :=
  match Bank.run [Bank.CallInit; Bank.SocketOpen 0;
                  Bank.SocketMessage 0 (Bank.Res "auth_challenge" empty_payload);
                  Bank.SocketMessage 0 (Bank.Res "auth_verify" empty_payload)]
                 (Bank.new bob 0) with
  | Some c => Bank.onTransfer c
  | None => Bank.new bob 0
  end.

Definition incoming (amount : Z) : Bank.TransferData :=
  Bank.mkTransferData None amount "ytest.usd" (Some carol).

(** ** Borrow allocation, in the words of the specification

    "Greedily draw from each vouch up to its remaining capacity
    ([limit - usage]) until [R] is exhausted, creating one debt row per
    vouch touched": the draws, as pairs of vouch id and amount. *)
Definition capacity (v : Vouch) : Z := limit_amount v - current_usage v.

Fixpoint greedy_draw (R : Z) (vs : list Vouch) : list (nat * Z) :=
  match vs with
  | [] => []
  | v :: rest =>
      if R <=? 0 then []
      else if capacity v <=? 0 then greedy_draw R rest
      else (vouch_id_of v, Z.min R (capacity v))
           :: greedy_draw (R - Z.min R (capacity v)) rest
  end.

Definition total (l : list Z) : Z := fold_right Z.add 0 l.

(** The amount that a list of draws takes from vouch [i]. *)
Definition drawn (draws : list (nat * Z)) (i : nat) : Z :=
  total (map snd (filter (fun p => Nat.eqb (fst p) i) draws)).

(** A vouch after the draws have been added to its usage. *)
Definition credit (draws : list (nat * Z)) (w : Vouch) : Vouch :=
  Services.set_current_usage (current_usage w + drawn draws (vouch_id_of w)) w.

Definition draw_of (d : Debt) : option nat * Z := (vouch_id d, original_amount d).

Definition by_limit_desc (v w : Vouch) : Prop := limit_amount w <= limit_amount v.

(** The claim "a request above the available credit is answered by an
    insufficient-credit error", as the specification states it. *)
Definition excess_is_insufficient_credit : Prop :=
  forall now borrower R days db,
    Services.getAvailableCredit borrower db < R ->
    exists available requested,
      Services.borrow_error (snd (Services.borrow now borrower R days db))
      = Some (Services.InsufficientCredit available requested).

(** Bob is vouched for by Carol (1000) and by Alice (1500). *)
Definition two_vouches_db : DB :=
  mkDB [mkUser alice None 650 false (Some 50) true;
        mkUser bob None 650 false (Some 50) true;
        mkUser carol None 650 false (Some 50) true]
       [mkVouch 1 carol bob 1000 0 true; mkVouch 2 alice bob 1500 0 true]
       [] [] [] [] 2 0
       creation_order creation_order.

(** What [borrow] stamps on the debts it creates. *)
Definition fresh_debt (b : string) (due days : Z) (d : Debt) : Prop :=
  amount_owed d = original_amount d /\ status d = active
  /\ debt_borrower d = b /\ due_date d = due /\ repayment_days d = days
  /\ paid_at d = None /\ 0 < original_amount d.

(** ** Round trip: vocabulary

    [mine] tells the ids of the debts created by the borrow under study. *)
Definition is_unpaid (d : Debt) : bool := negb (DebtStatus_eqb (status d) paid).

Definition drawn_on (i : nat) (d : Debt) : bool :=
  match vouch_id d with
  | Some j => Nat.eqb j i
  | None => false
  end.

(** What the debt [x] still holds of vouch [i]: its original amount, as
    long as the debt is one of [mine] and is not paid. *)
Definition contrib (mine : nat -> bool) (i : nat) (x : Debt) : Z :=
  if (mine (debt_id_of x) && drawn_on i x && is_unpaid x)%bool
  then original_amount x else 0.

Definition unpaid_draw (mine : nat -> bool) (db : DB) (i : nat) : Z :=
  total (map (contrib mine i) (debts db)).

(** The vouch [w] of the store before the borrow, with the unpaid draws of
    the store [db] added to its usage. *)
Definition holding (mine : nat -> bool) (db : DB) (w : Vouch) : Vouch :=
  Services.set_current_usage
    (current_usage w + unpaid_draw mine db (vouch_id_of w)) w.

(** Operations at their times, one at a time: each has run to its end
    before the next begins. *)
Definition run_ops (cfg : Config) (ops : list (Z * Operation)) (db : DB) : DB :=
  fold_left (fun d '(now, op) => perform cfg now op d) ops db.

(** The debt an operation records a payment on. *)
Definition paid_on (cfg : Config) (now : Z) (op : Operation) (db : DB)
    : option nat :=
  match op with
  | ManualRepayment _ i _ => Some i
  | Garnishment u t bank =>
      Server.garnished_debt (snd (Server.garnish_transfer cfg now u t bank db))
  | OverdueSweep => None
  | DefaultMarking _ => None
  end.

(** Every payment of the sequence goes to one of [mine]. *)
Fixpoint only_repays (mine : nat -> bool) (cfg : Config)
    (ops : list (Z * Operation)) (db : DB) : Prop :=
  match ops with
  | [] => True
  | (now, op) :: rest =>
      match paid_on cfg now op db with
      | Some i => mine i = true
      | None => True
      end
      /\ only_repays mine cfg rest (perform cfg now op db)
  end.

Definition among (ds : list Debt) (i : nat) : bool :=
  existsb (Nat.eqb i) (map debt_id_of ds).

(** The invariant of the round trip: [db0] is the store before the borrow. *)
Record RoundTrip (db0 : DB) (mine : nat -> bool) (db : DB) : Prop := {
  rt_keys : NoDup (map debt_id_of (debts db));
  rt_vouches : vouches db = map (holding mine db) (vouches db0);
  rt_mine : forall x, In x (debts db) -> mine (debt_id_of x) = true ->
      0 < original_amount x
      /\ (status x = paid -> amount_owed x = 0)
      /\ (status x <> paid -> 0 < amount_owed x)
      /\ exists w, In w (vouches db0) /\ vouch_id x = Some (vouch_id_of w)
}.

(** [CHECK (current_usage >= 0)] *)
Definition usage_nonneg (db : DB) : Prop :=
  forall w, In w (vouches db) -> 0 <= current_usage w.

(** A rewrite of the debts that keeps, row by row, what the accounts of
    the vouches depend on. *)
Definition keeps_accounts (g : Debt -> Debt) (x : Debt) : Prop :=
  debt_id_of (g x) = debt_id_of x
  /\ vouch_id (g x) = vouch_id x
  /\ original_amount (g x) = original_amount x
  /\ (status (g x) = paid <-> status x = paid)
  /\ (status x = paid -> amount_owed (g x) = amount_owed x)
  /\ (status x <> paid -> 0 < amount_owed x -> 0 < amount_owed (g x)).

(** Bob pays back what he drew on the two vouches: a partial repayment, a
    garnished transfer, a sweep, the rest of the first debt, and a
    transfer whose garnish covers the second debt. *)
Definition repayments : list (Z * Operation) :=
  [(1000, ManualRepayment bob 1 600);
   (2000, Garnishment bob (incoming 1000) ready_bank);
   (3000, OverdueSweep);
   (4000, ManualRepayment bob 1 400);
   (5000, Garnishment bob (incoming 5000) ready_bank)].

(** ** The session client: vocabulary *)

(** What [resolve] and [reject] make of the record of their init call. *)
Definition resolve_call (i : Bank.InitCall) : Bank.InitCall :=
  match Bank.promise i with
  | Bank.Pending => Bank.set_promise Bank.Fulfilled i
  | _ => i
  end.

Definition reject_call (e : Bank.Err) (i : Bank.InitCall) : Bank.InitCall :=
  match Bank.promise i with
  | Bank.Pending => Bank.set_promise (Bank.Rejected e) i
  | _ => i
  end.

(** How one turn of the event loop can change the record of an init call:
    the promise is settled at most once; it is fulfilled only by a message
    on the call's own socket during which [isAuthenticated] goes from
    false to true; the timer is disarmed only on a settled promise. *)
Definition call_moves (e : Bank.Event) (c c' : Bank.Client) (k : nat)
    (i i' : Bank.InitCall) : Prop :=
  Bank.started i' = Bank.started i
  /\ (Bank.promise i' = Bank.promise i
      \/ (Bank.promise i = Bank.Pending
          /\ ((Bank.promise i' = Bank.Fulfilled
               /\ (exists data, e = Bank.SocketMessage k data)
               /\ Bank.isAuthenticated c = false
               /\ Bank.isAuthenticated c' = true)
              \/ (exists err, Bank.promise i' = Bank.Rejected err
                              /\ (err = Bank.ConnectionTimeout
                                  -> e = Bank.TimeoutFires k)))))
  /\ (Bank.timeout i' = Bank.timeout i
      \/ (Bank.timeout i' = None /\ Bank.promise i' <> Bank.Pending)).

(** The 30 s timer of an init call: armed as long as the promise is
    pending, and never late. *)
Definition timer_ok (clock : Z) (i : Bank.InitCall) : Prop :=
  (Bank.promise i = Bank.Pending ->
   Bank.timeout i = Some (Bank.started i + 30000))
  /\ (forall d, Bank.timeout i = Some d ->
                d = Bank.started i + 30000 /\ clock <= d).

Definition timers_ok (c : Bank.Client) : Prop :=
  forall k i, Bank.call c k = Some i -> timer_ok (Bank.clock c) i.

Definition auth_verify : Bank.Inbound := Bank.Res "auth_verify" empty_payload.
Definition auth_challenge : Bank.Inbound := Bank.Res "auth_challenge" empty_payload.

(** ** Reconnection, in the words of the specification *)

(** The three messages of a handshake on the socket of init call [k]. *)
Definition handshake (k : nat) : list Bank.Event :=
  [Bank.SocketOpen k; Bank.SocketMessage k auth_challenge;
   Bank.SocketMessage k auth_verify].

(** Bob's session loses its connection at time 0 and, one second into the
    first back-off sleep (3000 ms), is explicitly disconnected. *)
Definition disconnected_in_backoff : list Bank.Event :=
  Bank.CallInit :: handshake 0
  ++ [Bank.SocketClose 0; Bank.Elapse 1000; Bank.CallDisconnect].

(** What the event loop does next: the sleep ends and the server answers
    the new socket. *)
Definition backoff_ends : list Bank.Event :=
  [Bank.Elapse 2000; Bank.SleepEnds 0] ++ handshake 1.

(** A reconnect is in flight: a back-off sleep has not ended yet. *)
Definition reconnect_in_flight (c : Bank.Client) : bool :=
  existsb (fun s => match s with Some _ => true | None => false end)
          (Bank.sleeping c).

(** No reconnect fires after [disconnect()]: a session that has been
    disconnected opens no further socket. *)
Definition disconnect_is_terminal : Prop :=
  forall es es' c c',
    Bank.run (es ++ [Bank.CallDisconnect]) (Bank.new bob 0) = Some c ->
    Bank.run es' c = Some c' ->
    ~ In Bank.CallInit es' ->
    List.length (Bank.calls c') = List.length (Bank.calls c).

(** ** Outcomes of a repayment and of a garnishment *)

Section Outcomes.

Import Store Services Server.

(** The three ways a manual repayment can end. *)
Inductive RepayCase (now : Z) (i : nat) (amount : Z) (db db' : DB) : Prop :=
| RepayRefused :
    db' = db -> RepayCase now i amount db db'
| RepayPartial debt :
    In debt (debts db) -> debt_id_of debt = i -> status debt <> paid ->
    amount_owed debt - Z.min amount (amount_owed debt) <> 0 ->
    debts db' = map (at_id debt_id_of i
                       (set_amount_owed
                          (amount_owed debt - Z.min amount (amount_owed debt))))
                    (debts db) ->
    vouches db' = vouches db ->
    RepayCase now i amount db db'
| RepayFull debt :
    In debt (debts db) -> debt_id_of debt = i -> status debt <> paid ->
    amount_owed debt <= amount ->
    debts db' = map (at_id debt_id_of i (set_paid 0 now)) (debts db) ->
    vouches db' = vouches (release_vouch debt db) ->
    RepayCase now i amount db db'.

(** The three ways the garnishing callback can end. *)
Inductive GarnishCase (now : Z) (u : string) (db db' : DB)
    (out : Garnishment) : Prop :=
| GarnishNothing :
    db' = db -> garnished out = 0 -> garnished_debt out = None ->
    GarnishCase now u db db' out
| GarnishPartial debt g :
    In debt (debts db) -> debt_borrower debt = u ->
    outstanding (status debt) = true ->
    0 < g < amount_owed debt ->
    garnished out = g -> garnished_debt out = Some (debt_id_of debt) ->
    transferError out = None ->
    debts db' = map (at_id debt_id_of (debt_id_of debt)
                       (set_amount_owed (amount_owed debt - g))) (debts db) ->
    vouches db' = vouches db ->
    payments db' = payments db ++ [mkPayment (debt_id_of debt) g garnish] ->
    GarnishCase now u db db' out
| GarnishFull debt :
    In debt (debts db) -> debt_borrower debt = u ->
    outstanding (status debt) = true ->
    0 < amount_owed debt ->
    garnished out = amount_owed debt ->
    garnished_debt out = Some (debt_id_of debt) ->
    transferError out = None ->
    debts db' = map (at_id debt_id_of (debt_id_of debt) (set_paid 0 now)) (debts db) ->
    vouches db' = vouches (release_vouch debt db) ->
    payments db' = payments db
                   ++ [mkPayment (debt_id_of debt) (amount_owed debt) garnish] ->
    GarnishCase now u db db' out.

End Outcomes.

(** ** Accounts *)

(** [wallet_address TEXT PRIMARY KEY] *)
Definition users_unique (db : DB) : Prop :=
  NoDup (map wallet_address (users db)).

(** The row of an account after a score update that wrote [new]. *)
Definition rescored (new : Z) (user : User) : User :=
  mkUser (wallet_address user) (ens_name user) new
         (ens_stripped user || (new <? CREDIT_SCORE.ENS_STRIP_THRESHOLD))%bool
         (garnish_percentage user) (auto_repay_enabled user).

(** The calls to the contracts that a score update makes. *)
Definition score_calls (cfg : Config) (address : string) (new : Z) (user : User)
    : list OracleCall :=
  if contracts_configured cfg
  then UpdateCreditScoreOnChain address new
       :: (if ((new <? CREDIT_SCORE.ENS_STRIP_THRESHOLD)
               && negb (ens_stripped user))%bool
           then [MarkDefaultOnChain address] else [])
  else [].

(** Alice's score is 410; Bob's account exists as well. *)
Definition low_score_db : DB :=
  mkDB [mkUser alice (Some "alice.eth"%string) 410 false (Some 50) true;
        mkUser bob None 650 false (Some 50) true] [] [] [] [] [] 0 0
       creation_order creation_order.

(** ** Vouches *)

(** The vouch counts towards the credit of [address]. *)
Definition backs (address : string) (v : Vouch) : bool :=
  (String.eqb (borrower_address v) address && is_active v)%bool.

(** An active or overdue debt is drawn on vouch [i]. *)
Definition vouch_in_use (i : nat) (db : DB) : bool :=
  existsb (fun d => (drawn_on i d && Services.outstanding (status d))%bool)
          (debts db).

(** Alice's vouch for Bob carries an overdue debt; Carol's is free. *)
Definition used_vouch_db : DB :=
  mkDB [mkUser alice None 650 false (Some 50) true;
        mkUser bob None 650 false (Some 50) true;
        mkUser carol None 650 false (Some 50) true]
       [mkVouch 1 alice bob 1000 40 true; mkVouch 2 carol bob 700 100 true]
       [mkDebt 1 bob alice (Some 1%nat) 40 40 1000 14 overdue None;
        mkDebt 2 bob carol (Some 2%nat) 100 0 1000 14 paid (Some 900)]
       [mkPayment 2 100 full] [] [] 2 2
       creation_order creation_order.

(** ** Debts and payments *)

(** What has been paid on debt [i]. *)
Definition paid_total (db : DB) (i : nat) : Z :=
  total (map payment_amount
           (filter (fun p => Nat.eqb (payment_debt_id p) i) (payments db))).

(** Bob owes 40 to Alice, due at 1000, and 100 to Carol, due at 3000. *)
Definition two_debts_db : DB :=
  mkDB [mkUser alice None 650 false (Some 50) true;
        mkUser bob None 895 false (Some 50) true;
        mkUser carol None 650 false (Some 50) true]
       [mkVouch 1 alice bob 1000 40 true; mkVouch 2 carol bob 700 100 true]
       [mkDebt 1 bob alice (Some 1%nat) 40 40 1000 14 active None;
        mkDebt 2 bob carol (Some 2%nat) 100 100 3000 14 active None]
       [] [] [] 2 2
       creation_order creation_order.

(** ** The books

    [payments.debt_id REFERENCES debts(id)], and the balance of every
    debt: what is owed and what has been paid add up to the original
    amount. *)
Definition payments_refer (db : DB) : Prop :=
  forall p, In p (payments db) -> In (payment_debt_id p) (map debt_id_of (debts db)).

Definition balanced (db : DB) : Prop :=
  forall d, In d (debts db) ->
    amount_owed d + paid_total db (debt_id_of d) = original_amount d.

Definition ledger_ok (db : DB) : Prop :=
  debt_keys_ok db /\ payments_refer db /\ balanced db.

Definition books_ok (db : DB) : Prop := vouch_keys_ok db /\ ledger_ok db.

(** The requests that write to vouches, debts and payments. *)
Inductive Request :=
| VouchFor (voucher borrower : string) (limit : Z)
| Deactivate (vouchId : nat)
| BorrowFor (borrower : string) (amount : Z) (repaymentDays : Q)
| Apply (op : Operation).

Definition serve (cfg : Config) (now : Z) (r : Request) (db : DB) : DB :=
  match r with
  | VouchFor v b l => fst (Services.createVouch v b l db)
  | Deactivate i => fst (Services.deactivateVouch i db)
  | BorrowFor b a days => fst (Services.borrow now b a days db)
  | Apply op => perform cfg now op db
  end.

(** ** Listings *)

Definition by_due_asc (x y : Debt) : Prop := due_date x <= due_date y.

(** The percentages of all accounts pass the CHECK of the table. *)
Definition percentages_ok (db : DB) : Prop :=
  forall u, In u (users db) -> Reports.garnish_check u = true.

(** Bob has three debts, two of them due at the same time. *)
Definition three_debts_db : DB :=
  mkDB [mkUser alice None 650 false (Some 50) true;
        mkUser bob None 650 false (Some 50) true;
        mkUser carol None 650 false (Some 50) true]
       [mkVouch 1 alice bob 1000 140 true; mkVouch 2 carol bob 700 100 true]
       [mkDebt 1 bob alice (Some 1%nat) 40 40 3000 14 active None;
        mkDebt 2 bob carol (Some 2%nat) 100 100 1000 14 overdue None;
        mkDebt 3 bob alice (Some 1%nat) 100 100 1000 14 active None]
       [] [] [] 2 3
       creation_order creation_order.

(** ** The session client: what the handlers keep *)

(** The identity of a client and the transfers it has handed on. *)
Definition kept (c : Bank.Client) : string * bool * Z * list Bank.TransferData :=
  (Bank.account_address c, Bank.transferCallback c, Bank.reconnectDelay c,
   Bank.delivered c).

(** A back-off announced on the console: attempt [n] of at most 5, after
    [3000 * 2 ^ (n - 1)] ms. *)
Definition backoff_ok (l : Bank.LogLine) : Prop :=
  match l with
  | Bank.LogReconnecting delay n =>
      1 <= n <= 5 /\ delay = 3000 * 2 ^ (n - 1) /\ delay <= 48000
  | _ => True
  end.

Definition reconnector_ok (c : Bank.Client) : Prop :=
  0 <= Bank.reconnectAttempts c <= 5
  /\ (Bank.maxReconnectAttempts c = 5 \/ Bank.maxReconnectAttempts c = 0)
  /\ Bank.reconnectDelay c = 3000
  /\ Forall backoff_ok (Bank.console c).

(** The transfer that the router hands to the callback for an allocation
    whose amount converts to [amount]. *)
Definition transfer_of (payload : Bank.Payload) (a : Bank.Allocation)
    (amount : Z) : Bank.TransferData :=
  Bank.mkTransferData (Bank.channel_id payload) amount
    (match Bank.alloc_asset a with Some x => x | None => "ytest.usd"%string end)
    (Bank.payload_sender payload).

(** What the router hands to the callback for a payload. *)
Definition handed_on (payload : Bank.Payload) (c : Bank.Client)
    : list Bank.TransferData :=
  match find (Bank.for_us c) (Bank.allocations payload) with
  | Some a =>
      match Bank.alloc_amount a with
      | Bank.AmountAbsent => [transfer_of payload a 0]
      | Bank.AmountInteger z => [transfer_of payload a z]
      | Bank.AmountNotInteger => []
      end
  | None => []
  end.

(** A connection that is lost again and again: five back-offs, then the
    reconnector gives up. *)
Definition flaky (k : nat) (wait : Z) : list Bank.Event :=
  [Bank.SocketError k; Bank.SocketClose k; Bank.Elapse wait; Bank.SleepEnds k].

Definition six_losses : list Bank.Event :=
  Bank.CallInit :: flaky 0 3000 ++ flaky 1 6000 ++ flaky 2 12000 ++ flaky 3 24000
  ++ flaky 4 48000 ++ [Bank.SocketError 5; Bank.SocketClose 5].

(** A transfer of 250 to Bob's address, written in upper case. *)
Definition transfer_to_bob : Bank.Payload :=
  Bank.mkPayload EmptyString
    [Bank.mkAllocation (Some carol) (Bank.AmountInteger 90) None;
     Bank.mkAllocation (Some "0xB0B"%string) (Bank.AmountInteger 250) None]
    (Some "ch1"%string) (Some carol) false.

(** The same transfer with the amount written with decimals. *)
Definition transfer_with_decimals : Bank.Payload :=
  Bank.mkPayload EmptyString
    [Bank.mkAllocation (Some "0xB0B"%string) Bank.AmountNotInteger None]
    (Some "ch2"%string) (Some carol) false.

(** ** The server: sample state *)

(** The server with Bob's agent running on the store where he owes 40. *)
Definition bob_online : Server.State :=
  Server.mkState [(bob, ready_bank)] [] (owing_db 50).

(** ** Re-entrant [init()], in the words of the specification *)

(** The claim "a call of [init()] while the session is authenticated is a
    no-op", as the specification states it: the client is left as it is. *)
Definition init_is_noop_when_authenticated : Prop :=
  forall c, Bank.isAuthenticated c = true -> fst (Bank.init c) = c.

(** ** Amounts with a fractional part *)

(** The credit check of [borrow] and of [POST /borrow] as it runs on
    binary64 numbers: the [reduce] over the (limit, usage) pairs of the
    vouches, then [availableCredit < amount]. *)
Definition sum_available64 (vs : list (float * float)) : float :=
  fold_left (fun sum v => PrimFloat.add sum (PrimFloat.sub (fst v) (snd v))) vs
            PrimFloat.zero.

Definition insufficient_credit64 (amount : float) (vs : list (float * float)) : bool :=
  PrimFloat.ltb (sum_available64 vs) amount.

(** ** The round trip of a loan: repayments *)

(** The borrower repays the debts [ds] one after the other, each call of
    [repayDebt] awaited before the next is made: the debt [x] at the time
    [when x] with the amount [pays x]. *)
Definition settle_manually (cfg : Config) (borrower : string)
    (when pays : Debt -> Z) (ds : list Debt) (db : DB) : DB :=
  fold_left (fun d x => fst (Services.repayDebt cfg (when x) borrower
                               (debt_id_of x) (pays x) d)) ds db.

(** Transfers (with their times) to the agent of [u], each one handled to
    the end by the callback before the next one arrives. *)
Definition garnish_in_turn (cfg : Config) (u : string)
    (ts : list (Z * Bank.TransferData)) (st : DB * Bank.Client)
    : DB * Bank.Client :=
  fold_left (fun st t => fst (Server.garnish_transfer cfg (fst t) u (snd t)
                                (snd st) (fst st))) ts st.

(** [currentUser?.garnish_percentage ?? 50] *)
Definition garnish_percent (u : User) : Z :=
  match garnish_percentage u with
  | Some p => p
  | None => 50
  end.

(** At [p] percent, the garnish of the transfer [t] is all of the debt [d]. *)
Definition covers (p : Z) (t : Bank.TransferData) (d : Debt) : Prop :=
  JS.min_with (JS.floor_mul_percent (Bank.transfer_amount t) p) (original_amount d)
  = Some (original_amount d).

(** The round trip "borrow, then fully repay every resulting debt", as
    the specification states it, where the repaying is done by two
    transfers to the borrower that arrive in quick succession: no payment
    goes to any other debt, every debt created ends up paid, so every
    vouch is back at its usage before the borrow. *)
Definition round_trip_restores_usage : Prop :=
  forall cfg now borrower R days later first second bank db,
    vouch_keys_ok db -> debt_keys_ok db -> usage_nonneg db ->
    0 < R <= Services.getAvailableCredit borrower db ->
    let db1 := fst (Services.borrow now borrower R days db) in
    let created :=
      Services.borrow_debts (snd (Services.borrow now borrower R days db)) in
    let db2 := fst (fst (Server.garnish_overlapping cfg later (JS.toLowerCase borrower)
                           first second bank db1)) in
    (forall p, In p (payments db2) ->
               In p (payments db1) \/ among created (payment_debt_id p) = true) ->
    (forall d, In d created -> status_of db2 (debt_id_of d) = Some paid) ->
    map current_usage (vouches db2) = map current_usage (vouches db).

(** Alice vouches for Bob, who has drawn 100 on the vouch for 30 days. *)
Definition long_loan_db : DB :=
  mkDB [mkUser alice None 650 false (Some 50) true;
        mkUser bob None 650 false (Some 50) true]
       [mkVouch 1 alice bob 1000 100 true]
       [mkDebt 1 bob alice (Some 1%nat) 100 100 2592000000 30 active None]
       [] [] [] 1 1
       creation_order creation_order.

(** A change of the store that keeps, account by account, the address and
    the garnishing settings. *)
Definition keeps_settings (db db' : DB) : Prop :=
  exists g, users db' = map g (users db)
            /\ forall u, wallet_address (g u) = wallet_address u
                         /\ auto_repay_enabled (g u) = auto_repay_enabled u
                         /\ garnish_percentage (g u) = garnish_percentage u.

(** The rows [l'] are the rows [l], some of them paid off in between. *)
Definition settled_rows (l l' : list Debt) : Prop :=
  exists g, l' = map g l
            /\ forall y, g y = y \/ exists t, g y = Services.set_paid 0 t y.

(** The claim "createVouch on a pair that has its row raises the limit by
    [L]", as the specification states it: for every additional limit. *)
Definition createVouch_raises_by_any_limit : Prop :=
  forall voucher borrower L db existing,
    String.eqb (JS.toLowerCase voucher) (JS.toLowerCase borrower) = false ->
    vouch_keys_ok db -> unique_pairs db ->
    In existing (vouches db) ->
    voucher_address existing = JS.toLowerCase voucher ->
    borrower_address existing = JS.toLowerCase borrower ->
    0 < L ->
    option_map limit_amount (snd (Services.createVouch voucher borrower L db))
    = Some (limit_amount existing + L).

(* ================================================================== *)
(** * Part II. Properties                                               *)
(* ================================================================== *)

(** ** Rows, queries and updates *)

Section QueryFacts.

Context {A : Type}.
Variable key : A -> bool.
Variable f : A -> A.

(** The rows an [update ... where key] touches are the rows a
    [select ... where key] returns, when the update keeps the key. *)
Lemma filter_update_rows (l : list A) :
  (forall x, key (f x) = key x) ->
  filter key (map (fun x => if key x then f x else x) l) = map f (filter key l).
Proof.
  intros Hkey. induction l as [|x l IH]; simpl; [reflexivity|].
  destruct (key x) eqn:Hx.
  - rewrite Hkey, Hx. simpl. now rewrite IH.
  - rewrite Hx. exact IH.
Qed.

Lemma single_map (l : list A) (x : A) :
  Store.single l = Some x -> Store.single (map f l) = Some (f x).
Proof.
  destruct l as [|y [|z l]]; simpl; try discriminate.
  intros H. now inversion H.
Qed.

Lemma single_filter_In (l : list A) (x : A) :
  Store.single (filter key l) = Some x -> In x l /\ key x = true.
Proof.
  intros H.
  assert (Hin : In x (filter key l)).
  { destruct (filter key l) as [|y [|z r]]; simpl in H; try discriminate.
    inversion H. now left. }
  now apply filter_In in Hin.
Qed.

End QueryFacts.

Lemma filter_map_key {A} (key : A -> bool) (g : A -> A) (l : list A) :
  (forall x, key (g x) = key x) ->
  filter key (map g l) = map g (filter key l).
Proof.
  intros Hkey. induction l as [|x l IH]; simpl; [reflexivity|].
  rewrite Hkey. destruct (key x); simpl; now rewrite IH.
Qed.

(** ** The credit ledger *)

Section CreditLedger.

Import Store Services.
Variable cfg : Config.

Lemma clamp_score_in_range s : in_range (clamp_score s).
Proof. unfold in_range, clamp_score, CREDIT_SCORE.MIN, CREDIT_SCORE.MAX. lia. Qed.

(** [stripENS] rewrites the users with a function that keeps address and
    score; it leaves the history alone. *)
Lemma stripENS_users a db :
  exists g, users (stripENS cfg a db) = map g (users db)
            /\ forall u, wallet_address (g u) = wallet_address u
                         /\ credit_score (g u) = credit_score u.
Proof.
  unfold stripENS.
  destruct (user_by_address db (JS.toLowerCase a)) as [user|].
  2:{ exists (fun u => u). now rewrite map_id. }
  destruct (negb (ens_stripped user)).
  2:{ exists (fun u => u). now rewrite map_id. }
  exists (fun u => if String.eqb (wallet_address u) (JS.toLowerCase a)
                   then set_ens_stripped true u else u).
  split.
  - now destruct (contracts_configured cfg).
  - intros u. now destruct (String.eqb (wallet_address u) (JS.toLowerCase a)).
Qed.

Lemma stripENS_history a db :
  credit_history (stripENS cfg a db) = credit_history db.
Proof.
  unfold stripENS.
  destruct (user_by_address db (JS.toLowerCase a)) as [user|]; [|reflexivity].
  destruct (negb (ens_stripped user)); [|reflexivity].
  now destruct (contracts_configured cfg).
Qed.

Lemma user_by_address_map g db db' a u :
  users db' = map g (users db) ->
  (forall x, wallet_address (g x) = wallet_address x) ->
  user_by_address db a = Some u ->
  user_by_address db' a = Some (g u).
Proof.
  intros Hmap Hkey Hu. unfold user_by_address in *. rewrite Hmap.
  rewrite filter_map_key.
  - now apply single_map.
  - intros x. now rewrite Hkey.
Qed.

(** The users after one update: every row keeps its address, and its score
    is the old one or a clamped one. *)
Lemma updateCreditScore_users a delta why db :
  exists g, users (fst (updateCreditScore cfg a delta why db)) = map g (users db)
            /\ forall u, wallet_address (g u) = wallet_address u
                         /\ (credit_score (g u) = credit_score u
                             \/ in_range (credit_score (g u))).
Proof.
  unfold updateCreditScore.
  destruct (user_by_address db (JS.toLowerCase a)) as [user|] eqn:Huser.
  2:{ exists (fun u => u). simpl. rewrite map_id. auto. }
  set (new := Z.max _ _).
  set (db2 := insert_history _ _).
  set (db3 := if contracts_configured cfg then _ else db2).
  assert (H3 : users db3 =
               map (fun u => if String.eqb (wallet_address u) (JS.toLowerCase a)
                             then set_credit_score new u else u) (users db)).
  { subst db3 db2. now destruct (contracts_configured cfg). }
  assert (Hg : forall u,
             wallet_address (if String.eqb (wallet_address u) (JS.toLowerCase a)
                             then set_credit_score new u else u) = wallet_address u
             /\ (credit_score (if String.eqb (wallet_address u) (JS.toLowerCase a)
                               then set_credit_score new u else u) = credit_score u
                 \/ in_range (credit_score
                      (if String.eqb (wallet_address u) (JS.toLowerCase a)
                       then set_credit_score new u else u)))).
  { intros u. destruct (String.eqb (wallet_address u) (JS.toLowerCase a)); simpl.
    - split; [reflexivity|]. right. apply clamp_score_in_range.
    - auto. }
  simpl. destruct (new <? CREDIT_SCORE.ENS_STRIP_THRESHOLD).
  - destruct (stripENS_users (JS.toLowerCase a) db3) as [g [Hs Hgs]].
    eexists. split.
    + rewrite Hs, H3, map_map. reflexivity.
    + intros u. simpl. destruct (Hgs (if String.eqb (wallet_address u) (JS.toLowerCase a)
                             then set_credit_score new u else u)) as [Hw Hc].
      destruct (Hg u) as [Hw' Hc'].
      rewrite Hw, Hc. auto.
  - eexists. split; [exact H3|exact Hg].
Qed.

Lemma updateCreditScore_keeps_range a delta why db :
  scores_in_range db ->
  scores_in_range (fst (updateCreditScore cfg a delta why db)).
Proof.
  intros Hdb u' Hu'.
  destruct (updateCreditScore_users a delta why db) as [g [Hmap Hg]].
  rewrite Hmap in Hu'. apply in_map_iff in Hu' as [u [<- Hu]].
  destruct (Hg u) as [_ [Heq|Hr]]; [|exact Hr].
  rewrite Heq. now apply Hdb.
Qed.

Lemma run_updates_keeps_range updates : forall db,
  scores_in_range db -> scores_in_range (run_updates cfg updates db).
Proof.
  induction updates as [|[[a delta] why] updates IH]; intros db Hdb; [exact Hdb|].
  apply IH. now apply updateCreditScore_keeps_range.
Qed.

(** What one update does to an existing account. *)
Lemma updateCreditScore_effect a delta why db user :
  user_by_address db (JS.toLowerCase a) = Some user ->
  let new := clamp_score (credit_score user + delta) in
  let db' := fst (updateCreditScore cfg a delta why db) in
  snd (updateCreditScore cfg a delta why db) = new
  /\ (exists user', user_by_address db' (JS.toLowerCase a) = Some user'
                    /\ credit_score user' = new)
  /\ credit_history db' =
       credit_history db
       ++ [mkCreditHistory (JS.toLowerCase a) (credit_score user) new why].
Proof.
  intros Huser new db'. subst db'. unfold updateCreditScore. rewrite Huser.
  fold (clamp_score (credit_score user + delta)). fold new.
  set (db1 := update_user db _ _).
  set (db2 := insert_history _ _).
  set (db3 := if contracts_configured cfg then _ else db2).
  assert (Hu3 : user_by_address db3 (JS.toLowerCase a)
                = Some (set_credit_score new user)).
  { assert (Hus : users db3 = users db1)
      by (subst db3 db2; now destruct (contracts_configured cfg)).
    unfold user_by_address. rewrite Hus. subst db1. simpl.
    rewrite (filter_update_rows
               (fun u => String.eqb (wallet_address u) (JS.toLowerCase a))
               (set_credit_score new)) by reflexivity.
    now apply single_map. }
  assert (Hh3 : credit_history db3 =
                credit_history db
                ++ [mkCreditHistory (JS.toLowerCase a) (credit_score user) new why]).
  { subst db3 db2 db1. now destruct (contracts_configured cfg). }
  simpl. split; [reflexivity|].
  destruct (new <? CREDIT_SCORE.ENS_STRIP_THRESHOLD).
  - split.
    + destruct (stripENS_users (JS.toLowerCase a) db3) as [g [Hs Hg]].
      exists (g (set_credit_score new user)). split.
      * apply (user_by_address_map g db3); auto. intros x. apply Hg.
      * now rewrite (proj2 (Hg _)).
    + now rewrite stripENS_history.
  - split; [|exact Hh3]. now exists (set_credit_score new user).
Qed.

(** C4.  After any sequence of score updates, with deltas of either sign,
    every stored score is within 300..900 when the scores were so before
    (the CHECK constraint of the [users] table); and one more update of an
    existing account writes [clamp(old_score + delta, 300, 900)] and
    appends a history entry with the old and the new score. *)
Theorem credit_score_stays_in_range updates db a delta why :
  (forall u, In u (users db) -> 300 <= credit_score u <= 900) ->
  let db1 := run_updates cfg updates db in
  let db2 := fst (updateCreditScore cfg a delta why db1) in
  (forall u, In u (users db1) -> 300 <= credit_score u <= 900)
  /\ (forall u, In u (users db2) -> 300 <= credit_score u <= 900)
  /\ (forall user,
        user_by_address db1 (JS.toLowerCase a) = Some user ->
        let new := Z.max 300 (Z.min 900 (credit_score user + delta)) in
        snd (updateCreditScore cfg a delta why db1) = new
        /\ (exists user', user_by_address db2 (JS.toLowerCase a) = Some user'
                          /\ credit_score user' = new)
        /\ credit_history db2 =
             credit_history db1
             ++ [mkCreditHistory (JS.toLowerCase a) (credit_score user) new why]).
Proof.
  intros Hdb db1 db2.
  assert (H1 : scores_in_range db1) by exact (run_updates_keeps_range updates db Hdb).
  split; [exact H1|]. split.
  - exact (updateCreditScore_keeps_range a delta why db1 H1).
  - intros user Huser. exact (updateCreditScore_effect a delta why db1 user Huser).
Qed.

End CreditLedger.

Lemma credit_score_stays_in_range_witness :
  let db1 := run_updates with_contracts
               [(alice, 500, OtherReason "bonus"); (alice, -2000, LatePayment 1)]
               one_user_db in
  let db2 := fst (Services.updateCreditScore with_contracts alice 75 (PaidOnTime 1) db1) in
  (forall u, In u (users db1) -> 300 <= credit_score u <= 900)
  /\ (forall u, In u (users db2) -> 300 <= credit_score u <= 900)
  /\ (forall user,
        Store.user_by_address db1 (JS.toLowerCase alice) = Some user ->
        let new := Z.max 300 (Z.min 900 (credit_score user + 75)) in
        snd (Services.updateCreditScore with_contracts alice 75 (PaidOnTime 1) db1) = new
        /\ (exists user', Store.user_by_address db2 (JS.toLowerCase alice) = Some user'
                          /\ credit_score user' = new)
        /\ credit_history db2 =
             credit_history db1
             ++ [mkCreditHistory (JS.toLowerCase alice) (credit_score user) new
                                 (PaidOnTime 1)]).
Proof.
  apply (credit_score_stays_in_range with_contracts).
  intros u [<-|[]]. simpl. lia.
Defined.

Example credit_score_floor_reached :
  map credit_score
      (users (run_updates with_contracts
                [(alice, 500, OtherReason "bonus"); (alice, -2000, LatePayment 1)]
                one_user_db)) = [300]
  /\ map ens_stripped
         (users (run_updates with_contracts
                   [(alice, 500, OtherReason "bonus"); (alice, -2000, LatePayment 1)]
                   one_user_db)) = [true].
Proof. split; reflexivity. Qed.

(** ** Vouches: one row per (voucher, borrower) *)

Section VouchFacts.

Import Store Services.

Lemma filter_unique {A} (key : A -> bool) (l : list A) (x : A) :
  In x l -> key x = true -> (List.length (filter key l) <= 1)%nat ->
  filter key l = [x].
Proof.
  intros Hin Hk Hlen.
  assert (Hx : In x (filter key l)) by (apply filter_In; auto).
  destruct (filter key l) as [|y [|z r]]; simpl in *.
  - contradiction.
  - destruct Hx as [->|[]]. reflexivity.
  - lia.
Qed.

Lemma filter_none {A} (key : A -> bool) (l : list A) :
  existsb key l = false -> filter key l = [].
Proof.
  induction l as [|x l IH]; simpl; [reflexivity|].
  destruct (key x); simpl; [discriminate|exact IH].
Qed.

(** In a table with distinct keys, the query by key returns the row. *)
Lemma filter_by_key {A} (id : A -> nat) (l : list A) (x : A) :
  NoDup (map id l) -> In x l ->
  filter (fun y => Nat.eqb (id y) (id x)) l = [x].
Proof.
  induction l as [|y l IH]; simpl; intros Hnd Hin; [contradiction|].
  inversion Hnd as [|? ? Hnotin Hnd']; subst.
  destruct Hin as [->|Hin].
  - rewrite Nat.eqb_refl. f_equal.
    apply filter_none. apply not_true_iff_false. intros Hex.
    apply existsb_exists in Hex as [z [Hz Heq]]. apply Nat.eqb_eq in Heq.
    apply Hnotin. rewrite <- Heq. now apply in_map.
  - destruct (Nat.eqb (id y) (id x)) eqn:Heq.
    + apply Nat.eqb_eq in Heq. exfalso. apply Hnotin. rewrite Heq. now apply in_map.
    + now apply IH.
Qed.

Lemma same_pair_iff a b v :
  same_pair a b v = true <-> voucher_address v = a /\ borrower_address v = b.
Proof.
  unfold same_pair. rewrite andb_true_iff, !String.eqb_eq. reflexivity.
Qed.

(** [getOrCreateUser] writes to [users] only. *)
Lemma getOrCreateUser_vouches a ens db :
  vouches (fst (getOrCreateUser a ens db)) = vouches db
  /\ vouch_seq (fst (getOrCreateUser a ens db)) = vouch_seq db.
Proof.
  unfold getOrCreateUser.
  destruct (user_by_address db (JS.toLowerCase a)); [now split|].
  destruct (existsb _ (users db)); now split.
Qed.

(** An update that keeps the id and both addresses keeps the keys. *)
Lemma update_vouch_keys db i g :
  (forall v, vouch_id_of (g v) = vouch_id_of v) ->
  vouch_keys_ok db -> vouch_keys_ok (update_vouch db i g).
Proof.
  intros Hid [Hnd Hrange]. unfold vouch_keys_ok, update_vouch. simpl.
  assert (Hmap : map vouch_id_of
                   (map (fun v => if Nat.eqb (vouch_id_of v) i then g v else v)
                        (vouches db)) = map vouch_id_of (vouches db)).
  { rewrite map_map. apply map_ext. intros v.
    destruct (Nat.eqb (vouch_id_of v) i); [apply Hid|reflexivity]. }
  split.
  - now rewrite Hmap.
  - intros v Hv. apply in_map_iff in Hv as [w [<- Hw]].
    destruct (Nat.eqb (vouch_id_of w) i); [rewrite Hid|]; now apply Hrange.
Qed.

Lemma update_vouch_pairs db i g :
  (forall v, voucher_address (g v) = voucher_address v
             /\ borrower_address (g v) = borrower_address v) ->
  unique_pairs db -> unique_pairs (update_vouch db i g).
Proof.
  intros Hg Hu a b. unfold update_vouch. simpl.
  rewrite filter_map_key.
  - rewrite length_map. apply Hu.
  - intros v. unfold same_pair.
    destruct (Nat.eqb (vouch_id_of v) i); [|reflexivity].
    destruct (Hg v) as [-> ->]. reflexivity.
Qed.

Lemma insert_vouch_keys db mk :
  (forall i, vouch_id_of (mk i) = i) ->
  vouch_keys_ok db -> vouch_keys_ok (fst (insert_vouch db mk)).
Proof.
  unfold insert_vouch. intros Hmk [Hnd Hrange].
  destruct (_ && _)%bool; unfold vouch_keys_ok; simpl; split.
  - rewrite map_app. simpl. rewrite Hmk.
    apply NoDup_app; [exact Hnd|repeat constructor; simpl; tauto|].
    intros i Hi [<-|[]]. apply in_map_iff in Hi as [w [Hw Hin]].
    apply Hrange in Hin. lia.
  - intros w Hw. apply in_app_or in Hw as [Hw|[<-|[]]].
    + apply Hrange in Hw. lia.
    + rewrite Hmk. lia.
  - exact Hnd.
  - intros w Hw. apply Hrange in Hw. lia.
Qed.

Lemma insert_vouch_pairs db mk :
  unique_pairs db -> unique_pairs (fst (insert_vouch db mk)).
Proof.
  unfold insert_vouch. intros Hu a b.
  destruct (fits_decimal_18_6 _); simpl; [|apply Hu].
  destruct (0 <? _); simpl; [|apply Hu].
  destruct (existsb _ (vouches db)) eqn:Hex; simpl; [apply Hu|].
  rewrite filter_app, length_app. simpl.
  destruct (same_pair a b (mk (S (vouch_seq db)))) eqn:Hp; simpl.
  - apply same_pair_iff in Hp as [<- <-].
    rewrite (filter_none _ _ Hex). simpl. lia.
  - specialize (Hu a b). lia.
Qed.

Lemma createVouch_keeps_keys v b L db :
  vouch_keys_ok db -> vouch_keys_ok (fst (createVouch v b L db)).
Proof.
  intros Hk. unfold createVouch.
  destruct (String.eqb _ _); [exact Hk|].
  set (db1 := fst (getOrCreateUser _ None db)).
  set (db2 := fst (getOrCreateUser _ None db1)).
  assert (Hk2 : vouch_keys_ok db2).
  { unfold vouch_keys_ok. subst db2.
    destruct (getOrCreateUser_vouches (JS.toLowerCase b) None db1) as [-> ->].
    subst db1.
    destruct (getOrCreateUser_vouches (JS.toLowerCase v) None db) as [-> ->].
    exact Hk. }
  destruct (single _) as [existing|].
  - destruct (_ && _)%bool; simpl; [|exact Hk2].
    now apply update_vouch_keys.
  - now apply insert_vouch_keys.
Qed.

Lemma createVouch_keeps_pairs v b L db :
  unique_pairs db -> unique_pairs (fst (createVouch v b L db)).
Proof.
  intros Hu. unfold createVouch.
  destruct (String.eqb _ _); [exact Hu|].
  set (db1 := fst (getOrCreateUser _ None db)).
  set (db2 := fst (getOrCreateUser _ None db1)).
  assert (Hu2 : unique_pairs db2).
  { unfold unique_pairs. subst db2.
    destruct (getOrCreateUser_vouches (JS.toLowerCase b) None db1) as [-> _].
    subst db1.
    destruct (getOrCreateUser_vouches (JS.toLowerCase v) None db) as [-> _].
    exact Hu. }
  destruct (single _) as [existing|].
  - destruct (_ && _)%bool; simpl; [|exact Hu2].
    apply update_vouch_pairs; auto.
  - now apply insert_vouch_pairs.
Qed.

Lemma run_vouches_keeps_pairs calls : forall db,
  unique_pairs db -> unique_pairs (run_vouches calls db).
Proof.
  induction calls as [|[[v b] L] calls IH]; intros db Hu; [exact Hu|].
  apply IH. now apply createVouch_keeps_pairs.
Qed.

(** C10.  When the pair (voucher, borrower) already has its vouch row,
    [createVouch] with an additional limit [L] creates no second row.
    When the raised limit is a value the column takes, positive
    ([CHECK (limit_amount > 0)]) and below 10^12 ([DECIMAL(18, 6)]), the
    existing row gets [limit_amount + L] and [is_active = true], and its
    [current_usage] and every other row stay as they were.  Otherwise the
    update is refused: the answer is null and no vouch row changes.
    Whatever vouches are created afterwards, no pair ever has more than
    one row. *)
Theorem createVouch_raises_existing voucher borrower L db existing :
  String.eqb (JS.toLowerCase voucher) (JS.toLowerCase borrower) = false ->
  vouch_keys_ok db ->
  unique_pairs db ->
  In existing (vouches db) ->
  voucher_address existing = JS.toLowerCase voucher ->
  borrower_address existing = JS.toLowerCase borrower ->
  let db' := fst (createVouch voucher borrower L db) in
  (0 < limit_amount existing + L < 10 ^ 12 ->
   snd (createVouch voucher borrower L db) = Some (raised existing L)
   /\ vouches db' =
        map (fun v => if Nat.eqb (vouch_id_of v) (vouch_id_of existing)
                      then raised existing L else v) (vouches db)
   /\ filter (same_pair (JS.toLowerCase voucher) (JS.toLowerCase borrower))
             (vouches db') = [raised existing L]
   /\ current_usage (raised existing L) = current_usage existing
   /\ limit_amount (raised existing L) = limit_amount existing + L
   /\ is_active (raised existing L) = true)
  /\ (limit_amount existing + L <= 0 \/ 10 ^ 12 <= limit_amount existing + L ->
      snd (createVouch voucher borrower L db) = None
      /\ vouches db' = vouches db)
  /\ List.length (vouches db') = List.length (vouches db)
  /\ (forall calls, unique_pairs (run_vouches calls db')).
Proof.
  intros Hne Hkeys Hpairs Hin Hv Hb db'.
  assert (Hpairs' : unique_pairs db')
    by (apply createVouch_keeps_pairs; exact Hpairs).
  subst db'. revert Hpairs'. unfold createVouch. rewrite Hne.
  set (db1 := fst (getOrCreateUser _ None db)).
  set (db2 := fst (getOrCreateUser _ None db1)).
  assert (Hv2 : vouches db2 = vouches db).
  { subst db2.
    destruct (getOrCreateUser_vouches (JS.toLowerCase borrower) None db1) as [-> _].
    subst db1.
    now destruct (getOrCreateUser_vouches (JS.toLowerCase voucher) None db) as [-> _]. }
  assert (Hsel : filter (same_pair (JS.toLowerCase voucher) (JS.toLowerCase borrower))
                        (vouches db) = [existing]).
  { apply filter_unique; auto. now apply same_pair_iff. }
  rewrite Hv2, Hsel. unfold single.
  destruct (fits_decimal_18_6 (limit_amount existing + L)
            && (0 <? limit_amount existing + L))%bool eqn:Hok.
  2:{ cbv beta iota. simpl fst. simpl snd. intros Hpairs'.
      split; [|split; [|split]].
      - intros Hrange. exfalso.
        assert (Ht : (fits_decimal_18_6 (limit_amount existing + L)
                      && (0 <? limit_amount existing + L))%bool = true).
        { unfold fits_decimal_18_6. apply andb_true_iff.
          split; apply Z.ltb_lt; lia. }
        congruence.
      - intros _. now split.
      - now rewrite Hv2.
      - intros calls. now apply run_vouches_keeps_pairs. }
  assert (Hcheck : 0 < limit_amount existing + L < 10 ^ 12).
  { apply andb_true_iff in Hok as [H1 H2]. unfold fits_decimal_18_6 in H1.
    apply Z.ltb_lt in H1, H2. lia. }
  cbv beta iota. simpl fst. simpl snd.
  intros Hpairs'.
  assert (Hsame : forall w, In w (vouches db) ->
                    Nat.eqb (vouch_id_of w) (vouch_id_of existing) = true ->
                    w = existing).
  { intros w Hw Heq. destruct Hkeys as [Hnd _].
    pose proof (filter_by_key vouch_id_of (vouches db) existing Hnd Hin) as Hf.
    assert (Hwf : In w (filter (fun y => Nat.eqb (vouch_id_of y) (vouch_id_of existing))
                           (vouches db)))
      by (apply filter_In; split; assumption).
    rewrite Hf in Hwf. now destruct Hwf as [->|[]]. }
  assert (Hrows : vouches (update_vouch db2 (vouch_id_of existing)
                             (set_limit_active (limit_amount existing + L)))
                  = map (fun v => if Nat.eqb (vouch_id_of v) (vouch_id_of existing)
                                  then raised existing L else v) (vouches db)).
  { unfold update_vouch. simpl. rewrite Hv2. apply map_ext_in. intros w Hw.
    destruct (Nat.eqb (vouch_id_of w) (vouch_id_of existing)) eqn:Heq; [|reflexivity].
    rewrite (Hsame w Hw Heq). reflexivity. }
  set (g := fun v => if Nat.eqb (vouch_id_of v) (vouch_id_of existing)
                      then set_limit_active (limit_amount existing + L) v else v).
  assert (Hg : g existing = raised existing L)
    by (unfold g; now rewrite Nat.eqb_refl).
  assert (Hupd : vouches (update_vouch db2 (vouch_id_of existing)
                            (set_limit_active (limit_amount existing + L)))
                 = map g (vouches db))
    by (unfold update_vouch; simpl; now rewrite Hv2).
  assert (Hbyid : filter (fun y => Nat.eqb (vouch_id_of y) (vouch_id_of existing))
                    (map g (vouches db)) = [raised existing L]).
  { rewrite filter_map_key.
    - destruct Hkeys as [Hnd _].
      rewrite (filter_by_key vouch_id_of _ _ Hnd Hin). simpl. now rewrite Hg.
    - intros x. unfold g.
      destruct (Nat.eqb (vouch_id_of x) (vouch_id_of existing)) eqn:E; simpl; auto. }
  assert (Hbypair : filter (same_pair (JS.toLowerCase voucher) (JS.toLowerCase borrower))
                      (map g (vouches db)) = [raised existing L]).
  { rewrite filter_map_key.
    - rewrite Hsel. simpl. now rewrite Hg.
    - intros x. unfold g.
      now destruct (Nat.eqb (vouch_id_of x) (vouch_id_of existing)). }
  split; [|split; [|split]].
  - intros _. repeat split; auto.
    + unfold vouch_by_id. rewrite Hupd, Hbyid. reflexivity.
    + rewrite Hupd. exact Hbypair.
  - intros Hout. exfalso. lia.
  - rewrite Hrows. apply length_map.
  - intros calls. now apply run_vouches_keeps_pairs.
Qed.

End VouchFacts.

Lemma vouched_db_keys : vouch_keys_ok vouched_db.
Proof.
  split.
  - simpl. repeat constructor. simpl. tauto.
  - intros v [<-|[]]. simpl. lia.
Defined.

Lemma vouched_db_pairs : unique_pairs vouched_db.
Proof.
  intros a b. simpl. destruct (Store.same_pair a b old_vouch); simpl; lia.
Defined.

Lemma createVouch_raises_existing_witness :
  let db' := fst (Services.createVouch "0xA11CE" "0xB0B" 500 vouched_db) in
  snd (Services.createVouch "0xA11CE" "0xB0B" 500 vouched_db)
    = Some (raised old_vouch 500)
  /\ vouches db' =
       map (fun v => if Nat.eqb (vouch_id_of v) (vouch_id_of old_vouch)
                     then raised old_vouch 500 else v) (vouches vouched_db)
  /\ filter (Store.same_pair (JS.toLowerCase "0xA11CE") (JS.toLowerCase "0xB0B"))
            (vouches db') = [raised old_vouch 500]
  /\ current_usage (raised old_vouch 500) = current_usage old_vouch
  /\ limit_amount (raised old_vouch 500) = limit_amount old_vouch + 500
  /\ is_active (raised old_vouch 500) = true
  /\ List.length (vouches db') = List.length (vouches vouched_db)
  /\ (forall calls, unique_pairs (run_vouches calls db'))
  /\ snd (Services.createVouch "0xA11CE" "0xB0B" (-1000) vouched_db) = None
  /\ vouches (fst (Services.createVouch "0xA11CE" "0xB0B" (-1000) vouched_db))
     = vouches vouched_db.
Proof.
  assert (Hin : In old_vouch (vouches vouched_db)) by (simpl; auto).
  destruct (createVouch_raises_existing "0xA11CE" "0xB0B" 500 vouched_db old_vouch
              eq_refl vouched_db_keys vouched_db_pairs Hin eq_refl eq_refl)
    as (Hraise & _ & Hlen & Hall).
  destruct (createVouch_raises_existing "0xA11CE" "0xB0B" (-1000) vouched_db old_vouch
              eq_refl vouched_db_keys vouched_db_pairs Hin eq_refl eq_refl)
    as (_ & Hrefused & _).
  destruct Hraise as (H1 & H2 & H3 & H4 & H5 & H6); [simpl; lia|].
  destruct Hrefused as (H7 & H8); [left; simpl; lia|].
  repeat split; assumption.
Defined.

(** C10 fails on the code for a raise that takes the limit out of the
    range of its column: Alice's vouch of 1000 for Bob, raised by
    10^12 - 1000.  The update is refused, the answer is null and the
    limit stays at 1000. *)
Lemma createVouch_refused_beyond_range : ~ createVouch_raises_by_any_limit.
Proof.
  intros H.
  assert (Hin : In old_vouch (vouches vouched_db)) by (simpl; auto).
  specialize (H alice bob (10 ^ 12 - 1000) vouched_db old_vouch eq_refl
                vouched_db_keys vouched_db_pairs Hin eq_refl eq_refl eq_refl).
  vm_compute in H. discriminate H.
Qed.

Example createVouch_raise_beyond_range :
  Services.createVouch alice bob (10 ^ 12 - 1000) vouched_db = (vouched_db, None).
Proof. reflexivity. Qed.

Example createVouch_twice :
  vouches (run_vouches [(alice, bob, 1000); (carol, bob, 700); (alice, bob, 500)]
                       empty_db)
  = [mkVouch 1 alice bob 1500 0 true; mkVouch 2 carol bob 700 0 true].
Proof. reflexivity. Qed.

(** ** What the credit ledger leaves alone *)

Section LedgerFrame.

Import Store Services.
Variable cfg : Config.

Lemma stripENS_frame a db :
  vouches (stripENS cfg a db) = vouches db
  /\ debts (stripENS cfg a db) = debts db
  /\ payments (stripENS cfg a db) = payments db
  /\ debt_seq (stripENS cfg a db) = debt_seq db
  /\ vouch_seq (stripENS cfg a db) = vouch_seq db.
Proof.
  unfold stripENS.
  destruct (user_by_address db (JS.toLowerCase a)) as [user|]; [|tauto].
  destruct (negb (ens_stripped user)); [|tauto].
  destruct (contracts_configured cfg); simpl; tauto.
Qed.

Lemma updateCreditScore_frame a delta why db :
  let db' := fst (updateCreditScore cfg a delta why db) in
  vouches db' = vouches db
  /\ debts db' = debts db
  /\ payments db' = payments db
  /\ debt_seq db' = debt_seq db
  /\ vouch_seq db' = vouch_seq db.
Proof.
  unfold updateCreditScore.
  destruct (user_by_address db (JS.toLowerCase a)) as [user|]; [|simpl; tauto].
  cbv zeta. simpl fst.
  match goal with |- context [if ?b then stripENS _ _ ?d else _] =>
    set (db3 := d); destruct b end.
  - destruct (stripENS_frame (JS.toLowerCase a) db3) as (-> & -> & -> & -> & ->).
    subst db3. destruct (contracts_configured cfg); simpl; tauto.
  - subst db3. destruct (contracts_configured cfg); simpl; tauto.
Qed.

Lemma updateCreditScore_has_user a delta why db b :
  has_user db b -> has_user (fst (updateCreditScore cfg a delta why db)) b.
Proof.
  intros [u Hu].
  destruct (updateCreditScore_users cfg a delta why db) as [g [Hmap Hg]].
  exists (g u). apply (user_by_address_map g db); auto. intros x. apply Hg.
Qed.

(** The history after an update of an existing account. *)
Lemma updateCreditScore_history a delta why db :
  has_user db a ->
  exists h, credit_history (fst (updateCreditScore cfg a delta why db))
            = credit_history db ++ [h]
            /\ reason h = why
            /\ new_score h = clamp_score (old_score h + delta).
Proof.
  intros [u Hu].
  destruct (updateCreditScore_effect cfg a delta why db u Hu) as (_ & _ & Hh).
  eexists. split; [exact Hh|]. split; reflexivity.
Qed.

End LedgerFrame.

(** ** The overdue sweep *)

Section OverdueSweep.

Import Store Services.
Variable cfg : Config.

Lemma swept_nil x : swept [] x = x.
Proof. reflexivity. Qed.

Lemma swept_id L x : debt_id_of (swept L x) = debt_id_of x.
Proof. unfold swept. now destruct (existsb _ L). Qed.

Lemma swept_borrower L x : debt_borrower (swept L x) = debt_borrower x.
Proof. unfold swept. now destruct (existsb _ L). Qed.

(** The loop marks the selected debts and logs one penalty per debt. *)
Lemma sweep_effect (L : list Debt) : forall db n,
  (forall x, In x L -> has_user db (debt_borrower x)) ->
  let db' := fst (sweep cfg L db n) in
  debts db' = map (swept L) (debts db)
  /\ (forall b, has_user db b -> has_user db' b)
  /\ exists extra,
       credit_history db' = credit_history db ++ extra
       /\ map reason extra = map (fun x => LatePayment (debt_id_of x)) L
       /\ Forall (fun h => new_score h
                           = clamp_score (old_score h - CREDIT_SCORE.LATE_PAYMENT_PENALTY))
                 extra.
Proof.
  induction L as [|d L IH]; intros db n Husers; simpl.
  - split; [now rewrite (map_ext _ (fun x => x) swept_nil), map_id|].
    split; [auto|]. exists []. rewrite app_nil_r. auto.
  - set (db1 := update_debt db (debt_id_of d) (set_status overdue)).
    set (db2 := fst (updateCreditScore cfg (debt_borrower d) _ _ db1)).
    assert (Hkeep1 : forall b, has_user db b -> has_user db1 b)
      by (intros b Hb; exact Hb).
    assert (Hkeep2 : forall b, has_user db b -> has_user db2 b)
      by (intros b Hb; apply updateCreditScore_has_user; auto).
    destruct (IH db2 (n + 1)) as (Hd & Hu & extra & Hh & Hr & Hf).
    { intros x Hx. apply Hkeep2, Husers. now right. }
    assert (Hd2 : debts db2 = debts db1)
      by (unfold db2; apply updateCreditScore_frame).
    split; [|split].
    + rewrite Hd, Hd2.
      unfold db1, update_debt. simpl. rewrite map_map. apply map_ext.
      intros x. unfold swept. simpl.
      destruct (Nat.eqb (debt_id_of x) (debt_id_of d)) eqn:Hx; simpl.
      * now destruct (existsb _ L).
      * reflexivity.
    + intros b Hb. apply Hu, Hkeep2, Hb.
    + assert (Hh2 : exists h, credit_history db2 = credit_history db1 ++ [h]
                      /\ reason h = LatePayment (debt_id_of d)
                      /\ new_score h = clamp_score
                           (old_score h + - CREDIT_SCORE.LATE_PAYMENT_PENALTY)).
      { unfold db2. apply updateCreditScore_history. apply Hkeep1, Husers. now left. }
      destruct Hh2 as (h & Hh1 & Hr1 & Hn1).
      exists (h :: extra). split; [|split].
      * rewrite Hh, Hh1. unfold db1. simpl. now rewrite <- app_assoc.
      * simpl. now rewrite Hr1, Hr.
      * constructor; [|exact Hf]. rewrite Hn1. f_equal.
Qed.

Lemma NoDup_map_filter {A} (id : A -> nat) (p : A -> bool) (l : list A) :
  NoDup (map id l) -> NoDup (map id (filter p l)).
Proof.
  induction l as [|x l IH]; simpl; intros Hnd; [constructor|].
  inversion Hnd as [|? ? Hnotin Hnd']; subst.
  destruct (p x); simpl; [|auto].
  constructor; [|auto].
  intros Hin. apply Hnotin. apply in_map_iff in Hin as [y [Hy Hin]].
  apply filter_In in Hin as [Hin _]. rewrite <- Hy. now apply in_map.
Qed.

Lemma penalties_count i (extra : list CreditHistory) (L : list Debt) :
  map reason extra = map (fun x => LatePayment (debt_id_of x)) L ->
  List.length (filter (is_penalty_for i) extra)
  = List.length (filter (fun x => Nat.eqb (debt_id_of x) i) L).
Proof.
  revert L. induction extra as [|h extra IH]; intros [|x L] H; simpl in *;
    try discriminate; [reflexivity|].
  inversion H as [[Hh Ht]]. unfold is_penalty_for at 1. rewrite Hh. simpl.
  destruct (Nat.eqb (debt_id_of x) i); simpl; now rewrite (IH L Ht).
Qed.

Lemma debt_by_id_In db d :
  NoDup (map debt_id_of (debts db)) -> In d (debts db) ->
  debt_by_id db (debt_id_of d) = Some d.
Proof.
  intros Hnd Hin. unfold debt_by_id.
  now rewrite (filter_by_key debt_id_of _ _ Hnd Hin).
Qed.

(** One run of the job on a store that satisfies the keys of the schema. *)
Lemma checkOverdueDebts_effect now db :
  borrowers_exist db ->
  let L := filter (is_overdue_at now) (debts db) in
  let db' := fst (checkOverdueDebts cfg now db) in
  debts db' = map (swept L) (debts db)
  /\ borrowers_exist db'
  /\ forall i, penalties db' i
               = (penalties db i
                  + List.length (filter (fun x => Nat.eqb (debt_id_of x) i) L))%nat.
Proof.
  intros Hfk L db'.
  destruct (sweep_effect (filter (is_overdue_at now) (debts db)) db 0)
    as (Hd & Hu & extra & Hh & Hr & _).
  { intros x Hx. apply filter_In in Hx as [Hx _]. now apply Hfk. }
  fold L in Hd, Hu, Hh, Hr.
  change (fst (sweep cfg L db 0)) with db' in Hd, Hu, Hh.
  split; [exact Hd|]. split.
  - intros x Hx. rewrite Hd in Hx. apply in_map_iff in Hx as [y [<- Hy]].
    rewrite swept_borrower. apply Hu. now apply Hfk.
  - intros i. unfold penalties. rewrite Hh, filter_app, length_app.
    now rewrite (penalties_count i extra L Hr).
Qed.

(** A debt that is already overdue is not selected, and keeps its state. *)
Lemma checkOverdueDebts_keeps_overdue now db i k :
  NoDup (map debt_id_of (debts db)) ->
  borrowers_exist db ->
  status_of db i = Some overdue ->
  penalties db i = k ->
  let db' := fst (checkOverdueDebts cfg now db) in
  NoDup (map debt_id_of (debts db'))
  /\ borrowers_exist db'
  /\ status_of db' i = Some overdue
  /\ penalties db' i = k.
Proof.
  intros Hnd Hfk Hst Hk db'.
  destruct (checkOverdueDebts_effect now db Hfk) as (Hd & Hfk' & Hp).
  fold db' in Hd, Hfk', Hp.
  set (L := filter (is_overdue_at now) (debts db)) in *.
  assert (Hids : map debt_id_of (debts db') = map debt_id_of (debts db)).
  { rewrite Hd, map_map. apply map_ext. intros x. apply swept_id. }
  unfold status_of, debt_by_id in Hst.
  destruct (filter (fun d => Nat.eqb (debt_id_of d) i) (debts db))
    as [|d [|e r]] eqn:Hsel; simpl in Hst; try discriminate.
  inversion Hst as [Hov]. clear Hst.
  split; [now rewrite Hids|]. split; [exact Hfk'|]. split.
  - unfold status_of, debt_by_id. rewrite Hd.
    rewrite filter_map_key by (intros x; now rewrite swept_id).
    rewrite Hsel. simpl. unfold swept.
    destruct (existsb _ L); simpl; now rewrite Hov.
  - rewrite Hp, Hk.
    assert (Hnone : filter (fun x => Nat.eqb (debt_id_of x) i) L = []).
    { unfold L. 
      assert (Hcomm : forall (l : list Debt),
                 filter (fun x => Nat.eqb (debt_id_of x) i) (filter (is_overdue_at now) l)
                 = filter (is_overdue_at now)
                     (filter (fun x => Nat.eqb (debt_id_of x) i) l)).
      { induction l as [|x l IHl]; simpl; [reflexivity|].
        destruct (is_overdue_at now x) eqn:E1;
          destruct (Nat.eqb (debt_id_of x) i) eqn:E2; simpl;
          rewrite ?E1, ?E2, IHl; reflexivity. }
      rewrite Hcomm, Hsel. simpl. unfold is_overdue_at. now rewrite Hov. }
    rewrite Hnone. simpl. lia.
Qed.

Lemma run_sweeps_keep_overdue times : forall db i k,
  NoDup (map debt_id_of (debts db)) ->
  borrowers_exist db ->
  status_of db i = Some overdue ->
  penalties db i = k ->
  status_of (run_sweeps cfg times db) i = Some overdue
  /\ penalties (run_sweeps cfg times db) i = k.
Proof.
  induction times as [|t times IH]; intros db i k Hnd Hfk Hst Hk; [now split|].
  simpl.
  destruct (checkOverdueDebts_keeps_overdue t db i k Hnd Hfk Hst Hk) as (H1 & H2 & H3 & H4).
  now apply IH.
Qed.


End OverdueSweep.

(** ** Repayment, manual and by garnishment *)

Section Repayment.

Import Store Services.
Variable cfg : Config.

Lemma update_debt_rows db i f :
  debts (update_debt db i f) = map (at_id debt_id_of i f) (debts db).
Proof. reflexivity. Qed.

Lemma update_vouch_rows db i f :
  vouches (update_vouch db i f) = map (at_id vouch_id_of i f) (vouches db).
Proof. reflexivity. Qed.

Lemma release_vouch_frame debt db :
  debts (release_vouch debt db) = debts db
  /\ users (release_vouch debt db) = users db
  /\ payments (release_vouch debt db) = payments db
  /\ credit_history (release_vouch debt db) = credit_history db.
Proof.
  unfold release_vouch. destruct (truthy_id (vouch_id debt)) as [vid|]; [|tauto].
  destruct (vouch_by_id db vid); simpl; tauto.
Qed.

(** The release reads and writes [vouches] only. *)
Lemma release_vouch_vouches debt db1 db :
  vouches db1 = vouches db ->
  vouches (release_vouch debt db1) = vouches (release_vouch debt db).
Proof.
  intros H. unfold release_vouch.
  destruct (truthy_id (vouch_id debt)) as [vid|]; [|exact H].
  unfold vouch_by_id. rewrite H.
  destruct (single _); [|exact H].
  unfold update_vouch. simpl. now rewrite H.
Qed.

Lemma DebtStatus_eqb_eq a b : DebtStatus_eqb a b = true <-> a = b.
Proof. destruct a, b; simpl; split; intros H; try reflexivity; discriminate. Qed.

Lemma repayDebt_cases now b i amount db :
  RepayCase now i amount db (fst (repayDebt cfg now b i amount db)).
Proof.
  unfold repayDebt.
  destruct (single _) as [debt|] eqn:Hsel; [|now apply RepayRefused].
  apply single_filter_In in Hsel as [Hin Hkey].
  apply andb_true_iff in Hkey as [Hid _]. apply Nat.eqb_eq in Hid.
  destruct (DebtStatus_eqb (status debt) paid) eqn:Hpaid; [now apply RepayRefused|].
  assert (Hnp : status debt <> paid).
  { intros E. apply DebtStatus_eqb_eq in E. congruence. }
  cbv zeta.
  destruct (amount_owed debt - Z.min amount (amount_owed debt) =? 0) eqn:Hz.
  - apply Z.eqb_eq in Hz. rewrite Hz.
    apply (RepayFull now i amount _ _ debt); auto; [lia| |].
    + simpl fst. rewrite update_debt_rows. f_equal.
      destruct (now <=? due_date debt).
      * match goal with |- debts (fst (updateCreditScore ?c ?a ?d ?w ?x)) = _ =>
          destruct (updateCreditScore_frame c a d w x) as (_ & -> & _) end.
        now destruct (release_vouch_frame debt
                        (insert_payment db (mkPayment i (Z.min amount (amount_owed debt)) full)))
          as (-> & _).
      * now destruct (release_vouch_frame debt
                        (insert_payment db (mkPayment i (Z.min amount (amount_owed debt)) full)))
          as (-> & _).
    + simpl fst. unfold update_debt. simpl.
      destruct (now <=? due_date debt).
      * match goal with |- vouches (fst (updateCreditScore ?c ?a ?d ?w ?x)) = _ =>
          destruct (updateCreditScore_frame c a d w x) as (-> & _) end.
        now apply release_vouch_vouches.
      * now apply release_vouch_vouches.
  - apply Z.eqb_neq in Hz.
    apply (RepayPartial now i amount _ _ debt); auto.
Qed.

End Repayment.

Section GarnishCases.

Import Store Services Server.
Variable cfg : Config.

Lemma insert_by_due_In ties d x l :
  In x (insert_by_due ties d l) <-> x = d \/ In x l.
Proof.
  induction l as [|e l IH]; simpl.
  - intuition.
  - destruct (_ || _)%bool; simpl; rewrite ?IH; intuition.
Qed.

Lemma order_by_due_asc_In ties x l : In x (order_by_due_asc ties l) <-> In x l.
Proof.
  induction l as [|d l IH]; simpl; [reflexivity|].
  unfold order_by_due_asc in *. simpl. rewrite insert_by_due_In, IH. intuition.
Qed.

Lemma outstanding_debts_In u db x :
  In x (outstanding_debts u db) ->
  In x (debts db) /\ debt_borrower x = u /\ outstanding (status x) = true.
Proof.
  unfold outstanding_debts. rewrite order_by_due_asc_In, filter_In.
  intros [Hin Hk]. apply andb_true_iff in Hk as [Hb Ho].
  apply String.eqb_eq in Hb. auto.
Qed.

Lemma garnish_paid_off_frame now u debt db :
  debts (garnish_paid_off cfg now u debt db)
  = map (at_id debt_id_of (debt_id_of debt) (set_paid 0 now)) (debts db)
  /\ vouches (garnish_paid_off cfg now u debt db) = vouches (release_vouch debt db)
  /\ payments (garnish_paid_off cfg now u debt db) = payments db.
Proof.
  unfold garnish_paid_off.
  set (db1 := update_debt db (debt_id_of debt) (set_paid 0 now)).
  set (db2 := release_vouch debt db1).
  set (db3 := if now <=? due_date debt then _ else db2).
  assert (H3 : debts db3 = debts db2 /\ vouches db3 = vouches db2
               /\ payments db3 = payments db2).
  { unfold db3. destruct (now <=? due_date debt); [|tauto].
    match goal with |- context [updateCreditScore ?c ?a ?d ?w ?x] =>
      destruct (updateCreditScore_frame c a d w x) as (-> & -> & -> & _) end.
    tauto. }
  destruct H3 as (Hd3 & Hv3 & Hp3).
  destruct (release_vouch_frame debt db1) as (Hd2 & _ & Hp2 & _).
  fold db2 in Hd2, Hp2.
  assert (Hv2 : vouches db2 = vouches (release_vouch debt db))
    by (unfold db2; now apply release_vouch_vouches).
  destruct (filter _ (debts db3)).
  - destruct (contracts_configured cfg); simpl;
      rewrite Hd3, Hv3, Hp3, Hd2, Hv2, Hp2; auto.
  - rewrite Hd3, Hv3, Hp3, Hd2, Hv2, Hp2. auto.
Qed.

Lemma garnish_transfer_cases now u transfer bank db :
  GarnishCase now u db
    (fst (fst (garnish_transfer cfg now u transfer bank db)))
    (snd (garnish_transfer cfg now u transfer bank db)).
Proof.
  unfold garnish_transfer.
  destruct (user_by_address db u) as [currentUser|]; [|now apply GarnishNothing].
  destruct (negb (auto_repay_enabled currentUser)); [now apply GarnishNothing|].
  destruct (outstanding_debts u db) as [|activeDebt rest] eqn:Hout;
    [now apply GarnishNothing|].
  assert (Hact : In activeDebt (outstanding_debts u db))
    by (rewrite Hout; now left).
  apply outstanding_debts_In in Hact as (Hin & Hb & Ho).
  cbv zeta.
  destruct (JS.min_with _ (amount_owed activeDebt)) as [g|] eqn:Hg;
    [|now apply GarnishNothing].
  destruct (truthy_string (VAULT_ADDRESS cfg)) as [vault|];
    [|now apply GarnishNothing].
  destruct (0 <? g) eqn:Hpos; [|now apply GarnishNothing].
  apply Z.ltb_lt in Hpos.
  destruct (Bank.sendTransfer vault g _) as [bank2 [err|]];
    [now apply GarnishNothing|].
  assert (Hle : g <= amount_owed activeDebt).
  { unfold JS.min_with in Hg.
    destruct (JS.floor_mul_percent _ _); inversion Hg; lia. }
  destruct (Z.max 0 (amount_owed activeDebt - g) =? 0) eqn:Hz.
  - apply Z.eqb_eq in Hz. assert (g = amount_owed activeDebt) by lia. subst g.
    destruct (garnish_paid_off_frame now u activeDebt
                (insert_payment db (mkPayment (debt_id_of activeDebt)
                                      (amount_owed activeDebt) garnish)))
      as (Hd & Hv & Hp).
    apply (GarnishFull now u _ _ _ activeDebt); auto.
    simpl fst. rewrite Hv. now apply release_vouch_vouches.
  - apply Z.eqb_neq in Hz.
    apply (GarnishPartial now u _ _ _ activeDebt g); auto; try lia.
    simpl fst. rewrite update_debt_rows. simpl.
    replace (Z.max 0 (amount_owed activeDebt - g))
      with (amount_owed activeDebt - g) by lia.
    reflexivity.
Qed.

End GarnishCases.

(** ** The life cycle of a debt *)

Section DebtLifeCycle.

Import Store Services Server.
Variable cfg : Config.

Lemma same_id_same_row {A} (id : A -> nat) (l : list A) (x y : A) :
  NoDup (map id l) -> In x l -> In y l -> id x = id y -> x = y.
Proof.
  intros Hnd Hx Hy Hid.
  pose proof (filter_by_key id l x Hnd Hx) as Hf.
  assert (Hin : In y (filter (fun z => Nat.eqb (id z) (id x)) l))
    by (apply filter_In; split; [exact Hy|now apply Nat.eqb_eq]).
  rewrite Hf in Hin. now destruct Hin as [->|[]].
Qed.

(** The row of a debt after an update of the table by a map on its rows. *)
Lemma status_of_map db db' g i s :
  debts db' = map g (debts db) ->
  (forall x, debt_id_of (g x) = debt_id_of x) ->
  status_of db i = Some s ->
  exists d, In d (debts db) /\ debt_id_of d = i /\ status d = s
            /\ status_of db' i = Some (status (g d)).
Proof.
  intros Hmap Hid Hs. unfold status_of, debt_by_id in *. rewrite Hmap.
  rewrite filter_map_key by (intros x; now rewrite Hid).
  destruct (single (filter _ (debts db))) as [d|] eqn:Hsel; [|discriminate].
  inversion Hs as [Hst]. clear Hs.
  pose proof (single_filter_In _ _ _ Hsel) as [Hin Hk]. apply Nat.eqb_eq in Hk.
  exists d. repeat split; auto.
  now rewrite (single_map g _ d Hsel).
Qed.

Lemma at_id_id {A} (id : A -> nat) i f x :
  (forall y, id (f y) = id y) -> id (at_id id i f x) = id x.
Proof. intros H. unfold at_id. destruct (Nat.eqb (id x) i); auto. Qed.

Lemma sweep_debts (L : list Debt) : forall db n,
  debts (fst (sweep cfg L db n)) = map (swept L) (debts db).
Proof.
  induction L as [|d L IH]; intros db n; simpl.
  - now rewrite (map_ext _ (fun x => x) swept_nil), map_id.
  - rewrite IH.
    match goal with |- context [updateCreditScore ?c ?a ?dl ?w ?x] =>
      destruct (updateCreditScore_frame c a dl w x) as (_ & -> & _) end.
    unfold update_debt. simpl. rewrite map_map. apply map_ext.
    intros x. unfold swept. simpl.
    destruct (Nat.eqb (debt_id_of x) (debt_id_of d)) eqn:Hx; simpl.
    + now destruct (existsb _ L).
    + reflexivity.
Qed.

Lemma markDebtDefaulted_debts j db :
  fst (markDebtDefaulted cfg j db) = db
  \/ exists debt, In debt (debts db) /\ debt_id_of debt = j
                  /\ outstanding (status debt) = true
                  /\ debts (fst (markDebtDefaulted cfg j db))
                     = map (at_id debt_id_of j (set_status defaulted)) (debts db).
Proof.
  unfold markDebtDefaulted.
  destruct (debt_by_id db j) as [debt|] eqn:Hsel; [|now left].
  destruct (DebtStatus_eqb (status debt) defaulted
            || DebtStatus_eqb (status debt) paid)%bool eqn:Hst; [now left|].
  right. exists debt.
  apply single_filter_In in Hsel as [Hin Hk]. apply Nat.eqb_eq in Hk.
  repeat split; auto.
  - destruct (status debt); simpl in *; auto; discriminate.
  - simpl fst.
    match goal with |- context [updateCreditScore ?c ?a ?dl ?w ?x] =>
      destruct (updateCreditScore_frame c a dl w x) as (_ & -> & _) end.
    reflexivity.
Qed.

Lemma may_move_refl op s : may_move op s s.
Proof. now left. Qed.


End DebtLifeCycle.


(** ** The garnishing callback *)

Section GarnishEngine.

Import Store Services Server.
Variable cfg : Config.

(** Whatever the callback does, it has accepted the whole transfer. *)
Lemma garnish_transfer_accepts now u transfer bank db :
  accepted (snd (garnish_transfer cfg now u transfer bank db))
  = Bank.transfer_amount transfer.
Proof.
  unfold garnish_transfer.
  destruct (user_by_address db u) as [currentUser|]; [|reflexivity].
  destruct (negb (auto_repay_enabled currentUser)); [reflexivity|].
  destruct (outstanding_debts u db) as [|activeDebt rest]; [reflexivity|].
  cbv zeta.
  destruct (JS.min_with _ _) as [g|]; [|reflexivity].
  destruct (truthy_string _) as [vault|]; [|reflexivity].
  destruct (0 <? g); [|reflexivity].
  now destruct (Bank.sendTransfer vault g _) as [bank2 [err|]].
Qed.

(** The split that the callback computes is capped by the debt, and the
    remainder is the rest of the transfer. *)
Lemma garnish_transfer_split now u transfer bank db g :
  garnishAmount (snd (garnish_transfer cfg now u transfer bank db)) = Some g ->
  remainder (snd (garnish_transfer cfg now u transfer bank db))
  = Some (Bank.transfer_amount transfer - g)
  /\ exists debt, In debt (debts db) /\ outstanding (status debt) = true
                  /\ g <= amount_owed debt.
Proof.
  unfold garnish_transfer.
  destruct (user_by_address db u) as [currentUser|]; [|discriminate].
  destruct (negb (auto_repay_enabled currentUser)); [discriminate|].
  destruct (outstanding_debts u db) as [|activeDebt rest] eqn:Hout; [discriminate|].
  assert (Hact : In activeDebt (outstanding_debts u db)) by (rewrite Hout; now left).
  apply outstanding_debts_In in Hact as (Hin & _ & Ho).
  cbv zeta.
  destruct (JS.min_with _ _) as [g'|] eqn:Hg.
  2:{ simpl. discriminate. }
  assert (Hle : g' <= amount_owed activeDebt).
  { unfold JS.min_with in Hg. destruct (JS.floor_mul_percent _ _); inversion Hg; lia. }
  assert (Hall : forall out : Garnishment,
             garnishAmount out = Some g' ->
             remainder out = Some (Bank.transfer_amount transfer - g') ->
             garnishAmount out = Some g ->
             remainder out = Some (Bank.transfer_amount transfer - g)
             /\ exists debt, In debt (debts db) /\ outstanding (status debt) = true
                             /\ g <= amount_owed debt).
  { intros out H1 H2 H3. rewrite H1 in H3. inversion H3; subst. eauto. }
  destruct (truthy_string _) as [vault|]; [|now apply Hall].
  destruct (0 <? g'); [|now apply Hall].
  destruct (Bank.sendTransfer vault g' _) as [bank2 [err|]]; now apply Hall.
Qed.

(** C9.  When the send to the vault throws, the callback has recorded no
    payment and has left the debt (amount owed, status) and the usage of
    every vouch as they were: the whole store is unchanged; the incoming
    transfer has been accepted in full all the same. *)
Theorem garnish_atomic_on_send_failure now u transfer bank db e :
  transferError (snd (garnish_transfer cfg now u transfer bank db)) = Some e ->
  let db' := fst (fst (garnish_transfer cfg now u transfer bank db)) in
  let out := snd (garnish_transfer cfg now u transfer bank db) in
  db' = db
  /\ payments db' = payments db
  /\ debts db' = debts db
  /\ vouches db' = vouches db
  /\ garnished out = 0
  /\ accepted out = Bank.transfer_amount transfer.
Proof.
  intros Herr db' out.
  assert (Hdb : db' = db /\ garnished out = 0).
  { destruct (garnish_transfer_cases cfg now u transfer bank db)
      as [Heq Hg _|debt g _ _ _ _ _ _ Hnone _ _ _|debt _ _ _ _ _ _ Hnone _ _ _].
    - now split.
    - rewrite Hnone in Herr. discriminate.
    - rewrite Hnone in Herr. discriminate. }
  destruct Hdb as [Hdb Hg]. rewrite Hdb.
  repeat split; auto. apply garnish_transfer_accepts.
Qed.

End GarnishEngine.

(** A session that is not authenticated cannot send: the transfer of 100
    is accepted, and nothing is written. *)
Lemma garnish_atomic_on_send_failure_witness :
  let db' := fst (fst (Server.garnish_transfer no_contracts 500 bob (incoming 100)
                         (Bank.new bob 0) (owing_db 50))) in
  let out := snd (Server.garnish_transfer no_contracts 500 bob (incoming 100)
                    (Bank.new bob 0) (owing_db 50)) in
  db' = owing_db 50
  /\ payments db' = payments (owing_db 50)
  /\ debts db' = debts (owing_db 50)
  /\ vouches db' = vouches (owing_db 50)
  /\ Server.garnished out = 0
  /\ Server.accepted out = Bank.transfer_amount (incoming 100).
Proof.
  apply (garnish_atomic_on_send_failure no_contracts 500 bob (incoming 100)
           (Bank.new bob 0) (owing_db 50) Bank.ClientNotAuthenticated).
  vm_compute. reflexivity.
Defined.

Example ready_bank_isReady : Bank.isReady ready_bank = true.
Proof. reflexivity. Qed.

(** The scenario of the specification: a transfer of 100 at 50% against a
    debt owing 40 garnishes 40, leaves 60 and pays the debt off, which
    releases the 40 of usage on the vouch. *)
Example garnish_100_at_50_percent :
  let r := Server.garnish_transfer no_contracts 500 bob (incoming 100) ready_bank
             (owing_db 50) in
  Server.garnishAmount (snd r) = Some 40
  /\ Server.remainder (snd r) = Some 60
  /\ Server.garnished (snd r) = 40
  /\ status_of (fst (fst r)) 1 = Some paid
  /\ map amount_owed (debts (fst (fst r))) = [0]
  /\ map current_usage (vouches (fst (fst r))) = [0]
  /\ payments (fst (fst r)) = [mkPayment 1 40 garnish].
Proof. vm_compute. repeat split; reflexivity. Qed.

(** C1 fails on the code at 29%.  [garnishPercent / 100] is the binary64
    number nearest to 0.29, which is below 0.29; [100 * 0.29] evaluates to
    28.999999999999996 and [Math.floor] gives 28, where
    [floor(100 * 29 / 100)] is 29.  The debt of 40 is charged 28 and the
    user keeps 72. *)
Theorem garnish_100_at_29_percent :
  let r := Server.garnish_transfer no_contracts 500 bob (incoming 100) ready_bank
             (owing_db 29) in
  JS.floor_mul_percent 100 29 = JS.Finite 28
  /\ Server.garnishAmount (snd r) = Some 28
  /\ Server.remainder (snd r) = Some 72
  /\ Server.garnished (snd r) = 28
  /\ map amount_owed (debts (fst (fst r))) = [12]
  /\ Z.min (100 * 29 / 100) 40 = 29.
Proof. vm_compute. repeat split; reflexivity. Qed.

Lemma owing_db_keys p : debt_keys_ok (owing_db p).
Proof.
  split.
  - simpl. repeat constructor. simpl. tauto.
  - intros d [<-|[]]. simpl. lia.
Defined.

Lemma owing_db_borrowers p : borrowers_exist (owing_db p).
Proof.
  intros d [<-|[]]. eexists. reflexivity.
Defined.


Example sweep_three_times :
  map credit_score (users (run_sweeps with_contracts [2000; 3000; 5000] (owing_db 50)))
  = [650; 625]
  /\ List.length (credit_history
                    (run_sweeps with_contracts [2000; 3000; 5000] (owing_db 50))) = 1%nat.
Proof. split; reflexivity. Qed.

Lemma defaulted_db_keys : debt_keys_ok defaulted_db.
Proof.
  split.
  - simpl. repeat constructor. simpl. tauto.
  - intros d [<-|[]]. simpl. lia.
Defined.


Example defaulted_debt_repaid :
  status_of defaulted_db 1 = Some defaulted
  /\ status_of (perform no_contracts 2000 (ManualRepayment bob 1 40) defaulted_db) 1
     = Some paid
  /\ status_of (perform no_contracts 2000 (Garnishment bob (incoming 100) ready_bank)
                  defaulted_db) 1 = Some defaulted
  /\ status_of (perform no_contracts 2000 OverdueSweep defaulted_db) 1 = Some defaulted
  /\ status_of (perform no_contracts 2000 (DefaultMarking 1) defaulted_db) 1
     = Some defaulted.
Proof. vm_compute. repeat split; reflexivity. Qed.

(** ** Borrow allocation *)

Section BorrowAllocation.

Import Store Services.

Lemma insert_by_limit_perm ties v l :
  Permutation (insert_by_limit ties v l) (v :: l).
Proof.
  induction l as [|w l IH]; simpl; [apply Permutation_refl|].
  destruct (_ || _)%bool; [|apply Permutation_refl].
  apply perm_trans with (w :: v :: l); [now apply perm_skip|apply perm_swap].
Qed.

Lemma order_by_limit_desc_perm ties l :
  Permutation (order_by_limit_desc ties l) l.
Proof.
  induction l as [|v l IH]; simpl; [constructor|].
  unfold order_by_limit_desc in *. simpl.
  apply perm_trans with (v :: fold_right (insert_by_limit ties) [] l).
  - apply insert_by_limit_perm.
  - now apply perm_skip.
Qed.

(** Whatever the store makes of rows with the same limit, the rows come
    back with the limits in descending order. *)
Lemma insert_by_limit_sorted ties v l :
  StronglySorted by_limit_desc l ->
  StronglySorted by_limit_desc (insert_by_limit ties v l).
Proof.
  induction l as [|w l IH]; simpl; intros Hs.
  - repeat constructor.
  - inversion Hs as [|? ? Hl Hw]; subst.
    destruct ((limit_amount v <? limit_amount w)
              || ((limit_amount v =? limit_amount w) && negb (ties v w)))%bool
      eqn:Hlt.
    + assert (Hle : limit_amount v <= limit_amount w).
      { apply orb_true_iff in Hlt as [H|H].
        - apply Z.ltb_lt in H. lia.
        - apply andb_true_iff in H as [H _]. apply Z.eqb_eq in H. lia. }
      constructor; [now apply IH|].
      apply Forall_forall. intros x Hx.
      apply (Permutation_in _ (insert_by_limit_perm ties v l)) in Hx as [<-|Hx].
      * unfold by_limit_desc. lia.
      * rewrite Forall_forall in Hw. now apply Hw.
    + apply orb_false_iff in Hlt as [Hlt _]. apply Z.ltb_ge in Hlt.
      constructor; [exact Hs|].
      constructor; [exact Hlt|].
      rewrite Forall_forall in *. intros x Hx. specialize (Hw x Hx).
      unfold by_limit_desc in *. lia.
Qed.

Lemma order_by_limit_desc_sorted ties l :
  StronglySorted by_limit_desc (order_by_limit_desc ties l).
Proof.
  induction l as [|v l IH]; simpl; [constructor|].
  now apply insert_by_limit_sorted.
Qed.

Lemma sum_available_from acc vs :
  fold_left (fun sum v => sum + (limit_amount v - current_usage v)) vs acc
  = acc + total (map capacity vs).
Proof.
  revert acc. induction vs as [|v vs IH]; intros acc; simpl; [lia|].
  rewrite IH. unfold capacity. lia.
Qed.

Lemma sum_available_total vs : sum_available vs = total (map capacity vs).
Proof. unfold sum_available. now rewrite sum_available_from. Qed.

Lemma total_perm l l' : Permutation l l' -> total l = total l'.
Proof. induction 1; simpl; lia. Qed.

(** The capacity query and the query of [borrow] see the same credit. *)
Lemma available_credit_of_borrowable borrower db :
  sum_available (borrowable_vouches (JS.toLowerCase borrower) db)
  = getAvailableCredit borrower db.
Proof.
  unfold getAvailableCredit, getVouchesForBorrower, borrowable_vouches.
  rewrite !sum_available_total. simpl negb. simpl orb.
  apply total_perm, Permutation_map, order_by_limit_desc_perm.
Qed.

Lemma greedy_draw_exhausted R vs : R <= 0 -> greedy_draw R vs = [].
Proof.
  intros H. destruct vs; simpl; [reflexivity|].
  apply Z.leb_le in H. now rewrite H.
Qed.

(** The draws add up to the request when the credit suffices. *)
Lemma greedy_draw_total vs : forall R,
  0 <= R <= total (map capacity vs) ->
  total (map snd (greedy_draw R vs)) = R.
Proof.
  induction vs as [|v vs IH]; intros R HR; simpl in *; [lia|].
  destruct (R <=? 0) eqn:H0; [apply Z.leb_le in H0; simpl; lia|].
  apply Z.leb_gt in H0.
  destruct (capacity v <=? 0) eqn:Hc.
  - apply Z.leb_le in Hc. apply IH. lia.
  - apply Z.leb_gt in Hc. simpl.
    destruct (Z.le_gt_cases R (capacity v)) as [Hle|Hgt].
    + rewrite Z.min_l by lia. rewrite greedy_draw_exhausted by lia. simpl. lia.
    + rewrite Z.min_r by lia. rewrite IH by lia. lia.
Qed.

Lemma greedy_draw_positive vs : forall R p,
  In p (greedy_draw R vs) -> 0 < snd p /\ In (fst p) (map vouch_id_of vs)
                             /\ exists v, In v vs /\ vouch_id_of v = fst p
                                          /\ snd p <= capacity v.
Proof.
  induction vs as [|v vs IH]; intros R p Hp; simpl in *; [contradiction|].
  destruct (R <=? 0) eqn:H0; [contradiction|]. apply Z.leb_gt in H0.
  destruct (capacity v <=? 0) eqn:Hc.
  - destruct (IH R p Hp) as (H1 & H2 & w & Hw & Hw'). eauto 8.
  - apply Z.leb_gt in Hc. destruct Hp as [<-|Hp]; simpl.
    + split; [lia|]. split; [now left|]. exists v. split; [now left|]. split; lia.
    + destruct (IH _ p Hp) as (H1 & H2 & w & Hw & Hw'). eauto 8.
Qed.

Lemma drawn_absent draws i :
  ~ In i (map fst draws) -> drawn draws i = 0.
Proof.
  unfold drawn. induction draws as [|[j a] draws IH]; simpl; intros Hn; [reflexivity|].
  destruct (Nat.eqb j i) eqn:Hj.
  - apply Nat.eqb_eq in Hj. tauto.
  - apply IH. tauto.
Qed.

Lemma credit_nothing draws w :
  drawn draws (vouch_id_of w) = 0 -> credit draws w = w.
Proof.
  intros H. unfold credit. rewrite H, Z.add_0_r. now destruct w.
Qed.

End BorrowAllocation.

Section AllocationLoop.

Import Store Services.

Lemma drawn_cons j a draws i :
  drawn ((j, a) :: draws) i = if Nat.eqb j i then a + drawn draws i else drawn draws i.
Proof. unfold drawn. simpl. now destruct (Nat.eqb j i). Qed.

Lemma greedy_draw_ids vs R i :
  In i (map fst (greedy_draw R vs)) -> In i (map vouch_id_of vs).
Proof.
  intros H. apply in_map_iff in H as [p [<- Hp]].
  now apply (greedy_draw_positive vs R p).
Qed.

(** The loop of [borrow]: the debts it appends are the greedy draws, and
    each draw is added to the usage of its vouch. *)
Lemma allocate_effect b due days vs : forall R db acc,
  NoDup (map vouch_id_of vs) ->
  (forall v, In v vs -> In v (vouches db)) ->
  NoDup (map vouch_id_of (vouches db)) ->
  exists new,
    snd (allocate b due (Some days) vs R db acc) = acc ++ new
    /\ debts (fst (allocate b due (Some days) vs R db acc)) = debts db ++ new
    /\ map draw_of new = map (fun p => (Some (fst p), snd p)) (greedy_draw R vs)
    /\ map debt_id_of new = seq (S (debt_seq db)) (List.length new)
    /\ debt_seq (fst (allocate b due (Some days) vs R db acc))
       = (debt_seq db + List.length new)%nat
    /\ Forall (fresh_debt b due days) new
    /\ vouches (fst (allocate b due (Some days) vs R db acc))
       = map (credit (greedy_draw R vs)) (vouches db)
    /\ users (fst (allocate b due (Some days) vs R db acc)) = users db
    /\ payments (fst (allocate b due (Some days) vs R db acc)) = payments db
    /\ credit_history (fst (allocate b due (Some days) vs R db acc)) = credit_history db
    /\ vouch_seq (fst (allocate b due (Some days) vs R db acc)) = vouch_seq db.
Proof.
  assert (Hstop : forall db acc draws, draws = [] ->
            exists new : list Debt,
              acc = acc ++ new /\ debts db = debts db ++ new
              /\ map draw_of new = map (fun p => (Some (fst p), snd p)) draws
              /\ map debt_id_of new = seq (S (debt_seq db)) (List.length new)
              /\ debt_seq db = (debt_seq db + List.length new)%nat
              /\ Forall (fresh_debt b due days) new
              /\ vouches db = map (credit draws) (vouches db)
              /\ users db = users db /\ payments db = payments db
              /\ credit_history db = credit_history db
              /\ vouch_seq db = vouch_seq db).
  { intros db acc draws ->. exists []. rewrite !app_nil_r. simpl.
    repeat split; auto.
    rewrite <- (map_id (vouches db)) at 1. apply map_ext.
    intros w. symmetry. now apply credit_nothing. }
  induction vs as [|vouch rest IH]; intros R db acc Hnd Hin Hkeys.
  - exact (Hstop db acc [] eq_refl).
  - simpl. destruct (R <=? 0) eqn:H0; [exact (Hstop db acc [] eq_refl)|].
    apply Z.leb_gt in H0.
    inversion Hnd as [|? ? Hfresh Hnd']; subst.
    fold (capacity vouch).
    destruct (capacity vouch <=? 0) eqn:Hc.
    + apply IH; auto. intros v Hv. apply Hin. now right.
    + apply Z.leb_gt in Hc.
      set (amount := Z.min R (capacity vouch)).
      set (debt := mkDebt (S (debt_seq db)) b (voucher_address vouch)
                     (Some (vouch_id_of vouch)) amount amount due days active None).
      set (db2 := update_vouch _ (vouch_id_of vouch) _).
      assert (Hv2 : vouches db2
                    = map (at_id vouch_id_of (vouch_id_of vouch)
                             (set_current_usage (current_usage vouch + amount)))
                          (vouches db)) by reflexivity.
      destruct (IH (R - amount) db2 (acc ++ [debt]))
        as (new & H1 & H2 & H3 & H4 & H5 & H6 & H7 & H8 & H9 & H10 & H11).
      * exact Hnd'.
      * intros v Hv. rewrite Hv2. apply in_map_iff. exists v. split.
        -- unfold at_id. destruct (Nat.eqb (vouch_id_of v) (vouch_id_of vouch)) eqn:E;
             [|reflexivity].
           apply Nat.eqb_eq in E. exfalso. apply Hfresh. rewrite <- E. now apply in_map.
        -- apply Hin. now right.
      * rewrite Hv2, map_map.
        erewrite map_ext; [exact Hkeys|]. intros w. now apply at_id_id.
      * exists (debt :: new). rewrite H1, H2, H5, H7, H8, H9, H10, H11.
        split; [now rewrite <- app_assoc|].
        split; [simpl; now rewrite <- app_assoc|].
        split; [simpl; now rewrite H3|].
        split; [simpl; now rewrite H4|].
        split; [simpl; lia|].
        split.
        { constructor; [|exact H6]. unfold fresh_debt. simpl.
          repeat split; auto. unfold amount. lia. }
        split; [|auto].
        rewrite Hv2, map_map. apply map_ext_in. intros w Hw.
        unfold at_id, credit.
        rewrite drawn_cons.
        destruct (Nat.eqb (vouch_id_of w) (vouch_id_of vouch)) eqn:E.
        -- apply Nat.eqb_eq in E.
           assert (w = vouch).
           { apply (same_id_same_row vouch_id_of (vouches db)); auto.
             apply Hin. now left. }
           subst w. rewrite Nat.eqb_refl. simpl.
           rewrite drawn_absent.
           ++ unfold set_current_usage. simpl. f_equal. lia.
           ++ intros Hi. apply greedy_draw_ids in Hi. contradiction.
        -- rewrite Nat.eqb_sym, E. reflexivity.
Qed.

End AllocationLoop.

Section Borrow.

Import Store Services.

Lemma borrowable_vouches_keys b db :
  NoDup (map vouch_id_of (vouches db)) ->
  NoDup (map vouch_id_of (borrowable_vouches b db))
  /\ forall v, In v (borrowable_vouches b db) -> In v (vouches db).
Proof.
  intros Hnd. unfold borrowable_vouches.
  set (l := filter _ (vouches db)).
  pose proof (order_by_limit_desc_perm (vouch_ties db) l) as Hp.
  split.
  - apply (Permutation_NoDup (l := map vouch_id_of l)).
    + apply Permutation_map. now apply Permutation_sym.
    + unfold l. now apply NoDup_map_filter.
  - intros v Hv. apply (Permutation_in _ Hp) in Hv.
    unfold l in Hv. now apply filter_In in Hv.
Qed.

Lemma total_draws_of (new : list Debt) draws :
  map draw_of new = map (fun p : nat * Z => (Some (fst p), snd p)) draws ->
  total (map original_amount new) = total (map snd draws).
Proof.
  revert draws. induction new as [|d new IH]; intros [|p draws] H; simpl in *;
    try discriminate; [reflexivity|].
  inversion H as [[Hv Ho Ht]]. now rewrite Ho, (IH draws Ht).
Qed.

(** The body shared by [borrow] and [POST /borrow]. *)
Lemma borrow_with_allocates b due days R db :
  vouch_keys_ok db ->
  0 < R ->
  let vs := borrowable_vouches b db in
  let db' := fst (borrow_with b due (Some days) R db) in
  let r := snd (borrow_with b due (Some days) R db) in
  (vs = [] ->
   r = mkBorrowResult false [] (Some NoVouchesAvailable) /\ db' = db)
  /\ (vs <> [] -> sum_available vs < R ->
      r = mkBorrowResult false [] (Some (InsufficientCredit (sum_available vs) R))
      /\ db' = db)
  /\ (vs <> [] -> R <= sum_available vs ->
      borrow_success r = true
      /\ borrow_error r = None
      /\ map draw_of (borrow_debts r)
         = map (fun p => (Some (fst p), snd p)) (greedy_draw R vs)
      /\ total (map original_amount (borrow_debts r)) = R
      /\ Forall (fresh_debt b due days) (borrow_debts r)
      /\ debts db' = debts db ++ borrow_debts r
      /\ vouches db' = map (credit (greedy_draw R vs)) (vouches db)).
Proof.
  intros [Hkeys _] HR vs db' r.
  subst db' r. unfold borrow_with. fold vs.
  split; [|split].
  - intros ->. now split.
  - intros Hne Hlt. destruct vs; [congruence|].
    apply Z.ltb_lt in Hlt. rewrite Hlt. now split.
  - intros Hne Hle. destruct vs as [|v0 rest] eqn:Hvs; [congruence|].
    rewrite <- Hvs in *. clear Hne.
    assert (Hge : (sum_available vs <? R) = false) by (apply Z.ltb_ge; lia).
    rewrite Hge.
    destruct (borrowable_vouches_keys b db Hkeys) as [Hnd Hin].
    fold vs in Hnd, Hin.
    destruct (allocate_effect b due days vs R db [] Hnd Hin Hkeys)
      as (new & H1 & H2 & H3 & _ & _ & H6 & H7 & _).
    destruct (allocate _ _ _ vs R db []) as [db1 created] eqn:Halloc.
    simpl in H1, H2, H7. subst created.
    assert (Htot : total (map original_amount new) = R).
    { rewrite (total_draws_of new _ H3). apply greedy_draw_total.
      rewrite <- sum_available_total. lia. }
    destruct new as [|d new]; [simpl in Htot; lia|].
    simpl. repeat split; auto.
Qed.

(** A whole number of days is what the column stores; a period with a
    fraction of a day is refused. *)
Lemma integer_column_whole d : integer_column (inject_Z d) = Some d.
Proof.
  unfold integer_column. rewrite Qfloor_Z.
  now rewrite (proj2 (Qeq_bool_iff _ _) (Qeq_refl (inject_Z d))).
Qed.

(** [POST /borrow] with its fields present runs the same body. *)
Lemma post_borrow_is_borrow_with now b a days db :
  b <> EmptyString -> a <> 0 ->
  let period := match days with Some d => d | None => inject_Z 14 end in
  Server.post_borrow now (Some b) (Some a) days db
  = (fst (borrow_with (JS.toLowerCase b) (due_after now period)
            (integer_column period) a db),
     Some (snd (borrow_with (JS.toLowerCase b) (due_after now period)
                  (integer_column period) a db))).
Proof.
  intros Hb Ha period. unfold Server.post_borrow.
  destruct b as [|c b]; [congruence|]. simpl Server.truthy_string.
  apply Z.eqb_neq in Ha. rewrite Ha. fold period.
  now destruct (borrow_with _ _ _ a db).
Qed.


End Borrow.


(** X25.  Outside the whole numbers the sums of the credit check are
    rounded: with a limit of 1000 and 999.99 in use, the capacity computed
    is just below 0.01, and a request of 0.01 is refused as exceeding it;
    with 999.5 in use the capacity is exact and a request of 0.5 passes.
    (The literals are the binary64 numbers nearest to 0.01 and 999.99.) *)
Theorem credit_check_with_cents :
  insufficient_credit64 0x1.47ae147ae147bp-7%float
    [(1000%float, 0x1.f3feb851eb852p+9%float)] = true
  /\ insufficient_credit64 0.5%float [(1000%float, 999.5%float)] = false.
Proof. split; vm_compute; reflexivity. Qed.

Lemma two_vouches_db_keys : vouch_keys_ok two_vouches_db.
Proof.
  split.
  - simpl. repeat constructor; simpl; intuition discriminate.
  - intros v [<-|[<-|[]]]; simpl; lia.
Defined.


(** The scenario of the specification: vouches of 1500 and 1000, a request
    of 2000: 1500 from the larger vouch and 500 from the smaller one. *)
Example borrow_2000_on_two_vouches :
  map draw_of (Services.borrow_debts
                 (snd (Services.borrow 0 bob 2000 (14 # 1)%Q two_vouches_db)))
  = [(Some 2%nat, 1500); (Some 1%nat, 500)]
  /\ map current_usage
         (vouches (fst (Services.borrow 0 bob 2000 (14 # 1)%Q two_vouches_db)))
     = [500; 1500]
  /\ Services.borrow_error
       (snd (Services.borrow 0 bob 2501 (14 # 1)%Q two_vouches_db))
     = Some (Services.InsufficientCredit 2500 2501).
Proof. vm_compute. repeat split; reflexivity. Qed.

(** ** Round trip: borrow, then repay *)

Section RoundTripInvariant.

Import Store Services Server.
Variable cfg : Config.
Variable db0 : DB.
Variable mine : nat -> bool.
Hypothesis keys0 : vouch_keys_ok db0.
Hypothesis nonneg0 : usage_nonneg db0.

Lemma is_unpaid_iff d : is_unpaid d = true <-> status d <> paid.
Proof.
  unfold is_unpaid. rewrite negb_true_iff. split.
  - intros H E. apply DebtStatus_eqb_eq in E. congruence.
  - intros H. destruct (DebtStatus_eqb (status d) paid) eqn:E; [|reflexivity].
    apply DebtStatus_eqb_eq in E. contradiction.
Qed.

Lemma contrib_nonneg db i x :
  RoundTrip db0 mine db -> In x (debts db) -> 0 <= contrib mine i x.
Proof.
  intros Inv Hx. unfold contrib.
  destruct (mine (debt_id_of x)) eqn:Hm; simpl; [|lia].
  destruct (drawn_on i x && is_unpaid x)%bool; [|lia].
  destruct (rt_mine _ _ _ Inv x Hx Hm) as [H _]. lia.
Qed.

Lemma total_nonneg l : (forall z, In z l -> 0 <= z) -> 0 <= total l.
Proof.
  induction l as [|z l IH]; simpl; intros H; [lia|].
  assert (0 <= z) by (apply H; now left).
  assert (0 <= total l) by (apply IH; intros y Hy; apply H; now right). lia.
Qed.

(** Replacing one row of a table with distinct ids changes a sum over the
    table by the difference on that row. *)
Lemma total_at_id (c : Debt -> Z) f l x :
  NoDup (map debt_id_of l) -> In x l ->
  total (map c (map (at_id debt_id_of (debt_id_of x) f) l))
  = total (map c l) - c x + c (f x).
Proof.
  induction l as [|y l IH]; simpl; intros Hnd Hin; [contradiction|].
  inversion Hnd as [|? ? Hfresh Hnd']; subst.
  destruct Hin as [->|Hin].
  - unfold at_id at 1. rewrite Nat.eqb_refl.
    assert (Hl : map (at_id debt_id_of (debt_id_of x) f) l = l).
    { rewrite <- (map_id l) at 2. apply map_ext_in. intros z Hz. unfold at_id.
      destruct (Nat.eqb (debt_id_of z) (debt_id_of x)) eqn:E; [|reflexivity].
      apply Nat.eqb_eq in E. exfalso. apply Hfresh. rewrite <- E. now apply in_map. }
    rewrite Hl. lia.
  - unfold at_id at 1.
    destruct (Nat.eqb (debt_id_of y) (debt_id_of x)) eqn:E.
    + apply Nat.eqb_eq in E. exfalso. apply Hfresh. rewrite E. now apply in_map.
    + rewrite IH by assumption. lia.
Qed.

Lemma keeps_accounts_contrib g x i :
  keeps_accounts g x -> contrib mine i (g x) = contrib mine i x.
Proof.
  intros (Hi & Hv & Ho & Hp & _). unfold contrib, drawn_on. rewrite Hi, Hv, Ho.
  replace (is_unpaid (g x)) with (is_unpaid x); [reflexivity|].
  destruct (is_unpaid x) eqn:E.
  - symmetry. apply is_unpaid_iff. apply is_unpaid_iff in E. tauto.
  - symmetry. apply not_true_iff_false. intros E'. apply is_unpaid_iff in E'.
    apply not_true_iff_false in E. apply E. apply is_unpaid_iff. tauto.
Qed.

Lemma round_trip_rows db db' g :
  RoundTrip db0 mine db ->
  debts db' = map g (debts db) ->
  (forall x, In x (debts db) -> keeps_accounts g x) ->
  vouches db' = vouches db ->
  RoundTrip db0 mine db'.
Proof.
  intros Inv Hd Hg Hv.
  assert (Hdraw : forall i, unpaid_draw mine db' i = unpaid_draw mine db i).
  { intros i. unfold unpaid_draw. rewrite Hd, map_map. f_equal.
    apply map_ext_in. intros x Hx. now apply keeps_accounts_contrib, Hg. }
  constructor.
  - rewrite Hd, map_map.
    erewrite map_ext_in; [exact (rt_keys _ _ _ Inv)|].
    intros x Hx. apply (Hg x Hx).
  - rewrite Hv, (rt_vouches _ _ _ Inv). apply map_ext. intros w.
    unfold holding. now rewrite Hdraw.
  - intros x' Hx' Hm. rewrite Hd in Hx'. apply in_map_iff in Hx' as [x [<- Hx]].
    destruct (Hg x Hx) as (Hi & Hvi & Ho & Hp & Hpo & Hnp).
    rewrite Hi in Hm. destruct (rt_mine _ _ _ Inv x Hx Hm) as (H1 & H2 & H3 & H4).
    rewrite Ho, Hvi. split; [exact H1|]. split; [|split; [|exact H4]].
    + intros E. rewrite Hpo by tauto. tauto.
    + intros E. apply Hnp; tauto.
Qed.

Lemma total_member (c : Debt -> Z) l x :
  In x l -> (forall z, In z l -> 0 <= c z) -> c x <= total (map c l).
Proof.
  induction l as [|y l IH]; simpl; intros Hin Hc; [contradiction|].
  assert (Hy : 0 <= c y) by (apply Hc; now left).
  assert (Hl : 0 <= total (map c l)).
  { apply total_nonneg. intros z Hz. apply in_map_iff in Hz as [u [<- Hu]].
    apply Hc. now right. }
  destruct Hin as [->|Hin]; [lia|].
  assert (c x <= total (map c l)) by (apply IH; auto). lia.
Qed.

Lemma holding_id db w : vouch_id_of (holding mine db w) = vouch_id_of w.
Proof. reflexivity. Qed.

(** The row of a vouch of [db0] in the current store. *)
Lemma round_trip_vouch_row db w :
  RoundTrip db0 mine db -> In w (vouches db0) ->
  vouch_by_id db (vouch_id_of w) = Some (holding mine db w).
Proof.
  intros Inv Hw. unfold vouch_by_id. rewrite (rt_vouches _ _ _ Inv).
  rewrite filter_map_key by (intros x; now rewrite holding_id).
  destruct keys0 as [Hnd _].
  now rewrite (filter_by_key vouch_id_of _ _ Hnd Hw).
Qed.

(** Paying a debt of [mine] off gives its original amount back to the
    vouch, whatever the partial payments before. *)
Lemma round_trip_paid_off db db' debt now :
  RoundTrip db0 mine db ->
  In debt (debts db) -> status debt <> paid -> mine (debt_id_of debt) = true ->
  debts db' = map (at_id debt_id_of (debt_id_of debt) (set_paid 0 now)) (debts db) ->
  vouches db' = vouches (release_vouch debt db) ->
  RoundTrip db0 mine db'.
Proof.
  intros Inv Hin Hnp Hm Hd Hv.
  pose proof (rt_keys _ _ _ Inv) as Hnd.
  destruct (rt_mine _ _ _ Inv debt Hin Hm) as (Horig & _ & _ & w & Hw & Hvid).
  assert (Hdraw : forall i, unpaid_draw mine db' i
                            = unpaid_draw mine db i - contrib mine i debt).
  { intros i. unfold unpaid_draw. rewrite Hd, total_at_id by assumption.
    assert (Hz : contrib mine i (set_paid 0 now debt) = 0).
    { unfold contrib, is_unpaid. simpl. now rewrite !andb_false_r. }
    lia. }
  assert (Hc : forall i, contrib mine i debt
                         = if Nat.eqb (vouch_id_of w) i then original_amount debt else 0).
  { intros i. unfold contrib, drawn_on. rewrite Hm, Hvid.
    apply is_unpaid_iff in Hnp. rewrite Hnp. simpl.
    now destruct (Nat.eqb (vouch_id_of w) i). }
  constructor.
  - rewrite Hd, map_map.
    erewrite map_ext; [exact Hnd|]. intros x. now apply at_id_id.
  - rewrite Hv. unfold release_vouch. rewrite Hvid.
    destruct keys0 as [_ Hrange]. pose proof (Hrange w Hw) as Hpos.
    destruct (vouch_id_of w) as [|n] eqn:Hid; [lia|]. simpl truthy_id.
    rewrite <- Hid in *.
    rewrite (round_trip_vouch_row db w Inv Hw).
    rewrite update_vouch_rows, (rt_vouches _ _ _ Inv), map_map.
    apply map_ext_in. intros w0 Hw0.
    unfold at_id. rewrite holding_id.
    destruct (Nat.eqb (vouch_id_of w0) (vouch_id_of w)) eqn:E.
    + apply Nat.eqb_eq in E.
      assert (w0 = w).
      { destruct keys0 as [Hnd0 _].
        apply (same_id_same_row vouch_id_of (vouches db0)); auto. }
      subst w0. unfold holding, set_current_usage. simpl. f_equal.
      rewrite Hdraw, Hc, Nat.eqb_refl.
      assert (0 <= current_usage w) by now apply nonneg0.
      assert (contrib mine (vouch_id_of w) debt
              <= total (map (contrib mine (vouch_id_of w)) (debts db))).
      { apply total_member; auto. intros z Hz. now apply (contrib_nonneg db). }
      rewrite Hc, Nat.eqb_refl in H0. unfold unpaid_draw. lia.
    + unfold holding. rewrite Hdraw, Hc, Nat.eqb_sym, E. f_equal. lia.
  - intros x' Hx' Hm'. rewrite Hd in Hx'. apply in_map_iff in Hx' as [x [<- Hx]].
    unfold at_id in *.
    destruct (Nat.eqb (debt_id_of x) (debt_id_of debt)) eqn:E.
    + apply Nat.eqb_eq in E.
      assert (x = debt) by (apply (same_id_same_row debt_id_of (debts db)); auto).
      subst x. simpl. split; [exact Horig|]. split; [reflexivity|].
      split; [congruence|]. eauto.
    + now apply (rt_mine _ _ _ Inv).
Qed.

Lemma sweep_vouches (L : list Debt) : forall db n,
  vouches (fst (sweep cfg L db n)) = vouches db.
Proof.
  induction L as [|d L IH]; intros db n; simpl; [reflexivity|].
  rewrite IH.
  match goal with |- context [updateCreditScore ?c ?a ?dl ?w ?x] =>
    destruct (updateCreditScore_frame c a dl w x) as (-> & _) end.
  reflexivity.
Qed.

Lemma markDebtDefaulted_vouches j db :
  vouches (fst (markDebtDefaulted cfg j db)) = vouches db.
Proof.
  unfold markDebtDefaulted.
  destruct (debt_by_id db j) as [debt|]; [|reflexivity].
  destruct (_ || _)%bool; [reflexivity|]. simpl fst.
  match goal with |- context [updateCreditScore ?c ?a ?dl ?w ?x] =>
    destruct (updateCreditScore_frame c a dl w x) as (-> & _) end.
  reflexivity.
Qed.

Lemma keeps_accounts_same g x : g x = x -> keeps_accounts g x.
Proof. intros H. unfold keeps_accounts. rewrite H. tauto. Qed.

(** Every operation keeps the invariant, as long as its payment goes to
    one of [mine]. *)
Lemma perform_round_trip now op db :
  RoundTrip db0 mine db ->
  match paid_on cfg now op db with
  | Some i => mine i = true
  | None => True
  end ->
  RoundTrip db0 mine (perform cfg now op db).
Proof.
  intros Inv Hpay. pose proof (rt_keys _ _ _ Inv) as Hnd.
  assert (Hrow : forall j f debt,
             In debt (debts db) -> debt_id_of debt = j ->
             keeps_accounts f debt ->
             forall x, In x (debts db) -> keeps_accounts (at_id debt_id_of j f) x).
  { intros j f debt Hin Hid Hf x Hx. unfold keeps_accounts, at_id.
    destruct (Nat.eqb (debt_id_of x) j) eqn:E; [|tauto].
    apply Nat.eqb_eq in E.
    assert (x = debt)
      by (apply (same_id_same_row debt_id_of (debts db)); auto; congruence).
    subst x. exact Hf. }
  destruct op as [b j a|u t bank| |j]; simpl perform; simpl paid_on in Hpay.
  - destruct (repayDebt_cases cfg now b j a db)
      as [Heq|debt Hin Hid Hnp Hz Hd Hv|debt Hin Hid Hnp Hz Hd Hv].
    + now rewrite Heq.
    + apply (round_trip_rows db _ _ Inv Hd); [|exact Hv].
      apply (Hrow j _ debt Hin Hid).
      unfold keeps_accounts. simpl. repeat split; auto; try tauto. lia.
    + subst j. now apply (round_trip_paid_off db _ debt now).
  - destruct (garnish_transfer_cases cfg now u t bank db)
      as [Heq _ _|debt g Hin Hb Ho Hg _ Hon _ Hd Hv _
         |debt Hin Hb Ho Hg _ Hon _ Hd Hv _].
    + now rewrite Heq.
    + assert (Hnp : status debt <> paid) by (intros E; rewrite E in Ho; discriminate).
      apply (round_trip_rows db _ _ Inv Hd); [|exact Hv].
      apply (Hrow _ _ debt Hin eq_refl).
      unfold keeps_accounts. simpl. repeat split; auto; try tauto. lia.
    + assert (Hnp : status debt <> paid) by (intros E; rewrite E in Ho; discriminate).
      rewrite Hon in Hpay. now apply (round_trip_paid_off db _ debt now).
  - unfold checkOverdueDebts.
    apply (round_trip_rows db _ (swept (filter (is_overdue_at now) (debts db))) Inv).
    + apply sweep_debts.
    + intros x Hx. unfold keeps_accounts, swept.
      destruct (existsb _ _) eqn:Hex; [|tauto].
      apply existsb_exists in Hex as [l [Hl Hid]]. apply Nat.eqb_eq in Hid.
      apply filter_In in Hl as [Hl Hsel].
      assert (x = l) by (apply (same_id_same_row debt_id_of (debts db)); auto).
      subst l. unfold is_overdue_at in Hsel. apply andb_true_iff in Hsel as [Ha _].
      apply DebtStatus_eqb_eq in Ha. simpl. rewrite Ha.
      repeat split; auto; try tauto; try discriminate.
    + apply sweep_vouches.
  - destruct (markDebtDefaulted_debts cfg j db) as [Heq|(debt & Hin & Hid & Ho & Hd)].
    + now rewrite Heq.
    + apply (round_trip_rows db _ _ Inv Hd); [|apply markDebtDefaulted_vouches].
      apply (Hrow j _ debt Hin Hid).
      assert (Hnp : status debt <> paid) by (intros E'; rewrite E' in Ho; discriminate).
      unfold keeps_accounts. simpl.
      repeat split; auto; try tauto; try discriminate.
Qed.

Lemma run_ops_round_trip ops : forall db,
  RoundTrip db0 mine db ->
  only_repays mine cfg ops db ->
  RoundTrip db0 mine (run_ops cfg ops db).
Proof.
  induction ops as [|[now op] ops IH]; intros db Inv Hops; [exact Inv|].
  destruct Hops as [Hpay Hrest]. simpl. apply IH; [|exact Hrest].
  now apply perform_round_trip.
Qed.

End RoundTripInvariant.

Section RoundTripStart.

Import Store Services Server.
Variable cfg : Config.

Lemma total_app l l' : total (l ++ l') = total l + total l'.
Proof. induction l as [|z l IH]; simpl; lia. Qed.

Lemma among_In ds i : among ds i = true <-> In i (map debt_id_of ds).
Proof.
  unfold among. rewrite existsb_exists. split.
  - intros [j [Hj E]]. apply Nat.eqb_eq in E. now subst.
  - intros H. exists i. split; [exact H|apply Nat.eqb_refl].
Qed.

(** The unpaid draws right after the borrow are the draws. *)
Lemma unpaid_draw_of_created mine (new : list Debt) draws i :
  (forall x, In x new -> mine (debt_id_of x) = true /\ status x = active) ->
  map draw_of new = map (fun p : nat * Z => (Some (fst p), snd p)) draws ->
  total (map (contrib mine i) new) = drawn draws i.
Proof.
  revert draws. induction new as [|x new IH]; intros [|[j a] draws] Hm H;
    simpl in *; try discriminate; [reflexivity|].
  inversion H as [[Hv Ho Ht]]. rewrite drawn_cons.
  rewrite (IH draws) by auto.
  destruct (Hm x (or_introl eq_refl)) as [Hmine Hact].
  unfold contrib, drawn_on, is_unpaid. rewrite Hmine, Hv, Ho, Hact. simpl.
  now destruct (Nat.eqb j i).
Qed.

(** A successful borrow starts the round trip. *)
Lemma borrow_starts_round_trip b due days R db :
  vouch_keys_ok db -> debt_keys_ok db ->
  0 < R <= sum_available (borrowable_vouches b db) ->
  let db1 := fst (borrow_with b due (Some days) R db) in
  let created := borrow_debts (snd (borrow_with b due (Some days) R db)) in
  RoundTrip db (among created) db1
  /\ debts db1 = debts db ++ created
  /\ created <> [].
Proof.
  intros [Hkeys Hvrange] [Hdkeys Hdrange] HR db1 created.
  subst db1 created. unfold borrow_with.
  set (vs := borrowable_vouches b db) in *.
  destruct (borrowable_vouches_keys b db Hkeys) as [Hnd Hin]. fold vs in Hnd, Hin.
  destruct vs as [|v0 rest] eqn:Hvs; [unfold sum_available in HR; simpl in HR; lia|].
  rewrite <- Hvs in *.
  assert (Hge : (sum_available vs <? R) = false) by (apply Z.ltb_ge; lia).
  rewrite Hge.
  destruct (allocate_effect b due days vs R db [] Hnd Hin Hkeys)
    as (new & H1 & H2 & H3 & H4 & _ & H6 & H7 & _).
  destruct (allocate _ _ _ vs R db []) as [db1 created] eqn:Halloc.
  simpl in H1, H2, H7. subst created.
  assert (Htot : total (map original_amount new) = R).
  { rewrite (total_draws_of new _ H3). apply greedy_draw_total.
    rewrite <- sum_available_total. lia. }
  destruct new as [|d0 new0] eqn:Hnew; [simpl in Htot; lia|].
  rewrite <- Hnew in *. simpl fst. simpl snd. simpl borrow_debts.
  assert (Hold : forall x, In x (debts db) -> among new (debt_id_of x) = false).
  { intros x Hx. apply not_true_iff_false. intros Ha. apply among_In in Ha.
    rewrite H4 in Ha. apply in_seq in Ha. apply Hdrange in Hx. lia. }
  assert (Hmine : forall x, In x new -> among new (debt_id_of x) = true).
  { intros x Hx. apply among_In. now apply in_map. }
  rewrite Forall_forall in H6.
  split; [|split; [exact H2|rewrite Hnew; discriminate]].
  constructor.
  - rewrite H2, map_app. apply NoDup_app; [exact Hdkeys| |].
    + rewrite H4. apply seq_NoDup.
    + intros i Hi Hi'. rewrite H4 in Hi'. apply in_seq in Hi'.
      apply in_map_iff in Hi as [x [<- Hx]]. apply Hdrange in Hx. lia.
  - rewrite H7. apply map_ext. intros w. unfold credit, holding. do 2 f_equal.
    unfold unpaid_draw. rewrite H2, map_app, total_app.
    assert (Hz : total (map (contrib (among new) (vouch_id_of w)) (debts db)) = 0).
    { clear - Hold. induction (debts db) as [|x l IH]; simpl; [reflexivity|].
      rewrite IH by (intros y Hy; apply Hold; now right).
      unfold contrib. rewrite (Hold x) by now left. reflexivity. }
    rewrite Hz. simpl. symmetry.
    apply unpaid_draw_of_created; [|exact H3].
    intros x Hx. split; [now apply Hmine|]. now apply (H6 x Hx).
  - intros x Hx Hm. rewrite H2 in Hx. apply in_app_or in Hx as [Hx|Hx].
    + rewrite (Hold x Hx) in Hm. discriminate.
    + destruct (H6 x Hx) as (Howed & Hact & _ & _ & _ & _ & Hpos).
      split; [exact Hpos|]. split; [rewrite Hact; discriminate|].
      split; [intros _; lia|].
      assert (Hd : In (draw_of x) (map draw_of new)) by now apply in_map.
      rewrite H3 in Hd. apply in_map_iff in Hd as [p [Hp Hpin]].
      destruct (greedy_draw_positive vs R p Hpin) as (_ & _ & v & Hv & Hvid & _).
      exists v. split; [now apply Hin|].
      unfold draw_of in Hp. inversion Hp. now rewrite Hvid.
Qed.

Lemma holding_nothing mine db w :
  unpaid_draw mine db (vouch_id_of w) = 0 -> holding mine db w = w.
Proof.
  intros H. unfold holding. rewrite H, Z.add_0_r. now destruct w.
Qed.

End RoundTripStart.

(** ** The session client *)

Section SessionClient.

Import Bank.

Lemma nth_error_update_nth {A} (f : A -> A) (l : list A) : forall k j,
  nth_error (update_nth k f l) j
  = if Nat.eqb j k then option_map f (nth_error l j) else nth_error l j.
Proof.
  induction l as [|x l IH]; intros k j.
  - destruct k; simpl; destruct (Nat.eqb j _); now destruct j.
  - destruct k as [|k], j as [|j]; simpl; try reflexivity. apply IH.
Qed.

Lemma update_nth_ext {A} (f g : A -> A) (l : list A) : forall k,
  (forall x, nth_error l k = Some x -> f x = g x) ->
  update_nth k f l = update_nth k g l.
Proof.
  induction l as [|x l IH]; intros k H; [now destruct k|].
  destruct k as [|k]; simpl.
  - now rewrite (H x eq_refl).
  - f_equal. apply IH. intros y Hy. now apply H.
Qed.

Lemma update_nth_same {A} (f : A -> A) (l : list A) : forall k,
  (forall x, nth_error l k = Some x -> f x = x) ->
  update_nth k f l = l.
Proof.
  induction l as [|x l IH]; intros k H; [now destruct k|].
  destruct k as [|k]; simpl.
  - now rewrite (H x eq_refl).
  - f_equal. apply IH. intros y Hy. now apply H.
Qed.

Lemma update_nth_twice {A} (f g : A -> A) (l : list A) : forall k,
  update_nth k g (update_nth k f l) = update_nth k (fun x => g (f x)) l.
Proof.
  induction l as [|x l IH]; intros k; [now destruct k|].
  destruct k as [|k]; simpl; [reflexivity|]. now rewrite IH.
Qed.

(** [resolve] and [reject] rewrite the record of their call only. *)
Lemma resolve_frame k c :
  calls (resolve k c) = update_nth k resolve_call (calls c)
  /\ clock (resolve k c) = clock c
  /\ isAuthenticated (resolve k c) = isAuthenticated c
  /\ sleeping (resolve k c) = sleeping c
  /\ ws (resolve k c) = ws c
  /\ maxReconnectAttempts (resolve k c) = maxReconnectAttempts c.
Proof.
  unfold resolve, call.
  destruct (nth_error (calls c) k) as [i|] eqn:Hk.
  - destruct (promise i) eqn:Hp.
    + assert (Hc : update_nth k (set_promise Fulfilled) (calls c)
                   = update_nth k resolve_call (calls c)).
      { apply update_nth_ext. intros x Hx. rewrite Hk in Hx. inversion Hx; subst.
        unfold resolve_call. now rewrite Hp. }
      destruct (awaited i); simpl; rewrite Hc; tauto.
    + rewrite update_nth_same; [tauto|].
      intros x Hx. rewrite Hk in Hx. inversion Hx; subst.
      unfold resolve_call. now rewrite Hp.
    + rewrite update_nth_same; [tauto|].
      intros x Hx. rewrite Hk in Hx. inversion Hx; subst.
      unfold resolve_call. now rewrite Hp.
  - rewrite update_nth_same; [tauto|]. intros x Hx. congruence.
Qed.

Lemma reject_frame k e c :
  calls (reject k e c) = update_nth k (reject_call e) (calls c)
  /\ clock (reject k e c) = clock c
  /\ isAuthenticated (reject k e c) = isAuthenticated c
  /\ sleeping (reject k e c) = sleeping c
  /\ ws (reject k e c) = ws c
  /\ maxReconnectAttempts (reject k e c) = maxReconnectAttempts c
  /\ reconnectAttempts (reject k e c) = reconnectAttempts c.
Proof.
  unfold reject, call.
  destruct (nth_error (calls c) k) as [i|] eqn:Hk.
  - destruct (promise i) eqn:Hp.
    + assert (Hc : update_nth k (set_promise (Rejected e)) (calls c)
                   = update_nth k (reject_call e) (calls c)).
      { apply update_nth_ext. intros x Hx. rewrite Hk in Hx. inversion Hx; subst.
        unfold reject_call. now rewrite Hp. }
      destruct (awaited i); simpl; rewrite Hc; tauto.
    + rewrite update_nth_same; [tauto|].
      intros x Hx. rewrite Hk in Hx. inversion Hx; subst.
      unfold reject_call. now rewrite Hp.
    + rewrite update_nth_same; [tauto|].
      intros x Hx. rewrite Hk in Hx. inversion Hx; subst.
      unfold reject_call. now rewrite Hp.
  - rewrite update_nth_same; [tauto|]. intros x Hx. congruence.
Qed.

Lemma send_frame k m c :
  calls (fst (send k m c)) = calls c
  /\ clock (fst (send k m c)) = clock c
  /\ isAuthenticated (fst (send k m c)) = isAuthenticated c
  /\ sleeping (fst (send k m c)) = sleeping c
  /\ ws (fst (send k m c)) = ws c.
Proof.
  unfold send. destruct (readyState c k) as [[| | |]|]; simpl; tauto.
Qed.

Lemma startAuthFlow_frame c :
  calls (fst (startAuthFlow c)) = calls c
  /\ clock (fst (startAuthFlow c)) = clock c
  /\ isAuthenticated (fst (startAuthFlow c)) = isAuthenticated c
  /\ sleeping (fst (startAuthFlow c)) = sleeping c.
Proof.
  unfold startAuthFlow. destruct (ws c) as [w|]; [|simpl; tauto].
  destruct (is_open c (Some w)); [|simpl; tauto].
  destruct (send_frame w AuthRequest c) as (-> & -> & -> & -> & _). tauto.
Qed.

Lemma route_transfer_frame payload c :
  calls (fst (route_transfer payload c)) = calls c
  /\ clock (fst (route_transfer payload c)) = clock c
  /\ isAuthenticated (fst (route_transfer payload c)) = isAuthenticated c
  /\ sleeping (fst (route_transfer payload c)) = sleeping c.
Proof.
  unfold route_transfer. destruct (find _ _); [|simpl; tauto].
  destruct (transferCallback c); [|simpl; tauto].
  destruct (BigInt_or_0 _); simpl; tauto.
Qed.

(** The router writes neither the init calls, nor the clock, nor the
    sleeps; it sets [isAuthenticated] on [auth_verify] and nowhere else. *)
Lemma handleMessage_frame data c :
  calls (fst (handleMessage data c)) = calls c
  /\ clock (fst (handleMessage data c)) = clock c
  /\ sleeping (fst (handleMessage data c)) = sleeping c
  /\ (isAuthenticated (fst (handleMessage data c)) = isAuthenticated c
      \/ (isAuthenticated (fst (handleMessage data c)) = true
          /\ exists payload, data = Res "auth_verify" payload)).
Proof.
  unfold handleMessage. destruct data as [| | |type payload];
    [simpl; tauto|simpl; tauto|simpl; tauto|].
  destruct (String.eqb type "auth_challenge").
  - destruct (ws c) as [w|]; [|simpl; tauto].
    destruct (send_frame w (AuthVerify (challenge_message payload)) c)
      as (-> & -> & -> & -> & _). tauto.
  - destruct (String.eqb type "auth_verify") eqn:Hv.
    + apply String.eqb_eq in Hv. subst type. cbv zeta.
      destruct (ws (with_isAuthenticated c true)) as [w|].
      * destruct (send_frame w LedgerBalancesQuery (with_isAuthenticated c true))
          as (-> & -> & -> & -> & _). simpl.
        repeat split; auto. right. split; [reflexivity|now exists payload].
      * simpl. repeat split; auto. right. split; [reflexivity|now exists payload].
    + destruct (_ || _)%bool; [simpl; tauto|].
      destruct (is_transfer_type type); [|simpl; tauto].
      destruct (route_transfer_frame payload c) as (H1 & H2 & H3 & H4).
      destruct (route_transfer payload c) as [c1 [err|]]; simpl in *.
      * rewrite H1, H2, H3, H4; tauto.
      * destruct (_ && _)%bool; simpl; rewrite H1, H2, H3, H4; tauto.
Qed.

Lemma attemptReconnect_frame c :
  calls (attemptReconnect c) = calls c
  /\ clock (attemptReconnect c) = clock c
  /\ isAuthenticated (attemptReconnect c) = isAuthenticated c.
Proof.
  unfold attemptReconnect. destruct (_ <=? _); simpl; tauto.
Qed.

End SessionClient.

Section EventLoop.

Import Bank.

Lemma call_moves_same e c c' k i : call_moves e c c' k i i.
Proof. unfold call_moves. tauto. Qed.

Lemma call_moves_socket e c c' k i (g : InitCall -> InitCall) :
  started (g i) = started i -> promise (g i) = promise i ->
  timeout (g i) = timeout i ->
  call_moves e c c' k i (g i).
Proof. intros H1 H2 H3. unfold call_moves. rewrite H1, H2, H3. tauto. Qed.

Lemma call_moves_reject e c c' k i err (g : InitCall -> InitCall) :
  started (g i) = started i -> promise (g i) = promise i ->
  (err = ConnectionTimeout -> e = TimeoutFires k) ->
  call_moves e c c' k i (reject_call err (set_timeout None (g i))).
Proof.
  intros H1 H2 He. unfold call_moves, reject_call. simpl. rewrite H2.
  destruct (promise i) eqn:Hp; simpl; rewrite ?H1, ?H2, ?Hp.
  - split; [reflexivity|]. split; [|right; split; [reflexivity|discriminate]].
    right. split; [reflexivity|]. right. exists err. auto.
  - split; [reflexivity|]. split; [now left|].
    right. split; [reflexivity|discriminate].
  - split; [reflexivity|]. split; [now left|].
    right. split; [reflexivity|discriminate].
Qed.

Lemma call_moves_resolve c c' k i data :
  isAuthenticated c = false -> isAuthenticated c' = true ->
  call_moves (SocketMessage k data) c c' k i (resolve_call (set_timeout None i)).
Proof.
  intros Hf Ht. unfold call_moves, resolve_call. simpl.
  destruct (promise i) eqn:Hp; simpl; rewrite ?Hp.
  - split; [reflexivity|]. split; [|right; split; [reflexivity|discriminate]].
    right. split; [reflexivity|]. left. eauto.
  - split; [reflexivity|]. split; [now left|].
    right. split; [reflexivity|discriminate].
  - split; [reflexivity|]. split; [now left|].
    right. split; [reflexivity|discriminate].
Qed.

(** A turn that rewrites the record of the call [k] and creates none. *)
Lemma moves_of_update e c c' k F :
  calls c' = update_nth k F (calls c) ->
  (forall i, call c k = Some i -> call_moves e c c' k i (F i)) ->
  (forall j i, call c j = Some i ->
     exists i', call c' j = Some i' /\ call_moves e c c' j i i')
  /\ (forall j i', call c' j = Some i' -> call c j = None -> False).
Proof.
  intros Hc HF. unfold call in *. split.
  - intros j i Hj. rewrite Hc, nth_error_update_nth.
    destruct (Nat.eqb j k) eqn:E.
    + apply Nat.eqb_eq in E. subst j. rewrite Hj. simpl. eauto.
    + exists i. split; [exact Hj|apply call_moves_same].
  - intros j i' Hj Hn. rewrite Hc, nth_error_update_nth, Hn in Hj.
    destruct (Nat.eqb j k); discriminate.
Qed.

Lemma startAuthFlow_error c err :
  snd (startAuthFlow c) = Some err -> err <> ConnectionTimeout.
Proof.
  intros H ->. unfold startAuthFlow, send in H. destruct (ws c) as [w|].
  - destruct (is_open c (Some w)).
    + destruct (readyState c w) as [[| | |]|]; simpl in H; discriminate.
    + simpl in H. discriminate.
  - simpl in H. discriminate.
Qed.

Lemma on_open_shape k c :
  exists F, calls (on_open k c) = update_nth k F (calls c)
            /\ clock (on_open k c) = clock c
            /\ forall e c' i, e <> TimeoutFires k -> call_moves e c c' k i (F i).
Proof.
  unfold on_open.
  set (c1 := update_call c k (set_socket OPEN)).
  destruct (startAuthFlow_frame c1) as (Hc & Hk & _).
  pose proof (startAuthFlow_error c1) as Herr.
  destruct (startAuthFlow c1) as [c2 [err|]]; simpl in Hc, Hk, Herr.
  - destruct (reject_frame k err (clearTimeout k c2)) as (-> & -> & _).
    unfold clearTimeout, update_call. simpl. rewrite Hc, Hk.
    unfold c1, update_call. simpl. rewrite !update_nth_twice.
    eexists. split; [reflexivity|]. split; [reflexivity|].
    intros e c' i He.
    apply (call_moves_reject e c c' k i err (set_socket OPEN)); auto.
    intros ->. exfalso. now apply (Herr ConnectionTimeout).
  - rewrite Hc, Hk. unfold c1, update_call. simpl.
    eexists. split; [reflexivity|]. split; [reflexivity|].
    intros e c' i _. now apply call_moves_socket.
Qed.

Lemma on_message_shape k data c :
  exists F, calls (on_message k data c) = update_nth k F (calls c)
            /\ clock (on_message k data c) = clock c
            /\ forall i, call_moves (SocketMessage k data) c (on_message k data c) k i (F i).
Proof.
  unfold on_message.
  destruct (handleMessage_frame data c) as (Hc & Hk & _ & Ha).
  destruct (handleMessage data c) as [c1 [err|]] eqn:Hh; simpl in Hc, Hk, Ha.
  - exists (fun i => i). simpl. rewrite Hc, Hk.
    split; [now rewrite update_nth_same|]. split; [reflexivity|].
    intros i. apply call_moves_same.
  - destruct (negb (isAuthenticated c) && isAuthenticated c1)%bool eqn:Hflip.
    + apply andb_true_iff in Hflip as [Hf Ht]. apply negb_true_iff in Hf.
      destruct (resolve_frame k (clearTimeout k c1)) as (Hrc & Hrk & Hra & _).
      assert (Hauth : isAuthenticated (resolve k (clearTimeout k c1)) = true)
        by (rewrite Hra; exact Ht).
      exists (fun i => resolve_call (set_timeout None i)).
      split; [|split].
      * rewrite Hrc. unfold clearTimeout, update_call. simpl.
        now rewrite Hc, update_nth_twice.
      * rewrite Hrk. simpl. exact Hk.
      * intros i. now apply call_moves_resolve.
    + exists (fun i => i). rewrite Hc, Hk.
      split; [now rewrite update_nth_same|]. split; [reflexivity|].
      intros i. apply call_moves_same.
Qed.

Lemma on_error_shape k c :
  exists F, calls (on_error k c) = update_nth k F (calls c)
            /\ clock (on_error k c) = clock c
            /\ forall e c' i, call_moves e c c' k i (F i).
Proof.
  unfold on_error.
  destruct (reject_frame k SocketFailure (clearTimeout k c)) as (-> & -> & _).
  unfold clearTimeout, update_call. simpl. rewrite update_nth_twice.
  eexists. split; [reflexivity|]. split; [reflexivity|].
  intros e c' i.
  apply (call_moves_reject e c c' k i SocketFailure (fun x => x)); auto.
  discriminate.
Qed.

Lemma on_close_shape k c :
  calls (on_close k c) = update_nth k (set_socket CLOSED) (calls c)
  /\ clock (on_close k c) = clock c.
Proof.
  unfold on_close.
  destruct (attemptReconnect_frame
              (with_isAuthenticated (update_call c k (set_socket CLOSED)) false))
    as (-> & -> & _).
  split; reflexivity.
Qed.

Lemma on_timeout_shape k c :
  calls (on_timeout k c)
  = update_nth k (fun i => reject_call ConnectionTimeout (set_timeout None i)) (calls c)
  /\ clock (on_timeout k c) = clock c.
Proof.
  unfold on_timeout.
  destruct (reject_frame k ConnectionTimeout (update_call c k (set_timeout None)))
    as (-> & -> & _).
  unfold update_call. simpl. now rewrite update_nth_twice.
Qed.

Lemma disconnect_shape c :
  exists k, calls (disconnect c)
            = update_nth k (fun i => match socket i with
                                     | CLOSED => i
                                     | _ => set_socket CLOSING i
                                     end) (calls c)
            /\ clock (disconnect c) = clock c.
Proof.
  unfold disconnect. simpl. destruct (ws c) as [k|].
  - exists k. split; reflexivity.
  - exists (List.length (calls c)). split; [|reflexivity].
    rewrite update_nth_same; [reflexivity|].
    intros x Hx. assert (Hn : nth_error (calls c) (List.length (calls c)) = None)
      by (apply nth_error_None; lia).
    congruence.
Qed.

End EventLoop.

Section EventLoopInvariants.

Import Bank.

Lemma update_nth_last {A} (f : A -> A) (l : list A) (x : A) :
  update_nth (List.length l) f (l ++ [x]) = l ++ [f x].
Proof. induction l as [|y l IH]; simpl; [reflexivity|]. now rewrite IH. Qed.

(** A turn that only adds the record of a new init call. *)
Lemma moves_of_init e c c' (fresh : InitCall) :
  calls c' = calls c ++ [fresh] ->
  (forall j i, call c j = Some i ->
     exists i', call c' j = Some i' /\ call_moves e c c' j i i')
  /\ (forall j i', call c' j = Some i' -> call c j = None -> i' = fresh).
Proof.
  intros Hc. unfold call. rewrite Hc. split.
  - intros j i Hj. exists i. split; [|apply call_moves_same].
    rewrite nth_error_app1; [exact Hj|]. apply nth_error_Some. congruence.
  - intros j i' Hj Hn. apply nth_error_None in Hn.
    rewrite nth_error_app2 in Hj by exact Hn.
    destruct (j - List.length (calls c))%nat as [|n]; simpl in Hj.
    + now inversion Hj.
    + destruct n; discriminate.
Qed.

(** One turn of the event loop, seen from the init calls and the clock. *)
Lemma step_calls e c c' :
  step e c = Some c' ->
  (forall j i, call c j = Some i ->
     exists i', call c' j = Some i' /\ call_moves e c c' j i i')
  /\ (forall j i', call c' j = Some i' -> call c j = None ->
        started i' = clock c /\ promise i' = Pending
        /\ timeout i' = Some (clock c + 30000) /\ clock c' = clock c)
  /\ (clock c' = clock c
      \/ (calls c' = calls c /\ clock c <= clock c'
          /\ forall d, In d (deadlines c) -> clock c' <= d)).
Proof.
  intros Hstep.
  destruct e as [k|k data|k|k|k|n|dt| |]; simpl in Hstep.
  - destruct (readyState c k) as [[| | |]|]; try discriminate.
    inversion Hstep; subst c'; clear Hstep.
    destruct (on_open_shape k c) as (F & Hc & Hk & HF).
    destruct (moves_of_update (SocketOpen k) c (on_open k c) k F Hc) as [H1 H2].
    { intros i _. apply HF. discriminate. }
    split; [exact H1|]. split; [|now left].
    intros j i' Hj Hn. destruct (H2 j i' Hj Hn).
  - assert (Hc' : c' = on_message k data c)
      by (destruct (readyState c k) as [[| | |]|]; congruence).
    subst c'. clear Hstep.
    destruct (on_message_shape k data c) as (F & Hc & Hk & HF).
    destruct (moves_of_update (SocketMessage k data) c (on_message k data c) k F Hc)
      as [H1 H2].
    { intros i _. apply HF. }
    split; [exact H1|]. split; [|now left].
    intros j i' Hj Hn. destruct (H2 j i' Hj Hn).
  - assert (Hc' : c' = on_error k c)
      by (destruct (readyState c k) as [[| | |]|]; congruence).
    subst c'. clear Hstep.
    destruct (on_error_shape k c) as (F & Hc & Hk & HF).
    destruct (moves_of_update (SocketError k) c (on_error k c) k F Hc) as [H1 H2].
    { intros i _. apply HF. }
    split; [exact H1|]. split; [|now left].
    intros j i' Hj Hn. destruct (H2 j i' Hj Hn).
  - assert (Hc' : c' = on_close k c)
      by (destruct (readyState c k) as [[| | |]|]; congruence).
    subst c'. clear Hstep.
    destruct (on_close_shape k c) as (Hc & Hk).
    destruct (moves_of_update (SocketClose k) c (on_close k c) k _ Hc) as [H1 H2].
    { intros i _. now apply call_moves_socket. }
    split; [exact H1|]. split; [|now left].
    intros j i' Hj Hn. destruct (H2 j i' Hj Hn).
  - destruct (option_map timeout (call c k)) as [[t|]|]; try discriminate.
    destruct (t <=? clock c); [|discriminate].
    inversion Hstep; subst c'; clear Hstep.
    destruct (on_timeout_shape k c) as (Hc & Hk).
    destruct (moves_of_update (TimeoutFires k) c (on_timeout k c) k _ Hc) as [H1 H2].
    { intros i _.
      apply (call_moves_reject (TimeoutFires k) c (on_timeout k c) k i
               ConnectionTimeout (fun x => x)); auto. }
    split; [exact H1|]. split; [|now left].
    intros j i' Hj Hn. destruct (H2 j i' Hj Hn).
  - destruct (nth_error (sleeping c) n) as [[t|]|]; try discriminate.
    destruct (t <=? clock c); [|discriminate].
    inversion Hstep; subst c'; clear Hstep.
    set (c0 := with_sleeping c _).
    assert (Hc : calls (reconnect_after_sleep c0)
                 = calls c ++ [set_awaited true
                                 (mkInitCall (clock c) CONNECTING Pending
                                    (Some (clock c + 30000)) false)]).
    { unfold reconnect_after_sleep, init, update_call. simpl.
      apply update_nth_last. }
    destruct (moves_of_init (SleepEnds n) c (reconnect_after_sleep c0) _ Hc)
      as [H1 H2].
    split; [exact H1|]. split; [|now left].
    intros j i' Hj Hn. rewrite (H2 j i' Hj Hn). simpl. auto.
  - destruct (0 <=? dt) eqn:Hdt; simpl in Hstep; [|discriminate].
    destruct (forallb _ (deadlines c)) eqn:Hall; [|discriminate].
    inversion Hstep; subst c'; clear Hstep. apply Z.leb_le in Hdt.
    split; [|split].
    + intros j i Hj. exists i. split; [exact Hj|apply call_moves_same].
    + intros j i' Hj Hn. unfold call in *. simpl in Hj. congruence.
    + right. simpl. split; [reflexivity|]. split; [lia|].
      intros d Hd. rewrite forallb_forall in Hall. apply Z.leb_le. now apply Hall.
  - inversion Hstep; subst c'; clear Hstep.
    assert (Hc : calls (fst (init c))
                 = calls c ++ [mkInitCall (clock c) CONNECTING Pending
                                 (Some (clock c + 30000)) false]) by reflexivity.
    destruct (moves_of_init CallInit c (fst (init c)) _ Hc) as [H1 H2].
    split; [exact H1|]. split; [|now left].
    intros j i' Hj Hn. rewrite (H2 j i' Hj Hn). simpl. auto.
  - inversion Hstep; subst c'; clear Hstep.
    destruct (disconnect_shape c) as (k & Hc & Hk).
    destruct (moves_of_update CallDisconnect c (disconnect c) k _ Hc) as [H1 H2].
    { intros i _.
      apply (call_moves_socket CallDisconnect c (disconnect c) k i
               (fun i => match socket i with CLOSED => i | _ => set_socket CLOSING i end));
        now destruct (socket i). }
    split; [exact H1|]. split; [|now left].
    intros j i' Hj Hn. destruct (H2 j i' Hj Hn).
Qed.

Lemma deadlines_timeout c k i d :
  call c k = Some i -> timeout i = Some d -> In d (deadlines c).
Proof.
  intros Hk Ht. unfold deadlines. apply in_or_app. left.
  apply in_flat_map. exists i. split.
  - unfold call in Hk. now apply nth_error_In in Hk.
  - rewrite Ht. now left.
Qed.

(** The timers stay armed while their promise is pending, and time does
    not pass over them. *)
Lemma step_timers_ok e c c' :
  step e c = Some c' -> timers_ok c -> timers_ok c'.
Proof.
  intros Hstep Hok k i' Hk'.
  destruct (step_calls e c c' Hstep) as (Hold & Hnew & Hclock).
  destruct (call c k) as [i|] eqn:Hk.
  - destruct (Hold k i Hk) as (i'' & Hk'' & Hs & Hp & Ht).
    rewrite Hk' in Hk''. inversion Hk''; subst i''. clear Hk''.
    destruct (Hok k i Hk) as [Harm Hlate].
    split.
    + intros Hpend. rewrite Hs.
      destruct Ht as [Ht|[_ Hnp]]; [|contradiction].
      rewrite Ht. apply Harm.
      destruct Hp as [Hp|(_ & [(Hf & _)|(err & Hr & _)])]; congruence.
    + intros d Hd. rewrite Hs.
      destruct Ht as [Ht|[Ht _]]; [|congruence].
      rewrite Ht in Hd. destruct (Hlate d Hd) as [Hd1 Hd2]. split; [exact Hd1|].
      destruct Hclock as [->|(_ & _ & Hall)]; [exact Hd2|].
      apply Hall. now apply (deadlines_timeout c k i).
  - destruct (Hnew k i' Hk' Hk) as (Hs & Hp & Ht & Hc).
    split.
    + intros _. now rewrite Ht, Hs.
    + intros d Hd. rewrite Ht in Hd. inversion Hd; subst d. rewrite Hs, Hc. lia.
Qed.

Lemma new_timers_ok a now : timers_ok (new a now).
Proof. intros k i Hk. unfold call in Hk. simpl in Hk. now destruct k. Qed.

Lemma run_timers_ok es : forall c c',
  run es c = Some c' -> timers_ok c -> timers_ok c'.
Proof.
  induction es as [|e es IH]; intros c c' Hrun Hok; simpl in Hrun.
  - now inversion Hrun; subst.
  - destruct (step e c) as [c1|] eqn:Hstep; [|discriminate].
    apply (IH c1 c' Hrun). now apply (step_timers_ok e c).
Qed.

End EventLoopInvariants.

Section InitPromise.

Import Bank.

(** The 30 s timer that fires rejects a pending promise with the timeout
    error. *)
Lemma timeout_rejects c c' k i :
  step (TimeoutFires k) c = Some c' ->
  call c k = Some i -> promise i = Pending ->
  exists i', call c' k = Some i' /\ promise i' = Rejected ConnectionTimeout.
Proof.
  intros Hstep Hk Hp. simpl in Hstep. rewrite Hk in Hstep. simpl in Hstep.
  destruct (timeout i) as [t|]; [|discriminate].
  destruct (t <=? clock c); [|discriminate].
  inversion Hstep; subst c'; clear Hstep.
  destruct (on_timeout_shape k c) as (Hc & _).
  unfold call in *. rewrite Hc, nth_error_update_nth, Nat.eqb_refl, Hk. simpl.
  eexists. split; [reflexivity|]. unfold reject_call. simpl. now rewrite Hp.
Qed.

(** The verification message that arrives on the current, open socket of
    a session that is not yet authenticated fulfils the pending promise. *)
Lemma auth_verify_resolves c k i payload :
  ws c = Some k -> readyState c k = Some OPEN ->
  isAuthenticated c = false ->
  call c k = Some i -> promise i = Pending ->
  let c' := on_message k (Res "auth_verify" payload) c in
  step (SocketMessage k (Res "auth_verify" payload)) c = Some c'
  /\ isAuthenticated c' = true
  /\ exists i', call c' k = Some i' /\ promise i' = Fulfilled.
Proof.
  intros Hws Hopen Hauth Hk Hp c'.
  split; [simpl; now rewrite Hopen|].
  subst c'. unfold on_message, handleMessage. rewrite Hauth.
  change (String.eqb "auth_verify" "auth_challenge") with false.
  change (String.eqb "auth_verify" "auth_verify") with true.
  cbv iota zeta.
  assert (Hws1 : ws (with_isAuthenticated c true) = Some k) by exact Hws.
  rewrite Hws1. unfold send.
  assert (Hr1 : readyState (with_isAuthenticated c true) k = Some OPEN) by exact Hopen.
  rewrite Hr1. simpl negb. simpl andb.
  set (c1 := with_sent _ _).
  destruct (resolve_frame k (clearTimeout k c1)) as (Hc & _ & Ha & _).
  split; [rewrite Ha; reflexivity|].
  unfold call in *. rewrite Hc. unfold clearTimeout, update_call. simpl calls.
  rewrite update_nth_twice, nth_error_update_nth, Nat.eqb_refl, Hk. simpl.
  eexists. split; [reflexivity|]. unfold resolve_call. simpl. now rewrite Hp.
Qed.

End InitPromise.




(** What the second [init()] does on Bob's ready session: the handshake is
    run again on the new socket; the verification message finds the
    session authenticated already, so the new promise is not fulfilled by
    it and is rejected when its timer fires. *)
Example second_init_on_ready_session :
  let c1 := fst (Bank.init ready_bank) in
  Bank.ws c1 = Some 1%nat
  /\ Bank.readyState c1 1 = Some Bank.CONNECTING
  /\ option_map Bank.promise (Bank.call c1 1) = Some Bank.Pending
  /\ (exists c2,
        Bank.run [Bank.SocketOpen 1; Bank.SocketMessage 1 auth_challenge;
                  Bank.SocketMessage 1 auth_verify] c1 = Some c2
        /\ map snd (Bank.sent c2)
           = [Bank.AuthRequest; Bank.AuthVerify EmptyString; Bank.LedgerBalancesQuery;
              Bank.AuthRequest; Bank.AuthVerify EmptyString; Bank.LedgerBalancesQuery]
        /\ option_map Bank.promise (Bank.call c2 1) = Some Bank.Pending
        /\ option_map (fun c3 => option_map Bank.promise (Bank.call c3 1))
             (Bank.run [Bank.Elapse 30000; Bank.TimeoutFires 1] c2)
           = Some (Some (Bank.Rejected Bank.ConnectionTimeout))).
Proof.
  vm_compute. repeat split. eexists. repeat split.
Qed.

Section Reconnector.

Import Bank.

(** Attempt [n] (numbered from 1) sleeps [base * 2 ^ (n - 1)] ms. *)
Lemma attemptReconnect_backoff c :
  reconnectAttempts c < maxReconnectAttempts c ->
  let n := reconnectAttempts c + 1 in
  let c' := attemptReconnect c in
  reconnectAttempts c' = n
  /\ sleeping c' = sleeping c ++ [Some (clock c + reconnectDelay c * 2 ^ (n - 1))]
  /\ calls c' = calls c /\ maxReconnectAttempts c' = maxReconnectAttempts c.
Proof.
  intros Hlt n c'. subst n c'. unfold attemptReconnect.
  destruct (maxReconnectAttempts c <=? reconnectAttempts c) eqn:Hcap; [lia|].
  destruct c; simpl in *. repeat split.
Qed.

(** Once the counter has reached the maximum nothing is scheduled. *)
Lemma attemptReconnect_capped c :
  maxReconnectAttempts c <= reconnectAttempts c ->
  attemptReconnect c = log c LogMaxReconnect.
Proof.
  intros Hle. unfold attemptReconnect.
  destruct (maxReconnectAttempts c <=? reconnectAttempts c) eqn:Hcap; [reflexivity|lia].
Qed.

(** The promise awaited by [attemptReconnect], once fulfilled, resets the
    counter. *)
Lemma reconnect_resets_attempts c k i :
  call c k = Some i -> promise i = Pending -> awaited i = true ->
  reconnectAttempts (resolve k c) = 0.
Proof.
  intros Hk Hp Ha. unfold resolve. now rewrite Hk, Hp, Ha.
Qed.

Lemma update_nth_length {A} (f : A -> A) (l : list A) : forall k,
  List.length (update_nth k f l) = List.length l.
Proof.
  induction l as [|x l IH]; intros [|k]; simpl; auto.
Qed.

(** [disconnect()] sets the maximum to zero and then closes the socket;
    the close event that follows schedules nothing. *)
Lemma close_after_disconnect c k :
  0 <= reconnectAttempts c ->
  let c1 := disconnect c in
  maxReconnectAttempts c1 = 0 /\ ws c1 = None /\ isAuthenticated c1 = false
  /\ sleeping (on_close k c1) = sleeping c1
  /\ List.length (calls (on_close k c1)) = List.length (calls c1).
Proof.
  intros Hn c1.
  assert (Hm : maxReconnectAttempts c1 = 0)
    by (subst c1; destruct c as [a [w|] au cb n m d cs sl t se de co]; reflexivity).
  assert (Hr : reconnectAttempts c1 = reconnectAttempts c)
    by (subst c1; destruct c as [a [w|] au cb n m d cs sl t se de co]; reflexivity).
  assert (Hw : ws c1 = None)
    by (subst c1; destruct c as [a [w|] au cb n m d cs sl t se de co]; reflexivity).
  split; [exact Hm|]. split; [exact Hw|]. split; [reflexivity|].
  unfold on_close. rewrite attemptReconnect_capped.
  2:{ change (maxReconnectAttempts c1 <= reconnectAttempts c1). lia. }
  split; [reflexivity|]. simpl. apply update_nth_length.
Qed.

End Reconnector.

(** C7.  The reconnector after an unexpected close: attempt 1 of Bob's
    session is scheduled [3000 * 2 ^ 0] ms after the close.  One second
    later [disconnect()] sets the maximum to zero, finds the socket
    closed, and leaves the sleeping reconnect where it is.  When the sleep
    ends, [init()] runs after the explicit disconnect: a second socket is
    opened, the handshake is sent on it, and the session is authenticated
    and ready again, with the maximum still at zero. *)
Theorem reconnect_fires_after_disconnect :
  exists c c',
    Bank.run disconnected_in_backoff (Bank.new bob 0) = Some c
    /\ Bank.maxReconnectAttempts c = 0
    /\ Bank.ws c = None
    /\ Bank.isReady c = false
    /\ Bank.reconnectAttempts c = 1
    /\ Bank.sleeping c = [Some (0 + 3000 * 2 ^ (1 - 1))]
    /\ reconnect_in_flight c = true
    /\ List.length (Bank.calls c) = 1%nat
    /\ Bank.run backoff_ends c = Some c'
    /\ Bank.maxReconnectAttempts c' = 0
    /\ List.length (Bank.calls c') = 2%nat
    /\ Bank.ws c' = Some 1%nat
    /\ Bank.readyState c' 1 = Some Bank.OPEN
    /\ Bank.isReady c' = true
    /\ ~ disconnect_is_terminal.
Proof.
  destruct (Bank.run disconnected_in_backoff (Bank.new bob 0)) as [c|] eqn:Hc;
    [|vm_compute in Hc; discriminate Hc].
  destruct (Bank.run backoff_ends c) as [c'|] eqn:Hc'.
  2:{ vm_compute in Hc. inversion Hc; subst c. vm_compute in Hc'.
      discriminate Hc'. }
  exists c, c'.
  assert (Hterm : ~ disconnect_is_terminal).
  { intros H.
    specialize (H (Bank.CallInit :: handshake 0
                   ++ [Bank.SocketClose 0; Bank.Elapse 1000])
                  backoff_ends c c' Hc Hc').
    vm_compute in Hc. inversion Hc; subst c.
    vm_compute in Hc'. inversion Hc'; subst c'.
    assert (Hno : ~ In Bank.CallInit backoff_ends).
    { simpl. intros [F|[F|[F|[F|[F|[]]]]]]; discriminate F. }
    specialize (H Hno). vm_compute in H. discriminate H. }
  vm_compute in Hc. inversion Hc; subst c.
  vm_compute in Hc'. inversion Hc'; subst c'.
  repeat (split; [reflexivity|]). exact Hterm.
Qed.

(* ================================================================== *)
(** * Part III. Further properties of the code                          *)
(* ================================================================== *)

(** ** Accounts: [getOrCreateUser], [getUser], [updateCreditScore], [stripENS] *)

Lemma lower_ascii_idem c : JS.lower_ascii (JS.lower_ascii c) = JS.lower_ascii c.
Proof.
  destruct c as [[] [] [] [] [] [] [] []]; reflexivity.
Qed.

Lemma toLowerCase_idem s : JS.toLowerCase (JS.toLowerCase s) = JS.toLowerCase s.
Proof.
  induction s as [|c s IH]; simpl; [reflexivity|].
  now rewrite lower_ascii_idem, IH.
Qed.

Lemma NoDup_snoc {A} (l : list A) (x : A) :
  NoDup l -> ~ In x l -> NoDup (l ++ [x]).
Proof.
  induction l as [|y l IH]; simpl; intros Hl Hx.
  - constructor; [tauto|constructor].
  - inversion Hl as [|? ? Hy Hl']; subst. constructor.
    + rewrite in_app_iff. simpl. intros [F|[F|[]]]; [tauto|]. apply Hx. now left.
    + apply IH; [exact Hl'|]. intros F. apply Hx. now right.
Qed.

Section Accounts.

Import Store Services Reports.
Variable cfg : Config.

Lemma filter_address_absent (l : list User) a :
  ~ In a (map wallet_address l) ->
  filter (fun u => String.eqb (wallet_address u) a) l = [].
Proof.
  induction l as [|x l IH]; simpl; intros H; [reflexivity|].
  destruct (String.eqb_spec (wallet_address x) a) as [E|E]; [tauto|].
  apply IH. tauto.
Qed.

Lemma filter_address_unique (l : list User) a :
  NoDup (map wallet_address l) ->
  (List.length (filter (fun u => String.eqb (wallet_address u) a) l) <= 1)%nat.
Proof.
  induction l as [|x l IH]; simpl; intros H; [lia|].
  inversion H as [|? ? Hx Hl]; subst.
  destruct (String.eqb_spec (wallet_address x) a) as [E|E]; [|now apply IH].
  subst a. rewrite filter_address_absent by exact Hx. simpl. lia.
Qed.

Lemma user_absent db a :
  users_unique db -> user_by_address db a = None ->
  filter (fun u => String.eqb (wallet_address u) a) (users db) = [].
Proof.
  intros Hu Hn. unfold user_by_address, single in Hn.
  pose proof (filter_address_unique (users db) a Hu) as Hle.
  destruct (filter _ (users db)) as [|x [|y r]]; [reflexivity|discriminate|].
  simpl in Hle. lia.
Qed.

Lemma filter_absent_not_In (l : list User) a :
  filter (fun u => String.eqb (wallet_address u) a) l = [] ->
  ~ In a (map wallet_address l).
Proof.
  induction l as [|x l IH]; simpl; intros H; [tauto|].
  destruct (String.eqb_spec (wallet_address x) a) as [E|E]; [discriminate|].
  intros [F|F]; [congruence|]. now apply IH.
Qed.

Lemma user_by_address_update db a f u :
  (forall x, wallet_address (f x) = wallet_address x) ->
  user_by_address db a = Some u ->
  user_by_address (update_user db a f) a = Some (f u).
Proof.
  intros Hf Hu. unfold user_by_address, update_user. simpl.
  rewrite filter_update_rows by (intros x; now rewrite Hf).
  now apply single_map.
Qed.

Lemma user_by_address_update_other db a b f :
  (forall x, wallet_address (f x) = wallet_address x) ->
  a <> b ->
  user_by_address (update_user db a f) b = user_by_address db b.
Proof.
  intros Hf Hab. unfold user_by_address, update_user. simpl. f_equal.
  induction (users db) as [|x l IH]; simpl; [reflexivity|].
  destruct (String.eqb_spec (wallet_address x) a) as [E|E].
  - rewrite Hf.
    destruct (String.eqb_spec (wallet_address x) b) as [E'|E']; [congruence|].
    exact IH.
  - destruct (String.eqb (wallet_address x) b); [now rewrite IH|exact IH].
Qed.

(** X1.  [getOrCreateUser] on a store whose wallet addresses are distinct
    (the primary key): the addresses stay distinct; the row it returns is
    the row [getUser] finds afterwards; an existing account is returned as
    it is and nothing is written; a missing one is created with the
    lower-cased address, score 650, garnish 50 % and auto-repay on, and no
    other table is touched; every other account reads as before; and a
    second call, with the address in any case and whatever the ENS lookup
    answers, returns the same row and writes nothing. *)
Theorem getOrCreateUser_round_trip a ensName db :
  users_unique db ->
  let address := JS.toLowerCase a in
  let db' := fst (getOrCreateUser a ensName db) in
  let r := snd (getOrCreateUser a ensName db) in
  users_unique db'
  /\ r = getUser a db'
  /\ (forall u, getUser a db = Some u -> db' = db /\ r = Some u)
  /\ (getUser a db = None ->
      r = Some (mkUser address ensName 650 false (Some 50) true)
      /\ users db' = users db ++ [mkUser address ensName 650 false (Some 50) true]
      /\ vouches db' = vouches db /\ debts db' = debts db
      /\ payments db' = payments db /\ credit_history db' = credit_history db
      /\ oracle db' = oracle db)
  /\ (forall b, JS.toLowerCase b <> address -> getUser b db' = getUser b db)
  /\ (forall a2 ens2, JS.toLowerCase a2 = address ->
        getOrCreateUser a2 ens2 db' = (db', r)).
Proof.
  intros Hu address db' r. subst db' r. unfold getOrCreateUser, getUser.
  fold address.
  destruct (user_by_address db address) as [u|] eqn:Hsel.
  - simpl fst. simpl snd.
    split; [exact Hu|]. split; [now rewrite Hsel|].
    split; [intros u' Hu'; now inversion Hu'|].
    split; [discriminate|].
    split; [reflexivity|].
    intros a2 ens2 E. rewrite E. now rewrite Hsel.
  - pose proof (user_absent db address Hu Hsel) as Hnone.
    assert (Hex : existsb (fun u => String.eqb (wallet_address u) address) (users db)
                  = false).
    { destruct (existsb _ (users db)) eqn:Hex; [|reflexivity].
      apply existsb_exists in Hex as (x & Hx & Hk).
      assert (Hin : In x (filter (fun u => String.eqb (wallet_address u) address)
                            (users db)))
        by (apply filter_In; now split).
      rewrite Hnone in Hin. destruct Hin. }
    rewrite Hex. cbv zeta. simpl fst. simpl snd.
    set (u := mkUser address ensName CREDIT_SCORE.DEFAULT false (Some 50) true).
    assert (Hfind : user_by_address (set_users db (users db ++ [u])) address = Some u).
    { unfold user_by_address. simpl. rewrite filter_app, Hnone. simpl.
      now rewrite String.eqb_refl. }
    split.
    { unfold users_unique. simpl. rewrite map_app. simpl.
      apply NoDup_snoc; [exact Hu|].
      now apply (filter_absent_not_In (users db) address). }
    split; [now rewrite Hfind|].
    split; [discriminate|].
    split; [intros _; repeat split; reflexivity|].
    split.
    + intros b Hb. unfold user_by_address. simpl. rewrite filter_app. simpl.
      destruct (String.eqb_spec address (JS.toLowerCase b)) as [E|E]; [congruence|].
      now rewrite app_nil_r.
    + intros a2 ens2 E. rewrite E. now rewrite Hfind.
Qed.

Lemma stripENS_row a db user :
  JS.toLowerCase a = a ->
  user_by_address db a = Some user ->
  user_by_address (stripENS cfg a db) a
  = Some (set_ens_stripped true user)
  /\ (forall b, a <> b ->
        user_by_address (stripENS cfg a db) b = user_by_address db b)
  /\ oracle (stripENS cfg a db)
     = oracle db ++ (if (contracts_configured cfg && negb (ens_stripped user))%bool
                     then [MarkDefaultOnChain a] else []).
Proof.
  intros Ha Hu. unfold stripENS. rewrite Ha, Hu.
  destruct (ens_stripped user) eqn:Hs; simpl negb; cbv iota.
  - rewrite andb_false_r, app_nil_r.
    split; [|split; [reflexivity|reflexivity]].
    rewrite Hu. f_equal. destruct user; simpl in *. now subst.
  - rewrite andb_true_r.
    assert (H1 : user_by_address (update_user db a (set_ens_stripped true)) a
                 = Some (set_ens_stripped true user))
      by (apply user_by_address_update; auto).
    assert (H2 : forall b, a <> b ->
                 user_by_address (update_user db a (set_ens_stripped true)) b
                 = user_by_address db b)
      by (intros b Hb; apply user_by_address_update_other; auto).
    destruct (contracts_configured cfg); simpl.
    + split; [exact H1|]. split; [exact H2|reflexivity].
    + split; [exact H1|]. split; [exact H2|now rewrite app_nil_r].
Qed.

(** The row, the other accounts and the contract calls after a score
    update. *)
Lemma updateCreditScore_account a delta why db user :
  getUser a db = Some user ->
  let address := JS.toLowerCase a in
  let new := Z.max 300 (Z.min 900 (credit_score user + delta)) in
  let db' := fst (updateCreditScore cfg a delta why db) in
  getUser a db' = Some (rescored new user)
  /\ (forall b, JS.toLowerCase b <> address -> getUser b db' = getUser b db)
  /\ oracle db' = oracle db ++ score_calls cfg address new user
  /\ (forall a', getUser a' db = None ->
        updateCreditScore cfg a' delta why db = (db, 650)).
Proof.
  intros Hu address new db'. unfold getUser in *. fold address in Hu.
  split; [|split; [|split]].
  4:{ intros a' Hn. unfold updateCreditScore. now rewrite Hn. }
  all: subst db'; unfold updateCreditScore; fold address; rewrite Hu; cbv zeta;
    change (Z.max CREDIT_SCORE.MIN (Z.min CREDIT_SCORE.MAX (credit_score user + delta)))
      with new;
    set (db1 := update_user db address (set_credit_score new));
    set (db2 := insert_history db1 _);
    set (db3 := if contracts_configured cfg then _ else db2);
    assert (H3 : user_by_address db3 address = Some (set_credit_score new user))
      by (subst db3 db2; destruct (contracts_configured cfg);
          apply (user_by_address_update db address (set_credit_score new) user);
          auto);
    assert (H3o : forall b, address <> b ->
                  user_by_address db3 b = user_by_address db b)
      by (intros b Hb; subst db3 db2; destruct (contracts_configured cfg);
          apply (user_by_address_update_other db address b (set_credit_score new));
          auto);
    assert (O3 : oracle db3
                 = oracle db ++ (if contracts_configured cfg
                                 then [UpdateCreditScoreOnChain address new] else []))
      by (subst db3 db2 db1; destruct (contracts_configured cfg); simpl;
          [reflexivity|now rewrite app_nil_r]);
    simpl fst;
    destruct (stripENS_row address db3 (set_credit_score new user)
                (toLowerCase_idem a) H3) as (S1 & S2 & S3).
  - unfold rescored. destruct (new <? CREDIT_SCORE.ENS_STRIP_THRESHOLD).
    + rewrite S1. f_equal. unfold set_ens_stripped, set_credit_score. simpl.
      now rewrite orb_true_r.
    + rewrite H3. f_equal. unfold set_credit_score. now rewrite orb_false_r.
  - intros b Hb. destruct (new <? CREDIT_SCORE.ENS_STRIP_THRESHOLD).
    + rewrite S2 by congruence. apply H3o. congruence.
    + apply H3o. congruence.
  - unfold score_calls. destruct (new <? CREDIT_SCORE.ENS_STRIP_THRESHOLD).
    + rewrite S3, O3. simpl ens_stripped.
      destruct (contracts_configured cfg); simpl.
      * rewrite <- app_assoc. reflexivity.
      * now rewrite app_nil_r.
    + rewrite O3. destruct (contracts_configured cfg); reflexivity.
Qed.

(** X2.  A score update of an existing account writes the clamped score
    and sets [ens_stripped] when, and only when, the new score is below
    400 (a flag that is set stays set); name, garnish percentage and
    auto-repay are left alone, and so is every other account.  With the
    contracts configured the new score is sent on-chain, followed by one
    default marking when the score is below 400 and the flag was not yet
    set; without them nothing is sent.  One
    history entry with the old and the new score is appended, and vouches,
    debts and payments are not touched.  An update of an unknown address
    writes nothing and answers 650. *)
Theorem updateCreditScore_row a delta why db user :
  getUser a db = Some user ->
  let address := JS.toLowerCase a in
  let new := Z.max 300 (Z.min 900 (credit_score user + delta)) in
  let db' := fst (updateCreditScore cfg a delta why db) in
  getUser a db' = Some (rescored new user)
  /\ (forall b, JS.toLowerCase b <> address -> getUser b db' = getUser b db)
  /\ oracle db' = oracle db ++ score_calls cfg address new user
  /\ credit_history db'
     = credit_history db ++ [mkCreditHistory address (credit_score user) new why]
  /\ vouches db' = vouches db /\ debts db' = debts db /\ payments db' = payments db
  /\ (forall a', getUser a' db = None ->
        updateCreditScore cfg a' delta why db = (db, 650)).
Proof.
  intros Hu address new db'.
  destruct (updateCreditScore_account a delta why db user Hu) as (H1 & H2 & H3 & H4).
  destruct (updateCreditScore_effect cfg a delta why db user Hu) as (_ & _ & H5).
  destruct (updateCreditScore_frame cfg a delta why db) as (F1 & F2 & F3 & _).
  split; [exact H1|]. split; [exact H2|]. split; [exact H3|].
  split; [exact H5|]. split; [exact F1|]. split; [exact F2|]. split; [exact F3|].
  exact H4.
Qed.

End Accounts.

Lemma low_score_db_unique : users_unique low_score_db.
Proof.
  unfold users_unique. simpl. repeat constructor; simpl; intuition discriminate.
Defined.

Lemma getOrCreateUser_round_trip_witness :
  users_unique low_score_db
  /\ Services.getOrCreateUser "0xCA401" None low_score_db
     = (Store.set_users low_score_db
          (users low_score_db ++ [mkUser carol None 650 false (Some 50) true]),
        Reports.getUser "0xCA401"
          (fst (Services.getOrCreateUser "0xCA401" None low_score_db)))
  /\ Services.getOrCreateUser carol (Some "carol.eth"%string)
       (fst (Services.getOrCreateUser "0xCA401" None low_score_db))
     = Services.getOrCreateUser "0xCA401" None low_score_db.
Proof.
  split; [exact low_score_db_unique|].
  destruct (getOrCreateUser_round_trip "0xCA401" None low_score_db low_score_db_unique)
    as (_ & Hr & _ & _ & _ & Hidem).
  split.
  - rewrite <- Hr. reflexivity.
  - rewrite (Hidem carol (Some "carol.eth"%string) eq_refl). reflexivity.
Defined.

Lemma updateCreditScore_row_witness :
  let db' := fst (Services.updateCreditScore with_contracts "0xA11CE" (-25)
                    (LatePayment 1) low_score_db) in
  Reports.getUser alice db'
  = Some (mkUser alice (Some "alice.eth"%string) 385 true (Some 50) true)
  /\ Reports.getUser bob db' = Reports.getUser bob low_score_db
  /\ oracle db' = [UpdateCreditScoreOnChain alice 385; MarkDefaultOnChain alice].
Proof.
  destruct (updateCreditScore_row with_contracts "0xA11CE" (-25) (LatePayment 1)
              low_score_db
              (mkUser alice (Some "alice.eth"%string) 410 false (Some 50) true)
              eq_refl) as (H1 & H2 & H3 & _).
  split; [exact H1|]. split; [apply H2; discriminate|exact H3].
Defined.

(** ** Vouches: [createVouch], [deactivateVouch], [getAvailableCredit] *)

Lemma total_replace_row {A} (id : A -> nat) (c : A -> Z) (f : A -> A)
    (l : list A) (x : A) :
  NoDup (map id l) -> In x l ->
  total (map c (map (at_id id (id x) f) l)) = total (map c l) - c x + c (f x).
Proof.
  induction l as [|y l IH]; simpl; intros Hnd Hin; [contradiction|].
  inversion Hnd as [|? ? Hfresh Hnd']; subst.
  destruct Hin as [->|Hin].
  - unfold at_id at 1. rewrite Nat.eqb_refl.
    assert (Hl : map (at_id id (id x) f) l = l).
    { rewrite <- (map_id l) at 2. apply map_ext_in. intros z Hz. unfold at_id.
      destruct (Nat.eqb (id z) (id x)) eqn:E; [|reflexivity].
      apply Nat.eqb_eq in E. exfalso. apply Hfresh. rewrite <- E. now apply in_map. }
    rewrite Hl. lia.
  - unfold at_id at 1.
    destruct (Nat.eqb (id y) (id x)) eqn:E.
    + apply Nat.eqb_eq in E. exfalso. apply Hfresh. rewrite E. now apply in_map.
    + rewrite IH by assumption. lia.
Qed.

Lemma total_filter {A} (key : A -> bool) (c : A -> Z) (l : list A) :
  total (map c (filter key l)) = total (map (fun x => if key x then c x else 0) l).
Proof.
  induction l as [|x l IH]; simpl; [reflexivity|].
  destruct (key x); simpl; rewrite IH; lia.
Qed.

Section Vouches.

Import Store Services Reports.

(** The available credit is the capacity of the vouches that back the
    borrower. *)
Lemma getAvailableCredit_total b db :
  getAvailableCredit b db
  = total (map (fun v => if backs (JS.toLowerCase b) v then capacity v else 0)
             (vouches db)).
Proof.
  unfold getAvailableCredit, getVouchesForBorrower.
  rewrite sum_available_total, total_filter. reflexivity.
Qed.

Lemma borrowable_vouches_active b db w :
  In w (borrowable_vouches b db) -> backs b w = true /\ In w (vouches db).
Proof.
  unfold borrowable_vouches. intros H.
  apply (Permutation_in _ (order_by_limit_desc_perm _ _)) in H.
  apply filter_In in H as [Hin Hk]. now split.
Qed.

(** The debts created by [borrow_with] are drawn on vouches that back the
    borrower. *)
Lemma borrow_with_draws_on b due days R db d :
  vouch_keys_ok db ->
  In d (borrow_debts (snd (borrow_with b due (Some days) R db))) ->
  exists w, In w (vouches db) /\ backs b w = true
            /\ vouch_id d = Some (vouch_id_of w).
Proof.
  intros [Hnd Hrange] Hd. unfold borrow_with in Hd.
  destruct (borrowable_vouches b db) as [|v0 vs0] eqn:Hvs; [destruct Hd|].
  destruct (sum_available (v0 :: vs0) <? R); [destruct Hd|].
  destruct (borrowable_vouches_keys b db Hnd) as [Hnd' Hsub].
  rewrite Hvs in Hnd', Hsub.
  destruct (allocate_effect b due days (v0 :: vs0) R db [] Hnd' Hsub Hnd)
    as (new & Hsnd & _ & Hdraw & _).
  destruct (allocate b due (Some days) (v0 :: vs0) R db []) as [db1 created] eqn:Hal.
  simpl in Hsnd. subst created.
  assert (Hin : In d new) by (destruct new; [destruct Hd|exact Hd]).
  assert (Hdr : In (draw_of d) (map draw_of new)) by now apply in_map.
  rewrite Hdraw in Hdr. apply in_map_iff in Hdr as (p & Hp & Hpin).
  destruct (greedy_draw_positive (v0 :: vs0) R p Hpin) as (_ & _ & w & Hw & Hwid & _).
  rewrite <- Hvs in Hw. apply borrowable_vouches_active in Hw as [Hb Hwin].
  exists w. repeat split; auto.
  unfold draw_of in Hp. inversion Hp. now rewrite Hwid.
Qed.

(** X3.  [deactivateVouch] on a vouch of a store with distinct vouch ids.
    While an active or overdue debt is drawn on the vouch, the call
    answers false and writes nothing.  Otherwise it answers true and only
    clears [is_active] on that row (limit and usage stay); and the
    borrower's available credit drops by the remaining capacity of the
    vouch if it was active.  On that store, and on every store in which
    the row of the vouch is inactive, [borrow] creates no debt on it.  (A
    later [createVouch] for the pair of the vouch sets [is_active] again.) *)
Theorem deactivateVouch_effect i db v :
  vouch_keys_ok db ->
  In v (vouches db) -> vouch_id_of v = i ->
  (vouch_in_use i db = true -> deactivateVouch i db = (db, false))
  /\ (vouch_in_use i db = false ->
      let db' := fst (deactivateVouch i db) in
      snd (deactivateVouch i db) = true
      /\ vouches db' = map (at_id vouch_id_of i (set_is_active false)) (vouches db)
      /\ vouch_by_id db' i
         = Some (mkVouch i (voucher_address v) (borrower_address v)
                   (limit_amount v) (current_usage v) false)
      /\ debts db' = debts db /\ users db' = users db
      /\ payments db' = payments db
      /\ (forall b, getAvailableCredit b db'
                    = getAvailableCredit b db
                      - (if backs (JS.toLowerCase b) v then capacity v else 0))
      /\ (forall w, In w (vouches db') -> vouch_id_of w = i -> is_active w = false)
      /\ (forall later, vouch_keys_ok later ->
            (forall w, In w (vouches later) -> vouch_id_of w = i ->
                       is_active w = false) ->
            forall now b R days d,
              In d (borrow_debts (snd (borrow now b R days later))) ->
              vouch_id d <> Some i)).
Proof.
  intros Hkeys Hin Hid.
  assert (Hfilter : forall l,
            filter (fun d => (match vouch_id d with
                              | Some j => Nat.eqb j i
                              | None => false
                              end && outstanding (status d))%bool) l = []
            <-> existsb (fun d => (drawn_on i d && outstanding (status d))%bool) l
                = false).
  { induction l as [|d l IH]; simpl; [tauto|]. unfold drawn_on at 1.
    destruct (match vouch_id d with Some j => Nat.eqb j i | None => false end
              && outstanding (status d))%bool; simpl; [split; discriminate|exact IH]. }
  unfold vouch_in_use. split.
  - intros Huse. unfold deactivateVouch.
    destruct (filter _ (debts db)) as [|d l] eqn:Hf; [|reflexivity].
    apply Hfilter in Hf. congruence.
  - intros Hfree. unfold deactivateVouch.
    rewrite (proj2 (Hfilter (debts db)) Hfree). simpl fst. simpl snd.
    destruct Hkeys as [Hnd Hrange].
    assert (Hrows : vouches (update_vouch db i (set_is_active false))
                    = map (at_id vouch_id_of i (set_is_active false)) (vouches db))
      by apply update_vouch_rows.
    assert (Hkeys' : vouch_keys_ok (update_vouch db i (set_is_active false)))
      by (apply update_vouch_keys; [reflexivity|now split]).
    assert (Hrow : vouch_by_id (update_vouch db i (set_is_active false)) i
                   = Some (set_is_active false v)).
    { unfold vouch_by_id. rewrite Hrows.
      rewrite filter_map_key by (intros x; unfold at_id;
                                 destruct (Nat.eqb (vouch_id_of x) i) eqn:E;
                                 simpl; now rewrite ?E).
      rewrite <- Hid. rewrite (filter_by_key vouch_id_of (vouches db) v Hnd Hin).
      simpl. unfold at_id. now rewrite Nat.eqb_refl. }
    split; [reflexivity|]. split; [exact Hrows|].
    split; [rewrite Hrow; unfold set_is_active; now rewrite Hid|].
    split; [reflexivity|]. split; [reflexivity|]. split; [reflexivity|].
    split.
    + intros b. rewrite !getAvailableCredit_total, Hrows. rewrite <- Hid.
      rewrite (total_replace_row vouch_id_of _ (set_is_active false) (vouches db) v
                 Hnd Hin).
      unfold backs at 3. simpl. rewrite andb_false_r. lia.
    + split.
      * intros w Hw Hwi.
        assert (Hsel : vouch_by_id (update_vouch db i (set_is_active false))
                                   (vouch_id_of w) = Some w).
        { unfold vouch_by_id.
          now rewrite (filter_by_key vouch_id_of _ w (proj1 Hkeys') Hw). }
        rewrite Hwi, Hrow in Hsel. inversion Hsel; subst w. reflexivity.
      * intros later Hlater Hoff now b R days d Hd Hdi. unfold borrow in Hd.
        destruct (borrow_with_draws_on _ _ _ _ _ d Hlater Hd) as (w & Hw & Hb & Hwid).
        assert (Hwi : vouch_id_of w = i) by congruence.
        unfold backs in Hb. rewrite (Hoff w Hw Hwi), andb_false_r in Hb.
        discriminate.
Qed.

Lemma getOrCreateUser_keeps_users a ens db :
  users_unique db ->
  let db' := fst (getOrCreateUser a ens db) in
  users_unique db'
  /\ getUser a db' <> None
  /\ (forall b, getUser b db <> None -> getUser b db' <> None)
  /\ debts db' = debts db /\ payments db' = payments db
  /\ credit_history db' = credit_history db /\ oracle db' = oracle db
  /\ debt_seq db' = debt_seq db
  /\ snd (getOrCreateUser a ens db) = getUser a db'.
Proof.
  intros Hu. unfold getOrCreateUser, getUser.
  destruct (user_by_address db (JS.toLowerCase a)) as [u|] eqn:Hsel.
  - simpl. rewrite Hsel. repeat split; auto. discriminate.
  - pose proof (user_absent db _ Hu Hsel) as Hnone.
    assert (Hex : existsb (fun u => String.eqb (wallet_address u) (JS.toLowerCase a))
                    (users db) = false).
    { destruct (existsb _ (users db)) eqn:Hex; [|reflexivity].
      apply existsb_exists in Hex as (x & Hx & Hk).
      assert (Hin : In x (filter (fun u => String.eqb (wallet_address u)
                                             (JS.toLowerCase a)) (users db)))
        by (apply filter_In; now split).
      rewrite Hnone in Hin. destruct Hin. }
    rewrite Hex. simpl fst.
    split.
    { unfold users_unique. simpl. rewrite map_app. simpl.
      apply NoDup_snoc; [exact Hu|].
      now apply (filter_absent_not_In (users db)). }
    split.
    { unfold user_by_address. simpl. rewrite filter_app, Hnone. simpl.
      rewrite String.eqb_refl. discriminate. }
    split.
    { intros b Hb. unfold user_by_address in *. simpl. rewrite filter_app. simpl.
      destruct (String.eqb (JS.toLowerCase a) (JS.toLowerCase b)) eqn:E.
      - apply String.eqb_eq in E. rewrite <- E, Hnone in Hb. now contradiction Hb.
      - now rewrite app_nil_r. }
    do 5 (split; [reflexivity|]).
    simpl. unfold user_by_address. simpl. rewrite filter_app, Hnone. simpl.
    now rewrite String.eqb_refl.
Qed.

Lemma existsb_filter_nil {A} (key : A -> bool) (l : list A) :
  filter key l = [] -> existsb key l = false.
Proof.
  induction l as [|x l IH]; simpl; [reflexivity|].
  destruct (key x); [discriminate|exact IH].
Qed.

(** X4.  [createVouch] for a pair that has no row yet, on a store with
    distinct vouch ids and wallet addresses.  With a limit [L] that the
    column takes (positive and below 10^12) one row is appended, with the
    next id of the sequence, the lower-cased addresses, usage 0 and
    [is_active] set, and the borrower's available credit grows by [L].
    Any other limit is refused by the store: null is returned and no
    vouch is written.  Either way the id has been taken from the
    sequence, and both accounts exist afterwards.  A vouch for oneself,
    whatever the letter case of the two addresses, is refused before
    anything is written. *)
Theorem createVouch_new_pair voucher borrower L db :
  vouch_keys_ok db ->
  users_unique db ->
  JS.toLowerCase voucher <> JS.toLowerCase borrower ->
  filter (same_pair (JS.toLowerCase voucher) (JS.toLowerCase borrower))
         (vouches db) = [] ->
  let db' := fst (createVouch voucher borrower L db) in
  let row := mkVouch (S (vouch_seq db)) (JS.toLowerCase voucher)
               (JS.toLowerCase borrower) L 0 true in
  (0 < L < 10 ^ 12 ->
     snd (createVouch voucher borrower L db) = Some row
     /\ vouches db' = vouches db ++ [row]
     /\ getAvailableCredit borrower db' = getAvailableCredit borrower db + L)
  /\ (L <= 0 \/ 10 ^ 12 <= L ->
      snd (createVouch voucher borrower L db) = None
      /\ vouches db' = vouches db)
  /\ vouch_seq db' = S (vouch_seq db)
  /\ vouch_keys_ok db'
  /\ getUser voucher db' <> None
  /\ getUser borrower db' <> None
  /\ debts db' = debts db
  /\ (forall a a' l, JS.toLowerCase a = JS.toLowerCase a' ->
        createVouch a a' l db = (db, None)).
Proof.
  intros Hkeys Hu Hne Hnew db' row.
  set (lv := JS.toLowerCase voucher) in *. set (lb := JS.toLowerCase borrower) in *.
  destruct (getOrCreateUser_keeps_users lv None db Hu)
    as (Hu1 & Hv1 & Hk1 & Hd1 & _).
  set (db1 := fst (getOrCreateUser lv None db)) in *.
  destruct (getOrCreateUser_keeps_users lb None db1 Hu1)
    as (Hu2 & Hb2 & Hk2 & Hd2 & _).
  set (db2 := fst (getOrCreateUser lb None db1)) in *.
  assert (Hvs : vouches db2 = vouches db /\ vouch_seq db2 = vouch_seq db).
  { subst db2 db1.
    destruct (getOrCreateUser_vouches lb None (fst (getOrCreateUser lv None db)))
      as [-> ->]. apply getOrCreateUser_vouches. }
  destruct Hvs as [Hvs Hseq].
  assert (Hcv : createVouch voucher borrower L db
                = insert_vouch db2 (fun i => mkVouch i lv lb L 0 true)).
  { unfold createVouch. fold lv lb.
    destruct (String.eqb_spec lv lb) as [E|_]; [contradiction|].
    fold db1. fold db2. now rewrite Hvs, Hnew. }
  assert (Husers : getUser voucher db2 <> None /\ getUser borrower db2 <> None).
  { split.
    - apply Hk2. unfold getUser in *. fold lv. unfold lv in Hv1.
      now rewrite toLowerCase_idem in Hv1.
    - unfold getUser in *. fold lb. unfold lb in Hb2.
      now rewrite toLowerCase_idem in Hb2. }
  assert (Hins : insert_vouch db2 (fun i => mkVouch i lv lb L 0 true)
                 = if (fits_decimal_18_6 L && (0 <? L))%bool
                   then (mkDB (users db2) (vouches db ++ [row]) (debts db2)
                           (payments db2) (credit_history db2) (oracle db2)
                           (S (vouch_seq db)) (debt_seq db2)
                           (vouch_ties db2) (debt_ties db2), Some row)
                   else (mkDB (users db2) (vouches db) (debts db2)
                           (payments db2) (credit_history db2) (oracle db2)
                           (S (vouch_seq db)) (debt_seq db2)
                           (vouch_ties db2) (debt_ties db2), None)).
  { unfold insert_vouch. simpl. rewrite Hvs, Hseq.
    rewrite (existsb_filter_nil _ _ Hnew). simpl. now rewrite andb_true_r. }
  assert (Hk' : vouch_keys_ok db').
  { subst db'. rewrite Hcv.
    apply (insert_vouch_keys db2 (fun i => mkVouch i lv lb L 0 true));
      [reflexivity|]. unfold vouch_keys_ok. now rewrite Hvs, Hseq. }
  subst db'. rewrite Hcv in *. rewrite Hins in *.
  split; [|split; [|split; [|split; [|split; [|split; [|split]]]]]].
  - intros HL.
    assert (Hok : (fits_decimal_18_6 L && (0 <? L))%bool = true).
    { unfold fits_decimal_18_6. apply andb_true_iff.
      split; apply Z.ltb_lt; lia. }
    rewrite Hok. simpl fst. simpl snd.
    split; [reflexivity|]. split; [reflexivity|].
    rewrite !getAvailableCredit_total. simpl vouches. rewrite map_app.
    unfold total. rewrite fold_right_app. simpl.
    fold lb. unfold backs at 1. simpl. rewrite String.eqb_refl. simpl.
    unfold capacity at 1. simpl.
    change (fold_right Z.add) with (fun z l => fold_right Z.add z l).
    cbv beta.
    assert (Hacc : forall (l : list Z) z, fold_right Z.add z l = fold_right Z.add 0 l + z).
    { induction l as [|y l IH]; intros z; simpl; [lia|]. rewrite IH. lia. }
    rewrite Hacc. lia.
  - intros HL.
    assert (Hno : (fits_decimal_18_6 L && (0 <? L))%bool = false).
    { unfold fits_decimal_18_6. apply andb_false_iff.
      destruct HL as [HL|HL]; [right; apply Z.ltb_ge; lia|left; apply Z.ltb_ge; lia]. }
    rewrite Hno. simpl. now split.
  - destruct (_ && _)%bool; reflexivity.
  - exact Hk'.
  - destruct (_ && _)%bool; simpl fst; apply Husers.
  - destruct (_ && _)%bool; simpl fst; apply Husers.
  - destruct (_ && _)%bool; simpl; congruence.
  - intros a a' l E. unfold createVouch. rewrite E. now rewrite String.eqb_refl.
Qed.

End Vouches.

Lemma used_vouch_db_keys : vouch_keys_ok used_vouch_db.
Proof.
  split.
  - simpl. repeat constructor; simpl; intuition discriminate.
  - intros v [<-|[<-|[]]]; simpl; lia.
Defined.

Lemma deactivateVouch_effect_witness :
  Services.deactivateVouch 1 used_vouch_db = (used_vouch_db, false)
  /\ snd (Services.deactivateVouch 2 used_vouch_db) = true
  /\ Services.getAvailableCredit bob (fst (Services.deactivateVouch 2 used_vouch_db))
     = Services.getAvailableCredit bob used_vouch_db - 600.
Proof.
  split.
  - apply (deactivateVouch_effect 1 used_vouch_db (mkVouch 1 alice bob 1000 40 true)
             used_vouch_db_keys); [now left|reflexivity|reflexivity].
  - destruct (deactivateVouch_effect 2 used_vouch_db (mkVouch 2 carol bob 700 100 true)
                used_vouch_db_keys (or_intror (or_introl eq_refl)) eq_refl)
      as [_ H].
    destruct (H eq_refl) as (H1 & _ & _ & _ & _ & _ & H2 & _).
    split; [exact H1|]. exact (H2 bob).
Defined.

(** A [createVouch] for the pair of a deactivated vouch activates the row
    again, with the limit raised; a loan then draws on it. *)
Example createVouch_reactivates :
  let off := fst (Services.deactivateVouch 2 used_vouch_db) in
  let on := fst (Services.createVouch carol bob 50 off) in
  option_map is_active (Store.vouch_by_id off 2) = Some false
  /\ map vouch_id (Services.borrow_debts (snd (Services.borrow 0 bob 1500 (14 # 1)%Q off)))
     = []
  /\ option_map (fun w => (limit_amount w, is_active w)) (Store.vouch_by_id on 2)
     = Some (750, true)
  /\ map vouch_id (Services.borrow_debts (snd (Services.borrow 0 bob 1500 (14 # 1)%Q on)))
     = [Some 1%nat; Some 2%nat].
Proof. vm_compute. repeat split; reflexivity. Qed.

Lemma used_vouch_db_users : users_unique used_vouch_db.
Proof.
  unfold users_unique. simpl. repeat constructor; simpl; intuition discriminate.
Defined.

Lemma createVouch_new_pair_witness :
  let db' := fst (Services.createVouch "0xB0B" "0xCA401" 250 used_vouch_db) in
  let refused := fst (Services.createVouch "0xB0B" "0xCA401" (-5) used_vouch_db) in
  snd (Services.createVouch "0xB0B" "0xCA401" 250 used_vouch_db)
  = Some (mkVouch 3 bob carol 250 0 true)
  /\ Services.getAvailableCredit carol db'
     = Services.getAvailableCredit carol used_vouch_db + 250
  /\ snd (Services.createVouch "0xB0B" "0xCA401" (-5) used_vouch_db) = None
  /\ snd (Services.createVouch "0xB0B" "0xCA401" (10 ^ 12) used_vouch_db) = None
  /\ snd (Services.createVouch "0xB0B" "0xCA401" 250 refused)
     = Some (mkVouch 4 bob carol 250 0 true)
  /\ Services.createVouch "0xB0B" bob 250 used_vouch_db = (used_vouch_db, None).
Proof.
  intros db' refused.
  destruct (createVouch_new_pair "0xB0B" "0xCA401" 250 used_vouch_db
              used_vouch_db_keys used_vouch_db_users)
    as (Hpos & _ & _ & _ & _ & _ & _ & Hself); [discriminate|reflexivity|].
  destruct Hpos as (H1 & _ & H2); [lia|].
  destruct (createVouch_new_pair "0xB0B" "0xCA401" (-5) used_vouch_db
              used_vouch_db_keys used_vouch_db_users)
    as (_ & Hneg & _ & Hkeys & _); [discriminate|reflexivity|].
  destruct (createVouch_new_pair "0xB0B" "0xCA401" (10 ^ 12) used_vouch_db
              used_vouch_db_keys used_vouch_db_users)
    as (_ & Hbig & _); [discriminate|reflexivity|].
  assert (Hu : users_unique refused).
  { unfold users_unique. simpl. repeat constructor; simpl; intuition discriminate. }
  destruct (createVouch_new_pair "0xB0B" "0xCA401" 250 refused Hkeys Hu)
    as (Hnext & _); [discriminate|reflexivity|].
  split; [exact H1|]. split; [exact H2|].
  split; [apply Hneg; left; lia|].
  split; [apply Hbig; right; lia|].
  split; [apply Hnext; lia|].
  apply Hself. reflexivity.
Defined.

(** ** Repayments: [repayDebt] *)

Lemma filter_andb {A} (p q : A -> bool) (l : list A) :
  filter (fun x => (p x && q x)%bool) l = filter q (filter p l).
Proof.
  induction l as [|x l IH]; simpl; [reflexivity|].
  destruct (p x); simpl; [destruct (q x)|]; now rewrite IH.
Qed.

Section Repayments.

Import Store Services Reports.
Variable cfg : Config.

Lemma repayDebt_select b i db debt :
  NoDup (map debt_id_of (debts db)) -> In debt (debts db) -> debt_id_of debt = i ->
  single (filter (fun d => (Nat.eqb (debt_id_of d) i
                            && String.eqb (debt_borrower d) b)%bool) (debts db))
  = if String.eqb (debt_borrower debt) b then Some debt else None.
Proof.
  intros Hnd Hin <-.
  rewrite (filter_andb (fun d => Nat.eqb (debt_id_of d) (debt_id_of debt))
             (fun d => String.eqb (debt_borrower d) b)).
  rewrite (filter_by_key debt_id_of (debts db) debt Hnd Hin). simpl.
  now destruct (String.eqb (debt_borrower debt) b).
Qed.

Lemma release_vouch_seqs debt db :
  oracle (release_vouch debt db) = oracle db
  /\ debt_seq (release_vouch debt db) = debt_seq db
  /\ vouch_seq (release_vouch debt db) = vouch_seq db.
Proof.
  unfold release_vouch. destruct (truthy_id (vouch_id debt)); [|auto].
  destruct (vouch_by_id db n); auto.
Qed.

(** What a repayment of a debt that is found and not yet paid writes. *)
Lemma repayDebt_writes now b i amount db debt :
  NoDup (map debt_id_of (debts db)) -> In debt (debts db) -> debt_id_of debt = i ->
  debt_borrower debt = JS.toLowerCase b -> status debt <> paid ->
  let pay := Z.min amount (amount_owed debt) in
  let settled := amount_owed debt <=? amount in
  let payment := mkPayment i pay (if settled then full else manual) in
  let held := release_vouch debt (insert_payment db payment) in
  let scored := if (settled && (now <=? due_date debt))%bool
                then fst (updateCreditScore cfg (JS.toLowerCase b)
                            CREDIT_SCORE.ON_TIME_BONUS (PaidOnTime i) held)
                else if settled then held else insert_payment db payment in
  let db' := fst (repayDebt cfg now b i amount db) in
  snd (repayDebt cfg now b i amount db)
  = mkRepayResult true pay (amount_owed debt - pay) settled None
  /\ db' = update_debt scored i
             (if settled then set_paid 0 now
              else set_amount_owed (amount_owed debt - pay))
  /\ payments db' = payments db ++ [payment]
  /\ debts db' = map (at_id debt_id_of i
                        (if settled then set_paid 0 now
                         else set_amount_owed (amount_owed debt - pay))) (debts db)
  /\ debt_seq db' = debt_seq db /\ vouch_seq db' = vouch_seq db.
Proof.
  intros Hnd Hin Hid Hb Hnp pay settled payment held scored db'.
  assert (Hsel := repayDebt_select (JS.toLowerCase b) i db debt Hnd Hin Hid).
  rewrite Hb, String.eqb_refl in Hsel.
  assert (Hpaid : DebtStatus_eqb (status debt) paid = false).
  { destruct (DebtStatus_eqb (status debt) paid) eqn:E; [|reflexivity].
    apply DebtStatus_eqb_eq in E. contradiction. }
  assert (Hz : (amount_owed debt - pay =? 0) = settled).
  { subst pay settled. destruct (amount_owed debt <=? amount) eqn:E.
    - apply Z.leb_le in E. apply Z.eqb_eq. lia.
    - apply Z.leb_gt in E. apply Z.eqb_neq. lia. }
  assert (Hdb : repayDebt cfg now b i amount db
                = (update_debt scored i
                     (if settled then set_paid 0 now
                      else set_amount_owed (amount_owed debt - pay)),
                   mkRepayResult true pay (amount_owed debt - pay) settled None)).
  { unfold repayDebt. rewrite Hsel, Hpaid. cbv zeta. fold pay. rewrite Hz.
    subst scored held payment. destruct settled eqn:Hs.
    - apply Z.eqb_eq in Hz. rewrite Hz. simpl andb.
      destruct (now <=? due_date debt); reflexivity.
    - reflexivity. }
  subst db'. rewrite Hdb. simpl fst. simpl snd.
  assert (Hheld : payments held = payments db ++ [payment]
                  /\ debts held = debts db
                  /\ debt_seq held = debt_seq db /\ vouch_seq held = vouch_seq db).
  { subst held.
    destruct (release_vouch_frame debt (insert_payment db payment)) as (-> & _ & -> & _).
    destruct (release_vouch_seqs debt (insert_payment db payment)) as (_ & -> & ->).
    repeat split. }
  destruct Hheld as (Hp & Hd & Hds & Hvs).
  assert (Hscored : payments scored = payments db ++ [payment]
                    /\ debts scored = debts db
                    /\ debt_seq scored = debt_seq db /\ vouch_seq scored = vouch_seq db).
  { subst scored. destruct (settled && (now <=? due_date debt))%bool.
    - destruct (updateCreditScore_frame cfg (JS.toLowerCase b)
                  CREDIT_SCORE.ON_TIME_BONUS (PaidOnTime i) held)
        as (_ & -> & -> & -> & ->).
      repeat split; assumption.
    - destruct settled; [repeat split; assumption|repeat split]. }
  destruct Hscored as (Hp' & Hd' & Hds' & Hvs').
  split; [reflexivity|]. split; [reflexivity|].
  split; [exact Hp'|].
  split; [rewrite update_debt_rows; now rewrite Hd'|].
  split; [exact Hds'|exact Hvs'].
Qed.


(** X6.  The on-time bonus of [repayDebt].  When the repayment settles
    the debt and the due date has not passed, the borrower's score becomes
    [clamp(score + 10)] and one history entry "Paid off debt #i on time"
    is appended; a repayment that settles the debt after the due date, or
    leaves a remainder, changes neither an account nor the history. *)
Theorem repayDebt_bonus now b i amount db debt user :
  debt_keys_ok db -> In debt (debts db) -> debt_id_of debt = i ->
  debt_borrower debt = JS.toLowerCase b -> status debt <> paid ->
  getUser b db = Some user ->
  let db' := fst (repayDebt cfg now b i amount db) in
  let new := Z.max 300 (Z.min 900 (credit_score user + 10)) in
  (amount_owed debt <= amount -> now <= due_date debt ->
     getUser b db' = Some (rescored new user)
     /\ credit_history db'
        = credit_history db
          ++ [mkCreditHistory (JS.toLowerCase b) (credit_score user) new (PaidOnTime i)])
  /\ (amount < amount_owed debt \/ due_date debt < now ->
      users db' = users db /\ credit_history db' = credit_history db).
Proof.
  intros [Hnd _] Hin Hid Hb Hnp Hu db' new.
  destruct (repayDebt_writes now b i amount db debt Hnd Hin Hid Hb Hnp)
    as (_ & Hdb & _).
  fold db' in Hdb.
  set (payment := mkPayment i (Z.min amount (amount_owed debt))
                    (if amount_owed debt <=? amount then full else manual)) in *.
  set (held := release_vouch debt (insert_payment db payment)) in *.
  assert (Hheld : users held = users db /\ credit_history held = credit_history db).
  { subst held.
    destruct (release_vouch_frame debt (insert_payment db payment))
      as (_ & -> & _ & ->). now split. }
  destruct Hheld as [Hhu Hhh].
  split.
  - intros Hfull Hdue. apply Z.leb_le in Hfull, Hdue.
    rewrite Hfull, Hdue in Hdb. simpl andb in Hdb. cbv iota in Hdb.
    assert (Hu' : getUser b held = Some user)
      by (unfold getUser, user_by_address in *; now rewrite Hhu).
    destruct (updateCreditScore_account cfg b CREDIT_SCORE.ON_TIME_BONUS
                (PaidOnTime i) held user Hu') as (H1 & _).
    destruct (updateCreditScore_effect cfg b CREDIT_SCORE.ON_TIME_BONUS
                (PaidOnTime i) held user Hu') as (_ & _ & H2).
    assert (Hlow : updateCreditScore cfg (JS.toLowerCase b) CREDIT_SCORE.ON_TIME_BONUS
                     (PaidOnTime i) held
                   = updateCreditScore cfg b CREDIT_SCORE.ON_TIME_BONUS
                       (PaidOnTime i) held)
      by (unfold updateCreditScore; now rewrite toLowerCase_idem).
    rewrite Hlow in Hdb.
    split.
    + rewrite Hdb. unfold getUser, user_by_address in *. exact H1.
    + rewrite Hdb. simpl. rewrite H2, Hhh. reflexivity.
  - intros Hno.
    assert (Hoff : ((amount_owed debt <=? amount) && (now <=? due_date debt))%bool
                   = false).
    { destruct Hno as [H|H].
      - apply Z.leb_gt in H. now rewrite H.
      - apply Z.leb_gt in H. rewrite H. apply andb_false_r. }
    rewrite Hoff in Hdb. rewrite Hdb.
    destruct (amount_owed debt <=? amount); simpl; [now split|now split].
Qed.

End Repayments.

Lemma two_debts_db_keys : debt_keys_ok two_debts_db.
Proof.
  split.
  - simpl. repeat constructor; simpl; intuition discriminate.
  - intros d [<-|[<-|[]]]; simpl; lia.
Defined.


Lemma repayDebt_bonus_witness :
  Reports.getUser bob (fst (Services.repayDebt no_contracts 500 "0xB0B" 2 100 two_debts_db))
  = Some (mkUser bob None 900 false (Some 50) true)
  /\ users (fst (Services.repayDebt no_contracts 3500 "0xB0B" 2 100 two_debts_db))
     = users two_debts_db.
Proof.
  pose (d2 := mkDebt 2 bob carol (Some 2%nat) 100 100 3000 14 active None).
  assert (Hin : In d2 (debts two_debts_db)) by (right; now left).
  split.
  - apply (repayDebt_bonus no_contracts 500 "0xB0B" 2 100 two_debts_db d2
             (mkUser bob None 895 false (Some 50) true) two_debts_db_keys Hin);
      try reflexivity; try discriminate.
  - apply (repayDebt_bonus no_contracts 3500 "0xB0B" 2 100 two_debts_db d2
             (mkUser bob None 895 false (Some 50) true) two_debts_db_keys Hin);
      try reflexivity; try discriminate.
    right. reflexivity.
Defined.

(** ** Defaults and the overdue sweep: [markDebtDefaulted], [checkOverdueDebts] *)

Section Defaults.

Import Store Services Reports.
Variable cfg : Config.

Lemma debt_by_id_update db i f debt :
  NoDup (map debt_id_of (debts db)) ->
  (forall x, debt_id_of (f x) = debt_id_of x) ->
  debt_by_id db i = Some debt ->
  debt_by_id (update_debt db i f) i = Some (f debt)
  /\ (forall x, In x (debts db) -> debt_id_of x <> i ->
        debt_by_id (update_debt db i f) (debt_id_of x) = Some x).
Proof.
  intros Hnd Hf Hsel.
  assert (Hnd' : NoDup (map debt_id_of (debts (update_debt db i f)))).
  { rewrite update_debt_rows, map_map.
    erewrite map_ext; [exact Hnd|]. intros x. simpl. now apply at_id_id. }
  apply single_filter_In in Hsel as [Hin Hk]. apply Nat.eqb_eq in Hk.
  split.
  - assert (Hi : debt_id_of (f debt) = i) by now rewrite Hf.
    rewrite <- Hi at 2. apply debt_by_id_In; [exact Hnd'|].
    rewrite update_debt_rows.
    replace (f debt) with (at_id debt_id_of i f debt)
      by (unfold at_id; now rewrite Hk, Nat.eqb_refl).
    now apply in_map.
  - intros x Hx Hxi. apply debt_by_id_In; [exact Hnd'|].
    rewrite update_debt_rows.
    replace x with (at_id debt_id_of i f x) at 1
      by (unfold at_id; destruct (Nat.eqb_spec (debt_id_of x) i); congruence).
    now apply in_map.
Qed.

(** X7.  [markDebtDefaulted] on a store with distinct debt ids.  An
    active or overdue debt becomes defaulted; the borrower's score drops
    by 50 (clamped at 300) with one history entry "Defaulted on debt #j";
    no other debt changes, and the vouch behind the debt keeps its usage:
    nothing is released and no payment is recorded.  A second call on the
    same debt answers false and writes nothing, as does a call on a debt
    that is paid, already defaulted, or unknown. *)
Theorem markDebtDefaulted_once j db debt user :
  debt_keys_ok db ->
  debt_by_id db j = Some debt ->
  getUser (debt_borrower debt) db = Some user ->
  let db1 := fst (markDebtDefaulted cfg j db) in
  let new := Z.max 300 (Z.min 900 (credit_score user - 50)) in
  (outstanding (status debt) = true ->
     snd (markDebtDefaulted cfg j db) = true
     /\ debt_by_id db1 j = Some (set_status defaulted debt)
     /\ (forall x, In x (debts db) -> debt_id_of x <> j ->
           debt_by_id db1 (debt_id_of x) = Some x)
     /\ getUser (debt_borrower debt) db1 = Some (rescored new user)
     /\ credit_history db1
        = credit_history db
          ++ [mkCreditHistory (JS.toLowerCase (debt_borrower debt))
                (credit_score user) new (DefaultedOn j)]
     /\ vouches db1 = vouches db /\ payments db1 = payments db
     /\ markDebtDefaulted cfg j db1 = (db1, false))
  /\ (outstanding (status debt) = false ->
      markDebtDefaulted cfg j db = (db, false))
  /\ (forall k, debt_by_id db k = None -> markDebtDefaulted cfg k db = (db, false)).
Proof.
  intros [Hnd _] Hsel Hu db1 new.
  split; [|split].
  - intros Hout. subst db1. unfold markDebtDefaulted. rewrite Hsel.
    assert (Hguard : (DebtStatus_eqb (status debt) defaulted
                      || DebtStatus_eqb (status debt) paid)%bool = false)
      by (destruct (status debt); simpl in *; congruence).
    rewrite Hguard. simpl fst. simpl snd.
    set (dbd := update_debt db j (set_status defaulted)).
    destruct (debt_by_id_update db j (set_status defaulted) debt Hnd
                (fun x => eq_refl) Hsel) as [Hrow Hothers].
    fold dbd in Hrow, Hothers.
    assert (Hu' : getUser (debt_borrower debt) dbd = Some user) by exact Hu.
    destruct (updateCreditScore_account cfg (debt_borrower debt)
                (-50) (DefaultedOn j) dbd user Hu')
      as (H1 & _).
    destruct (updateCreditScore_effect cfg (debt_borrower debt)
                (-50) (DefaultedOn j) dbd user Hu')
      as (_ & _ & H2).
    destruct (updateCreditScore_frame cfg (debt_borrower debt)
                (-50) (DefaultedOn j) dbd)
      as (F1 & F2 & F3 & _).
    set (dbs := fst (updateCreditScore cfg (debt_borrower debt)
                       (-50) (DefaultedOn j) dbd)) in *.
    assert (Hrow' : debt_by_id dbs j = Some (set_status defaulted debt))
      by (unfold debt_by_id in *; now rewrite F2).
    split; [reflexivity|]. split; [exact Hrow'|]. split.
    { intros x Hx Hxj. unfold debt_by_id in *. rewrite F2. now apply Hothers. }
    split; [exact H1|]. split; [exact H2|].
    split; [exact F1|]. split; [exact F3|].
    rewrite Hrow'. reflexivity.
  - intros Hout. unfold markDebtDefaulted. rewrite Hsel.
    destruct (status debt); simpl in *; congruence.
  - intros k Hk. unfold markDebtDefaulted. now rewrite Hk.
Qed.

Lemma sweep_count (L : list Debt) : forall db n,
  snd (sweep cfg L db n) = n + Z.of_nat (List.length L).
Proof.
  induction L as [|d L IH]; intros db n; simpl sweep; [simpl; lia|].
  rewrite IH. simpl List.length. lia.
Qed.

Lemma sweep_payments (L : list Debt) : forall db n,
  payments (fst (sweep cfg L db n)) = payments db.
Proof.
  induction L as [|d L IH]; intros db n; simpl; [reflexivity|].
  rewrite IH.
  match goal with |- context [updateCreditScore ?c ?a ?dl ?w ?x] =>
    destruct (updateCreditScore_frame c a dl w x) as (_ & _ & -> & _) end.
  reflexivity.
Qed.

Lemma swept_selected now (l : list Debt) x :
  NoDup (map debt_id_of l) -> In x l ->
  swept (filter (is_overdue_at now) l) x
  = if is_overdue_at now x then set_status overdue x else x.
Proof.
  intros Hnd Hx. unfold swept.
  destruct (is_overdue_at now x) eqn:Hsel.
  - assert (He : existsb (fun y => Nat.eqb (debt_id_of x) (debt_id_of y))
                   (filter (is_overdue_at now) l) = true).
    { apply existsb_exists. exists x. split; [apply filter_In; now split|].
      apply Nat.eqb_refl. }
    now rewrite He.
  - destruct (existsb _ (filter (is_overdue_at now) l)) eqn:He; [|reflexivity].
    apply existsb_exists in He as (y & Hy & Hk). apply Nat.eqb_eq in Hk.
    apply filter_In in Hy as [Hy Hsy].
    assert (x = y) by (apply (same_id_same_row debt_id_of l); auto).
    subst y. congruence.
Qed.

(** X8.  One run of [checkOverdueDebts] at time [now], on a store with
    distinct debt ids whose borrowers exist.  It answers the number of
    debts that are active with a due date strictly before [now]; exactly
    those become overdue, every other debt (one that is due at [now] or
    later, or is not active) is left as it is; vouches and payments are
    not touched; and a second run at the same time finds nothing. *)
Theorem checkOverdueDebts_selects now db :
  debt_keys_ok db -> borrowers_exist db ->
  let db' := fst (checkOverdueDebts cfg now db) in
  snd (checkOverdueDebts cfg now db)
  = Z.of_nat (List.length (filter (fun d => (DebtStatus_eqb (status d) active
                                             && (due_date d <? now))%bool)
                             (debts db)))
  /\ (forall d, In d (debts db) ->
        debt_by_id db' (debt_id_of d)
        = Some (if (DebtStatus_eqb (status d) active && (due_date d <? now))%bool
                then set_status overdue d else d))
  /\ vouches db' = vouches db /\ payments db' = payments db
  /\ snd (checkOverdueDebts cfg now db') = 0.
Proof.
  intros [Hnd Hrange] Hfk db'.
  destruct (checkOverdueDebts_effect cfg now db Hfk) as (Hdebts & _ & _).
  fold db' in Hdebts.
  assert (Hrows : debts db'
                  = map (fun x => if is_overdue_at now x then set_status overdue x
                                  else x) (debts db)).
  { rewrite Hdebts. apply map_ext_in. intros x Hx. now apply swept_selected. }
  assert (Hids : forall x, debt_id_of (if is_overdue_at now x
                                       then set_status overdue x else x)
                           = debt_id_of x)
    by (intros x; now destruct (is_overdue_at now x)).
  assert (Hnd' : NoDup (map debt_id_of (debts db'))).
  { rewrite Hrows, map_map. erewrite map_ext; [exact Hnd|]. exact Hids. }
  split; [|split; [|split; [|split]]].
  - unfold checkOverdueDebts. rewrite sweep_count. lia.
  - intros d Hd. rewrite <- (Hids d) at 1.
    apply debt_by_id_In; [exact Hnd'|]. rewrite Hrows.
    apply (in_map (fun x => if is_overdue_at now x then set_status overdue x else x)).
    exact Hd.
  - apply sweep_vouches.
  - apply sweep_payments.
  - unfold checkOverdueDebts at 1. rewrite sweep_count.
    replace (filter _ (debts db')) with (@nil Debt); [reflexivity|].
    symmetry. rewrite Hrows. clear.
    induction (debts db) as [|x l IH]; simpl; [reflexivity|].
    rewrite <- IH. destruct (is_overdue_at now x) eqn:E.
    + reflexivity.
    + fold (is_overdue_at now x). now rewrite E.
Qed.

End Defaults.

Lemma two_debts_db_borrowers : borrowers_exist two_debts_db.
Proof.
  intros d [<-|[<-|[]]]; eexists; reflexivity.
Defined.

Lemma markDebtDefaulted_once_witness :
  let db1 := fst (Services.markDebtDefaulted no_contracts 1 two_debts_db) in
  Services.markDebtDefaulted no_contracts 1 db1 = (db1, false)
  /\ Reports.getUser bob db1 = Some (mkUser bob None 845 false (Some 50) true)
  /\ vouches db1 = vouches two_debts_db.
Proof.
  destruct (markDebtDefaulted_once no_contracts 1 two_debts_db
              (mkDebt 1 bob alice (Some 1%nat) 40 40 1000 14 active None)
              (mkUser bob None 895 false (Some 50) true)
              two_debts_db_keys eq_refl eq_refl) as (H & _).
  destruct (H eq_refl) as (_ & _ & _ & H1 & _ & H2 & _ & H3).
  split; [exact H3|]. split; [exact H1|exact H2].
Defined.

Lemma checkOverdueDebts_selects_witness :
  snd (Services.checkOverdueDebts no_contracts 3000 two_debts_db) = 1
  /\ snd (Services.checkOverdueDebts no_contracts 3000
            (fst (Services.checkOverdueDebts no_contracts 3000 two_debts_db))) = 0.
Proof.
  destruct (checkOverdueDebts_selects no_contracts 3000 two_debts_db
              two_debts_db_keys two_debts_db_borrowers) as (H1 & _ & _ & _ & H2).
  split; [exact H1|exact H2].
Defined.

(** ** The books: every request keeps them balanced *)

Section Books.

Import Store Services Server.
Variable cfg : Config.

Lemma vouch_keys_ok_ext db db' :
  vouches db' = vouches db -> vouch_seq db' = vouch_seq db ->
  vouch_keys_ok db -> vouch_keys_ok db'.
Proof. unfold vouch_keys_ok. now intros -> ->. Qed.

Lemma ledger_ok_ext db db' :
  debts db' = debts db -> payments db' = payments db -> debt_seq db' = debt_seq db ->
  ledger_ok db -> ledger_ok db'.
Proof.
  unfold ledger_ok, debt_keys_ok, payments_refer, balanced, paid_total.
  now intros -> -> ->.
Qed.

Lemma release_vouch_keys debt db :
  vouch_keys_ok db -> vouch_keys_ok (release_vouch debt db).
Proof.
  intros Hk. unfold release_vouch.
  destruct (truthy_id (vouch_id debt)); [|exact Hk].
  destruct (vouch_by_id db n); [|exact Hk].
  now apply update_vouch_keys.
Qed.

(** Rows rewritten without a change of id, original amount or amount owed. *)
Lemma ledger_rows db db' g :
  ledger_ok db ->
  debts db' = map g (debts db) ->
  (forall x, debt_id_of (g x) = debt_id_of x
             /\ original_amount (g x) = original_amount x
             /\ amount_owed (g x) = amount_owed x) ->
  payments db' = payments db -> debt_seq db' = debt_seq db ->
  ledger_ok db'.
Proof.
  intros ((Hnd & Hrange) & Hfk & Hbal) Hd Hg Hp Hs.
  assert (Hids : map debt_id_of (debts db') = map debt_id_of (debts db)).
  { rewrite Hd, map_map. apply map_ext. intros x. apply Hg. }
  split; [split|split].
  - now rewrite Hids.
  - intros d Hin. rewrite Hd in Hin. apply in_map_iff in Hin as (x & <- & Hx).
    destruct (Hg x) as (-> & _). rewrite Hs. now apply Hrange.
  - intros p Hin. rewrite Hids. apply Hfk. now rewrite <- Hp.
  - intros d Hin. rewrite Hd in Hin. apply in_map_iff in Hin as (x & <- & Hx).
    destruct (Hg x) as (-> & -> & ->). unfold paid_total. rewrite Hp.
    now apply Hbal.
Qed.

(** A payment of [a] recorded on [debt], whose row then owes [a] less. *)
Lemma ledger_payment db db' debt f a ty :
  ledger_ok db -> In debt (debts db) ->
  debts db' = map (at_id debt_id_of (debt_id_of debt) f) (debts db) ->
  (forall x, debt_id_of (f x) = debt_id_of x
             /\ original_amount (f x) = original_amount x) ->
  amount_owed (f debt) = amount_owed debt - a ->
  payments db' = payments db ++ [mkPayment (debt_id_of debt) a ty] ->
  debt_seq db' = debt_seq db ->
  ledger_ok db'.
Proof.
  intros ((Hnd & Hrange) & Hfk & Hbal) Hdebt Hd Hf Ha Hp Hs.
  assert (Hid : forall x, debt_id_of (at_id debt_id_of (debt_id_of debt) f x)
                          = debt_id_of x)
    by (intros x; apply at_id_id; intros y; apply Hf).
  assert (Hids : map debt_id_of (debts db') = map debt_id_of (debts db)).
  { rewrite Hd, map_map. apply map_ext. exact Hid. }
  split; [split|split].
  - now rewrite Hids.
  - intros d Hin. rewrite Hd in Hin. apply in_map_iff in Hin as (x & <- & Hx).
    rewrite Hid, Hs. now apply Hrange.
  - intros p Hin. rewrite Hids. rewrite Hp in Hin.
    apply in_app_or in Hin as [Hin|[<-|[]]]; [now apply Hfk|].
    simpl. now apply in_map.
  - intros d Hin. rewrite Hd in Hin. apply in_map_iff in Hin as (x & <- & Hx).
    rewrite Hid. unfold paid_total. rewrite Hp, filter_app, map_app, total_app.
    fold (paid_total db (debt_id_of x)). simpl.
    unfold at_id. destruct (Nat.eqb (debt_id_of x) (debt_id_of debt)) eqn:E.
    + apply Nat.eqb_eq in E.
      assert (x = debt) by (apply (same_id_same_row debt_id_of (debts db)); auto).
      subst x. rewrite Nat.eqb_refl. simpl.
      destruct (Hf debt) as (_ & ->). rewrite Ha.
      specialize (Hbal debt Hdebt). lia.
    + rewrite Nat.eqb_sym, E. simpl. specialize (Hbal x Hx). lia.
Qed.

(** New debts with the next ids of the sequence, owing their original
    amount. *)
Lemma ledger_new_debts db db' new :
  ledger_ok db ->
  debts db' = debts db ++ new ->
  map debt_id_of new = seq (S (debt_seq db)) (List.length new) ->
  debt_seq db' = (debt_seq db + List.length new)%nat ->
  (forall d, In d new -> amount_owed d = original_amount d) ->
  payments db' = payments db ->
  ledger_ok db'.
Proof.
  intros ((Hnd & Hrange) & Hfk & Hbal) Hd Hids Hs Hfresh Hp.
  assert (Hnew : forall d, In d new ->
                 (debt_seq db < debt_id_of d <= debt_seq db + List.length new)%nat).
  { intros d Hin. apply (in_map debt_id_of) in Hin. rewrite Hids in Hin.
    apply in_seq in Hin. lia. }
  split; [split|split].
  - rewrite Hd, map_app. apply NoDup_app; [exact Hnd|rewrite Hids; apply seq_NoDup|].
    intros i Hi Hi'. apply in_map_iff in Hi as (x & <- & Hx).
    apply in_map_iff in Hi' as (y & Hy & Hyin).
    apply Hrange in Hx. apply Hnew in Hyin. lia.
  - intros d Hin. rewrite Hd in Hin. rewrite Hs.
    apply in_app_or in Hin as [Hin|Hin].
    + apply Hrange in Hin. lia.
    + apply Hnew in Hin. lia.
  - intros p Hin. rewrite Hd, map_app. apply in_or_app. left.
    apply Hfk. now rewrite <- Hp.
  - intros d Hin. rewrite Hd in Hin. unfold paid_total. rewrite Hp.
    apply in_app_or in Hin as [Hin|Hin]; [now apply Hbal|].
    rewrite (Hfresh d Hin).
    replace (filter _ (payments db)) with (@nil Payment); [simpl; lia|].
    symmetry. apply filter_none.
    destruct (existsb _ (payments db)) eqn:E; [|reflexivity].
    apply existsb_exists in E as (p & Hpin & Hk). apply Nat.eqb_eq in Hk.
    apply Hfk in Hpin. apply in_map_iff in Hpin as (x & Hx & Hxin).
    apply Hrange in Hxin. apply Hnew in Hin. lia.
Qed.

Lemma getOrCreateUser_ledger a ens db :
  debts (fst (getOrCreateUser a ens db)) = debts db
  /\ payments (fst (getOrCreateUser a ens db)) = payments db
  /\ debt_seq (fst (getOrCreateUser a ens db)) = debt_seq db.
Proof.
  unfold getOrCreateUser.
  destruct (user_by_address db (JS.toLowerCase a)); [now repeat split|].
  destruct (existsb _ (users db)); now repeat split.
Qed.

Lemma createVouch_ledger v b L db :
  debts (fst (createVouch v b L db)) = debts db
  /\ payments (fst (createVouch v b L db)) = payments db
  /\ debt_seq (fst (createVouch v b L db)) = debt_seq db.
Proof.
  unfold createVouch. destruct (String.eqb _ _); [now repeat split|].
  set (db1 := fst (getOrCreateUser _ None db)).
  set (db2 := fst (getOrCreateUser _ None db1)).
  assert (H2 : debts db2 = debts db /\ payments db2 = payments db
               /\ debt_seq db2 = debt_seq db).
  { subst db2.
    destruct (getOrCreateUser_ledger (JS.toLowerCase b) None db1) as (-> & -> & ->).
    subst db1. apply getOrCreateUser_ledger. }
  destruct (single _) as [existing|].
  - destruct (_ && _)%bool; simpl; exact H2.
  - unfold insert_vouch. destruct (_ && _)%bool; simpl; exact H2.
Qed.

Lemma deactivateVouch_books i db :
  books_ok db -> books_ok (fst (deactivateVouch i db)).
Proof.
  intros [Hv Hl]. unfold deactivateVouch.
  destruct (filter _ (debts db)); simpl; [|now split].
  split; [now apply update_vouch_keys|].
  now apply (ledger_ok_ext db).
Qed.

(** What [borrow_with] writes, whatever its answer. *)
Lemma borrow_with_store b due days R db :
  vouch_keys_ok db ->
  let db' := fst (borrow_with b due (Some days) R db) in
  exists new draws,
    debts db' = debts db ++ new
    /\ map debt_id_of new = seq (S (debt_seq db)) (List.length new)
    /\ debt_seq db' = (debt_seq db + List.length new)%nat
    /\ Forall (fresh_debt b due days) new
    /\ vouches db' = map (credit draws) (vouches db)
    /\ vouch_seq db' = vouch_seq db
    /\ payments db' = payments db /\ users db' = users db
    /\ credit_history db' = credit_history db.
Proof.
  intros [Hnd Hrange] db'. subst db'. unfold borrow_with.
  assert (Hsame : exists new draws,
            debts db = debts db ++ new
            /\ map debt_id_of new = seq (S (debt_seq db)) (List.length new)
            /\ debt_seq db = (debt_seq db + List.length new)%nat
            /\ Forall (fresh_debt b due days) new
            /\ vouches db = map (credit draws) (vouches db)
            /\ vouch_seq db = vouch_seq db
            /\ payments db = payments db /\ users db = users db
            /\ credit_history db = credit_history db).
  { exists [], []. simpl. rewrite app_nil_r.
    repeat split; auto.
    rewrite <- (map_id (vouches db)) at 1. apply map_ext. intros w.
    symmetry. apply credit_nothing. reflexivity. }
  destruct (borrowable_vouches b db) as [|v0 vs0] eqn:Hvs; [exact Hsame|].
  destruct (sum_available (v0 :: vs0) <? R); [exact Hsame|].
  destruct (borrowable_vouches_keys b db Hnd) as [Hnd' Hsub].
  rewrite Hvs in Hnd', Hsub.
  destruct (allocate_effect b due days (v0 :: vs0) R db [] Hnd' Hsub Hnd)
    as (new & Hsnd & Hd & _ & Hids & Hseq & Hfresh & Hv & Hu & Hp & Hh & Hvseq).
  destruct (allocate b due (Some days) (v0 :: vs0) R db []) as [db1 created] eqn:Hal.
  simpl in *.
  assert (Hres : forall r, fst (db1, r : BorrowResult) = db1) by reflexivity.
  exists new, (greedy_draw R (v0 :: vs0)).
  destruct created; simpl; repeat split; auto.
Qed.

Lemma borrow_books now b R days db :
  books_ok db -> books_ok (fst (borrow now b R days db)).
Proof.
  intros [Hv Hl]. unfold borrow.
  destruct (borrow_with_store (JS.toLowerCase b) (due_after now days)
              (repaymentDaysInt days) R db Hv)
    as (new & draws & Hd & Hids & Hseq & Hfresh & Hvs & Hvseq & Hp & _).
  split.
  - destruct Hv as [Hnd Hrange]. split.
    + rewrite Hvs, map_map. erewrite map_ext; [exact Hnd|]. reflexivity.
    + intros w Hw. rewrite Hvs in Hw. apply in_map_iff in Hw as (x & <- & Hx).
      rewrite Hvseq. simpl. now apply Hrange.
  - apply (ledger_new_debts db _ new); auto.
    intros d Hin. rewrite Forall_forall in Hfresh. now destruct (Hfresh d Hin).
Qed.

Lemma repayDebt_books now b i amount db :
  books_ok db -> books_ok (fst (repayDebt cfg now b i amount db)).
Proof.
  intros [Hv Hl].
  destruct (single (filter (fun d => (Nat.eqb (debt_id_of d) i
                                      && String.eqb (debt_borrower d)
                                           (JS.toLowerCase b))%bool) (debts db)))
    as [debt|] eqn:Hsel.
  2:{ unfold repayDebt. rewrite Hsel. now split. }
  destruct (DebtStatus_eqb (status debt) paid) eqn:Hpaid.
  { unfold repayDebt. rewrite Hsel, Hpaid. now split. }
  apply single_filter_In in Hsel as [Hin Hk].
  apply andb_true_iff in Hk as [Hid Hb].
  apply Nat.eqb_eq in Hid. apply String.eqb_eq in Hb.
  assert (Hnp : status debt <> paid).
  { intros E. apply DebtStatus_eqb_eq in E. congruence. }
  pose proof Hl as ((Hnd & _) & _).
  destruct (repayDebt_writes cfg now b i amount db debt Hnd Hin Hid Hb Hnp)
    as (_ & Hdb & Hp & Hd & Hds & Hvs).
  set (pay := Z.min amount (amount_owed debt)) in *.
  set (settled := amount_owed debt <=? amount) in *.
  split.
  - assert (Hins : vouch_keys_ok
                     (insert_payment db
                        (mkPayment i pay (if settled then full else manual))))
      by (apply (vouch_keys_ok_ext db); [reflexivity|reflexivity|exact Hv]).
    assert (Hheld : vouch_keys_ok
                      (release_vouch debt
                         (insert_payment db
                            (mkPayment i pay (if settled then full else manual)))))
      by (apply release_vouch_keys; exact Hins).
    rewrite Hdb.
    match goal with |- vouch_keys_ok (update_debt ?s _ _) =>
      apply (vouch_keys_ok_ext s); [reflexivity|reflexivity|] end.
    destruct (settled && (now <=? due_date debt))%bool.
    + match goal with |- context [updateCreditScore ?c ?a ?dl ?w ?x] =>
        destruct (updateCreditScore_frame c a dl w x) as (F1 & _ & _ & _ & F2) end.
      eapply vouch_keys_ok_ext; [exact F1|exact F2|exact Hheld].
    + destruct settled; [exact Hheld|exact Hins].
  - subst i.
    apply (ledger_payment db _ debt
             (if settled then set_paid 0 now
              else set_amount_owed (amount_owed debt - pay))
             pay (if settled then full else manual)); auto.
    + intros x. now destruct settled.
    + unfold settled, pay. destruct (amount_owed debt <=? amount) eqn:E; simpl.
      * apply Z.leb_le in E. lia.
      * reflexivity.
Qed.

Lemma garnish_paid_off_seqs now u debt db :
  debt_seq (garnish_paid_off cfg now u debt db) = debt_seq db
  /\ vouch_seq (garnish_paid_off cfg now u debt db) = vouch_seq db.
Proof.
  unfold garnish_paid_off.
  set (db1 := update_debt db (debt_id_of debt) (set_paid 0 now)).
  set (db2 := release_vouch debt db1).
  set (db3 := if now <=? due_date debt then _ else db2).
  assert (H2 : debt_seq db2 = debt_seq db /\ vouch_seq db2 = vouch_seq db).
  { subst db2. destruct (release_vouch_seqs debt db1) as (_ & -> & ->). now split. }
  assert (H3 : debt_seq db3 = debt_seq db /\ vouch_seq db3 = vouch_seq db).
  { unfold db3. destruct (now <=? due_date debt); [|exact H2].
    match goal with |- context [updateCreditScore ?c ?a ?d ?w ?x] =>
      destruct (updateCreditScore_frame c a d w x) as (_ & _ & _ & -> & ->) end.
    exact H2. }
  destruct (filter _ (debts db3)); [|exact H3].
  destruct (contracts_configured cfg); exact H3.
Qed.

Lemma garnish_transfer_seqs now u transfer bank db :
  debt_seq (fst (fst (garnish_transfer cfg now u transfer bank db))) = debt_seq db
  /\ vouch_seq (fst (fst (garnish_transfer cfg now u transfer bank db)))
     = vouch_seq db.
Proof.
  unfold garnish_transfer.
  destruct (user_by_address db u) as [currentUser|]; [|now split].
  destruct (negb (auto_repay_enabled currentUser)); [now split|].
  destruct (outstanding_debts u db) as [|activeDebt rest]; [now split|].
  cbv zeta.
  destruct (JS.min_with _ (amount_owed activeDebt)) as [g|]; [|now split].
  destruct (truthy_string (VAULT_ADDRESS cfg)) as [vault|]; [|now split].
  destruct (0 <? g); [|now split].
  destruct (Bank.sendTransfer vault g _) as [bank2 [err|]]; [now split|].
  simpl fst. destruct (Z.max 0 (amount_owed activeDebt - g) =? 0).
  - destruct (garnish_paid_off_seqs now u activeDebt
                (insert_payment db (mkPayment (debt_id_of activeDebt) g garnish)))
      as [-> ->]. now split.
  - now split.
Qed.

Lemma garnish_transfer_books now u transfer bank db :
  books_ok db ->
  books_ok (fst (fst (garnish_transfer cfg now u transfer bank db))).
Proof.
  intros [Hv Hl].
  destruct (garnish_transfer_seqs now u transfer bank db) as [Hds Hvs].
  destruct (garnish_transfer_cases cfg now u transfer bank db)
    as [Heq _ _
       |debt g Hin _ _ Hg _ _ _ Hd Hvv Hp
       |debt Hin _ _ Hpos _ _ _ Hd Hvv Hp].
  - rewrite Heq. now split.
  - split.
    + now apply (vouch_keys_ok_ext db).
    + apply (ledger_payment db _ debt (set_amount_owed (amount_owed debt - g))
               g garnish); auto.
  - split.
    + apply (vouch_keys_ok_ext (release_vouch debt db)); auto.
      * destruct (release_vouch_seqs debt db) as (_ & _ & ->). exact Hvs.
      * now apply release_vouch_keys.
    + apply (ledger_payment db _ debt (set_paid 0 now) (amount_owed debt) garnish);
        auto. simpl. lia.
Qed.

Lemma sweep_seqs (L : list Debt) : forall db n,
  debt_seq (fst (sweep cfg L db n)) = debt_seq db
  /\ vouch_seq (fst (sweep cfg L db n)) = vouch_seq db.
Proof.
  induction L as [|d L IH]; intros db n; simpl; [now split|].
  match goal with |- context [sweep cfg L ?d1 ?n1] =>
    destruct (IH d1 n1) as [-> ->] end.
  match goal with |- context [updateCreditScore ?c ?a ?dl ?w ?x] =>
    destruct (updateCreditScore_frame c a dl w x) as (_ & _ & _ & -> & ->) end.
  now split.
Qed.

Lemma checkOverdueDebts_books now db :
  books_ok db -> books_ok (fst (checkOverdueDebts cfg now db)).
Proof.
  intros [Hv Hl]. unfold checkOverdueDebts.
  set (L := filter _ (debts db)).
  destruct (sweep_seqs L db 0) as [Hds Hvs].
  split.
  - apply (vouch_keys_ok_ext db); [apply sweep_vouches|exact Hvs|exact Hv].
  - apply (ledger_rows db _ (swept L)); auto.
    + apply sweep_debts.
    + intros x. unfold swept. destruct (existsb _ L); now repeat split.
    + apply sweep_payments.
Qed.

Lemma markDebtDefaulted_books j db :
  books_ok db -> books_ok (fst (markDebtDefaulted cfg j db)).
Proof.
  intros [Hv Hl]. unfold markDebtDefaulted.
  destruct (debt_by_id db j) as [debt|]; [|now split].
  destruct (_ || _)%bool; [now split|]. simpl fst.
  match goal with |- context [updateCreditScore ?c ?a ?dl ?w ?x] =>
    destruct (updateCreditScore_frame c a dl w x) as (F1 & F2 & F3 & F4 & F5) end.
  split.
  - eapply vouch_keys_ok_ext; [exact F1|exact F5|].
    apply (vouch_keys_ok_ext db); [reflexivity|reflexivity|exact Hv].
  - apply (ledger_rows db _ (at_id debt_id_of j (set_status defaulted)));
      [exact Hl|exact F2| |exact F3|exact F4].
    intros x. unfold at_id. destruct (Nat.eqb (debt_id_of x) j); now repeat split.
Qed.

Lemma serve_books now r db : books_ok db -> books_ok (serve cfg now r db).
Proof.
  intros Hb. destruct r as [v b l|i|b a days|[b i a|u t bank| |j]]; simpl.
  - destruct Hb as [Hv Hl]. split; [now apply createVouch_keeps_keys|].
    destruct (createVouch_ledger v b l db) as (Hd & Hp & Hs).
    now apply (ledger_ok_ext db).
  - now apply deactivateVouch_books.
  - now apply borrow_books.
  - now apply repayDebt_books.
  - now apply garnish_transfer_books.
  - now apply checkOverdueDebts_books.
  - now apply markDebtDefaulted_books.
Qed.


End Books.


(** ** Loans in the read models: [getTotalDebt], [getAvailableCredit],
    [getPlatformStats] after [borrow] *)

Lemma fold_left_sum {A} (c : A -> Z) (l : list A) : forall acc,
  fold_left (fun sum x => sum + c x) l acc = acc + total (map c l).
Proof.
  induction l as [|x l IH]; intros acc; simpl; [lia|]. rewrite IH. lia.
Qed.

Lemma total_map_add {A} (f g : A -> Z) (l : list A) :
  total (map (fun x => f x + g x) l) = total (map f l) + total (map g l).
Proof.
  induction l as [|x l IH]; simpl; [reflexivity|]. rewrite IH. lia.
Qed.

Lemma total_zero {A} (f : A -> Z) (l : list A) :
  (forall x, In x l -> f x = 0) -> total (map f l) = 0.
Proof.
  induction l as [|x l IH]; simpl; intros H; [reflexivity|].
  rewrite IH by (intros y Hy; apply H; now right).
  rewrite (H x) by now left. reflexivity.
Qed.

(** A sum that looks at one id only picks the row of that id. *)
Lemma total_pick {A} (id : A -> nat) (c : A -> Z) (l : list A) (w : A) :
  NoDup (map id l) -> In w l ->
  total (map (fun x => if Nat.eqb (id w) (id x) then c x else 0) l) = c w.
Proof.
  induction l as [|y l IH]; simpl; intros Hnd Hin; [contradiction|].
  inversion Hnd as [|? ? Hfresh Hnd']; subst.
  destruct Hin as [->|Hin].
  - rewrite Nat.eqb_refl. rewrite total_zero; [lia|].
    intros x Hx. destruct (Nat.eqb_spec (id w) (id x)) as [E|E]; [|reflexivity].
    exfalso. apply Hfresh. rewrite E. now apply in_map.
  - destruct (Nat.eqb_spec (id w) (id y)) as [E|E].
    + exfalso. apply Hfresh. rewrite <- E. now apply in_map.
    + rewrite IH by assumption. lia.
Qed.

Section LoanTotals.

Import Store Services Reports.

(** Summed over the vouches selected by [K], the draws add up to their
    total when they are all on selected vouches, and to nothing when none
    of them is. *)
Lemma drawn_sum (K : Vouch -> bool) (kb : bool) (l : list Vouch) :
  NoDup (map vouch_id_of l) ->
  forall draws,
  (forall p, In p draws -> exists w, In w l /\ vouch_id_of w = fst p /\ K w = kb) ->
  total (map (fun w => if K w then drawn draws (vouch_id_of w) else 0) l)
  = if kb then total (map snd draws) else 0.
Proof.
  intros Hnd. induction draws as [|[j a] draws IH]; intros Hdraws.
  - rewrite total_zero; [now destruct kb|].
    intros w _. now destruct (K w).
  - assert (Hrest : forall p, In p draws ->
                    exists w, In w l /\ vouch_id_of w = fst p /\ K w = kb)
      by (intros p Hp; apply Hdraws; now right).
    specialize (IH Hrest).
    destruct (Hdraws (j, a) (or_introl eq_refl)) as (w & Hw & Hwj & HK).
    simpl in Hwj.
    erewrite map_ext
      with (g := fun x => (if K x then drawn draws (vouch_id_of x) else 0)
                          + (if Nat.eqb (vouch_id_of w) (vouch_id_of x)
                             then (if K x then a else 0) else 0)).
    2:{ intros x. rewrite drawn_cons, Hwj.
        destruct (K x), (Nat.eqb j (vouch_id_of x)); lia. }
    rewrite total_map_add, IH.
    rewrite (total_pick vouch_id_of (fun x => if K x then a else 0) l w Hnd Hw).
    rewrite HK. simpl. destruct kb; lia.
Qed.

(** What the greedy draws take from one vouch stays within its capacity. *)
Lemma drawn_within_capacity (vs : list Vouch) : forall R w,
  NoDup (map vouch_id_of vs) -> In w vs ->
  0 <= drawn (greedy_draw R vs) (vouch_id_of w) <= Z.max 0 (capacity w).
Proof.
  induction vs as [|v vs IH]; intros R w Hnd Hin; [destruct Hin|].
  inversion Hnd as [|? ? Hfresh Hnd']; subst.
  assert (Hv0 : forall R', drawn (greedy_draw R' vs) (vouch_id_of v) = 0).
  { intros R'. apply drawn_absent. intros F. apply Hfresh.
    now apply (greedy_draw_ids vs R'). }
  simpl greedy_draw. destruct (R <=? 0) eqn:HR; [simpl; unfold drawn; simpl; lia|].
  apply Z.leb_gt in HR.
  destruct (capacity v <=? 0) eqn:Hc.
  - destruct Hin as [<-|Hin]; [rewrite Hv0; lia|now apply IH].
  - apply Z.leb_gt in Hc. rewrite drawn_cons.
    destruct Hin as [<-|Hin].
    + rewrite Nat.eqb_refl, Hv0. lia.
    + destruct (Nat.eqb_spec (vouch_id_of v) (vouch_id_of w)) as [E|E].
      * exfalso. apply Hfresh. rewrite E. now apply in_map.
      * now apply IH.
Qed.


End LoanTotals.


(** ** Listings and settings: [getDebtsForBorrower], [getDebtsAsLender],
    [getCreditHistory], [updateUserSettings] *)

Section Listings.

Import Store Services Server Reports.

Lemma insert_by_due_perm ties d l :
  Permutation (insert_by_due ties d l) (d :: l).
Proof.
  induction l as [|e l IH]; simpl; [reflexivity|].
  destruct (_ || _)%bool; [|reflexivity].
  rewrite IH. apply perm_swap.
Qed.

Lemma order_by_due_asc_perm ties l : Permutation (order_by_due_asc ties l) l.
Proof.
  induction l as [|d l IH]; simpl; [reflexivity|].
  unfold order_by_due_asc in *. simpl. rewrite insert_by_due_perm. now constructor.
Qed.

(** Whatever the store makes of rows that are due at the same time, the
    rows come back with the due dates in ascending order. *)
Lemma insert_by_due_sorted ties d l :
  StronglySorted by_due_asc l ->
  StronglySorted by_due_asc (insert_by_due ties d l).
Proof.
  induction l as [|e l IH]; simpl; intros Hs.
  - repeat constructor.
  - inversion Hs as [|? ? Hl He]; subst.
    destruct ((due_date e <? due_date d)
              || ((due_date e =? due_date d) && negb (ties d e)))%bool eqn:Hlt.
    + assert (Hle : due_date e <= due_date d).
      { apply orb_true_iff in Hlt as [H|H].
        - apply Z.ltb_lt in H. lia.
        - apply andb_true_iff in H as [H _]. apply Z.eqb_eq in H. lia. }
      constructor; [now apply IH|].
      apply Forall_forall. intros x Hx.
      apply insert_by_due_In in Hx as [->|Hx].
      * unfold by_due_asc. lia.
      * rewrite Forall_forall in He. now apply He.
    + apply orb_false_iff in Hlt as [Hlt _]. apply Z.ltb_ge in Hlt.
      constructor; [exact Hs|].
      constructor; [exact Hlt|].
      rewrite Forall_forall in *. intros x Hx. specialize (He x Hx).
      unfold by_due_asc in *. lia.
Qed.

Lemma order_by_due_asc_sorted ties l :
  StronglySorted by_due_asc (order_by_due_asc ties l).
Proof.
  induction l as [|d l IH]; simpl; [constructor|].
  now apply insert_by_due_sorted.
Qed.

(** The choice of the store matters among rows that are due at the same
    time only. *)
Lemma insert_by_due_distinct ties ties' d l :
  ~ In (due_date d) (map due_date l) ->
  insert_by_due ties d l = insert_by_due ties' d l.
Proof.
  induction l as [|e l IH]; simpl; intros Hd; [reflexivity|].
  assert (Hne : (due_date e =? due_date d) = false)
    by (apply Z.eqb_neq; intros E; apply Hd; now left).
  rewrite Hne. simpl. rewrite IH by tauto. reflexivity.
Qed.

Lemma order_by_due_asc_distinct ties ties' l :
  NoDup (map due_date l) ->
  order_by_due_asc ties l = order_by_due_asc ties' l.
Proof.
  induction l as [|d l IH]; simpl; intros Hnd; [reflexivity|].
  inversion Hnd as [|? ? Hfresh Hnd']; subst.
  unfold order_by_due_asc in *. simpl. rewrite (IH Hnd').
  apply insert_by_due_distinct.
  intros Hin. apply Hfresh.
  apply in_map_iff in Hin as (x & Hx & Hin). apply in_map_iff.
  exists x. split; [exact Hx|].
  now apply (order_by_due_asc_In ties' x l).
Qed.

(** X11.  [getDebtsForBorrower] and [getDebtsAsLender] list exactly the
    debts of that borrower (of that lender), of the requested status when
    one is given, each once, in ascending order of due date.  The address
    is matched in lower case.  The order among debts that are due at the
    same time is the store's; when no two of the listed debts are due at
    the same time the listing does not depend on it. *)
Theorem debts_listed_by_due_date a statusFilter db :
  let mine := getDebtsForBorrower a statusFilter db in
  let lent := getDebtsAsLender a statusFilter db in
  let of_borrower :=
    filter (fun d => (String.eqb (debt_borrower d) (JS.toLowerCase a)
                      && has_status statusFilter d)%bool) (debts db) in
  let of_lender :=
    filter (fun d => (String.eqb (lender_address d) (JS.toLowerCase a)
                      && has_status statusFilter d)%bool) (debts db) in
  StronglySorted by_due_asc mine
  /\ StronglySorted by_due_asc lent
  /\ Permutation mine of_borrower
  /\ Permutation lent of_lender
  /\ (forall d, In d mine <->
                In d (debts db) /\ debt_borrower d = JS.toLowerCase a
                /\ match statusFilter with
                   | Some s => status d = s
                   | None => True
                   end)
  /\ (NoDup (map due_date of_borrower) ->
      forall ties, mine = order_by_due_asc ties of_borrower)
  /\ (NoDup (map due_date of_lender) ->
      forall ties, lent = order_by_due_asc ties of_lender).
Proof.
  intros mine lent of_borrower of_lender. subst mine lent of_borrower of_lender.
  unfold getDebtsForBorrower, getDebtsAsLender.
  split; [apply order_by_due_asc_sorted|].
  split; [apply order_by_due_asc_sorted|].
  split; [apply order_by_due_asc_perm|].
  split; [apply order_by_due_asc_perm|].
  split.
  { intros d. rewrite order_by_due_asc_In, filter_In, andb_true_iff, String.eqb_eq.
    unfold has_status. destruct statusFilter as [s|].
    - rewrite DebtStatus_eqb_eq. tauto.
    - intuition. }
  split; intros Hnd ties; now apply order_by_due_asc_distinct.
Qed.

Lemma In_firstn {A} (x : A) : forall n l, In x (firstn n l) -> In x l.
Proof.
  induction n as [|n IH]; intros [|y l]; simpl; try tauto.
  intros [H|H]; [now left|right; now apply IH].
Qed.

Lemma rev_filter {A} (key : A -> bool) (l : list A) :
  rev (filter key l) = filter key (rev l).
Proof.
  induction l as [|x l IH]; simpl; [reflexivity|].
  rewrite filter_app. simpl. destruct (key x); simpl; rewrite IH;
    [reflexivity|now rewrite app_nil_r].
Qed.

(** X12.  [getCreditHistory] answers at most [limit] entries, all of them
    entries of that account; and after a score update of an existing
    account the entry of that update comes first, followed by what the
    history answered before. *)
Theorem getCreditHistory_newest_first cfg a n delta why db user :
  getUser a db = Some user ->
  let db' := fst (updateCreditScore cfg a delta why db) in
  getCreditHistory a (S n) db'
  = mkCreditHistory (JS.toLowerCase a) (credit_score user)
      (Z.max 300 (Z.min 900 (credit_score user + delta))) why
    :: getCreditHistory a n db
  /\ (forall limit, (List.length (getCreditHistory a limit db') <= limit)%nat)
  /\ (forall limit h, In h (getCreditHistory a limit db') ->
        In h (credit_history db') /\ history_wallet h = JS.toLowerCase a)
  /\ (forall b limit, JS.toLowerCase b <> JS.toLowerCase a ->
        getCreditHistory b limit db' = getCreditHistory b limit db).
Proof.
  intros Hu db'.
  destruct (updateCreditScore_effect cfg a delta why db user Hu) as (_ & _ & Hh).
  fold db' in Hh.
  split; [|split; [|split]].
  - unfold getCreditHistory. rewrite Hh, filter_app. simpl.
    rewrite String.eqb_refl, rev_app_distr. reflexivity.
  - intros limit. unfold getCreditHistory. rewrite length_firstn. lia.
  - intros limit h Hin. unfold getCreditHistory in Hin.
    apply In_firstn in Hin.
    apply in_rev in Hin. apply filter_In in Hin as [Hin Hk].
    apply String.eqb_eq in Hk. now split.
  - intros b limit Hb. unfold getCreditHistory. rewrite Hh, filter_app. simpl.
    destruct (String.eqb_spec (JS.toLowerCase a) (JS.toLowerCase b)) as [E|E];
      [congruence|]. now rewrite app_nil_r.
Qed.

(** X13.  Account settings.  [updateUserSettings] and the PATCH route with
    a garnish percentage outside 0..100 write nothing (the route answers
    400, the store refuses the update); with settings that name a field
    and pass, the row of the account gets the given fields and keeps
    score, ENS name and flag, every other account is as before, and all
    percentages still pass the CHECK.  Once auto-repay has been switched
    off, an incoming transfer of that account is accepted in full: nothing
    is sent to the vault and the store is not touched. *)
Theorem updateUserSettings_effect a s db user :
  getUser a db = Some user ->
  garnish_check user = true ->
  (new_garnish_percentage s <> None \/ new_auto_repay_enabled s <> None) ->
  let db' := fst (updateUserSettings a s db) in
  (forall p, new_garnish_percentage s = Some p -> p < 0 \/ 100 < p ->
     updateUserSettings a s db = (db, UpdateFailed)
     /\ patch_settings a s db = (db, None))
  /\ ((forall p, new_garnish_percentage s = Some p -> 0 <= p <= 100) ->
      updateUserSettings a s db
      = (update_user db (JS.toLowerCase a) (with_settings s),
         UpdatedRow (with_settings s user))
      /\ patch_settings a s db = (db', Some (UpdatedRow (with_settings s user)))
      /\ getUser a db' = Some (with_settings s user)
      /\ credit_score (with_settings s user) = credit_score user
      /\ ens_stripped (with_settings s user) = ens_stripped user
      /\ (forall b, JS.toLowerCase b <> JS.toLowerCase a ->
            getUser b db' = getUser b db)
      /\ (percentages_ok db -> percentages_ok db')
      /\ (new_auto_repay_enabled s = Some false ->
          forall cfg now transfer bank,
            garnish_transfer cfg now (JS.toLowerCase a) transfer bank db'
            = (db', bank,
               mkGarnishment (Bank.transfer_amount transfer) None None 0 None None))).
Proof.
  intros Hu Hck Hfield db'. unfold getUser in Hu.
  assert (Hupd : update_settings (JS.toLowerCase a) s db
                 = if garnish_check (with_settings s user)
                   then (update_user db (JS.toLowerCase a) (with_settings s),
                         UpdatedRow (with_settings s user))
                   else (db, UpdateFailed)).
  { unfold update_settings. rewrite Hu.
    destruct (new_garnish_percentage s), (new_auto_repay_enabled s); try reflexivity.
    destruct Hfield as [F|F]; now contradiction F. }
  split.
  - intros p Hp Hout. unfold updateUserSettings, patch_settings.
    rewrite Hupd, Hp. unfold garnish_check, with_settings. simpl. rewrite Hp.
    assert (Hbad : ((0 <=? p) && (p <=? 100))%bool = false).
    { destruct Hout as [H|H].
      - apply Z.leb_gt in H. now rewrite H.
      - apply Z.leb_gt in H. rewrite H. apply andb_false_r. }
    assert (Hbad' : ((p <? 0) || (100 <? p))%bool = true).
    { destruct Hout as [H|H].
      - apply Z.ltb_lt in H. now rewrite H.
      - apply Z.ltb_lt in H. rewrite H. apply orb_true_r. }
    rewrite Hbad, Hbad'. now split.
  - intros Hin.
    assert (Hpass : garnish_check (with_settings s user) = true).
    { unfold garnish_check, with_settings. simpl.
      destruct (new_garnish_percentage s) as [p|] eqn:Hp; [|exact Hck].
      specialize (Hin p eq_refl).
      apply andb_true_iff. split; apply Z.leb_le; lia. }
    assert (Hroute : match new_garnish_percentage s with
                     | Some p => ((p <? 0) || (100 <? p))%bool
                     | None => false
                     end = false).
    { destruct (new_garnish_percentage s) as [p|]; [|reflexivity].
      specialize (Hin p eq_refl).
      apply orb_false_iff. split; apply Z.ltb_ge; lia. }
    assert (Hdb : updateUserSettings a s db
                  = (update_user db (JS.toLowerCase a) (with_settings s),
                     UpdatedRow (with_settings s user)))
      by (unfold updateUserSettings; now rewrite Hupd, Hpass).
    assert (Hrow : getUser a db' = Some (with_settings s user)).
    { subst db'. rewrite Hdb. unfold getUser. simpl fst.
      apply user_by_address_update; [reflexivity|exact Hu]. }
    split; [exact Hdb|].
    split; [subst db'; unfold patch_settings; rewrite Hroute, Hdb;
            unfold updateUserSettings in Hdb; now rewrite Hdb|].
    split; [exact Hrow|]. split; [reflexivity|]. split; [reflexivity|].
    split; [|split].
    + intros b Hb. subst db'. rewrite Hdb. unfold getUser. simpl fst.
      apply user_by_address_update_other; [reflexivity|congruence].
    + intros Hall u Hin'. subst db'. rewrite Hdb in Hin'. simpl in Hin'.
      apply in_map_iff in Hin' as (x & <- & Hx).
      destruct (String.eqb (wallet_address x) (JS.toLowerCase a)) eqn:E;
        [|now apply Hall].
      unfold garnish_check, with_settings. simpl.
      destruct (new_garnish_percentage s) as [p|] eqn:Hp; [|now apply Hall].
      specialize (Hin p eq_refl). apply andb_true_iff. split; apply Z.leb_le; lia.
    + intros Hoff cfg now transfer bank. unfold garnish_transfer.
      unfold getUser in Hrow. rewrite Hrow.
      unfold with_settings. simpl. rewrite Hoff. reflexivity.
Qed.

End Listings.

Lemma getCreditHistory_newest_first_witness :
  Reports.getCreditHistory "0xA11CE" 2
    (fst (Services.updateCreditScore no_contracts "0xA11CE" (-25) (LatePayment 1)
            (fst (Services.updateCreditScore no_contracts alice 10 (PaidOnTime 7)
                    low_score_db))))
  = [mkCreditHistory alice 420 395 (LatePayment 1);
     mkCreditHistory alice 410 420 (PaidOnTime 7)].
Proof.
  destruct (getCreditHistory_newest_first no_contracts "0xA11CE" 1 (-25)
              (LatePayment 1)
              (fst (Services.updateCreditScore no_contracts alice 10 (PaidOnTime 7)
                      low_score_db))
              (mkUser alice (Some "alice.eth"%string) 420 false (Some 50) true)
              eq_refl) as (H & _).
  rewrite H. reflexivity.
Defined.

Lemma updateUserSettings_effect_witness :
  let off := Reports.mkUserSettings (Some 30) (Some false) in
  let db' := fst (Reports.updateUserSettings "0xB0B" off (owing_db 50)) in
  Reports.getUser bob db' = Some (mkUser bob None 650 false (Some 30) false)
  /\ Server.garnish_transfer no_contracts 500 bob (incoming 100) ready_bank db'
     = (db', ready_bank, Server.mkGarnishment 100 None None 0 None None)
  /\ Reports.patch_settings "0xB0B" (Reports.mkUserSettings (Some 101) None)
       (owing_db 50) = (owing_db 50, None).
Proof.
  destruct (updateUserSettings_effect "0xB0B"
              (Reports.mkUserSettings (Some 30) (Some false)) (owing_db 50)
              (mkUser bob None 650 false (Some 50) true) eq_refl eq_refl)
    as (_ & Hok); [left; discriminate|].
  destruct Hok as (_ & _ & H1 & _ & _ & _ & _ & H2).
  { intros p Hp. inversion Hp. lia. }
  destruct (updateUserSettings_effect "0xB0B"
              (Reports.mkUserSettings (Some 101) None) (owing_db 50)
              (mkUser bob None 650 false (Some 50) true) eq_refl eq_refl)
    as (Hbad & _); [left; discriminate|].
  split; [exact H1|]. split; [exact (H2 eq_refl no_contracts 500 (incoming 100) ready_bank)|].
  apply (Hbad 101 eq_refl). right. lia.
Defined.

(** ** Garnishing: which debt is paid, and what goes to the vault *)

Section SessionTransfers.

Import Bank.

(** [sendTransfer] either throws and leaves the client as it is, or sends
    one request on the current socket of a client that is ready. *)
Lemma sendTransfer_cases recipient amount c :
  (exists e, sendTransfer recipient amount c = (c, Some e) /\ isReady c = false)
  \/ (exists w, ws c = Some w /\ isReady c = true
                /\ sendTransfer recipient amount c
                   = (with_sent c (sent c ++ [(w, TransferRequest recipient amount)]),
                      None)).
Proof.
  unfold sendTransfer, isReady.
  destruct (isAuthenticated c); simpl.
  - destruct (ws c) as [w|] eqn:Hw.
    + unfold is_open, send. destruct (readyState c w) as [[]|] eqn:Hr.
      * left. eexists. now split.
      * right. exists w. repeat split.
      * left. eexists. now split.
      * left. eexists. now split.
      * left. eexists. now split.
    + left. eexists. now split.
  - left. eexists. now split.
Qed.

End SessionTransfers.

Section GarnishTarget.

Import Store Services Server.
Variable cfg : Config.

(** The debt charged by the callback is the head of the borrower's
    outstanding debts, and what it sends and records go together. *)
Lemma garnish_transfer_head now u transfer bank db :
  let db' := fst (fst (garnish_transfer cfg now u transfer bank db)) in
  let bank' := snd (fst (garnish_transfer cfg now u transfer bank db)) in
  let out := snd (garnish_transfer cfg now u transfer bank db) in
  (garnished out = 0 /\ garnished_debt out = None
   /\ db' = db /\ Bank.sent bank' = Bank.sent bank)
  \/ (exists activeDebt rest vault w,
        outstanding_debts u db = activeDebt :: rest
        /\ VAULT_ADDRESS cfg = Some vault
        /\ Bank.ws bank = Some w /\ Bank.isReady bank = true
        /\ garnished_debt out = Some (debt_id_of activeDebt)
        /\ 0 < garnished out <= amount_owed activeDebt
        /\ transferError out = None
        /\ Bank.sent bank'
           = Bank.sent bank ++ [(w, Bank.TransferRequest vault (garnished out))]
        /\ payments db'
           = payments db ++ [mkPayment (debt_id_of activeDebt) (garnished out) garnish]).
Proof.
  unfold garnish_transfer.
  destruct (user_by_address db u) as [currentUser|]; [|left; now repeat split].
  destruct (negb (auto_repay_enabled currentUser)); [left; now repeat split|].
  destruct (outstanding_debts u db) as [|activeDebt rest] eqn:Hout;
    [left; now repeat split|].
  cbv zeta.
  destruct (JS.min_with _ (amount_owed activeDebt)) as [g|] eqn:Hg;
    [|left; now repeat split].
  destruct (truthy_string (VAULT_ADDRESS cfg)) as [vault|] eqn:Hvault;
    [|left; now repeat split].
  destruct (0 <? g) eqn:Hpos; [|left; now repeat split].
  apply Z.ltb_lt in Hpos.
  assert (Hv : VAULT_ADDRESS cfg = Some vault).
  { unfold truthy_string in Hvault.
    destruct (VAULT_ADDRESS cfg) as [[|ch r]|]; congruence. }
  assert (Hle : g <= amount_owed activeDebt).
  { unfold JS.min_with in Hg.
    destruct (JS.floor_mul_percent _ _); inversion Hg; lia. }
  unfold Bank.acceptTransfer. simpl fst.
  destruct (sendTransfer_cases vault g bank) as [(e & -> & _)|(w & Hw & Hr & ->)].
  - left. now repeat split.
  - right. exists activeDebt, rest, vault, w. simpl.
    split; [reflexivity|]. split; [exact Hv|]. split; [exact Hw|].
    split; [exact Hr|]. split; [reflexivity|]. split; [lia|].
    split; [reflexivity|]. split; [reflexivity|].
    destruct (Z.max 0 (amount_owed activeDebt - g) =? 0).
    + destruct (garnish_paid_off_frame cfg now u activeDebt
                  (insert_payment db (mkPayment (debt_id_of activeDebt) g garnish)))
        as (_ & _ & ->). reflexivity.
    + reflexivity.
Qed.

(** X14.  The garnishing callback pays towards one debt per transfer: an
    active or overdue debt of the borrower than which none is due
    earlier (of several that are due at the same time, the one the store
    returns first).  Every other debt, also of the same borrower and
    however large the transfer, is left as it is. *)
Theorem garnish_pays_oldest_debt now u transfer bank db i :
  debt_keys_ok db ->
  garnished_debt (snd (garnish_transfer cfg now u transfer bank db)) = Some i ->
  let db' := fst (fst (garnish_transfer cfg now u transfer bank db)) in
  exists debt,
    In debt (debts db) /\ debt_id_of debt = i
    /\ debt_borrower debt = u /\ outstanding (status debt) = true
    /\ hd_error (outstanding_debts u db) = Some debt
    /\ (forall d, In d (debts db) -> debt_borrower d = u ->
          outstanding (status d) = true -> due_date debt <= due_date d)
    /\ (forall x, In x (debts db) -> debt_id_of x <> i ->
          debt_by_id db' (debt_id_of x) = Some x).
Proof.
  intros [Hnd _] Hi db'.
  destruct (garnish_transfer_head now u transfer bank db)
    as [(_ & Hnone & _)|(debt & rest & vault & w & Hout & _ & _ & _ & Hid & _)];
    [congruence|].
  rewrite Hi in Hid. inversion Hid as [Hid']. clear Hid.
  assert (Hhead : In debt (outstanding_debts u db)) by (rewrite Hout; now left).
  apply outstanding_debts_In in Hhead as (Hin & Hb & Ho).
  pose proof (order_by_due_asc_sorted (debt_ties db)
                (filter (fun d => (String.eqb (debt_borrower d) u
                                   && outstanding (status d))%bool) (debts db)))
    as Hsorted.
  fold (outstanding_debts u db) in Hsorted. rewrite Hout in Hsorted.
  inversion Hsorted as [|? ? _ Hmin]; subst.
  exists debt. split; [exact Hin|]. split; [reflexivity|].
  split; [reflexivity|]. split; [exact Ho|]. split; [|split].
  - now rewrite Hout.
  - intros d Hd Hdb Hdo.
    assert (Hd' : In d (outstanding_debts (debt_borrower debt) db)).
    { unfold outstanding_debts. apply order_by_due_asc_In. apply filter_In.
      split; [exact Hd|]. rewrite Hdb, String.eqb_refl, Hdo. reflexivity. }
    rewrite Hout in Hd'. destruct Hd' as [<-|Hd']; [lia|].
    rewrite Forall_forall in Hmin. now apply Hmin.
  - intros x Hx Hxi.
    assert (Hrows : exists f, debts db'
                              = map (at_id debt_id_of (debt_id_of debt) f) (debts db)
                              /\ forall y, debt_id_of (f y) = debt_id_of y).
    { destruct (garnish_transfer_cases cfg now (debt_borrower debt) transfer bank db)
        as [Heq _ Hn|d' g _ _ _ _ _ Hgd _ Hd _ _|d' _ _ _ _ _ Hgd _ Hd _ _].
      - congruence.
      - rewrite Hi in Hgd. inversion Hgd as [E]. rewrite <- E in Hd.
        exists (set_amount_owed (amount_owed d' - g)). now split.
      - rewrite Hi in Hgd. inversion Hgd as [E]. rewrite <- E in Hd.
        exists (set_paid 0 now). now split. }
    destruct Hrows as (f & Hrows & Hf).
    assert (Hnd' : NoDup (map debt_id_of (debts db'))).
    { rewrite Hrows, map_map. erewrite map_ext; [exact Hnd|].
      intros y. simpl. now apply at_id_id. }
    apply debt_by_id_In; [exact Hnd'|]. rewrite Hrows.
    replace x with (at_id debt_id_of (debt_id_of debt) f x) at 1
      by (unfold at_id; destruct (Nat.eqb_spec (debt_id_of x) (debt_id_of debt));
          congruence).
    now apply in_map.
Qed.

(** X15.  What the callback records is what it has sent.  Either nothing
    is garnished: no payment row is written, the store is unchanged and
    no message leaves the session; or the session is ready, one transfer
    request for the garnished amount is sent to the configured vault on
    the current socket, and one payment row of type 'garnish' with that
    same amount is recorded on the debt; the amount is positive and never
    above what the debt owes.  The incoming transfer is accepted in full
    either way. *)
Theorem garnish_sends_what_it_records now u transfer bank db :
  let db' := fst (fst (garnish_transfer cfg now u transfer bank db)) in
  let bank' := snd (fst (garnish_transfer cfg now u transfer bank db)) in
  let out := snd (garnish_transfer cfg now u transfer bank db) in
  accepted out = Bank.transfer_amount transfer
  /\ ((garnished out = 0 /\ db' = db /\ Bank.sent bank' = Bank.sent bank)
      \/ (exists debt vault w,
            In debt (debts db) /\ garnished_debt out = Some (debt_id_of debt)
            /\ VAULT_ADDRESS cfg = Some vault
            /\ Bank.ws bank = Some w /\ Bank.isReady bank = true
            /\ 0 < garnished out <= amount_owed debt
            /\ Bank.sent bank'
               = Bank.sent bank ++ [(w, Bank.TransferRequest vault (garnished out))]
            /\ payments db'
               = payments db ++ [mkPayment (debt_id_of debt) (garnished out) garnish]))
  /\ (Bank.isReady bank = false -> db' = db).
Proof.
  intros db' bank' out.
  split; [apply garnish_transfer_accepts|].
  destruct (garnish_transfer_head now u transfer bank db)
    as [(H0 & _ & Hdb & Hsent)
       |(debt & rest & vault & w & Hout & Hv & Hw & Hr & Hid & Hg & _ & Hsent & Hp)].
  - split; [left; now repeat split|]. intros _. exact Hdb.
  - split.
    + right. exists debt, vault, w.
      assert (Hin : In debt (outstanding_debts u db)) by (rewrite Hout; now left).
      apply outstanding_debts_In in Hin as (Hin & _).
      split; [exact Hin|]. split; [exact Hid|]. split; [exact Hv|].
      split; [exact Hw|]. split; [exact Hr|]. split; [exact Hg|].
      split; [exact Hsent|exact Hp].
    + intros Hnr. congruence.
Qed.

End GarnishTarget.

Lemma three_debts_db_keys : debt_keys_ok three_debts_db.
Proof.
  split.
  - simpl. repeat constructor; simpl; intuition discriminate.
  - intros d [<-|[<-|[<-|[]]]]; simpl; lia.
Defined.

Lemma garnish_pays_oldest_debt_witness :
  Server.garnished_debt
    (snd (Server.garnish_transfer no_contracts 500 bob (incoming 1000) ready_bank
            three_debts_db)) = Some 2%nat
  /\ map amount_owed
       (debts (fst (fst (Server.garnish_transfer no_contracts 500 bob (incoming 1000)
                           ready_bank three_debts_db)))) = [40; 0; 100].
Proof.
  assert (H : Server.garnished_debt
                (snd (Server.garnish_transfer no_contracts 500 bob (incoming 1000)
                        ready_bank three_debts_db)) = Some 2%nat) by reflexivity.
  destruct (garnish_pays_oldest_debt no_contracts 500 bob (incoming 1000) ready_bank
              three_debts_db 2%nat three_debts_db_keys H)
    as (debt & _ & _ & _ & _ & _ & _ & Hkeep).
  split; [exact H|].
  pose proof (Hkeep (mkDebt 1 bob alice (Some 1%nat) 40 40 3000 14 active None)
                (or_introl eq_refl)) as H1.
  vm_compute. reflexivity.
Defined.

(** ** The session client: sending, routing and the reconnector *)

Section SessionHandlers.

Import Bank.

Ltac break_match :=
  match goal with
  | |- context [match ?x with _ => _ end] => destruct x eqn:?
  end.

Lemma send_kept k m c : kept (fst (send k m c)) = kept c.
Proof. unfold send. repeat break_match; reflexivity. Qed.

Lemma resolve_kept k c : kept (resolve k c) = kept c.
Proof. unfold resolve. repeat break_match; reflexivity. Qed.

Lemma reject_kept k e c : kept (reject k e c) = kept c.
Proof. unfold reject. repeat break_match; reflexivity. Qed.

Lemma startAuthFlow_kept c : kept (fst (startAuthFlow c)) = kept c.
Proof.
  unfold startAuthFlow. repeat break_match; try reflexivity. apply send_kept.
Qed.

Lemma attemptReconnect_kept c : kept (attemptReconnect c) = kept c.
Proof. unfold attemptReconnect. break_match; reflexivity. Qed.

Lemma disconnect_kept c : kept (disconnect c) = kept c.
Proof. unfold disconnect. simpl. destruct (ws c); reflexivity. Qed.

Lemma on_open_kept k c : kept (on_open k c) = kept c.
Proof.
  unfold on_open.
  pose proof (startAuthFlow_kept (update_call c k (set_socket OPEN))) as H.
  destruct (startAuthFlow _) as [c2 [err|]]; simpl in H; [|exact H].
  now rewrite reject_kept.
Qed.

(** What the router does with the transfers it sees. *)
Lemma handleMessage_delivers data c :
  let c1 := fst (handleMessage data c) in
  account_address c1 = account_address c
  /\ transferCallback c1 = transferCallback c
  /\ reconnectDelay c1 = reconnectDelay c
  /\ delivered c1
     = delivered c
       ++ match data with
          | Res type payload =>
              if (is_transfer_type type && transferCallback c)%bool
              then handed_on payload c
              else []
          | _ => []
          end.
Proof.
  destruct data as [| | |type payload]; simpl;
    try (now rewrite app_nil_r).
  assert (Hsend : forall w m c0, kept c0 = kept c ->
            account_address (fst (send w m c0)) = account_address c
            /\ transferCallback (fst (send w m c0)) = transferCallback c
            /\ reconnectDelay (fst (send w m c0)) = reconnectDelay c
            /\ delivered (fst (send w m c0)) = delivered c ++ []).
  { intros w m c0 H0. pose proof (send_kept w m c0) as H. rewrite H0 in H.
    unfold kept in H. inversion H. rewrite app_nil_r. auto. }
  destruct (String.eqb type "auth_challenge") eqn:E1.
  { apply String.eqb_eq in E1. subst type. simpl.
    destruct (ws c); [now apply Hsend|]. simpl. now rewrite app_nil_r. }
  destruct (String.eqb type "auth_verify") eqn:E2.
  { apply String.eqb_eq in E2. subst type. simpl.
    destruct (ws c); [now apply Hsend|]. simpl. now rewrite app_nil_r. }
  destruct (String.eqb type "get_ledger_balances" || String.eqb type "ledger_balances")%bool
    eqn:E3.
  { assert (Hnt : is_transfer_type type = false).
    { apply orb_true_iff in E3 as [E|E]; apply String.eqb_eq in E; now subst type. }
    rewrite Hnt. simpl. now rewrite app_nil_r. }
  destruct (is_transfer_type type) eqn:E4; simpl.
  - assert (Hroute : account_address (fst (route_transfer payload c)) = account_address c
                     /\ transferCallback (fst (route_transfer payload c))
                        = transferCallback c
                     /\ reconnectDelay (fst (route_transfer payload c))
                        = reconnectDelay c
                     /\ delivered (fst (route_transfer payload c))
                        = delivered c
                          ++ (if transferCallback c then handed_on payload c else [])).
    { unfold route_transfer, handed_on.
      destruct (find (for_us c) (allocations payload)) as [a|].
      - destruct (transferCallback c) eqn:Ecb; simpl;
          [|now rewrite app_nil_r].
        destruct (alloc_amount a); simpl; rewrite ?Ecb, ?app_nil_r; repeat split.
      - simpl. destruct (transferCallback c); rewrite app_nil_r; repeat split. }
    destruct (route_transfer payload c) as [c1 [err|]]; simpl in *; [exact Hroute|].
    destruct (String.eqb type "transfer" && status_success payload)%bool; exact Hroute.
  - now rewrite app_nil_r.
Qed.

(** X16.  One turn of the event loop hands a transfer to the callback in
    one case only: a message of type 'transfer', 'update_channel' or
    'channel_update' arrives, a callback is registered, one of the
    allocations has the address of the account as its destination, in any
    letter case, and the amount of the first such allocation is absent or
    an integer.  Then exactly one transfer is handed on, built from that
    allocation (amount 0 and asset 'ytest.usd' when the allocation names
    none); whether the session is authenticated plays no part.  When the
    amount is not an integer the conversion throws: nothing is handed on.
    No turn changes the address of the account, the callback or the base
    delay. *)
Theorem transfers_reach_the_callback e c c' :
  step e c = Some c' ->
  account_address c' = account_address c
  /\ transferCallback c' = transferCallback c
  /\ reconnectDelay c' = reconnectDelay c
  /\ delivered c'
     = delivered c
       ++ match e with
          | SocketMessage k (Res type payload) =>
              if (is_transfer_type type && transferCallback c)%bool
              then match find (for_us c) (allocations payload) with
                   | Some a =>
                       match alloc_amount a with
                       | AmountAbsent => [transfer_of payload a 0]
                       | AmountInteger z => [transfer_of payload a z]
                       | AmountNotInteger => []
                       end
                   | None => []
                   end
              else []
          | _ => []
          end.
Proof.
  intros Hstep.
  assert (Hkept : forall c0, kept c0 = kept c ->
            account_address c0 = account_address c
            /\ transferCallback c0 = transferCallback c
            /\ reconnectDelay c0 = reconnectDelay c
            /\ delivered c0 = delivered c ++ []).
  { intros c0 H. unfold kept in H. inversion H. rewrite app_nil_r. auto. }
  destruct e as [k|k data|k|k|k|i|dt| |]; simpl in Hstep.
  - destruct (readyState c k) as [[]|]; inversion Hstep; subst.
    apply Hkept, on_open_kept.
  - assert (Hc' : c' = on_message k data c)
      by (destruct (readyState c k) as [[]|]; now inversion Hstep).
    subst c'. clear Hstep. unfold on_message.
    pose proof (handleMessage_delivers data c) as Hd.
    destruct (handleMessage data c) as [c1 [err|]]; simpl in Hd.
    + destruct data; exact Hd.
    + assert (Hres : kept (resolve k (clearTimeout k c1)) = kept c1)
        by now rewrite resolve_kept.
      destruct (negb (isAuthenticated c) && isAuthenticated c1)%bool.
      * unfold kept in Hres. inversion Hres as [[H1 H2 H3 H4]].
        rewrite H1, H2, H3, H4. destruct data; exact Hd.
      * destruct data; exact Hd.
  - assert (Hc' : c' = on_error k c)
      by (destruct (readyState c k) as [[]|]; now inversion Hstep).
    subst c'. apply Hkept. unfold on_error. now rewrite reject_kept.
  - assert (Hc' : c' = on_close k c)
      by (destruct (readyState c k) as [[]|]; now inversion Hstep).
    subst c'. apply Hkept. unfold on_close. now rewrite attemptReconnect_kept.
  - destruct (option_map timeout (call c k)) as [[t|]|]; try discriminate.
    destruct (t <=? clock c); inversion Hstep; subst.
    apply Hkept. unfold on_timeout. now rewrite reject_kept.
  - destruct (nth_error (sleeping c) i) as [[t|]|]; try discriminate.
    destruct (t <=? clock c); inversion Hstep; subst.
    apply Hkept. reflexivity.
  - destruct (_ && _)%bool; inversion Hstep; subst. apply Hkept. reflexivity.
  - inversion Hstep; subst. apply Hkept. reflexivity.
  - inversion Hstep; subst. apply Hkept, disconnect_kept.
Qed.

End SessionHandlers.

Lemma transfers_reach_the_callback_witness :
  exists c',
    Bank.step (Bank.SocketMessage 0 (Bank.Res "transfer" transfer_to_bob)) ready_bank
    = Some c'
    /\ Bank.delivered c'
       = [Bank.mkTransferData (Some "ch1"%string) 250 "ytest.usd" (Some carol)]
    /\ exists c'',
         Bank.step (Bank.SocketMessage 0 (Bank.Res "transfer" transfer_with_decimals)) c'
         = Some c''
         /\ Bank.delivered c'' = Bank.delivered c'.
Proof.
  destruct (Bank.step (Bank.SocketMessage 0 (Bank.Res "transfer" transfer_to_bob))
              ready_bank) as [c'|] eqn:Hstep; [|vm_compute in Hstep; discriminate Hstep].
  exists c'. split; [reflexivity|].
  destruct (transfers_reach_the_callback _ _ _ Hstep) as (_ & _ & _ & Hd).
  split; [rewrite Hd; reflexivity|].
  destruct (Bank.step (Bank.SocketMessage 0 (Bank.Res "transfer" transfer_with_decimals))
              c') as [c''|] eqn:Hstep2.
  - exists c''. split; [reflexivity|].
    destruct (transfers_reach_the_callback _ _ _ Hstep2) as (_ & Hcb & _ & Hd2).
    rewrite Hd2. vm_compute in Hstep. inversion Hstep. subst c'.
    vm_compute. reflexivity.
  - vm_compute in Hstep. inversion Hstep. subst c'.
    vm_compute in Hstep2. discriminate Hstep2.
Defined.

Section Reconnecting.

Import Bank.

Ltac break_match :=
  match goal with
  | |- context [match ?x with _ => _ end] => destruct x eqn:?
  end.

(** Handlers that touch neither the counters nor the console. *)
Lemma reconnector_ok_same c c' :
  reconnectAttempts c' = reconnectAttempts c ->
  maxReconnectAttempts c' = maxReconnectAttempts c ->
  reconnectDelay c' = reconnectDelay c ->
  console c' = console c ->
  reconnector_ok c -> reconnector_ok c'.
Proof. unfold reconnector_ok. now intros -> -> -> ->. Qed.

Lemma reconnector_ok_log c l :
  backoff_ok l -> reconnector_ok c -> reconnector_ok (log c l).
Proof.
  unfold reconnector_ok. intros Hl (H1 & H2 & H3 & H4). simpl.
  repeat split; try assumption; try lia.
  apply Forall_app. split; [exact H4|]. now repeat constructor.
Qed.

Lemma send_reconnector k m c :
  reconnector_ok c -> reconnector_ok (fst (send k m c)).
Proof.
  intros H. unfold send. repeat break_match; simpl; exact H.
Qed.

Lemma update_call_reconnector k f c :
  reconnector_ok c -> reconnector_ok (update_call c k f).
Proof. now apply reconnector_ok_same. Qed.

Lemma resolve_reconnector k c :
  reconnector_ok c -> reconnector_ok (resolve k c).
Proof.
  intros H. unfold resolve. repeat break_match; try exact H.
  apply reconnector_ok_log; [exact I|].
  destruct H as (H1 & H2 & H3 & H4). unfold reconnector_ok. simpl.
  repeat split; try assumption; lia.
Qed.

Lemma reject_reconnector k e c :
  reconnector_ok c -> reconnector_ok (reject k e c).
Proof.
  intros H. unfold reject. repeat break_match; try exact H.
  apply reconnector_ok_log; [exact I|exact H].
Qed.

Lemma startAuthFlow_reconnector c :
  reconnector_ok c -> reconnector_ok (fst (startAuthFlow c)).
Proof.
  intros H. unfold startAuthFlow. repeat break_match;
    first [exact H | now apply send_reconnector].
Qed.

Lemma handleMessage_reconnector data c :
  reconnector_ok c -> reconnector_ok (fst (handleMessage data c)).
Proof.
  intros H. destruct data as [| | |type payload]; simpl; try exact H.
  - now apply reconnector_ok_log.
  - assert (Hroute : reconnector_ok (fst (route_transfer payload c)))
      by (unfold route_transfer; repeat break_match; exact H).
    destruct (String.eqb type "auth_challenge");
      [destruct (ws c); simpl; first [exact H | now apply send_reconnector]|].
    destruct (String.eqb type "auth_verify").
    { destruct (ws c); simpl; first [exact H | now apply send_reconnector]. }
    destruct (_ || _)%bool; [now apply reconnector_ok_log|].
    destruct (is_transfer_type type); [|exact H].
    destruct (route_transfer payload c) as [c1 [err|]]; simpl in *; [exact Hroute|].
    destruct (_ && _)%bool; simpl; [now apply reconnector_ok_log|exact Hroute].
Qed.

(** The reconnector announces attempt [n] after [3000 * 2 ^ (n - 1)] ms
    and never counts beyond 5. *)
Lemma attemptReconnect_reconnector c :
  reconnector_ok c -> reconnector_ok (attemptReconnect c).
Proof.
  intros (H1 & H2 & H3 & H4). unfold attemptReconnect.
  destruct (maxReconnectAttempts c <=? reconnectAttempts c) eqn:Hcap.
  - apply reconnector_ok_log; [exact I|]. now repeat split.
  - apply Z.leb_gt in Hcap.
    assert (Hn : 1 <= reconnectAttempts c + 1 <= 5) by (destruct H2; lia).
    assert (Hpow : 2 ^ (reconnectAttempts c + 1 - 1) <= 2 ^ 4)
      by (apply Z.pow_le_mono_r; lia).
    change (2 ^ 4) with 16 in Hpow.
    match goal with |- reconnector_ok ?x => set (c' := x) end.
    assert (E1 : reconnectAttempts c' = reconnectAttempts c + 1) by reflexivity.
    assert (E2 : maxReconnectAttempts c' = maxReconnectAttempts c) by reflexivity.
    assert (E3 : reconnectDelay c' = reconnectDelay c) by reflexivity.
    assert (E4 : console c'
                 = console c
                   ++ [LogReconnecting
                         (reconnectDelay c * 2 ^ (reconnectAttempts c + 1 - 1))
                         (reconnectAttempts c + 1)]) by reflexivity.
    unfold reconnector_ok. rewrite E1, E2, E3, E4.
    split; [lia|]. split; [exact H2|]. split; [exact H3|].
    apply Forall_app. split; [exact H4|]. constructor; [|constructor].
    unfold backoff_ok. rewrite H3. split; [exact Hn|]. split; [reflexivity|lia].
Qed.

Lemma disconnect_reconnector c :
  reconnector_ok c -> reconnector_ok (disconnect c).
Proof.
  intros (H1 & H2 & H3 & H4). unfold disconnect, reconnector_ok. simpl.
  destruct (ws c); simpl; (split; [exact H1|]; split; [now right|];
                           split; [exact H3|exact H4]).
Qed.

Lemma step_reconnector e c c' :
  step e c = Some c' -> reconnector_ok c -> reconnector_ok c'.
Proof.
  intros Hstep H. destruct e as [k|k data|k|k|k|i|dt| |]; simpl in Hstep.
  - destruct (readyState c k) as [[]|]; inversion Hstep; subst.
    unfold on_open.
    pose proof (startAuthFlow_reconnector (update_call c k (set_socket OPEN))
                  (update_call_reconnector k _ c H)) as Hs.
    destruct (startAuthFlow _) as [c2 [err|]]; simpl in Hs; [|exact Hs].
    apply reject_reconnector. now apply update_call_reconnector.
  - assert (Hc' : c' = on_message k data c)
      by (destruct (readyState c k) as [[]|]; now inversion Hstep).
    subst c'. unfold on_message.
    pose proof (handleMessage_reconnector data c H) as Hm.
    destruct (handleMessage data c) as [c1 [err|]]; simpl in Hm.
    + now apply reconnector_ok_log.
    + destruct (_ && _)%bool; [|exact Hm].
      apply resolve_reconnector. now apply update_call_reconnector.
  - assert (Hc' : c' = on_error k c)
      by (destruct (readyState c k) as [[]|]; now inversion Hstep).
    subst c'. apply reject_reconnector. now apply update_call_reconnector.
  - assert (Hc' : c' = on_close k c)
      by (destruct (readyState c k) as [[]|]; now inversion Hstep).
    subst c'. apply attemptReconnect_reconnector.
    now apply (reconnector_ok_same c).
  - destruct (option_map timeout (call c k)) as [[t|]|]; try discriminate.
    destruct (t <=? clock c); inversion Hstep; subst.
    apply reject_reconnector. now apply update_call_reconnector.
  - destruct (nth_error (sleeping c) i) as [[t|]|]; try discriminate.
    destruct (t <=? clock c); inversion Hstep; subst.
    now apply (reconnector_ok_same c).
  - destruct (_ && _)%bool; inversion Hstep; subst.
    now apply (reconnector_ok_same c).
  - inversion Hstep; subst. now apply (reconnector_ok_same c).
  - inversion Hstep; subst. now apply disconnect_reconnector.
Qed.


End Reconnecting.


(** ** Sending, and the routes [/disconnect], [/connect], [/borrow] *)

Section SessionSend.

Import Bank.

(** X18.  [sendTransfer] sends exactly when the client is ready
    (authenticated, with an open socket): then one transfer request goes
    out on the current socket and nothing is thrown.  Otherwise nothing is
    sent and the call throws, "Client not authenticated" when the session
    is not authenticated and "WebSocket not connected" when it is but has
    no open socket.  In the state that [disconnect()] leaves, and in the
    state that the close event of one of its sockets leaves, the client is
    not ready and [sendTransfer] throws "Client not authenticated"; a
    later handshake (a reconnect, also one that was pending when
    [disconnect()] was called) can make the client ready again. *)
Theorem sendTransfer_needs_ready_session recipient amount c :
  (isReady c = true ->
     exists w, ws c = Some w
               /\ sendTransfer recipient amount c
                  = (with_sent c (sent c ++ [(w, TransferRequest recipient amount)]),
                     None))
  /\ (isReady c = false ->
      sendTransfer recipient amount c
      = (c, Some (if isAuthenticated c then WebSocketNotConnected
                  else ClientNotAuthenticated)))
  /\ isReady (disconnect c) = false
  /\ sendTransfer recipient amount (disconnect c)
     = (disconnect c, Some ClientNotAuthenticated)
  /\ (forall k, isReady (on_close k c) = false
                /\ sendTransfer recipient amount (on_close k c)
                   = (on_close k c, Some ClientNotAuthenticated)).
Proof.
  split; [|split; [|split; [|split]]].
  - intros Hr.
    destruct (sendTransfer_cases recipient amount c) as [(e & _ & Hn)|(w & Hw & _ & Hs)];
      [congruence|]. now exists w.
  - intros Hn. unfold sendTransfer, isReady in *.
    destruct (isAuthenticated c); [|reflexivity].
    rewrite andb_true_l in Hn. change (negb true) with false. cbv iota.
    destruct (ws c) as [w|]; [|reflexivity]. now rewrite Hn.
  - unfold isReady, disconnect. reflexivity.
  - unfold sendTransfer, disconnect. reflexivity.
  - intros k.
    destruct (attemptReconnect_frame
                (with_isAuthenticated (update_call c k (set_socket CLOSED)) false))
      as (_ & _ & Ha).
    unfold isReady, sendTransfer, on_close. rewrite Ha. simpl. now split.
Qed.

End SessionSend.

Section Routes.

Import Store Services Server Reports.
Variable address_of_key : string -> string.

Lemma agent_without a b l :
  option_map snd (find (fun e : string * Bank.Client => String.eqb (fst e) b)
                    (without_agent a l))
  = if String.eqb a b then None
    else option_map snd (find (fun e => String.eqb (fst e) b) l).
Proof.
  unfold without_agent. induction l as [|[x c] l IH]; simpl.
  - now destruct (String.eqb a b).
  - destruct (String.eqb_spec x a) as [E|E]; simpl.
    + subst x. destruct (String.eqb_spec a b) as [E'|E']; [exact IH|].
      rewrite IH. destruct (String.eqb_spec a b); [contradiction|reflexivity].
    + destruct (String.eqb_spec x b) as [E'|E'].
      * subst x. destruct (String.eqb_spec a b) as [E''|_]; [congruence|reflexivity].
      * exact IH.
Qed.


(** X20.  [POST /connect] for a key whose agent is not running.  A
    missing or empty key is answered 400 and nothing changes.  Otherwise,
    with one row per address, the account of the address is fetched or
    created (the 500 of a failed creation does not occur), and a new client
    is made whose first socket is connecting and whose 30 s timer is armed;
    the registry is not touched while [init()] is pending.  When the
    promise is fulfilled the client, with the garnishing callback
    registered, becomes the agent of the address (replacing an old one)
    and the answer carries score and garnish percentage of the account;
    when it is rejected the answer is 500 and the registry stays as it
    was. *)
Theorem connect_registers_on_success now key ensName s :
  key <> EmptyString ->
  users_unique (store s) ->
  let userAddress := JS.toLowerCase (address_of_key key) in
  let bank := fst (Bank.init (Bank.new (address_of_key key) now)) in
  (forall a, agent s userAddress = Some a -> Bank.isReady a = false) ->
  exists user,
    getUser userAddress (fst (getOrCreateUser userAddress ensName (store s)))
    = Some user
    /\ connect address_of_key now (Some key) ensName s
       = (with_store s (fst (getOrCreateUser userAddress ensName (store s))),
          AwaitingInit userAddress user bank)
    /\ Bank.readyState bank 0 = Some Bank.CONNECTING
    /\ option_map Bank.timeout (Bank.call bank 0) = Some (Some (now + 30000))
    /\ Bank.isReady bank = false
    /\ (forall s1 bank1,
          activeAgents (fst (connect_resume userAddress user bank1 s1))
          = match option_map Bank.promise (Bank.call bank1 0) with
            | Some Bank.Fulfilled =>
                (userAddress, Bank.onTransfer bank1)
                :: without_agent userAddress (activeAgents s1)
            | _ => activeAgents s1
            end
          /\ snd (connect_resume userAddress user bank1 s1)
             = match option_map Bank.promise (Bank.call bank1 0) with
               | Some Bank.Fulfilled =>
                   Responded 200 (AgentStarted userAddress (credit_score user)
                                    (garnish_percentage user))
               | Some (Bank.Rejected e) => Responded 500 (ConnectFailed e)
               | _ => AwaitingInit userAddress user bank1
               end
          /\ store (fst (connect_resume userAddress user bank1 s1)) = store s1)
    /\ connect address_of_key now None ensName s
       = (s, Responded 400 MissingSessionPrivateKey)
    /\ connect address_of_key now (Some EmptyString) ensName s
       = (s, Responded 400 MissingSessionPrivateKey).
Proof.
  intros Hkey Hu userAddress bank Hidle.
  assert (Htk : truthy_string (Some key) = Some key)
    by (destruct key; [contradiction|reflexivity]).
  destruct (getOrCreateUser_keeps_users userAddress ensName (store s) Hu)
    as (_ & Hsome & _ & _ & _ & _ & _ & _ & Hsnd).
  destruct (getUser userAddress (fst (getOrCreateUser userAddress ensName (store s))))
    as [user|] eqn:Hg; [|now contradiction Hsome].
  exists user. split; [reflexivity|]. split.
  { unfold connect. rewrite Htk. cbv zeta. fold userAddress.
    assert (Hnot : match agent s userAddress with
                   | Some a0 => Bank.isReady a0
                   | None => false
                   end = false)
      by (destruct (agent s userAddress) as [a0|]; [now apply Hidle|reflexivity]).
    rewrite Hnot.
    destruct (getOrCreateUser userAddress ensName (store s)) as [db1 r] eqn:Hc.
    simpl in Hsnd, Hg. rewrite Hsnd. reflexivity. }
  split; [reflexivity|]. split; [reflexivity|]. split; [reflexivity|].
  split; [|split; reflexivity].
  intros s1 bank1. unfold connect_resume.
  destruct (option_map Bank.promise (Bank.call bank1 0)) as [[| |e]|]; simpl;
    repeat split.
Qed.


Lemma allocate_refused b due vs :
  forall R db acc, allocate b due None vs R db acc = (db, acc).
Proof.
  induction vs as [|v vs IH]; intros R db acc; simpl; [reflexivity|].
  destruct (R <=? 0); [reflexivity|].
  destruct (_ <=? 0); apply IH.
Qed.


End Routes.



Lemma connect_registers_on_success_witness :
  exists user,
    Server.connect (fun key => key) 0 (Some "0xB0B"%string) None
      (Server.mkState [] [] (owing_db 50))
    = (Server.mkState [] [] (owing_db 50),
       Server.AwaitingInit bob user (fst (Bank.init (Bank.new "0xB0B" 0))))
    /\ Server.activeAgents
         (fst (Server.connect_resume bob user ready_bank
                 (Server.mkState [] [] (owing_db 50))))
       = [(bob, Bank.onTransfer ready_bank)].
Proof.
  assert (Hne : "0xB0B"%string <> EmptyString) by discriminate.
  assert (Hu : users_unique (Server.store (Server.mkState [] [] (owing_db 50)))).
  { unfold users_unique. simpl. repeat constructor; simpl; intuition discriminate. }
  destruct (connect_registers_on_success (fun key => key) 0 "0xB0B" None
              (Server.mkState [] [] (owing_db 50)) Hne Hu)
    as (user & _ & Hc & _ & _ & _ & Hres & _).
  { intros a Ha. discriminate Ha. }
  exists user. split; [exact Hc|].
  destruct (Hres (Server.mkState [] [] (owing_db 50)) ready_bank) as (H1 & _).
  exact H1.
Defined.



(** ** The route [POST /repay] *)

Section RepayRoute.
Import Store Services Server.
Variable cfg : Config.

Lemma post_repay_is_repayDebt now b i amount db :
  b <> EmptyString -> i <> 0%nat -> amount <> 0 ->
  post_repay cfg now (Some b) (Some i) (Some amount) db
  = (fst (repayDebt cfg now b i amount db),
     Some (snd (repayDebt cfg now b i amount db))).
Proof.
  intros Hb Hi Ha. unfold post_repay.
  destruct b as [|c b]; [contradiction|].
  destruct i as [|i]; [contradiction|]. simpl truthy_string. simpl truthy_id.
  destruct (Z.eqb_spec amount 0); [contradiction|].
  now destruct (repayDebt cfg now (String c b) (S i) amount db).
Qed.


End RepayRoute.



(** ** Overdue debts in the totals *)

Section OverdueTotals.
Import Store Services Reports Server.
Variable cfg : Config.

Lemma checkOverdueDebts_rows now db :
  debt_keys_ok db -> borrowers_exist db ->
  debts (fst (checkOverdueDebts cfg now db))
  = map (fun d => if is_overdue_at now d then set_status overdue d else d)
      (debts db).
Proof.
  intros [Hnd _] Hfk.
  destruct (checkOverdueDebts_effect cfg now db Hfk) as (Hdebts & _ & _).
  rewrite Hdebts. apply map_ext_in. intros x Hx. now apply swept_selected.
Qed.

(** X23.  A debt that [checkOverdueDebts] marks overdue still counts as
    debt.  After one run at time [now], on a store with distinct debt ids
    whose borrowers exist, the total debt of every borrower, the active
    debt of the platform and every available credit are what they were;
    the outstanding debts that garnishing chooses from, and the debts
    listed for a borrower, are the same rows, with the status of the
    marked ones changed (the order among rows that are due at the same
    time is the store's and may differ); and no debt that is still listed
    as 'active' was due before [now]. *)
Theorem overdue_still_counts now db c :
  debt_keys_ok db -> borrowers_exist db ->
  let db' := fst (checkOverdueDebts cfg now db) in
  let marked := fun d => if is_overdue_at now d then set_status overdue d else d in
  getTotalDebt c db' = getTotalDebt c db
  /\ total_active_debt (getPlatformStats db')
     = total_active_debt (getPlatformStats db)
  /\ getAvailableCredit c db' = getAvailableCredit c db
  /\ Permutation (outstanding_debts (JS.toLowerCase c) db')
       (map marked (outstanding_debts (JS.toLowerCase c) db))
  /\ Permutation (getDebtsForBorrower c None db')
       (map marked (getDebtsForBorrower c None db))
  /\ (forall d, In d (getDebtsForBorrower c (Some active) db') -> now <= due_date d).
Proof.
  intros Hkeys Hfk db' marked.
  assert (Hrows : debts db' = map marked (debts db))
    by now apply checkOverdueDebts_rows.
  assert (Hstat : forall x, outstanding (status (marked x)) = outstanding (status x)).
  { intros x. unfold marked, is_overdue_at.
    destruct (DebtStatus_eqb (status x) active) eqn:E; [|reflexivity].
    apply DebtStatus_eqb_eq in E.
    destruct (due_date x <? now); [|reflexivity]. simpl. now rewrite E. }
  assert (Hwho : forall x, debt_borrower (marked x) = debt_borrower x)
    by (intros x; unfold marked; now destruct (is_overdue_at now x)).
  assert (Howed : forall x, amount_owed (marked x) = amount_owed x)
    by (intros x; unfold marked; now destruct (is_overdue_at now x)).
  assert (Hdue : forall x, due_date (marked x) = due_date x)
    by (intros x; unfold marked; now destruct (is_overdue_at now x)).
  split; [|split; [|split; [|split; [|split]]]].
  - unfold getTotalDebt. rewrite Hrows.
    rewrite filter_map_key by (intros x; now rewrite Hwho, Hstat).
    rewrite !fold_left_sum, map_map. f_equal. f_equal.
    apply map_ext. exact Howed.
  - unfold getPlatformStats. simpl. rewrite Hrows.
    rewrite (filter_map_key (fun d => outstanding (status d)) marked) by exact Hstat.
    rewrite !fold_left_sum, map_map. f_equal. f_equal.
    apply map_ext. exact Howed.
  - unfold getAvailableCredit, getVouchesForBorrower, db', checkOverdueDebts.
    now rewrite sweep_vouches.
  - unfold outstanding_debts. rewrite Hrows.
    rewrite filter_map_key by (intros x; now rewrite Hwho, Hstat).
    rewrite order_by_due_asc_perm. apply Permutation_map.
    symmetry. apply order_by_due_asc_perm.
  - unfold getDebtsForBorrower. rewrite Hrows.
    rewrite filter_map_key by (intros x; now rewrite Hwho).
    rewrite order_by_due_asc_perm. apply Permutation_map.
    symmetry. apply order_by_due_asc_perm.
  - intros d Hd. unfold getDebtsForBorrower in Hd.
    apply (proj1 (order_by_due_asc_In _ _ _)) in Hd. apply filter_In in Hd as [Hd Hk].
    apply andb_true_iff in Hk as [_ Hs]. simpl in Hs. apply DebtStatus_eqb_eq in Hs.
    rewrite Hrows in Hd. apply in_map_iff in Hd as (y & <- & _).
    unfold marked, is_overdue_at in *.
    destruct (DebtStatus_eqb (status y) active) eqn:E.
    + destruct (Z.ltb_spec (due_date y) now) as [Hlt|Hge]; simpl in *.
      * discriminate Hs.
      * exact Hge.
    + simpl in Hs. apply DebtStatus_eqb_eq in Hs. congruence.
Qed.

End OverdueTotals.

Lemma overdue_still_counts_witness :
  Reports.getTotalDebt bob (fst (Services.checkOverdueDebts no_contracts 2000 two_debts_db))
  = 140
  /\ Permutation
       (map status
          (Server.outstanding_debts bob
             (fst (Services.checkOverdueDebts no_contracts 2000 two_debts_db))))
       [overdue; active].
Proof.
  destruct (overdue_still_counts no_contracts 2000 two_debts_db bob
              two_debts_db_keys two_debts_db_borrowers) as (H1 & _ & _ & H4 & _).
  split.
  - rewrite H1. reflexivity.
  - apply (Permutation_map status) in H4. exact H4.
Defined.

(* ================================================================== *)
(** * Part IV. The round trip of a loan                                 *)
(* ================================================================== *)

(** The invariant of the round trip, for one run of the callback. *)
Lemma garnish_round_trip cfg db0 mine now u t bank db :
  vouch_keys_ok db0 -> usage_nonneg db0 ->
  RoundTrip db0 mine db ->
  match Server.garnished_debt (snd (Server.garnish_transfer cfg now u t bank db)) with
  | Some i => mine i = true
  | None => True
  end ->
  RoundTrip db0 mine (fst (fst (Server.garnish_transfer cfg now u t bank db))).
Proof.
  intros Hk0 Hn0 Inv Hpay.
  exact (perform_round_trip cfg db0 mine Hk0 Hn0 now (Garnishment u t bank) db
           Inv Hpay).
Qed.

Section RoundTrip.

Import Store Services Server.
Variable cfg : Config.

(** Once every debt of [mine] is paid, the vouches are the rows of the
    store before the borrow. *)
Lemma round_trip_closed db0 mine db :
  RoundTrip db0 mine db ->
  (forall x, In x (debts db) -> mine (debt_id_of x) = true -> status x = paid) ->
  vouches db = vouches db0.
Proof.
  intros Inv Hpaid. rewrite (rt_vouches _ _ _ Inv).
  rewrite <- (map_id (vouches db0)) at 2. apply map_ext. intros w.
  apply holding_nothing. unfold unpaid_draw.
  assert (Hz : forall l, (forall x, In x l -> In x (debts db)) ->
                 total (map (contrib mine (vouch_id_of w)) l) = 0).
  { induction l as [|x l IH]; intros Hl; simpl; [reflexivity|].
    rewrite IH by (intros y Hy; apply Hl; now right).
    unfold contrib.
    destruct (mine (debt_id_of x)) eqn:Hm; simpl; [|reflexivity].
    unfold is_unpaid. rewrite (Hpaid x) by (auto; apply Hl; now left).
    simpl. now rewrite andb_false_r. }
  now apply Hz.
Qed.

(** The store after a borrow within the available credit. *)
Lemma borrow_created now borrower R days db :
  vouch_keys_ok db -> debt_keys_ok db ->
  0 < R <= getAvailableCredit borrower db ->
  let db1 := fst (borrow now borrower R days db) in
  let created := borrow_debts (snd (borrow now borrower R days db)) in
  RoundTrip db (among created) db1
  /\ debts db1 = debts db ++ created
  /\ Forall (fresh_debt (JS.toLowerCase borrower) (due_after now days)
               (repaymentDaysInt days)) created
  /\ (forall y, In y (debts db) -> among created (debt_id_of y) = false)
  /\ (forall y, In y created -> among created (debt_id_of y) = true)
  /\ users db1 = users db
  /\ created <> [].
Proof.
  intros Hvk Hdk HR db1 created.
  rewrite <- available_credit_of_borrowable in HR.
  destruct (borrow_starts_round_trip (JS.toLowerCase borrower) (due_after now days)
              (repaymentDaysInt days) R db Hvk Hdk HR) as (Inv1 & Hd1 & Hne).
  fold (borrow now borrower R days db) in Inv1, Hd1, Hne.
  fold created in Inv1, Hd1, Hne. fold db1 in Inv1, Hd1.
  destruct (borrow_with_store (JS.toLowerCase borrower) (due_after now days)
              (repaymentDaysInt days) R db Hvk)
    as (new & draws & Hd & Hids & _ & Hfresh & _ & _ & _ & Hu & _).
  fold (borrow now borrower R days db) in Hd, Hu. fold db1 in Hd, Hu.
  assert (new = created) by (rewrite Hd1 in Hd; now apply app_inv_head in Hd).
  subst new.
  split; [exact Inv1|]. split; [exact Hd1|]. split; [exact Hfresh|].
  split; [|split; [|split; [exact Hu|exact Hne]]].
  - intros y Hy. apply not_true_iff_false. intros Ha. apply among_In in Ha.
    rewrite Hids in Ha. apply in_seq in Ha. destruct Hdk as [_ Hrange].
    apply Hrange in Hy. lia.
  - intros y Hy. apply among_In. now apply in_map.
Qed.

(** *** Manual repayment, one debt after the other *)

Lemma among_cons x l i :
  among (x :: l) i = (Nat.eqb i (debt_id_of x) || among l i)%bool.
Proof. reflexivity. Qed.

Lemma settle_manually_effect db0 mine b when pays :
  vouch_keys_ok db0 -> usage_nonneg db0 ->
  forall (l : list Debt) db,
  RoundTrip db0 mine db ->
  NoDup (map debt_id_of l) ->
  (forall x, In x l ->
     In x (debts db) /\ mine (debt_id_of x) = true
     /\ debt_borrower x = JS.toLowerCase b /\ status x <> paid
     /\ amount_owed x <= pays x) ->
  RoundTrip db0 mine (settle_manually cfg b when pays l db)
  /\ debts (settle_manually cfg b when pays l db)
     = map (fun y => if among l (debt_id_of y) then set_paid 0 (when y) y else y)
           (debts db).
Proof.
  intros Hk0 Hn0. induction l as [|x l IH]; intros db Inv Hnd Hl.
  { simpl. split; [exact Inv|]. now rewrite map_id. }
  destruct (Hl x (or_introl eq_refl)) as (Hin & Hm & Hb & Hnp & Hle).
  pose proof (rt_keys _ _ _ Inv) as Hkeys.
  destruct (repayDebt_writes cfg (when x) b (debt_id_of x) (pays x) db x
              Hkeys Hin eq_refl Hb Hnp) as (_ & _ & _ & Hd & _).
  apply Z.leb_le in Hle. rewrite Hle in Hd.
  set (db' := fst (repayDebt cfg (when x) b (debt_id_of x) (pays x) db)) in *.
  assert (Inv' : RoundTrip db0 mine db').
  { apply (perform_round_trip cfg db0 mine Hk0 Hn0 (when x)
             (ManualRepayment b (debt_id_of x) (pays x)) db Inv). exact Hm. }
  inversion Hnd as [|? ? Hnotin Hnd']; subst.
  assert (Hl' : forall y, In y l ->
            In y (debts db') /\ mine (debt_id_of y) = true
            /\ debt_borrower y = JS.toLowerCase b /\ status y <> paid
            /\ amount_owed y <= pays y).
  { intros y Hy. destruct (Hl y (or_intror Hy)) as (Hyin & H2 & H3 & H4 & H5).
    split; [|auto]. rewrite Hd.
    replace y with (at_id debt_id_of (debt_id_of x) (set_paid 0 (when x)) y) at 1.
    - now apply in_map.
    - unfold at_id. destruct (Nat.eqb_spec (debt_id_of y) (debt_id_of x)) as [E|E];
        [|reflexivity].
      exfalso. apply Hnotin. rewrite <- E. now apply in_map. }
  destruct (IH db' Inv' Hnd' Hl') as [Inv2 Hd2].
  change (settle_manually cfg b when pays (x :: l) db)
    with (settle_manually cfg b when pays l db').
  split; [exact Inv2|]. rewrite Hd2, Hd, map_map. apply map_ext_in.
  intros y Hy. unfold at_id. rewrite among_cons.
  destruct (Nat.eqb_spec (debt_id_of y) (debt_id_of x)) as [E|E].
  - assert (y = x) by (apply (same_id_same_row debt_id_of (debts db)); auto).
    subst y. simpl debt_id_of.
    assert (Hno : among l (debt_id_of x) = false).
    { apply not_true_iff_false. intros Ha. now apply among_In in Ha. }
    now rewrite Hno.
  - reflexivity.
Qed.

(** *** Garnished transfers, one after the other *)

Lemma keeps_settings_same db db' : users db' = users db -> keeps_settings db db'.
Proof. intros H. exists (fun u => u). rewrite H, map_id. auto. Qed.

Lemma keeps_settings_trans db db' db'' :
  keeps_settings db db' -> keeps_settings db' db'' -> keeps_settings db db''.
Proof.
  intros [g [Hg Hgs]] [h [Hh Hhs]]. exists (fun u => h (g u)). split.
  - now rewrite Hh, Hg, map_map.
  - intros u. destruct (Hgs u) as (A1 & A2 & A3).
    destruct (Hhs (g u)) as (B1 & B2 & B3). repeat split; congruence.
Qed.

Lemma update_user_settings db a f :
  (forall u, wallet_address (f u) = wallet_address u
             /\ auto_repay_enabled (f u) = auto_repay_enabled u
             /\ garnish_percentage (f u) = garnish_percentage u) ->
  keeps_settings db (update_user db a f).
Proof.
  intros Hf.
  exists (fun u => if String.eqb (wallet_address u) a then f u else u).
  split; [reflexivity|].
  intros u. destruct (String.eqb (wallet_address u) a); auto.
Qed.

Lemma stripENS_settings a db : keeps_settings db (stripENS cfg a db).
Proof.
  unfold stripENS.
  destruct (user_by_address db (JS.toLowerCase a)) as [user|];
    [|now apply keeps_settings_same].
  destruct (negb (ens_stripped user)); [|now apply keeps_settings_same].
  destruct (contracts_configured cfg);
    apply (update_user_settings db (JS.toLowerCase a) (set_ens_stripped true));
    intros u; repeat split.
Qed.

Lemma updateCreditScore_settings a delta why db :
  keeps_settings db (fst (updateCreditScore cfg a delta why db)).
Proof.
  unfold updateCreditScore.
  destruct (user_by_address db (JS.toLowerCase a)) as [user|];
    [|now apply keeps_settings_same].
  cbv zeta. simpl fst.
  set (new := Z.max _ _).
  set (db1 := update_user db (JS.toLowerCase a) (set_credit_score new)).
  set (db2 := insert_history db1 _).
  set (db3 := if contracts_configured cfg then _ else db2).
  assert (H3 : keeps_settings db db3).
  { apply (keeps_settings_trans db db1).
    - apply update_user_settings. intros u. repeat split.
    - apply keeps_settings_same. subst db3 db2.
      now destruct (contracts_configured cfg). }
  destruct (new <? CREDIT_SCORE.ENS_STRIP_THRESHOLD); [|exact H3].
  apply (keeps_settings_trans db db3); [exact H3|apply stripENS_settings].
Qed.

Lemma garnish_paid_off_settings now u d db :
  keeps_settings db (garnish_paid_off cfg now u d db).
Proof.
  unfold garnish_paid_off.
  set (db1 := update_debt db (debt_id_of d) (set_paid 0 now)).
  set (db2 := release_vouch d db1).
  set (db3 := if now <=? due_date d then _ else db2).
  assert (H2 : keeps_settings db db2).
  { apply keeps_settings_same. subst db2.
    now destruct (release_vouch_frame d db1) as (_ & -> & _). }
  assert (H3 : keeps_settings db db3).
  { subst db3. destruct (now <=? due_date d); [|exact H2].
    apply (keeps_settings_trans db db2); [exact H2|].
    apply updateCreditScore_settings. }
  destruct (filter _ (debts db3)); [|exact H3].
  apply (keeps_settings_trans db db3); [exact H3|].
  set (db4 := if contracts_configured cfg then _ else db3).
  apply (keeps_settings_trans db3 db4).
  - apply keeps_settings_same. subst db4. now destruct (contracts_configured cfg).
  - apply update_user_settings. intros x. repeat split.
Qed.

Lemma keeps_settings_user db db' a cu :
  keeps_settings db db' -> user_by_address db a = Some cu ->
  exists cu', user_by_address db' a = Some cu'
              /\ auto_repay_enabled cu' = auto_repay_enabled cu
              /\ garnish_percentage cu' = garnish_percentage cu.
Proof.
  intros [g [Hg Hgs]] Hu. exists (g cu). split.
  - apply (user_by_address_map g db db' a cu Hg); [|exact Hu].
    intros x. apply Hgs.
  - split; apply Hgs.
Qed.

(** A transfer whose garnish covers what the first outstanding debt owes
    pays that debt off. *)
Lemma garnish_transfer_settles now u t bank db cu d rest :
  user_by_address db u = Some cu -> auto_repay_enabled cu = true ->
  outstanding_debts u db = d :: rest ->
  JS.min_with (JS.floor_mul_percent (Bank.transfer_amount t) (garnish_percent cu))
              (amount_owed d) = Some (amount_owed d) ->
  0 < amount_owed d ->
  truthy_string (VAULT_ADDRESS cfg) <> None ->
  Bank.isReady bank = true ->
  fst (fst (garnish_transfer cfg now u t bank db))
  = garnish_paid_off cfg now u d
      (insert_payment db (mkPayment (debt_id_of d) (amount_owed d) garnish))
  /\ Bank.isReady (snd (fst (garnish_transfer cfg now u t bank db))) = true
  /\ garnished_debt (snd (garnish_transfer cfg now u t bank db))
     = Some (debt_id_of d).
Proof.
  intros Hu Hauto Hout Hmin Hpos Hvault Hready.
  unfold garnish_transfer. rewrite Hu, Hauto, Hout. simpl negb. cbv iota zeta.
  fold (garnish_percent cu). rewrite Hmin.
  destruct (truthy_string (VAULT_ADDRESS cfg)) as [vault|]; [|congruence].
  apply Z.ltb_lt in Hpos. rewrite Hpos.
  unfold Bank.acceptTransfer. simpl fst.
  destruct (sendTransfer_cases vault (amount_owed d) bank)
    as [(e & _ & Hnr)|(w & Hw & _ & ->)]; [congruence|].
  rewrite Z.sub_diag. simpl Z.max. simpl Z.eqb. cbv iota. simpl.
  repeat split. exact Hready.
Qed.

(** Paying one row off takes it, and nothing else, out of the rows that a
    query selects. *)
Lemma filter_paid_off (k : Debt -> bool) (f : Debt -> Debt) d :
  forall l, NoDup (map debt_id_of l) -> In d l ->
  k d = true -> k (f d) = false ->
  S (List.length (filter k (map (at_id debt_id_of (debt_id_of d) f) l)))
  = List.length (filter k l).
Proof.
  intros l Hnd Hin Hk Hkf. induction l as [|y l IH]; [contradiction|].
  inversion Hnd as [|? ? Hnotin Hnd']; subst. simpl.
  destruct Hin as [->|Hin].
  - unfold at_id at 1. rewrite Nat.eqb_refl, Hkf, Hk. simpl. f_equal. f_equal.
    f_equal. rewrite <- (map_id l) at 2. apply map_ext_in. intros z Hz.
    unfold at_id. destruct (Nat.eqb_spec (debt_id_of z) (debt_id_of d)) as [E|E];
      [|reflexivity].
    exfalso. apply Hnotin. rewrite <- E. now apply in_map.
  - unfold at_id at 1.
    destruct (Nat.eqb_spec (debt_id_of y) (debt_id_of d)) as [E|E].
    + exfalso. apply Hnotin. rewrite E. now apply in_map.
    + destruct (k y); simpl; now rewrite <- IH.
Qed.

Lemma outstanding_debts_length u db :
  List.length (outstanding_debts u db)
  = List.length (filter (fun d => (String.eqb (debt_borrower d) u
                                   && outstanding (status d))%bool) (debts db)).
Proof.
  unfold outstanding_debts. apply Permutation_length, order_by_due_asc_perm.
Qed.

Lemma garnish_in_turn_effect db0 mine u cu0 dbA :
  vouch_keys_ok db0 -> usage_nonneg db0 ->
  truthy_string (VAULT_ADDRESS cfg) <> None ->
  (forall y, In y (debts dbA) -> debt_borrower y = u ->
             outstanding (status y) = true ->
             mine (debt_id_of y) = true /\ amount_owed y = original_amount y
             /\ 0 < original_amount y) ->
  forall ts db bank,
  RoundTrip db0 mine db -> settled_rows (debts dbA) (debts db) ->
  (exists cu, user_by_address db u = Some cu /\ auto_repay_enabled cu = true
              /\ garnish_percentage cu = garnish_percentage cu0) ->
  Bank.isReady bank = true ->
  (forall t y, In t ts -> In y (debts dbA) -> debt_borrower y = u ->
               outstanding (status y) = true ->
               covers (garnish_percent cu0) (snd t) y) ->
  let db' := fst (garnish_in_turn cfg u ts (db, bank)) in
  RoundTrip db0 mine db' /\ settled_rows (debts dbA) (debts db')
  /\ List.length (outstanding_debts u db')
     = (List.length (outstanding_debts u db) - List.length ts)%nat.
Proof.
  intros Hk0 Hn0 Hvault HA.
  induction ts as [|[now t] ts IH]; intros db bank Inv Hrows Huser Hready Hcov.
  { simpl. split; [exact Inv|]. split; [exact Hrows|]. lia. }
  change (garnish_in_turn cfg u ((now, t) :: ts) (db, bank))
    with (garnish_in_turn cfg u ts (fst (garnish_transfer cfg now u t bank db))).
  destruct (outstanding_debts u db) as [|d rest] eqn:Hout.
  - assert (Hsame : fst (garnish_transfer cfg now u t bank db) = (db, bank)).
    { unfold garnish_transfer. rewrite Hout.
      destruct (user_by_address db u) as [cu|]; [|reflexivity].
      now destruct (negb (auto_repay_enabled cu)). }
    rewrite Hsame.
    destruct (IH db bank Inv Hrows Huser Hready) as (I1 & I2 & I3).
    { intros t' y Ht'. apply Hcov. now right. }
    split; [exact I1|]. split; [exact I2|]. rewrite I3, Hout. reflexivity.
  - assert (Hd : In d (outstanding_debts u db)) by (rewrite Hout; now left).
    apply outstanding_debts_In in Hd as (Hin & Hb & Ho).
    destruct Hrows as [g [Hg Hgs]].
    assert (HdA : In d (debts dbA)).
    { rewrite Hg in Hin. apply in_map_iff in Hin as [y [Hy HyA]].
      destruct (Hgs y) as [E|[t' E]]; rewrite E in Hy.
      - now subst y.
      - subst d. discriminate Ho. }
    destruct (HA d HdA Hb Ho) as (Hm & Howed & Hpos).
    destruct Huser as (cu & Hcu & Hauto & Hp).
    assert (Hmin : JS.min_with
                     (JS.floor_mul_percent (Bank.transfer_amount t)
                        (garnish_percent cu)) (amount_owed d)
                   = Some (amount_owed d)).
    { rewrite Howed. unfold garnish_percent. rewrite Hp.
      apply (Hcov (now, t) d); auto. now left. }
    destruct (garnish_transfer_settles now u t bank db cu d rest Hcu Hauto Hout
                Hmin ltac:(lia) Hvault Hready) as (Hdb & Hbank & Hgd).
    set (r := garnish_transfer cfg now u t bank db) in *.
    assert (Inv' : RoundTrip db0 mine (fst (fst r))).
    { apply (garnish_round_trip cfg db0 mine now u t bank db Hk0 Hn0 Inv).
      fold r. now rewrite Hgd. }
    destruct (garnish_paid_off_frame cfg now u d
                (insert_payment db (mkPayment (debt_id_of d) (amount_owed d) garnish)))
      as (Hdebts & _ & _).
    rewrite <- Hdb in Hdebts. simpl debts in Hdebts.
    assert (Hrows' : settled_rows (debts dbA) (debts (fst (fst r)))).
    { exists (fun y => at_id debt_id_of (debt_id_of d) (set_paid 0 now) (g y)).
      split; [now rewrite Hdebts, Hg, map_map|].
      intros y. unfold at_id.
      destruct (Nat.eqb (debt_id_of (g y)) (debt_id_of d)).
      - right. exists now. destruct (Hgs y) as [->|[t' ->]]; reflexivity.
      - apply Hgs. }
    assert (Huser' : exists cu', user_by_address (fst (fst r)) u = Some cu'
                                 /\ auto_repay_enabled cu' = true
                                 /\ garnish_percentage cu' = garnish_percentage cu0).
    { destruct (keeps_settings_user
                  (insert_payment db (mkPayment (debt_id_of d) (amount_owed d) garnish))
                  (fst (fst r)) u cu) as (cu' & H1 & H2 & H3).
      - rewrite Hdb. apply garnish_paid_off_settings.
      - exact Hcu.
      - exists cu'. split; [exact H1|]. split; congruence. }
    destruct (IH (fst (fst r)) (snd (fst r)) Inv' Hrows' Huser' Hbank)
      as (I1 & I2 & I3).
    { intros t' y Ht'. apply Hcov. now right. }
    rewrite <- surjective_pairing in I1, I2, I3.
    split; [exact I1|]. split; [exact I2|]. rewrite I3.
    assert (Hlen : S (List.length (outstanding_debts u (fst (fst r))))
                   = List.length (outstanding_debts u db)).
    { rewrite !outstanding_debts_length, Hdebts.
      apply filter_paid_off; [exact (rt_keys _ _ _ Inv)|exact Hin| |].
      - now rewrite Hb, String.eqb_refl, Ho.
      - simpl. now rewrite andb_false_r. }
    rewrite Hout in Hlen. simpl in Hlen. simpl List.length. lia.
Qed.

(** The callback is its two parts run without a pause. *)
Lemma garnish_transfer_in_two_parts now u t bank db :
  garnish_transfer cfg now u t bank db
  = garnish_settle cfg now u t (garnish_plan u t db) bank db.
Proof.
  unfold garnish_transfer, garnish_plan, garnish_settle.
  destruct (user_by_address db u) as [cu|]; [|reflexivity].
  destruct (negb (auto_repay_enabled cu)); [reflexivity|].
  destruct (outstanding_debts u db); reflexivity.
Qed.

Lemma filter_all_false {A} (k : A -> bool) (l : list A) :
  (forall x, In x l -> k x = false) -> filter k l = [].
Proof.
  induction l as [|x l IH]; intros H; simpl; [reflexivity|].
  rewrite (H x) by now left. apply IH. intros y Hy. apply H. now right.
Qed.

(** C3, as the code has it, for repayments that run one at a time (each
    call of [repayDebt], each run of the garnishing callback, has
    finished before the next begins).
    Borrow a positive [R] within the available credit; at least one debt
    is created.
    - Manual: when the borrower then repays every debt created, one after
      the other, each with an amount that covers it, every one of them is
      [paid] and owes 0, no other debt has changed, and every vouch is
      the row it was before the borrow.
    - Garnishment: when the borrower has auto-repay on, a vault is
      configured, the session is ready, the borrower had no outstanding
      debt before, and at least as many transfers arrive as debts were
      created, the garnish of each covering any of them, every debt
      created is [paid] and owes 0, and every vouch is the row it was
      before the borrow.
    - A manual repayment of less than a created debt owes lowers what the
      debt owes by that amount and leaves every vouch as it is.
    - For every sequence of manual repayments and garnished transfers
      that pay on the debts created (overdue sweeps and default markings
      may come in between), the usage of each vouch is its usage before
      the borrow plus the *original* amounts of the created debts that
      are not yet paid: a partial payment releases nothing, a pay-off
      releases the original amount. *)
Theorem borrow_repay_round_trip now borrower R days db :
  vouch_keys_ok db -> debt_keys_ok db -> usage_nonneg db ->
  0 < R <= getAvailableCredit borrower db ->
  let b := JS.toLowerCase borrower in
  let db1 := fst (borrow now borrower R days db) in
  let created := borrow_debts (snd (borrow now borrower R days db)) in
  created <> []
  /\ (forall when pays,
        (forall x, In x created -> original_amount x <= pays x) ->
        let db2 := settle_manually cfg borrower when pays created db1 in
        debts db2 = debts db ++ map (fun x => set_paid 0 (when x) x) created
        /\ vouches db2 = vouches db)
  /\ (forall u ts bank,
        user_by_address db b = Some u -> auto_repay_enabled u = true ->
        truthy_string (VAULT_ADDRESS cfg) <> None ->
        Bank.isReady bank = true ->
        (forall y, In y (debts db) -> debt_borrower y = b ->
                   outstanding (status y) = false) ->
        (List.length created <= List.length ts)%nat ->
        (forall t x, In t ts -> In x created ->
                     covers (garnish_percent u) (snd t) x) ->
        let db2 := fst (garnish_in_turn cfg b ts (db1, bank)) in
        (forall x, In x created ->
           exists t, debt_by_id db2 (debt_id_of x) = Some (set_paid 0 t x))
        /\ vouches db2 = vouches db)
  /\ (forall later x a, In x created -> 0 < a < original_amount x ->
        let db2 := fst (repayDebt cfg later borrower (debt_id_of x) a db1) in
        debt_by_id db2 (debt_id_of x)
        = Some (set_amount_owed (original_amount x - a) x)
        /\ vouches db2 = vouches db1)
  /\ (forall ops, only_repays (among created) cfg ops db1 ->
        let db2 := run_ops cfg ops db1 in
        vouches db2 = map (holding (among created) db2) (vouches db)).
Proof.
  intros Hvk Hdk Hnn HR b db1 created.
  destruct (borrow_created now borrower R days db Hvk Hdk HR)
    as (Inv1 & Hd1 & Hfresh & Hold & Hmine & Hu & Hne).
  fold db1 created in Inv1, Hd1, Hfresh, Hold, Hmine, Hu, Hne. fold b in Hfresh.
  rewrite Forall_forall in Hfresh.
  pose proof (rt_keys _ _ _ Inv1) as Hkeys1.
  assert (Hndc : NoDup (map debt_id_of created)).
  { rewrite Hd1, map_app in Hkeys1. now apply NoDup_app_remove_l in Hkeys1. }
  assert (Hin1 : forall x, In x created -> In x (debts db1)).
  { intros x Hx. rewrite Hd1. apply in_or_app. now right. }
  assert (Hback : forall y, In y (debts db1) -> among created (debt_id_of y) = true ->
                            In y created).
  { intros y Hy Ha. rewrite Hd1 in Hy. apply in_app_or in Hy as [Hy|Hy]; [|exact Hy].
    rewrite (Hold y Hy) in Ha. discriminate. }
  split; [exact Hne|]. split; [|split; [|split]].
  - (* manual repayment of every debt created *)
    intros when pays Hpays db2.
    destruct (settle_manually_effect db (among created) borrower when pays Hvk Hnn
                created db1 Inv1 Hndc) as [Inv2 Hd2].
    { intros x Hx. destruct (Hfresh x Hx) as (Ho & Hs & Hb & _).
      split; [now apply Hin1|]. split; [now apply Hmine|]. split; [exact Hb|].
      split; [rewrite Hs; discriminate|]. rewrite Ho. now apply Hpays. }
    fold db2 in Inv2, Hd2. split.
    + rewrite Hd2, Hd1, map_app. f_equal.
      * rewrite <- (map_id (debts db)) at 2. apply map_ext_in.
        intros y Hy. now rewrite (Hold y Hy).
      * apply map_ext_in. intros y Hy. now rewrite (Hmine y Hy).
    + apply (round_trip_closed db (among created) db2 Inv2).
      intros x' Hx' Ha. rewrite Hd2 in Hx'.
      apply in_map_iff in Hx' as [y [Hy Hyin]].
      destruct (among created (debt_id_of y)) eqn:E; subst x'; [reflexivity|].
      congruence.
  - (* garnished transfers *)
    intros u ts bank Huser Hauto Hvault Hready Hnone Hlen Hcov db2.
    assert (HA : forall y, In y (debts db1) -> debt_borrower y = b ->
                   outstanding (status y) = true -> In y created).
    { intros y Hy Hb Ho. rewrite Hd1 in Hy.
      apply in_app_or in Hy as [Hy|Hy]; [|exact Hy].
      rewrite (Hnone y Hy Hb) in Ho. discriminate. }
    destruct (garnish_in_turn_effect db (among created) b u db1 Hvk Hnn Hvault)
      with (ts := ts) (db := db1) (bank := bank) as (I1 & [g [Hg Hgs]] & I3).
    { intros y Hy Hb Ho. pose proof (HA y Hy Hb Ho) as Hc.
      destruct (Hfresh y Hc) as (Howed & _ & _ & _ & _ & _ & Hpos).
      split; [now apply Hmine|]. split; [exact Howed|exact Hpos]. }
    { exact Inv1. }
    { exists (fun y => y). split; [now rewrite map_id|]. now left. }
    { exists u. split; [|split; [exact Hauto|reflexivity]].
      unfold user_by_address in *. now rewrite Hu. }
    { exact Hready. }
    { intros t y Ht Hy Hb Ho. apply Hcov; [exact Ht|]. now apply HA. }
    fold db2 in I1, Hg, I3.
    assert (Hnil : outstanding_debts b db2 = []).
    { apply length_zero_iff_nil. rewrite I3.
      assert (List.length (outstanding_debts b db1) <= List.length created)%nat.
      { rewrite outstanding_debts_length, Hd1, filter_app, length_app.
        rewrite (filter_all_false _ (debts db)).
        - simpl. apply filter_length_le.
        - intros y Hy. destruct (String.eqb_spec (debt_borrower y) b) as [E|E];
            [|reflexivity].
          simpl. now apply Hnone. }
      lia. }
    assert (Hpaid : forall x, In x created -> exists t, g x = set_paid 0 t x).
    { intros x Hx. destruct (Hgs x) as [E|E]; [|exact E]. exfalso.
      assert (Hout : In x (outstanding_debts b db2)).
      { unfold outstanding_debts. apply order_by_due_asc_In. apply filter_In.
        split.
        - rewrite Hg, <- E. apply in_map. now apply Hin1.
        - destruct (Hfresh x Hx) as (_ & Hs & Hb & _).
          rewrite Hb, String.eqb_refl, Hs. reflexivity. }
      now rewrite Hnil in Hout. }
    split.
    + intros x Hx. destruct (Hpaid x Hx) as [t Ht]. exists t.
      change (debt_id_of x) with (debt_id_of (set_paid 0 t x)).
      apply debt_by_id_In; [exact (rt_keys _ _ _ I1)|].
      rewrite Hg, <- Ht. apply in_map. now apply Hin1.
    + apply (round_trip_closed db (among created) db2 I1).
      intros x' Hx' Ha. rewrite Hg in Hx'.
      apply in_map_iff in Hx' as [y [Hy Hyin]].
      assert (Hid : debt_id_of x' = debt_id_of y).
      { subst x'. destruct (Hgs y) as [->|[t ->]]; reflexivity. }
      rewrite Hid in Ha.
      destruct (Hpaid y (Hback y Hyin Ha)) as [t Ht].
      subst x'. now rewrite Ht.
  - (* a partial repayment *)
    intros later x a Hx Ha db2.
    destruct (Hfresh x Hx) as (Howed & Hs & Hb & _).
    destruct (repayDebt_writes cfg later borrower (debt_id_of x) a db1 x
                Hkeys1 (Hin1 x Hx) eq_refl Hb)
      as (_ & Hdb & _).
    { rewrite Hs. discriminate. }
    fold db2 in Hdb.
    assert (Hlt : (amount_owed x <=? a) = false) by (apply Z.leb_gt; lia).
    rewrite Hlt in Hdb. simpl andb in Hdb. cbv iota in Hdb.
    replace (Z.min a (amount_owed x)) with a in Hdb by lia.
    rewrite Howed in Hdb. rewrite Hdb. split; [|reflexivity].
    set (scored := insert_payment db1 _).
    destruct (debt_by_id_update scored (debt_id_of x)
                (set_amount_owed (original_amount x - a)) x) as [Hrow _].
    + exact Hkeys1.
    + reflexivity.
    + apply (debt_by_id_In db1 x Hkeys1 (Hin1 x Hx)).
    + exact Hrow.
  - (* the invariant *)
    intros ops Hops db2.
    exact (rt_vouches _ _ _
             (run_ops_round_trip cfg db (among created) Hvk Hnn ops db1 Inv1 Hops)).
Qed.

End RoundTrip.

(** C3 fails on the code when repayments overlap.  Bob owes 100 on Alice's
    vouch, due in 30 days, and borrows 40 more for 14 days.  Two transfers
    of 100 arrive in quick succession; the run of the callback for the
    second reads the debts before the run for the first has written.
    Both pay 40 on the new debt, the only one paid on, which ends up
    paid; both release 40 of the vouch, whose usage ends at 60, not at
    the 100 of before the borrow. *)
Lemma overlapping_transfers_release_twice : ~ round_trip_restores_usage.
Proof.
  intros H.
  assert (Hf : map current_usage
                 (vouches (fst (fst (Server.garnish_overlapping no_contracts 1000
                                       (JS.toLowerCase bob) (incoming 100) (incoming 100)
                                       ready_bank
                                       (fst (Services.borrow 0 bob 40 (14 # 1)%Q
                                               long_loan_db))))))
               = map current_usage (vouches long_loan_db)).
  { apply (H no_contracts 0 bob 40 (14 # 1)%Q 1000 (incoming 100) (incoming 100)
             ready_bank long_loan_db).
    - split.
      + simpl. repeat constructor; simpl; intuition discriminate.
      + intros v [<-|[]]; simpl; lia.
    - split.
      + simpl. repeat constructor; simpl; intuition discriminate.
      + intros d [<-|[]]; simpl; lia.
    - intros w [<-|[]]; simpl; lia.
    - split; [lia|]. vm_compute. discriminate.
    - intros p Hp. vm_compute in Hp. destruct Hp as [<-|[<-|[]]]; right; reflexivity.
    - intros d Hd. vm_compute in Hd. destruct Hd as [<-|[]]. vm_compute. reflexivity. }
  vm_compute in Hf. discriminate Hf.
Qed.

(** The two transfers of that scenario, overlapping: two payments of 40
    are recorded on a debt of 40. *)
Example transfers_overlapping :
  let db1 := fst (Services.borrow 0 bob 40 (14 # 1)%Q long_loan_db) in
  let db2 := fst (fst (Server.garnish_overlapping no_contracts 1000 bob
                         (incoming 100) (incoming 100) ready_bank db1)) in
  map current_usage (vouches db1) = [140]
  /\ map current_usage (vouches db2) = [60]
  /\ map (fun d => (amount_owed d, status d)) (debts db2) = [(100, active); (0, paid)]
  /\ map (fun p => (payment_debt_id p, payment_amount p)) (payments db2)
     = [(2%nat, 40); (2%nat, 40)].
Proof. vm_compute. repeat split; reflexivity. Qed.

(** The same two transfers, the second arriving after the callback has
    finished with the first: the first pays the new debt off, the second
    pays on the older debt, and the vouch is back at 100. *)
Example transfers_one_at_a_time :
  let db1 := fst (Services.borrow 0 bob 40 (14 # 1)%Q long_loan_db) in
  let db2 := fst (garnish_in_turn no_contracts bob
                    [(1000, incoming 100); (1000, incoming 100)] (db1, ready_bank)) in
  map current_usage (vouches db1) = [140]
  /\ map current_usage (vouches db2) = [100]
  /\ map (fun d => (amount_owed d, status d)) (debts db2) = [(50, active); (0, paid)]
  /\ map (fun p => (payment_debt_id p, payment_amount p)) (payments db2)
     = [(2%nat, 40); (1%nat, 50)].
Proof. vm_compute. repeat split; reflexivity. Qed.

Lemma two_vouches_db_debt_keys : debt_keys_ok two_vouches_db.
Proof.
  split.
  - simpl. constructor.
  - intros d [].
Defined.

Lemma two_vouches_db_usage : usage_nonneg two_vouches_db.
Proof.
  intros w [<-|[<-|[]]]; simpl; lia.
Defined.

Lemma borrow_repay_round_trip_witness :
  let db1 := fst (Services.borrow 0 bob 2000 (14 # 1)%Q two_vouches_db) in
  let created :=
    Services.borrow_debts (snd (Services.borrow 0 bob 2000 (14 # 1)%Q two_vouches_db)) in
  let repaid :=
    settle_manually no_contracts bob (fun _ => 1000) original_amount created db1 in
  let garnished :=
    fst (garnish_in_turn no_contracts bob
           [(1000, incoming 5000); (2000, incoming 5000)] (db1, ready_bank)) in
  map current_usage (vouches db1) = [500; 1500]
  /\ vouches repaid = vouches two_vouches_db
  /\ map status (debts repaid) = [paid; paid]
  /\ vouches garnished = vouches two_vouches_db
  /\ map status (debts garnished) = [paid; paid].
Proof.
  intros db1 created repaid garnished.
  assert (HR : 0 < 2000 <= Services.getAvailableCredit bob two_vouches_db)
    by (split; [lia|vm_compute; discriminate]).
  destruct (borrow_repay_round_trip no_contracts 0 bob 2000 (14 # 1)%Q two_vouches_db
              two_vouches_db_keys two_vouches_db_debt_keys two_vouches_db_usage HR)
    as (_ & Hman & Hgar & _).
  split; [reflexivity|].
  destruct (Hman (fun _ => 1000) original_amount) as [_ Hv]; [intros x _; lia|].
  split; [exact Hv|]. split; [reflexivity|].
  destruct (Hgar (mkUser bob None 650 false (Some 50) true)
              [(1000, incoming 5000); (2000, incoming 5000)] ready_bank)
    as [_ Hv'].
  - reflexivity.
  - reflexivity.
  - discriminate.
  - reflexivity.
  - intros y [].
  - apply Nat.le_refl.
  - intros t x Ht Hx. vm_compute in Hx.
    destruct Ht as [<-|[<-|[]]]; destruct Hx as [<-|[<-|[]]]; reflexivity.
  - split; [exact Hv'|]. reflexivity.
Defined.

(** The usage of the two vouches along the way: the partial payments
    release nothing, each pay-off releases the original draw. *)
Example round_trip_usage :
  let db1 := fst (Services.borrow 0 bob 2000 (14 # 1)%Q two_vouches_db) in
  map current_usage (vouches db1) = [500; 1500]
  /\ map current_usage (vouches (run_ops no_contracts (firstn 3 repayments) db1))
     = [500; 1500]
  /\ map amount_owed (debts (run_ops no_contracts (firstn 3 repayments) db1))
     = [400; 500]
  /\ map current_usage (vouches (run_ops no_contracts (firstn 4 repayments) db1))
     = [500; 0]
  /\ map current_usage (vouches (run_ops no_contracts repayments db1)) = [0; 0]
  /\ map status (debts (run_ops no_contracts repayments db1)) = [paid; paid]
  /\ map amount_owed (debts (run_ops no_contracts repayments db1)) = [0; 0].
Proof. vm_compute. repeat split; reflexivity. Qed.
